(** * A red-black tree map with parent pointers (sjtu::map, src/map.hpp)

    The container is a heap of nodes linked by [left], [right] and [parent]
    pointers. The model keeps the heap explicit: a node pointer is an
    optional location ([None] is [nullptr]), the heap is a finite map from
    locations to node records, and every member function is a computation
    in a state-and-error monad over the heap and the fields of the map
    objects. Loops and recursive functions take a budget of iterations.

    The file has four parts: the model of the source, function by function;
    the tree a heap represents, with contexts (zippers) for the position of
    a node in it, and the notions the properties are stated with; the
    specifications of the member functions, proved by running the model on
    a represented tree; and the properties of the map interface, each with
    an instance on a concrete map. *)

From stdpp Require Import gmap list sorting.
From Stdlib Require Import ZArith Lia.

Local Open Scope Z_scope.

(** ** Pointers, exceptions and outcomes *)

Definition loc := positive.
Abbreviation ptr := (option loc).

(** Addresses of map objects. *)
Definition addr := positive.

Definition ptr_eqb (p q : ptr) : bool := bool_decide (p = q).

Inductive exn := invalid_iterator | index_out_of_bound.

(** The outcome of running a member function: normal return, a C++
    exception (the state at the throw is kept), undefined behaviour (a null
    or dangling pointer was dereferenced), or the loop budget of the model
    ran out. *)
Inductive res (S A : Type) :=
| Ok (a : A) (s : S)
| Throw (e : exn) (s : S)
| Fault
| NoFuel.
Arguments Ok {S A} a s.
Arguments Throw {S A} e s.
Arguments Fault {S A}.
Arguments NoFuel {S A}.

(** The state-and-error monad over a memory of type [S]. *)
Definition M (S A : Type) : Type := S → res S A.

Definition ret {S A} (a : A) : M S A := fun st => Ok a st.

Definition bind {S A B} (m : M S A) (k : A → M S B) : M S B :=
  fun st =>
    match m st with
    | Ok a st' => k a st'
    | Throw e st' => Throw e st'
    | Fault => Fault
    | NoFuel => NoFuel
    end.

Definition throw {S A} (e : exn) : M S A := fun st => Throw e st.
Definition fault {S A} : M S A := fun _ => Fault.
Definition out_of_fuel {S A} : M S A := fun _ => NoFuel.

Notation "'let*' x := m 'in' k" := (bind m (fun x => k))
  (at level 10, x pattern, m at level 100, k at level 200).
Notation "m ;; k" := (bind m (fun _ => k))
  (at level 100, k at level 200, right associativity).

(** [size_t] is a 64-bit unsigned integer. *)
Definition size_max : Z := 2 ^ 64.
Definition wrap (z : Z) : Z := z mod size_max.

Section Map.

Context {Key T : Type}.
(** [Compare comp], assumed to be a pure function of its two arguments. *)
Variable comp : Key → Key → bool.
(** The value-initialised [T()]. *)
Variable T_default : T.
(** Budget given to every loop and recursion. *)
Variable fuel : nat.

(** ** The data model *)

Record Node := mkNode {
  data : Key * T;
  left : ptr;
  right : ptr;
  parent : ptr;
  color : bool  (* true for red, false for black *)
}.

Definition new_Node (val : Key * T) (p : ptr) : Node :=
  {| data := val; left := None; right := None; parent := p; color := true |}.

(** The members of a map object ([comp] is the section's comparator). *)
Record map_obj := mkMap {
  root : ptr;
  end_node : ptr;  (* sentinel node for end(), always null *)
  map_size : Z
}.

(** The memory: the node heap and the live map objects. *)
Record state := mkState {
  heap : gmap loc Node;
  objs : gmap addr map_obj
}.

(** *** Reading and writing through a pointer *)

Definition load (p : ptr) : M state Node := fun st =>
  match p with
  | None => Fault
  | Some l => match heap st !! l with
              | None => Fault
              | Some n => Ok n st
              end
  end.

Definition set_heap (h : gmap loc Node) (st : state) : state :=
  {| heap := h; objs := objs st |}.
Definition set_objs (o : gmap addr map_obj) (st : state) : state :=
  {| heap := heap st; objs := o |}.

Definition modify (p : ptr) (f : Node → Node) : M state unit := fun st =>
  match p with
  | None => Fault
  | Some l => match heap st !! l with
              | None => Fault
              | Some n => Ok tt (set_heap (<[l := f n]> (heap st)) st)
              end
  end.

Definition with_left (q : ptr) (n : Node) : Node :=
  {| data := data n; left := q; right := right n; parent := parent n; color := color n |}.
Definition with_right (q : ptr) (n : Node) : Node :=
  {| data := data n; left := left n; right := q; parent := parent n; color := color n |}.
Definition with_parent (q : ptr) (n : Node) : Node :=
  {| data := data n; left := left n; right := right n; parent := q; color := color n |}.
Definition with_color (c : bool) (n : Node) : Node :=
  {| data := data n; left := left n; right := right n; parent := parent n; color := c |}.
Definition with_value (v : T) (n : Node) : Node :=
  {| data := (fst (data n), v); left := left n; right := right n; parent := parent n;
     color := color n |}.

Definition get_left (p : ptr) : M state ptr := let* n := load p in ret (left n).
Definition get_right (p : ptr) : M state ptr := let* n := load p in ret (right n).
Definition get_parent (p : ptr) : M state ptr := let* n := load p in ret (parent n).
Definition get_color (p : ptr) : M state bool := let* n := load p in ret (color n).
Definition get_key (p : ptr) : M state Key := let* n := load p in ret (fst (data n)).
Definition get_value (p : ptr) : M state T := let* n := load p in ret (snd (data n)).

Definition set_left (p q : ptr) : M state unit := modify p (with_left q).
Definition set_right (p q : ptr) : M state unit := modify p (with_right q).
Definition set_parent (p q : ptr) : M state unit := modify p (with_parent q).
Definition set_color (p : ptr) (c : bool) : M state unit := modify p (with_color c).
Definition set_value (p : ptr) (v : T) : M state unit := modify p (with_value v).

(** Members of the map object at address [this]. *)
Definition load_map (this : addr) : M state map_obj := fun st =>
  match objs st !! this with
  | None => Fault
  | Some o => Ok o st
  end.
Definition modify_map (this : addr) (f : map_obj → map_obj) : M state unit := fun st =>
  match objs st !! this with
  | None => Fault
  | Some o => Ok tt (set_objs (<[this := f o]> (objs st)) st)
  end.
Definition with_root (p : ptr) (o : map_obj) : map_obj :=
  {| root := p; end_node := end_node o; map_size := map_size o |}.
Definition with_size (n : Z) (o : map_obj) : map_obj :=
  {| root := root o; end_node := end_node o; map_size := n |}.

Definition get_root (this : addr) : M state ptr := let* o := load_map this in ret (root o).
Definition set_root (this : addr) (p : ptr) : M state unit := modify_map this (with_root p).
Definition get_size (this : addr) : M state Z := let* o := load_map this in ret (map_size o).
Definition set_size (this : addr) (n : Z) : M state unit := modify_map this (with_size n).

(** [new Node(val, p)]: a location that is not in use. *)
Definition alloc (n : Node) : M state ptr := fun st =>
  let l := fresh (dom (heap st)) in
  Ok (Some l) (set_heap (<[l := n]> (heap st)) st).

(** [delete p] for a non-null [p]. *)
Definition free (p : ptr) : M state unit := fun st =>
  match p with
  | None => Ok tt st
  | Some l => match heap st !! l with
              | None => Fault
              | Some _ => Ok tt (set_heap (delete l (heap st)) st)
              end
  end.

(** ** Helper functions of the tree (map.hpp 45-300) *)

Definition leftRotate (this : addr) (x : ptr) : M state unit :=
  let* y := get_right x in
  let* yl := get_left y in
  set_right x yl;;
  let* yl := get_left y in
  match yl with
  | Some _ => set_parent yl x
  | None => ret tt
  end;;
  let* xp := get_parent x in
  set_parent y xp;;
  let* xp := get_parent x in
  match xp with
  | None => set_root this y
  | Some _ =>
      let* xpl := get_left xp in
      if ptr_eqb x xpl then set_left xp y else set_right xp y
  end;;
  set_left y x;;
  set_parent x y.

Definition rightRotate (this : addr) (x : ptr) : M state unit :=
  let* y := get_left x in
  let* yr := get_right y in
  set_left x yr;;
  let* yr := get_right y in
  match yr with
  | Some _ => set_parent yr x
  | None => ret tt
  end;;
  let* xp := get_parent x in
  set_parent y xp;;
  let* xp := get_parent x in
  match xp with
  | None => set_root this y
  | Some _ =>
      let* xpr := get_right xp in
      if ptr_eqb x xpr then set_right xp y else set_left xp y
  end;;
  set_right y x;;
  set_parent x y.

(** [y != nullptr && y->color] *)
Definition is_red (y : ptr) : M state bool :=
  match y with
  | None => ret false
  | Some _ => get_color y
  end.

(** [y == nullptr || !y->color] *)
Definition is_black (y : ptr) : M state bool :=
  match y with
  | None => ret true
  | Some _ => let* c := get_color y in ret (negb c)
  end.

Definition get_grandparent (z : ptr) : M state ptr :=
  let* zp := get_parent z in get_parent zp.

(** The [while] loop of [fixInsert]; it returns the final [z]. *)
Fixpoint fixInsert_loop (this : addr) (n : nat) (z : ptr) : M state ptr :=
  match n with
  | O => out_of_fuel
  | S n =>
    let* zp := get_parent z in
    let* continue := is_red zp in
    if negb continue then ret z else
    let* zpp := get_parent zp in
    let* zppl := get_left zpp in
    if ptr_eqb zp zppl then
      let* y := get_right zpp in
      let* yred := is_red y in
      if yred then
        set_color zp false;;
        set_color y false;;
        let* zpp := get_grandparent z in
        set_color zpp true;;
        let* zpp := get_grandparent z in
        fixInsert_loop this n zpp
      else
        let* zpr := get_right zp in
        let* z := (if ptr_eqb z zpr then leftRotate this zp;; ret zp else ret z) in
        let* zp := get_parent z in
        set_color zp false;;
        let* zpp := get_grandparent z in
        set_color zpp true;;
        let* zpp := get_grandparent z in
        rightRotate this zpp;;
        fixInsert_loop this n z
    else
      let* y := get_left zpp in
      let* yred := is_red y in
      if yred then
        set_color zp false;;
        set_color y false;;
        let* zpp := get_grandparent z in
        set_color zpp true;;
        let* zpp := get_grandparent z in
        fixInsert_loop this n zpp
      else
        let* zpl := get_left zp in
        let* z := (if ptr_eqb z zpl then rightRotate this zp;; ret zp else ret z) in
        let* zp := get_parent z in
        set_color zp false;;
        let* zpp := get_grandparent z in
        set_color zpp true;;
        let* zpp := get_grandparent z in
        leftRotate this zpp;;
        fixInsert_loop this n z
  end.

Definition fixInsert (this : addr) (z : ptr) : M state unit :=
  fixInsert_loop this fuel z;;
  let* r := get_root this in
  set_color r false.

Definition transplant (this : addr) (u v : ptr) : M state unit :=
  let* up := get_parent u in
  match up with
  | None => set_root this v
  | Some _ =>
      let* upl := get_left up in
      if ptr_eqb u upl then set_left up v else set_right up v
  end;;
  match v with
  | Some _ => let* up := get_parent u in set_parent v up
  | None => ret tt
  end.

Fixpoint minimum_loop (n : nat) (x : ptr) : M state ptr :=
  match n with
  | O => out_of_fuel
  | S n =>
    let* xl := get_left x in
    match xl with
    | Some _ => minimum_loop n xl
    | None => ret x
    end
  end.

Definition minimum (x : ptr) : M state ptr := minimum_loop fuel x.

Fixpoint maximum_loop (n : nat) (x : ptr) : M state ptr :=
  match n with
  | O => out_of_fuel
  | S n =>
    let* xr := get_right x in
    match xr with
    | Some _ => maximum_loop n xr
    | None => ret x
    end
  end.

Definition maximum (x : ptr) : M state ptr :=
  match x with
  | None => ret None
  | Some _ => maximum_loop fuel x
  end.

(** The [while] loop of [fixDelete]; it returns the final [x]. *)
Fixpoint fixDelete_loop (this : addr) (n : nat) (x : ptr) : M state ptr :=
  match n with
  | O => out_of_fuel
  | S n =>
    let* r := get_root this in
    if ptr_eqb x r then ret x else
    let* xblack := is_black x in
    if negb xblack then ret x else
    let* xp := get_parent x in
    let* xpl := get_left xp in
    if ptr_eqb x xpl then
      let* w := get_right xp in
      let* wc := get_color w in
      let* w :=
        (if wc then
           set_color w false;;
           let* xp := get_parent x in
           set_color xp true;;
           let* xp := get_parent x in
           leftRotate this xp;;
           let* xp := get_parent x in
           get_right xp
         else ret w) in
      let* wl := get_left w in
      let* wlb := is_black wl in
      let* wrb := (if wlb then let* wr := get_right w in is_black wr else ret false) in
      if wlb && wrb then
        set_color w true;;
        let* xp := get_parent x in
        fixDelete_loop this n xp
      else
        let* wr := get_right w in
        let* wrb := is_black wr in
        let* w :=
          (if wrb then
             let* wl := get_left w in
             match wl with
             | Some _ => set_color wl false
             | None => ret tt
             end;;
             set_color w true;;
             rightRotate this w;;
             let* xp := get_parent x in
             get_right xp
           else ret w) in
        let* xp := get_parent x in
        let* xpc := get_color xp in
        set_color w xpc;;
        let* xp := get_parent x in
        set_color xp false;;
        let* wr := get_right w in
        match wr with
        | Some _ => set_color wr false
        | None => ret tt
        end;;
        let* xp := get_parent x in
        leftRotate this xp;;
        let* r := get_root this in
        fixDelete_loop this n r
    else
      let* w := get_left xp in
      let* wc := get_color w in
      let* w :=
        (if wc then
           set_color w false;;
           let* xp := get_parent x in
           set_color xp true;;
           let* xp := get_parent x in
           rightRotate this xp;;
           let* xp := get_parent x in
           get_left xp
         else ret w) in
      let* wr := get_right w in
      let* wrb := is_black wr in
      let* wlb := (if wrb then let* wl := get_left w in is_black wl else ret false) in
      if wrb && wlb then
        set_color w true;;
        let* xp := get_parent x in
        fixDelete_loop this n xp
      else
        let* wl := get_left w in
        let* wlb := is_black wl in
        let* w :=
          (if wlb then
             let* wr := get_right w in
             match wr with
             | Some _ => set_color wr false
             | None => ret tt
             end;;
             set_color w true;;
             leftRotate this w;;
             let* xp := get_parent x in
             get_left xp
           else ret w) in
        let* xp := get_parent x in
        let* xpc := get_color xp in
        set_color w xpc;;
        let* xp := get_parent x in
        set_color xp false;;
        let* wl := get_left w in
        match wl with
        | Some _ => set_color wl false
        | None => ret tt
        end;;
        let* xp := get_parent x in
        rightRotate this xp;;
        let* r := get_root this in
        fixDelete_loop this n r
  end.

Definition fixDelete (this : addr) (x : ptr) : M state unit :=
  let* x := fixDelete_loop this fuel x in
  match x with
  | Some _ => set_color x false
  | None => ret tt
  end.

(** [destroy]: post-order release of a subtree. *)
Fixpoint destroy_rec (n : nat) (node : ptr) : M state unit :=
  match n with
  | O => out_of_fuel
  | S n =>
    match node with
    | None => ret tt
    | Some _ =>
        let* l := get_left node in
        destroy_rec n l;;
        let* r := get_right node in
        destroy_rec n r;;
        free node
    end
  end.

Definition destroy (node : ptr) : M state unit := destroy_rec fuel node.

(** [copy]: clone a subtree below [parent]. *)
Fixpoint copy_rec (n : nat) (node parent : ptr) : M state ptr :=
  match n with
  | O => out_of_fuel
  | S n =>
    match node with
    | None => ret None
    | Some _ =>
        let* nd := load node in
        let* new_node := alloc (new_Node (data nd) parent) in
        let* c := get_color node in
        set_color new_node c;;
        let* l := get_left node in
        let* cl := copy_rec n l new_node in
        set_left new_node cl;;
        let* r := get_right node in
        let* cr := copy_rec n r new_node in
        set_right new_node cr;;
        ret new_node
    end
  end.

Definition copy (node parent : ptr) : M state ptr := copy_rec fuel node parent.

Fixpoint findNode_loop (n : nat) (key : Key) (current : ptr) : M state ptr :=
  match n with
  | O => out_of_fuel
  | S n =>
    match current with
    | None => ret None
    | Some _ =>
        let* k := get_key current in
        if comp key k then
          let* l := get_left current in findNode_loop n key l
        else
          let* k := get_key current in
          if comp k key then
            let* r := get_right current in findNode_loop n key r
          else ret current
    end
  end.

Definition findNode (this : addr) (key : Key) : M state ptr :=
  let* r := get_root this in
  findNode_loop fuel key r.

(** The descent of [insertNode]: [inl x] when the key already exists at
    [x], [inr y] with the last node visited otherwise. *)
Fixpoint insertNode_loop (n : nat) (key : Key) (y x : ptr) : M state (ptr + ptr) :=
  match n with
  | O => out_of_fuel
  | S n =>
    match x with
    | None => ret (inr y)
    | Some _ =>
        let* k := get_key x in
        if comp key k then
          let* l := get_left x in insertNode_loop n key x l
        else
          let* k := get_key x in
          if comp k key then
            let* r := get_right x in insertNode_loop n key x r
          else ret (inl x)
    end
  end.

Definition incr_size (this : addr) : M state unit :=
  let* n := get_size this in set_size this (wrap (n + 1)).
Definition decr_size (this : addr) : M state unit :=
  let* n := get_size this in set_size this (wrap (n - 1)).

Definition insertNode (this : addr) (value : Key * T) : M state ptr :=
  let* r := get_root this in
  let* found := insertNode_loop fuel (fst value) None r in
  match found with
  | inl x => ret x  (* key already exists *)
  | inr y =>
      let* z := alloc (new_Node value y) in
      match y with
      | None => set_root this z
      | Some _ =>
          let* k := get_key y in
          if comp (fst value) k then set_left y z else set_right y z
      end;;
      fixInsert this z;;
      incr_size this;;
      ret z
  end.

(** Lines 267-292 of [deleteNode]: unlink [z] from the tree. The result is
    the pair ([y_original_color], [x]). *)
Definition deleteNode_unlink (this : addr) (z : ptr) : M state (bool * ptr) :=
  let* zc := get_color z in
  let* zl := get_left z in
  match zl with
  | None =>
      let* x := get_right z in
      let* zr := get_right z in
      transplant this z zr;;
      ret (zc, x)
  | Some _ =>
      let* zr := get_right z in
      match zr with
      | None =>
          let* x := get_left z in
          let* zl := get_left z in
          transplant this z zl;;
          ret (zc, x)
      | Some _ =>
          let* y := minimum zr in
          let* y_original_color := get_color y in
          let* x := get_right y in
          let* yp := get_parent y in
          (if ptr_eqb yp z then
             match x with
             | Some _ => set_parent x y
             | None => ret tt
             end
           else
             let* yr := get_right y in
             transplant this y yr;;
             let* zr := get_right z in
             set_right y zr;;
             let* yr := get_right y in
             set_parent yr y);;
          transplant this z y;;
          let* zl := get_left z in
          set_left y zl;;
          let* yl := get_left y in
          set_parent yl y;;
          let* zc := get_color z in
          set_color y zc;;
          ret (y_original_color, x)
      end
  end.

(** Line 294: [!y_original_color && x != nullptr]. *)
Definition runs_fixDelete (y_original_color : bool) (x : ptr) : bool :=
  negb y_original_color && bool_decide (x ≠ None).

Definition deleteNode (this : addr) (z : ptr) : M state unit :=
  match z with
  | None => ret tt
  | Some _ =>
      let* yx := deleteNode_unlink this z in
      let y_original_color := fst yx in
      let x := snd yx in
      (if runs_fixDelete y_original_color x then fixDelete this x else ret tt);;
      free z;;
      decr_size this
  end.

(** ** Iterators (map.hpp 311-521)

    [iterator] and [const_iterator] have the same fields and the same
    code for stepping, so one record and one pair of stepping functions
    stand for both. *)

Record iterator := mkIter {
  current : ptr;
  container : option addr
}.

(** [while (parent != nullptr && current == parent->right)] *)
Fixpoint climb_right (n : nat) (cur par : ptr) : M state ptr :=
  match n with
  | O => out_of_fuel
  | S n =>
    match par with
    | None => ret par
    | Some _ =>
        let* pr := get_right par in
        if ptr_eqb cur pr then
          let* pp := get_parent par in climb_right n par pp
        else ret par
    end
  end.

(** [while (parent != nullptr && current == parent->left)] *)
Fixpoint climb_left (n : nat) (cur par : ptr) : M state ptr :=
  match n with
  | O => out_of_fuel
  | S n =>
    match par with
    | None => ret par
    | Some _ =>
        let* pl := get_left par in
        if ptr_eqb cur pl then
          let* pp := get_parent par in climb_left n par pp
        else ret par
    end
  end.

(** [++it] *)
Definition iter_incr (it : iterator) : M state iterator :=
  match current it with
  | None => throw invalid_iterator
  | Some _ =>
      let* r := get_right (current it) in
      match r with
      | Some _ =>
          let* m := minimum r in
          ret {| current := m; container := container it |}
      | None =>
          let* par := get_parent (current it) in
          let* c := climb_right fuel (current it) par in
          ret {| current := c; container := container it |}
      end
  end.

Definition container_root (c : option addr) : M state ptr :=
  match c with
  | None => fault
  | Some a => get_root a
  end.

(** [--it]: the iterator after a call that returns. For the iterator after
    a call that throws see [iter_decr_obj]. *)
Definition iter_decr (it : iterator) : M state iterator :=
  match current it with
  | None =>
      (* --end() should give the last element *)
      let* r := container_root (container it) in
      match r with
      | None => throw invalid_iterator
      | Some _ =>
          let* r := container_root (container it) in
          let* m := maximum r in
          ret {| current := m; container := container it |}
      end
  | Some _ =>
      let* l := get_left (current it) in
      let* c :=
        match l with
        | Some _ => maximum l
        | None =>
            let* par := get_parent (current it) in
            climb_left fuel (current it) par
        end in
      match c with
      | None => throw invalid_iterator
      | Some _ => ret {| current := c; container := container it |}
      end
  end.

(** [*it]: the node whose [data] the reference denotes. *)
Definition iter_deref (it : iterator) : M state ptr :=
  match current it with
  | None => throw invalid_iterator
  | Some _ => ret (current it)
  end.

Definition iter_eqb (a b : iterator) : bool :=
  ptr_eqb (current a) (current b) && bool_decide (container a = container b).

(** [operator!=] *)
Definition iter_neqb (a b : iterator) : bool := negb (iter_eqb a b).

(** [it->]: the node whose [data] the pointer denotes. *)
Definition iter_arrow (it : iterator) : M state ptr :=
  match current it with
  | None => throw invalid_iterator
  | Some _ => ret (current it)
  end.

(** [iterator()] *)
Definition iter_default : iterator := {| current := None; container := None |}.

(** [it++]: the iterator returned, and [it] after the call. *)
Definition iter_post_incr (it : iterator) : M state (iterator * iterator) :=
  let temp := it in
  let* it := iter_incr it in
  ret (temp, it).

(** [it--]: the iterator returned, and [it] after the call. *)
Definition iter_post_decr (it : iterator) : M state (iterator * iterator) :=
  let temp := it in
  let* it := iter_decr it in
  ret (temp, it).

(** *** The iterator as an object (map.hpp 326-386)

    [++] and [--] assign to the [current] member of the iterator they are
    called on. [iter_incr] and [iter_decr] above give the iterator after a
    call that returns; their outcome [Throw] holds the nodes and the map
    objects only. [operator--] assigns [current] (lines 368, 373 and 380)
    before it tests it and throws (line 384), so that a caller who catches
    the exception sees the iterator changed. The functions below run on
    the memory together with the iterator object, and an exception shows
    the iterator as the throw leaves it. The loops assign [current] on
    the way; they hold no [throw], so only their last assignment is
    kept. *)

(** A function of the container, run next to the iterator object. *)
Definition on_memory {A} (m : M state A) : M (state * iterator) A := fun s =>
  match m (fst s) with
  | Ok a st' => Ok a (st', snd s)
  | Throw e st' => Throw e (st', snd s)
  | Fault => Fault
  | NoFuel => NoFuel
  end.

(** [*this], [this->current], [this->container] and [current = p]. *)
Definition get_self : M (state * iterator) iterator := fun s => Ok (snd s) s.
Definition get_current : M (state * iterator) ptr := fun s => Ok (current (snd s)) s.
Definition get_container : M (state * iterator) (option addr) := fun s =>
  Ok (container (snd s)) s.
Definition set_current (p : ptr) : M (state * iterator) unit := fun s =>
  Ok tt (fst s, {| current := p; container := container (snd s) |}).

(** [++it], in place. *)
Definition iter_incr_obj : M (state * iterator) unit :=
  let* cur := get_current in
  match cur with
  | None => throw invalid_iterator
  | Some _ =>
      let* r := on_memory (get_right cur) in
      match r with
      | Some _ =>
          let* m := on_memory (minimum r) in
          set_current m
      | None =>
          let* par := on_memory (get_parent cur) in
          let* c := on_memory (climb_right fuel cur par) in
          set_current c
      end
  end.

(** [--it], in place. *)
Definition iter_decr_obj : M (state * iterator) unit :=
  let* cur := get_current in
  match cur with
  | None =>
      (* --end() should give the last element *)
      let* cont := get_container in
      let* r := on_memory (container_root cont) in
      match r with
      | None => throw invalid_iterator
      | Some _ =>
          let* r := on_memory (container_root cont) in
          let* m := on_memory (maximum r) in
          set_current m
      end
  | Some _ =>
      let* l := on_memory (get_left cur) in
      match l with
      | Some _ =>
          let* m := on_memory (maximum l) in
          set_current m
      | None =>
          let* par := on_memory (get_parent cur) in
          let* c := on_memory (climb_left fuel cur par) in
          set_current c
      end;;
      (* If we reached nullptr after decrementing from the first element, throw *)
      let* cur := get_current in
      match cur with
      | None => throw invalid_iterator
      | Some _ => ret tt
      end
  end.

(** [it++], in place: the result is the iterator returned. *)
Definition iter_post_incr_obj : M (state * iterator) iterator :=
  let* temp := get_self in
  iter_incr_obj;;
  ret temp.

(** [it--], in place: the result is the iterator returned. *)
Definition iter_post_decr_obj : M (state * iterator) iterator :=
  let* temp := get_self in
  iter_decr_obj;;
  ret temp.

(** ** The public interface (map.hpp 527-700)

    A reference [T &] to [node->data.second] is modelled by the pointer to
    the node. *)

Definition map_ctor (this : addr) : M state unit := fun st =>
  Ok tt (set_objs (<[this := {| root := None; end_node := None; map_size := 0 |}]> (objs st)) st).

Definition map_copy_ctor (this other : addr) : M state unit :=
  let* sz := get_size other in
  let* r := get_root other in
  let* c := copy r None in
  fun st =>
    Ok tt (set_objs (<[this := {| root := c; end_node := None; map_size := sz |}]> (objs st)) st).

(** [operator=]; the result is the address of [*this]. *)
Definition map_assign (this other : addr) : M state addr :=
  if bool_decide (this = other) then ret this else
  let* r := get_root this in
  destroy r;;
  let* r := get_root other in
  let* c := copy r None in
  set_root this c;;
  let* sz := get_size other in
  set_size this sz;;
  ret this.

Definition map_dtor (this : addr) : M state unit :=
  let* r := get_root this in
  destroy r;;
  fun st => Ok tt (set_objs (delete this (objs st)) st).

Definition at_ (this : addr) (key : Key) : M state ptr :=
  let* node := findNode this key in
  match node with
  | None => throw index_out_of_bound
  | Some _ => ret node
  end.

(** [operator[]] *)
Definition subscript (this : addr) (key : Key) : M state ptr :=
  let* node := findNode this key in
  match node with
  | None => insertNode this (key, T_default)
  | Some _ => ret node
  end.

(** [operator[] const] *)
Definition subscript_const (this : addr) (key : Key) : M state ptr := at_ this key.

Definition begin_ (this : addr) : M state iterator :=
  let* r := get_root this in
  match r with
  | None => ret {| current := None; container := Some this |}
  | Some _ =>
      let* r := get_root this in
      let* m := minimum r in
      ret {| current := m; container := Some this |}
  end.

Definition end_ (this : addr) : M state iterator :=
  ret {| current := None; container := Some this |}.

Definition empty (this : addr) : M state bool :=
  let* n := get_size this in ret (n =? 0).

Definition size (this : addr) : M state Z := get_size this.

Definition clear (this : addr) : M state unit :=
  let* r := get_root this in
  destroy r;;
  set_root this None;;
  set_size this 0.

Definition insert (this : addr) (value : Key * T) : M state (iterator * bool) :=
  let* node := findNode this (fst value) in
  match node with
  | Some _ => ret ({| current := node; container := Some this |}, false)
  | None =>
      let* node := insertNode this value in
      ret ({| current := node; container := Some this |}, true)
  end.

Definition erase (this : addr) (pos : iterator) : M state unit :=
  if bool_decide (container pos ≠ Some this) || bool_decide (current pos = None)
  then throw invalid_iterator
  else deleteNode this (current pos).

Definition count (this : addr) (key : Key) : M state Z :=
  let* node := findNode this key in
  match node with
  | Some _ => ret 1
  | None => ret 0
  end.

Definition find (this : addr) (key : Key) : M state iterator :=
  let* node := findNode this key in
  match node with
  | None => end_ this
  | Some _ => ret {| current := node; container := Some this |}
  end.

End Map.

Arguments Node : clear implicits.
Arguments state : clear implicits.

(** A property of the outcome of a run that returns normally. *)
Definition post {S A} (r : res S A) (Q : A → S → Prop) : Prop :=
  match r with
  | Ok a s => Q a s
  | _ => True
  end.

(** Two lists of locations have no element in common. *)
Definition ldisj (A B : list loc) : Prop := ∀ x, x ∈ A → x ∉ B.

(** A computation that raises no exception, whatever the memory. *)
Definition no_throw {S A} (m : M S A) : Prop := ∀ s e s', m s ≠ Throw e s'.

(** A computation that raises no exception but [x], and raises it in the
    memory it was started in. *)
Definition throws_only {S A} (x : exn) (m : M S A) : Prop :=
  ∀ s e s', m s = Throw e s' → e = x ∧ s' = s.

(** A computation that returns in the memory it was started in. *)
Definition read_only {S A} (m : M S A) : Prop := ∀ s a s', m s = Ok a s' → s' = s.

Section Abstraction.

Context {Key T : Type}.
Variable comp : Key → Key → bool.

Implicit Types (h : gmap loc (Node Key T)) (st : state Key T).

(** ** The tree a heap represents

    A [tree] records, for every node of a well-formed heap tree, its
    location, colour and entry. [Rep h par t] says that the heap holds
    exactly the node records of [t], linked by child and parent pointers,
    below the parent pointer [par]. *)

Inductive tree :=
| Leaf
| Nd (l : loc) (c : bool) (kv : Key * T) (a b : tree).

Definition ptr_of (t : tree) : ptr :=
  match t with
  | Leaf => None
  | Nd l _ _ _ _ => Some l
  end.

Fixpoint Rep h (par : ptr) (t : tree) : Prop :=
  match t with
  | Leaf => True
  | Nd l c kv a b =>
      h !! l = Some {| data := kv; left := ptr_of a; right := ptr_of b;
                       parent := par; color := c |}
      ∧ Rep h (Some l) a ∧ Rep h (Some l) b
  end.

(** In-order listing of the nodes: location and entry. *)
Fixpoint nodes (t : tree) : list (loc * (Key * T)) :=
  match t with
  | Leaf => []
  | Nd l _ kv a b => nodes a ++ (l, kv) :: nodes b
  end.

Definition locs (t : tree) : list loc := (nodes t).*1.
Definition entries (t : tree) : list (Key * T) := (nodes t).*2.
Definition keys (t : tree) : list Key := (entries t).*1.

Fixpoint height (t : tree) : nat :=
  match t with
  | Leaf => O
  | Nd _ _ _ a b => S (Nat.max (height a) (height b))
  end.

(** *** Tree contexts

    A context is the path from a subtree up to the root: a list of frames,
    innermost first, each holding the ancestor node and the sibling
    subtree on the other side. *)

Inductive frame :=
| FL (l : loc) (c : bool) (kv : Key * T) (r : tree)  (* the hole is the left child *)
| FR (l : loc) (c : bool) (kv : Key * T) (a : tree). (* the hole is the right child *)

Definition frame_loc (F : frame) : loc :=
  match F with
  | FL l _ _ _ => l
  | FR l _ _ _ => l
  end.

Definition fill (F : frame) (s : tree) : tree :=
  match F with
  | FL l c kv r => Nd l c kv s r
  | FR l c kv a => Nd l c kv a s
  end.

Fixpoint plug (C : list frame) (s : tree) : tree :=
  match C with
  | [] => s
  | F :: C' => plug C' (fill F s)
  end.

(** The parent pointer of the subtree in the hole. *)
Definition ctx_parent (par : ptr) (C : list frame) : ptr :=
  match C with
  | [] => par
  | F :: _ => Some (frame_loc F)
  end.

(** The root pointer of [plug C s] when [p] points to [s]. *)
Fixpoint ctx_top (C : list frame) (p : ptr) : ptr :=
  match C with
  | [] => p
  | F :: C' => ctx_top C' (Some (frame_loc F))
  end.

(** The heap holds the ancestors of a hole whose child pointer is [p]. *)
Fixpoint RepC h (par : ptr) (C : list frame) (p : ptr) : Prop :=
  match C with
  | [] => True
  | F :: C' =>
      match F with
      | FL l c kv r =>
          h !! l = Some {| data := kv; left := p; right := ptr_of r;
                           parent := ctx_parent par C'; color := c |}
          ∧ Rep h (Some l) r
      | FR l c kv a =>
          h !! l = Some {| data := kv; left := ptr_of a; right := p;
                           parent := ctx_parent par C'; color := c |}
          ∧ Rep h (Some l) a
      end ∧ RepC h par C' (Some (frame_loc F))
  end.

(** Nodes before and after the hole in the in-order listing. *)
Fixpoint ctx_before (C : list frame) : list (loc * (Key * T)) :=
  match C with
  | [] => []
  | FL _ _ _ _ :: C' => ctx_before C'
  | FR l _ kv a :: C' => ctx_before C' ++ nodes a ++ [(l, kv)]
  end.

Fixpoint ctx_after (C : list frame) : list (loc * (Key * T)) :=
  match C with
  | [] => []
  | FL l _ kv r :: C' => (l, kv) :: nodes r ++ ctx_after C'
  | FR _ _ _ _ :: C' => ctx_after C'
  end.

Definition frame_sibling (F : frame) : tree :=
  match F with
  | FL _ _ _ r => r
  | FR _ _ _ a => a
  end.

(** The locations of the ancestors and of their other subtrees. *)
Fixpoint ctx_locs (C : list frame) : list loc :=
  match C with
  | [] => []
  | F :: C' => frame_loc F :: locs (frame_sibling F) ++ ctx_locs C'
  end.

Definition is_map st (this : addr) (t : tree) : Prop :=
  ∃ o, objs st !! this = Some o ∧ root o = ptr_of t ∧
       Rep (heap st) None t ∧ NoDup (locs t).

(** [is_map] together with the value of the [map_size] member. *)
Definition map_at st (this : addr) (t : tree) (sz : Z) : Prop :=
  ∃ o, objs st !! this = Some o ∧ root o = ptr_of t ∧ map_size o = sz ∧
       Rep (heap st) None t ∧ NoDup (locs t).

(** *** The ordering *)

Definition lt (a b : Key) : Prop := comp a b = true.
Definition equiv_key (a b : Key) : Prop := comp a b = false ∧ comp b a = false.

(** The ordering predicate is a strict weak order. *)
Record strict_weak_order : Prop := {
  swo_irrefl : ∀ a, comp a a = false;
  swo_trans : ∀ a b c, lt a b → lt b c → lt a c;
  swo_equiv_trans : ∀ a b c, equiv_key a b → equiv_key b c → equiv_key a c
}.

(** In-order traversal yields strictly ascending keys. *)
Definition ascending (ks : list Key) : Prop := StronglySorted lt ks.
Definition bst (t : tree) : Prop := ascending (keys t).

(** *** The red-black colouring *)

Definition is_red_tree (t : tree) : bool :=
  match t with
  | Nd _ true _ _ _ => true
  | _ => false
  end.

(** No red node has a red child. *)
Fixpoint no_red_red (t : tree) : bool :=
  match t with
  | Leaf => true
  | Nd _ c _ a b =>
      negb (c && (is_red_tree a || is_red_tree b)) && no_red_red a && no_red_red b
  end.

(** The number of black nodes on every path to a null reference, when all
    paths agree. *)
Fixpoint black_height (t : tree) : option nat :=
  match t with
  | Leaf => Some O
  | Nd _ c _ a b =>
      match black_height a, black_height b with
      | Some x, Some y =>
          if bool_decide (x = y) then Some (if c then x else S x) else None
      | _, _ => None
      end
  end.

Definition frame_color (F : frame) : bool :=
  match F with
  | FL _ c _ _ => c
  | FR _ c _ _ => c
  end.

(** The root is black. *)
Definition root_black (t : tree) : Prop :=
  match t with
  | Leaf => True
  | Nd _ c _ _ _ => c = false
  end.

(** The outermost ancestor in a context, the root of the tree, is black. *)
Definition ctx_top_black (C : list frame) : Prop :=
  match last C with
  | None => True
  | Some F => frame_color F = false
  end.

(** The tree with its root recoloured black. *)
Definition blacken (t : tree) : tree :=
  match t with
  | Leaf => Leaf
  | Nd l _ kv a b => Nd l false kv a b
  end.

(** The tree found by a search for [k]. *)
Fixpoint lookup_tree (k : Key) (t : tree) : ptr :=
  match t with
  | Leaf => None
  | Nd l _ kv a b =>
      if comp k (fst kv) then lookup_tree k a
      else if comp (fst kv) k then lookup_tree k b
      else Some l
  end.

(** The descent of an insertion of [k] below the context [C]: the node
    holding an equivalent key, or the context of the null reference where
    the new node goes. *)
Fixpoint descend (k : Key) (t : tree) (C : list frame) : ptr + list frame :=
  match t with
  | Leaf => inr C
  | Nd l c kv a b =>
      if comp k (fst kv) then descend k a (FL l c kv b :: C)
      else if comp (fst kv) k then descend k b (FR l c kv a :: C)
      else inl (Some l)
  end.

(** The leftmost node of [t], as a subtree, and its context below [C]. *)
Fixpoint min_ctx (t : tree) (C : list frame) : list frame * tree :=
  match t with
  | Leaf => (C, Leaf)
  | Nd l c kv a b =>
      match a with
      | Leaf => (C, t)
      | Nd _ _ _ _ _ => min_ctx a (FL l c kv b :: C)
      end
  end.

(** What [deleteNode] leaves of the tree [plug C (Nd z cz kvz a b)] when it
    unlinks [z]: the context of the replacement subtree [x], that subtree,
    and the colour of the node that was removed from its place. *)
Definition unlinked (C : list frame) (cz : bool) (a b : tree)
  : list frame * tree * bool :=
  match a, b with
  | Leaf, _ => (C, b, cz)
  | _, Leaf => (C, a, cz)
  | _, _ =>
      match min_ctx b [] with
      | (Cb, Nd y cy kvy _ xr) => (Cb ++ FR y cz kvy a :: C, xr, cy)
      | (_, Leaf) => (C, Leaf, cz)
      end
  end.

(** The side of its parent on which a new key goes. *)
Definition ctx_dir_ok (k : Key) (C : list frame) : Prop :=
  match C with
  | [] => True
  | FL _ _ kv _ :: _ => comp k (fst kv) = true
  | FR _ _ kv _ :: _ => comp k (fst kv) = false
  end.

(** Every key before the hole is below [k] and every key after it above. *)
Definition ctx_bounds (k : Key) (C : list frame) : Prop :=
  Forall (fun x => lt (fst (snd x)) k) (ctx_before C) ∧
  Forall (fun x => lt k (fst (snd x))) (ctx_after C).

End Abstraction.

Arguments tree : clear implicits.
Arguments frame : clear implicits.

#[global] Typeclasses Opaque locs ctx_locs.

(** ** Auxiliary notions of the specifications *)

Section Notions.

Context {Key T : Type}.
Variable comp : Key → Key → bool.

Implicit Types (st : state Key T).

(** The outermost node of a context, or [d] when there is none. *)
Definition ctx_last_loc (C : list (frame Key T)) (d : loc) : loc :=
  match last C with
  | Some F => frame_loc F
  | None => d
  end.

(** What the loop establishes when it returns [x']: the heap still holds a
    tree with the in-order listing [L], [x'] is the root of a subtree of
    it, and the root of the tree is black unless it is [x'] itself. *)
Definition fd_post (this : addr) (sz : Z) (L : list (loc * (Key * T)))
    (x' : ptr) st' : Prop :=
  ∃ C' xt', x' = ptr_of xt' ∧ map_at st' this (plug C' xt') sz ∧
            nodes (plug C' xt') = L ∧ ctx_top_black C'.

(** Two trees with the same topology, colours and entries. *)
Fixpoint same_shape (t t' : tree Key T) : Prop :=
  match t, t' with
  | Leaf, Leaf => True
  | Nd _ c kv a b, Nd _ c' kv' a' b' =>
      c = c' ∧ kv = kv' ∧ same_shape a a' ∧ same_shape b b'
  | _, _ => False
  end.

(** The iterator of the map at [this] that points to [p]. *)
Definition iter_at (this : addr) (p : ptr) : iterator :=
  {| current := p; container := Some this |}.

(** [n] applications of [++] to an iterator. *)
Fixpoint iter_advance (fuel n : nat) (it : iterator) : M (state Key T) iterator :=
  match n with
  | O => ret it
  | S n => let* it' := iter_incr fuel it in iter_advance fuel n it'
  end.

(** [n] applications of [--] to an iterator. *)
Fixpoint iter_retreat (fuel n : nat) (it : iterator) : M (state Key T) iterator :=
  match n with
  | O => ret it
  | S n => let* it' := iter_decr fuel it in iter_retreat fuel n it'
  end.

(** [m.at(k)] read as a value. *)
Definition at_value (fuel : nat) (this : addr) (k : Key) : M (state Key T) T :=
  let* p := at_ comp fuel this k in get_value p.

(** [m.at(k) = v] *)
Definition at_assign (fuel : nat) (this : addr) (k : Key) (v : T)
  : M (state Key T) unit :=
  let* p := at_ comp fuel this k in set_value p v.

(** [m[k] = v] *)
Definition subscript_assign (T_default : T) (fuel : nat) (this : addr) (k : Key) (v : T)
  : M (state Key T) unit :=
  let* p := subscript comp T_default fuel this k in set_value p v.

(** A key is absent when no stored key is equivalent to it. *)
Definition absent (k : Key) (t : tree Key T) : Prop :=
  ∀ l kv, (l, kv) ∈ nodes t → ¬ equiv_key comp k kv.1.

(** What the loop of [fixInsert] relies on at a red node [zt] below the
    context [C]: the subtree of the node is well coloured, the tree would
    be well coloured if the node were black, and all paths hold the same
    number of black nodes. *)
Definition ins_inv (C : list (frame Key T)) (zt : tree Key T) : Prop :=
  is_red_tree zt = true ∧ no_red_red zt = true ∧
  no_red_red (plug C (blacken zt)) = true ∧
  is_Some (black_height (plug C zt)).

(** *** Memory that a map leaves alone

    [Fl] holds of the locations that do not belong to the map at [this]:
    a value is fit when no pointer in it leads to such a location. *)

Class Okv (A : Type) := okv : (loc → Prop) → A → Prop.

#[global] Instance okv_any (A : Type) : Okv A | 100 := λ _ _, True.

#[global] Instance okv_ptr : Okv (option loc) := λ Fl p,
  match p with
  | Some l => ¬ Fl l
  | None => True
  end.

#[global] Instance okv_node : Okv (Node Key T) := λ Fl n,
  okv Fl (left n) ∧ okv Fl (right n) ∧ okv Fl (parent n).

#[global] Instance okv_prod {A B} `{Okv A} `{Okv B} : Okv (A * B) := λ Fl x,
  okv Fl (fst x) ∧ okv Fl (snd x).

#[global] Instance okv_sum {A B} `{Okv A} `{Okv B} : Okv (A + B) := λ Fl x,
  match x with
  | inl a => okv Fl a
  | inr b => okv Fl b
  end.

#[global] Instance okv_iterator : Okv iterator := λ Fl it, okv Fl (current it).

(** The memory [st] has the locations of [Fl] as they were in [st0], and
    the objects other than [this]; and no pointer of the map at [this]
    leads to a location of [Fl]. *)
Definition keeps_out (Fl : loc → Prop) (st0 : state Key T) (this : addr) st : Prop :=
  (∀ l n, heap st !! l = Some n → ¬ Fl l → okv Fl n) ∧
  (∀ o, objs st !! this = Some o → okv Fl (root o)) ∧
  (∀ l, Fl l → is_Some (heap st0 !! l) ∧ heap st !! l = heap st0 !! l) ∧
  (∀ a, a ≠ this → objs st !! a = objs st0 !! a).

(** A computation that keeps out of [Fl] and returns a fit value. *)
Definition safe (Fl : loc → Prop) (st0 : state Key T) (this : addr)
    {A} `{Okv A} (m : M (state Key T) A) : Prop :=
  ∀ st, keeps_out Fl st0 this st →
    post (m st) (λ a st', keeps_out Fl st0 this st' ∧ okv Fl a).

(** *** Sequences of calls

    A client that calls [insert], [erase] on the result of [find], and the
    mutable [operator[]] on one map, one call after the other. *)

Inductive op :=
| OpInsert (k : Key) (v : T)  (* m.insert({k, v}) *)
| OpErase (k : Key)           (* m.erase(m.find(k)) *)
| OpSubscript (k : Key).      (* m[k] *)

Definition run_op (T_default : T) (fuel : nat) (this : addr) (o : op)
  : M (state Key T) unit :=
  match o with
  | OpInsert k v => insert comp fuel this (k, v);; ret tt
  | OpErase k => let* it := find comp fuel this k in erase fuel this it
  | OpSubscript k => subscript comp T_default fuel this k;; ret tt
  end.

Fixpoint run_ops (T_default : T) (fuel : nat) (this : addr) (os : list op)
  : M (state Key T) unit :=
  match os with
  | [] => ret tt
  | o :: os => run_op T_default fuel this o;; run_ops T_default fuel this os
  end.

(** The call does not erase a key equivalent to [k]. *)
Definition keeps (k : Key) (o : op) : Prop :=
  match o with
  | OpErase k' => ¬ equiv_key comp k' k
  | _ => True
  end.

(** The call is not an erasure. *)
Definition no_erase (o : op) : Prop :=
  match o with
  | OpErase _ => False
  | _ => True
  end.

End Notions.

Arguments op : clear implicits.

(** ** Concrete maps

    Maps from integers to integers under [Z.ltb], for running the model. *)

Definition ex_node (kv : Z * Z) (l r p : ptr) (c : bool) : Node Z Z :=
  {| data := kv; left := l; right := r; parent := p; color := c |}.

(** The memory before any map is constructed. *)
Definition ex_empty : state Z Z := {| heap := ∅; objs := ∅ |}.

(** The address of the map, and of a second one. *)
Definition ex_map : addr := 1%positive.
Definition ex_map2 : addr := 2%positive.

Definition ex_fuel : nat := 16.

Definition ex_insert (k v : Z) : M (state Z Z) (iterator * bool) :=
  insert Z.ltb ex_fuel ex_map (k, v).

(** [m.erase(m.find(k))] *)
Definition ex_erase (k : Z) : M (state Z Z) unit :=
  let* it := find Z.ltb ex_fuel ex_map k in
  erase ex_fuel ex_map it.

(** The map after the insertion of 1. *)
Definition ex_st1 : state Z Z :=
  {| heap := {[ 1%positive := ex_node (1, 10) None None None false ]};
     objs := {[ ex_map := {| root := Some 1%positive; end_node := None; map_size := 1 |} ]} |}.

(** The map after the erasure of its only entry. *)
Definition ex_st1_erased : state Z Z :=
  {| heap := ∅;
     objs := {[ ex_map := {| root := None; end_node := None; map_size := 0 |} ]} |}.

(** The map after the insertion of 1, 2 and 3: a black root with two red
    children. *)
Definition ex_st3 : state Z Z :=
  {| heap := {[ 1%positive := ex_node (1, 10) None None (Some 2%positive) true;
                2%positive := ex_node (2, 20) (Some 1%positive) (Some 3%positive) None false;
                3%positive := ex_node (3, 30) None None (Some 2%positive) true ]};
     objs := {[ ex_map := {| root := Some 2%positive; end_node := None; map_size := 3 |} ]} |}.

Definition ex_t3 : tree Z Z :=
  Nd 2%positive false (2, 20)
    (Nd 1%positive true (1, 10) Leaf Leaf)
    (Nd 3%positive true (3, 30) Leaf Leaf).

(** The same map next to a second one, at [ex_map2], that holds the entry
    (9, 90). *)
Definition ex_st_two : state Z Z :=
  {| heap := {[ 1%positive := ex_node (1, 10) None None (Some 2%positive) true;
                2%positive := ex_node (2, 20) (Some 1%positive) (Some 3%positive) None false;
                3%positive := ex_node (3, 30) None None (Some 2%positive) true;
                4%positive := ex_node (9, 90) None None None false ]};
     objs := {[ ex_map := {| root := Some 2%positive; end_node := None; map_size := 3 |};
                ex_map2 := {| root := Some 4%positive; end_node := None; map_size := 1 |} ]} |}.

Definition ex_t_two : tree Z Z := Nd 4%positive false (9, 90) Leaf Leaf.

(** The map after the insertion of 1, 2, 3 and 4. *)
Definition ex_st4 : state Z Z :=
  {| heap := {[ 1%positive := ex_node (1, 10) None None (Some 2%positive) false;
                2%positive := ex_node (2, 20) (Some 1%positive) (Some 3%positive) None false;
                3%positive := ex_node (3, 30) None (Some 4%positive) (Some 2%positive) false;
                4%positive := ex_node (4, 40) None None (Some 3%positive) true ]};
     objs := {[ ex_map := {| root := Some 2%positive; end_node := None; map_size := 4 |} ]} |}.

Definition ex_t4 : tree Z Z :=
  Nd 2%positive false (2, 20)
    (Nd 1%positive false (1, 10) Leaf Leaf)
    (Nd 3%positive false (3, 30) Leaf (Nd 4%positive true (4, 40) Leaf Leaf)).

(** The map after the insertion of 1, 2, 3 and 4 and the erasure of 1. *)
Definition ex_st4_erased : state Z Z :=
  {| heap := {[ 2%positive := ex_node (2, 20) None (Some 3%positive) None false;
                3%positive := ex_node (3, 30) None (Some 4%positive) (Some 2%positive) false;
                4%positive := ex_node (4, 40) None None (Some 3%positive) true ]};
     objs := {[ ex_map := {| root := Some 2%positive; end_node := None; map_size := 3 |} ]} |}.

Definition ex_t4_erased : tree Z Z :=
  Nd 2%positive false (2, 20) Leaf
    (Nd 3%positive false (3, 30) Leaf (Nd 4%positive true (4, 40) Leaf Leaf)).

(** Insertions of 1 to 4 into a new map, then the erasure of 1. *)
Definition ex_unbalance : M (state Z Z) unit :=
  map_ctor ex_map;;
  ex_insert 1 10;; ex_insert 2 20;; ex_insert 3 30;; ex_insert 4 40;;
  ex_erase 1.

(** Insertions of 1 to 10 into a new map, then erasures that end in a
    black node with a black child and no sibling, and the erasure of that
    node. *)
Definition ex_crash : M (state Z Z) unit :=
  map_ctor ex_map;;
  ex_insert 1 10;; ex_insert 2 20;; ex_insert 3 30;; ex_insert 4 40;;
  ex_insert 5 50;; ex_insert 6 60;; ex_insert 7 70;; ex_insert 8 80;;
  ex_insert 9 90;; ex_insert 10 100;;
  ex_erase 10;; ex_erase 9;; ex_erase 7;; ex_erase 8;; ex_erase 5;;
  ex_erase 6;; ex_erase 3;;
  ex_erase 2.

(** The insertions and erasures of [ex_crash] but the last one. *)
Definition ex_chain : M (state Z Z) unit :=
  map_ctor ex_map;;
  ex_insert 1 10;; ex_insert 2 20;; ex_insert 3 30;; ex_insert 4 40;;
  ex_insert 5 50;; ex_insert 6 60;; ex_insert 7 70;; ex_insert 8 80;;
  ex_insert 9 90;; ex_insert 10 100;;
  ex_erase 10;; ex_erase 9;; ex_erase 7;; ex_erase 8;; ex_erase 5;;
  ex_erase 6;; ex_erase 3.

(** The map they leave: three black nodes in a chain. *)
Definition ex_st_chain : state Z Z :=
  {| heap := {[ 1%positive := ex_node (1, 10) None None (Some 2%positive) false;
                2%positive := ex_node (2, 20) (Some 1%positive) None (Some 4%positive) false;
                4%positive := ex_node (4, 40) (Some 2%positive) None None false ]};
     objs := {[ ex_map := {| root := Some 4%positive; end_node := None; map_size := 3 |} ]} |}.

Definition ex_t_chain : tree Z Z :=
  Nd 4%positive false (4, 40)
    (Nd 2%positive false (2, 20) (Nd 1%positive false (1, 10) Leaf Leaf) Leaf)
    Leaf.

(** ** Running the monad *)

Section MonadFacts.

Context {S : Type}.

Lemma bind_ok {A B} (m : M S A) (k : A → M S B) st a st' :
  m st = Ok a st' → bind m k st = k a st'.
Proof. intros H. unfold bind. by rewrite H. Qed.

Lemma bind_ret {A B} (a : A) (k : A → M S B) st :
  bind (ret a) k st = k a st.
Proof. reflexivity. Qed.

Lemma bind_assoc {A B D} (m : M S A) (f : A → M S B) (g : B → M S D) st :
  bind (bind m f) g st = bind m (fun x => bind (f x) g) st.
Proof. unfold bind. by destruct (m st). Qed.

End MonadFacts.

Section Basics.

Context {Key T : Type}.
Implicit Types (h : gmap loc (Node Key T)) (st : state Key T) (t s : tree Key T)
  (n : Node Key T) (C : list (frame Key T)).

Lemma ptr_eqb_eq (p q : ptr) : ptr_eqb p q = true ↔ p = q.
Proof. unfold ptr_eqb. by rewrite bool_decide_eq_true. Qed.

Lemma ptr_eqb_refl (p : ptr) : ptr_eqb p p = true.
Proof. by apply ptr_eqb_eq. Qed.

Lemma ptr_eqb_ne (p q : ptr) : p ≠ q → ptr_eqb p q = false.
Proof. unfold ptr_eqb. by rewrite bool_decide_eq_false. Qed.

(** *** Loads and stores *)

Lemma load_ok st l n : heap st !! l = Some n → load (Some l) st = Ok n st.
Proof. intros H. unfold load. by rewrite H. Qed.

Lemma get_left_ok st l n : heap st !! l = Some n → get_left (Some l) st = Ok (left n) st.
Proof. intros H. unfold get_left. by rewrite (bind_ok _ _ _ _ _ (load_ok _ _ _ H)). Qed.

Lemma get_right_ok st l n : heap st !! l = Some n → get_right (Some l) st = Ok (right n) st.
Proof. intros H. unfold get_right. by rewrite (bind_ok _ _ _ _ _ (load_ok _ _ _ H)). Qed.

Lemma get_parent_ok st l n : heap st !! l = Some n → get_parent (Some l) st = Ok (parent n) st.
Proof. intros H. unfold get_parent. by rewrite (bind_ok _ _ _ _ _ (load_ok _ _ _ H)). Qed.

Lemma get_color_ok st l n : heap st !! l = Some n → get_color (Some l) st = Ok (color n) st.
Proof. intros H. unfold get_color. by rewrite (bind_ok _ _ _ _ _ (load_ok _ _ _ H)). Qed.

Lemma get_key_ok st l n : heap st !! l = Some n → get_key (Some l) st = Ok (fst (data n)) st.
Proof. intros H. unfold get_key. by rewrite (bind_ok _ _ _ _ _ (load_ok _ _ _ H)). Qed.

Lemma modify_ok st l n f :
  heap st !! l = Some n →
  modify (Some l) f st = Ok tt (set_heap (<[l := f n]> (heap st)) st).
Proof. intros H. unfold modify. by rewrite H. Qed.

Lemma get_root_ok st this o : objs st !! this = Some o → get_root this st = Ok (root o) st.
Proof. intros H. unfold get_root, bind, load_map. by rewrite H. Qed.

Lemma get_size_ok st this o : objs st !! this = Some o → get_size this st = Ok (map_size o) st.
Proof. intros H. unfold get_size, bind, load_map. by rewrite H. Qed.

Lemma modify_map_ok st this o f :
  objs st !! this = Some o →
  modify_map this f st = Ok tt (set_objs (<[this := f o]> (objs st)) st).
Proof. intros H. unfold modify_map. by rewrite H. Qed.

(** *** In-order listings *)

Lemma locs_Nd l c kv (a b : tree Key T) : locs (Nd l c kv a b) = locs a ++ l :: locs b.
Proof. unfold locs. simpl. by rewrite fmap_app. Qed.

Lemma entries_Nd l c kv (a b : tree Key T) :
  entries (Nd l c kv a b) = entries a ++ kv :: entries b.
Proof. unfold entries. simpl. by rewrite fmap_app. Qed.

Lemma keys_Nd l c kv (a b : tree Key T) :
  keys (Nd l c kv a b) = keys a ++ kv.1 :: keys b.
Proof. unfold keys. rewrite entries_Nd. by rewrite fmap_app. Qed.

Lemma nodes_plug C s : nodes (plug C s) = ctx_before C ++ nodes s ++ ctx_after C.
Proof.
  revert s. induction C as [|[l c kv r|l c kv a] C IH]; intros s; simpl.
  - by rewrite app_nil_r.
  - rewrite IH. simpl. by rewrite <- !app_assoc.
  - rewrite IH. simpl. by rewrite <- !app_assoc.
Qed.

Lemma ptr_of_plug C s : ptr_of (plug C s) = ctx_top C (ptr_of s).
Proof.
  revert s. induction C as [|F C IH]; intros s; simpl; [done|].
  rewrite IH. by destruct F.
Qed.

Lemma ptr_of_locs t l : ptr_of t = Some l → l ∈ locs t.
Proof.
  destruct t; simpl; [done|]. intros [= ->]. rewrite locs_Nd. set_solver.
Qed.

Lemma ptr_of_ne t l : l ∉ locs t → Some l ≠ ptr_of t.
Proof. intros Hl Heq. symmetry in Heq. by apply ptr_of_locs in Heq. Qed.

Lemma length_locs t : length (locs t) = length (nodes t).
Proof. unfold locs. by rewrite length_fmap. Qed.

Lemma height_le_size t : (height t ≤ length (nodes t))%nat.
Proof.
  induction t as [|l c kv a IHa b IHb]; simpl; [lia|].
  rewrite length_app. simpl. lia.
Qed.

(** *** The representation predicate *)

Lemma Rep_frame h h' par t :
  (∀ l, l ∈ locs t → h' !! l = h !! l) → Rep h par t → Rep h' par t.
Proof.
  revert par. induction t as [|l c kv a IHa b IHb]; intros par Hl; simpl; [done|].
  intros (Hn & Ha & Hb). rewrite locs_Nd in Hl. split_and!.
  - rewrite Hl; [done|set_solver].
  - apply IHa; [|done]. intros; apply Hl; set_solver.
  - apply IHb; [|done]. intros; apply Hl; set_solver.
Qed.

Lemma Rep_insert_ne h par t l n :
  l ∉ locs t → Rep h par t → Rep (<[l := n]> h) par t.
Proof.
  intros Hl. apply Rep_frame. intros l' Hl'. apply lookup_insert_ne. set_solver.
Qed.

Lemma Rep_delete_ne h par t l :
  l ∉ locs t → Rep h par t → Rep (delete l h) par t.
Proof.
  intros Hl. apply Rep_frame. intros l' Hl'. apply lookup_delete_ne. set_solver.
Qed.

Lemma Rep_lookup h par t l :
  Rep h par t → l ∈ locs t → is_Some (h !! l).
Proof.
  revert par. induction t as [|l' c kv a IHa b IHb]; intros par; simpl.
  - intros _ H. by apply elem_of_nil in H.
  - intros (Hn & Ha & Hb). rewrite locs_Nd. rewrite elem_of_app, elem_of_cons.
    intros [H|[->|H]]; eauto.
Qed.

(** Overwriting the root node of a subtree, keeping its child pointers. *)
Lemma Rep_update_root h par par' l c c' kv kv' a b :
  l ∉ locs a → l ∉ locs b →
  Rep h par (Nd l c kv a b) →
  Rep (<[l := {| data := kv'; left := ptr_of a; right := ptr_of b;
                 parent := par'; color := c' |}]> h) par' (Nd l c' kv' a b).
Proof.
  intros Ha Hb (Hn & Ra & Rb). simpl. split_and!.
  - by rewrite lookup_insert_eq.
  - by apply Rep_insert_ne.
  - by apply Rep_insert_ne.
Qed.

Lemma Rep_plug h par C s :
  Rep h par (plug C s) ↔ RepC h par C (ptr_of s) ∧ Rep h (ctx_parent par C) s.
Proof.
  revert s. induction C as [|[l c kv r|l c kv a] C IH]; intros s; simpl.
  - tauto.
  - rewrite IH. simpl. tauto.
  - rewrite IH. simpl. tauto.
Qed.

Lemma ctx_locs_cons F C :
  ctx_locs (F :: C) = frame_loc F :: locs (frame_sibling F) ++ ctx_locs C.
Proof. done. Qed.

Lemma locs_Leaf : locs (@Leaf Key T) = [].
Proof. done. Qed.

Lemma locs_plug C s : locs (plug C s) ≡ₚ locs s ++ ctx_locs C.
Proof.
  revert s. induction C as [|F C IH]; intros s; simpl.
  - by rewrite app_nil_r.
  - rewrite IH. destruct F as [l c kv r|l c kv a]; simpl; rewrite locs_Nd;
      solve_Permutation.
Qed.

Lemma RepC_frame h h' par C p :
  (∀ l, l ∈ ctx_locs C → h' !! l = h !! l) → RepC h par C p → RepC h' par C p.
Proof.
  revert p. induction C as [|F C IH]; intros p Hl; simpl; [done|].
  assert (HF : ∀ l, l ∈ frame_loc F :: locs (frame_sibling F) ++ ctx_locs C →
      h' !! l = h !! l) by done.
  intros [HFr HC]. split.
  - destruct F as [l c kv r|l c kv a]; destruct HFr as [Hn Hr]; simpl in HF; split.
    + rewrite HF; [done|set_solver].
    + eapply Rep_frame; [|done]. intros; apply HF; set_solver.
    + rewrite HF; [done|set_solver].
    + eapply Rep_frame; [|done]. intros; apply HF; set_solver.
  - apply IH; [|done]. intros; apply HF; set_solver.
Qed.

Lemma RepC_insert_ne h par C p l n :
  l ∉ ctx_locs C → RepC h par C p → RepC (<[l := n]> h) par C p.
Proof.
  intros Hl. apply RepC_frame. intros l' Hl'. apply lookup_insert_ne. set_solver.
Qed.

(** Every node of a tree is the root of a subtree in some context. *)
Lemma plug_app C1 C2 s : plug (C1 ++ C2) s = plug C2 (plug C1 s).
Proof. revert s. induction C1 as [|F C1 IH]; intros s; simpl; [done|apply IH]. Qed.

Lemma locs_decompose t l :
  l ∈ locs t → ∃ C c kv a b, t = plug C (Nd l c kv a b).
Proof.
  induction t as [|l' c kv a IHa b IHb]; simpl.
  - intros H. by apply elem_of_nil in H.
  - rewrite locs_Nd, elem_of_app, elem_of_cons. intros [H|[->|H]].
    + destruct (IHa H) as (C & c1 & kv1 & a1 & b1 & ->).
      exists (C ++ [FL l' c kv b]), c1, kv1, a1, b1. by rewrite plug_app.
    + by exists [], c, kv, a, b.
    + destruct (IHb H) as (C & c1 & kv1 & a1 & b1 & ->).
      exists (C ++ [FR l' c kv a]), c1, kv1, a1, b1. by rewrite plug_app.
Qed.

End Basics.

(** *** Distinctness of locations

    Facts about [NoDup], membership and disjointness are brought to a
    normal form by rewriting: conjunctions of [x ≠ y], [x ∉ locs t],
    [ldisj (locs t) (locs t')] and [NoDup (locs t)]. *)

Lemma ldisj_sym A B : ldisj A B → ldisj B A.
Proof. unfold ldisj. intros H x HB HA. by apply (H x). Qed.

Lemma ldisj_nil_l A : ldisj [] A ↔ True.
Proof. unfold ldisj. set_solver. Qed.

Lemma ldisj_nil_r A : ldisj A [] ↔ True.
Proof. unfold ldisj. set_solver. Qed.

Lemma ldisj_cons_l a B D : ldisj (a :: B) D ↔ (a ∉ D) ∧ ldisj B D.
Proof. unfold ldisj. set_solver. Qed.

Lemma ldisj_cons_r A b D : ldisj A (b :: D) ↔ (b ∉ A) ∧ ldisj A D.
Proof. unfold ldisj. set_solver. Qed.

Lemma ldisj_app_l A B D : ldisj (A ++ B) D ↔ ldisj A D ∧ ldisj B D.
Proof. unfold ldisj. set_solver. Qed.

Lemma ldisj_app_r A B D : ldisj A (B ++ D) ↔ ldisj A B ∧ ldisj A D.
Proof. unfold ldisj. set_solver. Qed.

Lemma NoDup_app_ldisj (A B : list loc) : NoDup (A ++ B) ↔ NoDup A ∧ ldisj A B ∧ NoDup B.
Proof. apply NoDup_app. Qed.

Lemma not_elem_of_nil_iff (x : loc) : x ∉ [] ↔ True.
Proof. set_solver. Qed.

Lemma NoDup_nil_iff : NoDup (@nil loc) ↔ True.
Proof. split; [done|]. intros _. apply NoDup_nil_2. Qed.

Lemma not_elem_of_cons_iff (x y : loc) l : x ∉ y :: l ↔ x ≠ y ∧ (x ∉ l).
Proof. apply not_elem_of_cons. Qed.

Lemma not_elem_of_app_iff (x : loc) l k : x ∉ l ++ k ↔ (x ∉ l) ∧ (x ∉ k).
Proof. apply not_elem_of_app. Qed.

Lemma NoDup_cons_iff (x : loc) l : NoDup (x :: l) ↔ (x ∉ l) ∧ NoDup l.
Proof. apply NoDup_cons. Qed.

Ltac nd_rewrite :=
  rewrite ?locs_Nd, ?locs_Leaf, ?ctx_locs_cons,
    ?NoDup_app_ldisj, ?NoDup_cons_iff, ?NoDup_nil_iff,
    ?not_elem_of_app_iff, ?not_elem_of_cons_iff, ?not_elem_of_nil_iff,
    ?ldisj_app_l, ?ldisj_app_r, ?ldisj_cons_l, ?ldisj_cons_r,
    ?ldisj_nil_l, ?ldisj_nil_r in *;
  cbn [frame_loc frame_sibling ctx_locs] in *.

Ltac nd_norm :=
  repeat (progress nd_rewrite);
  repeat match goal with
  | H : _ ∧ _ |- _ => destruct H
  | H : True |- _ => clear H
  end.

Ltac nd_atom :=
  first
    [ exact I
    | assumption
    | apply not_eq_sym; assumption
    | apply ldisj_sym; assumption
    | congruence ].

(** Solves a distinctness goal from the facts in the context. *)
Ltac nd_solve :=
  nd_norm; repeat match goal with |- _ ∧ _ => split end; nd_atom.
(** ** Searching: [findNode] *)

Section Search.

Context {Key T : Type}.
Variable comp : Key → Key → bool.
Implicit Types (h : gmap loc (Node Key T)) (st : state Key T) (t s : tree Key T)
  (n : Node Key T) (C : list (frame Key T)) (k : Key).

Lemma Rep_root_lookup h par l c kv a b :
  Rep h par (Nd l c kv a b) →
  h !! l = Some {| data := kv; left := ptr_of a; right := ptr_of b;
                   parent := par; color := c |}.
Proof. by intros [? _]. Qed.

Lemma Rep_nodes_lookup h par t l kv :
  Rep h par t → (l, kv) ∈ nodes t → ∃ n, h !! l = Some n ∧ data n = kv.
Proof.
  revert par. induction t as [|l' c kv' a IHa b IHb]; intros par; simpl.
  - intros _ H. by apply elem_of_nil in H.
  - intros (Hn & Ha & Hb). rewrite elem_of_app, elem_of_cons.
    intros [H|[[= -> ->]|H]]; eauto.
Qed.

Lemma findNode_loop_spec st par t k m :
  Rep (heap st) par t → (height t < m)%nat →
  findNode_loop comp m k (ptr_of t) st = Ok (lookup_tree comp k t) st.
Proof.
  revert par t. induction m as [|m IH]; intros par t HR Hm; [lia|].
  destruct t as [|l c kv a b]; simpl; [done|].
  destruct HR as (Hn & Ha & Hb). simpl in Hm.
  rewrite (bind_ok _ _ _ _ _ (get_key_ok _ _ _ Hn)). simpl.
  destruct (comp k kv.1).
  - rewrite (bind_ok _ _ _ _ _ (get_left_ok _ _ _ Hn)). simpl.
    eapply IH; [done|lia].
  - rewrite (bind_ok _ _ _ _ _ (get_key_ok _ _ _ Hn)). simpl.
    destruct (comp kv.1 k); [|done].
    rewrite (bind_ok _ _ _ _ _ (get_right_ok _ _ _ Hn)). simpl.
    eapply IH; [done|lia].
Qed.

Lemma findNode_spec fuel st this t k :
  is_map st this t → (height t < fuel)%nat →
  findNode comp fuel this k st = Ok (lookup_tree comp k t) st.
Proof.
  intros (o & Ho & Hr & HR & _) Hf. unfold findNode.
  rewrite (bind_ok _ _ _ _ _ (get_root_ok _ _ _ Ho)). rewrite Hr.
  by eapply findNode_loop_spec.
Qed.

(** What a search finds is a node of the tree with an equivalent key. *)
Lemma lookup_tree_sound t k l :
  lookup_tree comp k t = Some l →
  ∃ kv, (l, kv) ∈ nodes t ∧ equiv_key comp k kv.1.
Proof.
  induction t as [|l' c kv a IHa b IHb]; simpl; [done|].
  destruct (comp k kv.1) eqn:E1; [|destruct (comp kv.1 k) eqn:E2].
  - intros H. destruct (IHa H) as (kv' & ? & ?). exists kv'. set_solver.
  - intros H. destruct (IHb H) as (kv' & ? & ?). exists kv'. set_solver.
  - intros [= ->]. exists kv. split; [set_solver|done].
Qed.

Hypothesis comp_swo : strict_weak_order comp.

Lemma equiv_key_sym k1 k2 : equiv_key comp k1 k2 → equiv_key comp k2 k1.
Proof. intros [? ?]. by split. Qed.

Lemma lt_equiv_l k1 k2 k3 : equiv_key comp k1 k2 → lt comp k2 k3 → lt comp k1 k3.
Proof.
  intros He Hl. unfold lt. destruct (comp k1 k3) eqn:E13; [done|].
  destruct (comp k3 k1) eqn:E31.
  - assert (lt comp k2 k1) as H21 by exact (swo_trans _ comp_swo _ _ _ Hl E31).
    destruct He as [_ He]. unfold lt in H21. congruence.
  - assert (equiv_key comp k2 k3) as [H23 _].
    { apply (swo_equiv_trans _ comp_swo k2 k1 k3); [by apply equiv_key_sym|by split]. }
    unfold lt in Hl. congruence.
Qed.

Lemma lt_equiv_r k1 k2 k3 : lt comp k1 k2 → equiv_key comp k2 k3 → lt comp k1 k3.
Proof.
  intros Hl He. unfold lt. destruct (comp k1 k3) eqn:E13; [done|].
  destruct (comp k3 k1) eqn:E31.
  - assert (lt comp k3 k2) as H32 by exact (swo_trans _ comp_swo _ _ _ E31 Hl).
    destruct He as [_ He]. unfold lt in H32. congruence.
  - assert (equiv_key comp k1 k2) as [H12 _].
    { apply (swo_equiv_trans _ comp_swo k1 k3 k2); [by split|by apply equiv_key_sym]. }
    unfold lt in Hl. congruence.
Qed.

Lemma lt_asym k1 k2 : lt comp k1 k2 → comp k2 k1 = false.
Proof.
  intros H. destruct (comp k2 k1) eqn:E; [|done].
  assert (lt comp k1 k1) as H1 by exact (swo_trans _ comp_swo _ _ _ H E).
  unfold lt in H1. by rewrite (swo_irrefl _ comp_swo) in H1.
Qed.

#[local] Instance lt_transitive : Transitive (lt comp).
Proof. intros a b c. apply (swo_trans _ comp_swo). Qed.

Lemma bst_Nd l c kv (a b : tree Key T) :
  bst comp (Nd l c kv a b) ↔
  bst comp a ∧ bst comp b ∧
  Forall (λ k', lt comp k' kv.1) (keys a) ∧ Forall (lt comp kv.1) (keys b).
Proof.
  unfold bst, ascending. rewrite keys_Nd, StronglySorted_app, StronglySorted_cons.
  rewrite !Forall_forall. split.
  - intros (H1 & H2 & H3 & H4). split_and!; [done..| |done].
    intros k' Hk'. apply H1; set_solver.
  - intros (H1 & H2 & H3 & H4). split_and!; [|done..].
    intros x1 x2 Hx1. rewrite elem_of_cons. intros [->|Hx2]; [by apply H3|].
    etrans; [by apply H3|by apply H4].
Qed.

Lemma elem_of_keys t k : k ∈ keys t ↔ ∃ l v, (l, (k, v)) ∈ nodes t.
Proof.
  unfold keys, entries. split.
  - intros Hin. apply list_elem_of_fmap in Hin as ([k' v] & -> & Hin).
    apply list_elem_of_fmap in Hin as ([l kv] & Heq & Hin). simpl in *. subst kv.
    eauto.
  - intros (l & v & Hin). apply list_elem_of_fmap. exists (k, v). split; [done|].
    apply list_elem_of_fmap. by exists (l, (k, v)).
Qed.

(** In a search tree a search finds every key that is present. *)
Lemma lookup_tree_complete t k l kv :
  bst comp t → (l, kv) ∈ nodes t → equiv_key comp k kv.1 →
  lookup_tree comp k t = Some l.
Proof.
  induction t as [|l' c kv' a IHa b IHb]; simpl.
  - intros _ H. by apply elem_of_nil in H.
  - rewrite bst_Nd, !Forall_forall. intros (Ba & Bb & Fa & Fb).
    rewrite elem_of_app, elem_of_cons. intros [Hin|[[= -> ->]|Hin]] He.
    + assert (lt comp k kv'.1) as Hlt.
      { eapply lt_equiv_l; [done|]. apply Fa. apply elem_of_keys.
        destruct kv. eauto. }
      unfold lt in Hlt. rewrite Hlt. by apply IHa.
    + destruct He as [-> ->]. done.
    + assert (lt comp kv'.1 k) as Hlt.
      { eapply lt_equiv_r; [|by apply equiv_key_sym]. apply Fb. apply elem_of_keys.
        destruct kv. eauto. }
      rewrite (lt_asym _ _ Hlt). unfold lt in Hlt. rewrite Hlt. by apply IHb.
Qed.

End Search.
(** ** Traversal: [minimum], [maximum] and the iterator steps *)

Section Traverse.

Context {Key T : Type}.
Implicit Types (h : gmap loc (Node Key T)) (st : state Key T) (t s : tree Key T)
  (n : Node Key T) (C : list (frame Key T)).

Lemma head_locs_Nd l c kv (a b : tree Key T) :
  head (locs (Nd l c kv a b)) = match a with Leaf => Some l | _ => head (locs a) end.
Proof.
  rewrite locs_Nd. destruct a as [|l' c' kv' a1 a2]; [done|].
  rewrite locs_Nd. by destruct (locs a1).
Qed.

Lemma last_locs_Nd l c kv (a b : tree Key T) :
  last (locs (Nd l c kv a b)) = match b with Leaf => Some l | _ => last (locs b) end.
Proof.
  rewrite locs_Nd. destruct b as [|l' c' kv' b1 b2].
  - unfold locs at 2. simpl. by rewrite last_snoc.
  - rewrite locs_Nd. repeat (rewrite last_app || rewrite last_cons).
    by destruct (last (locs b2)).
Qed.

Lemma minimum_loop_spec st par t m :
  Rep (heap st) par t → t ≠ Leaf → (height t ≤ m)%nat →
  minimum_loop m (ptr_of t) st = Ok (head (locs t)) st.
Proof.
  revert par t. induction m as [|m IH]; intros par t HR Ht Hm.
  - destruct t; [done|simpl in Hm; lia].
  - destruct t as [|l c kv a b]; [done|]. simpl in *.
    destruct HR as (Hn & Ha & Hb).
    rewrite (bind_ok _ _ _ _ _ (get_left_ok _ _ _ Hn)). simpl.
    rewrite head_locs_Nd. destruct a as [|la ca kva a1 a2]; [done|].
    change (Some la) with (ptr_of (Nd la ca kva a1 a2)).
    eapply IH; [done|done|lia].
Qed.

Lemma maximum_loop_spec st par t m :
  Rep (heap st) par t → t ≠ Leaf → (height t ≤ m)%nat →
  maximum_loop m (ptr_of t) st = Ok (last (locs t)) st.
Proof.
  revert par t. induction m as [|m IH]; intros par t HR Ht Hm.
  - destruct t; [done|simpl in Hm; lia].
  - destruct t as [|l c kv a b]; [done|]. simpl in *.
    destruct HR as (Hn & Ha & Hb).
    rewrite (bind_ok _ _ _ _ _ (get_right_ok _ _ _ Hn)). simpl.
    rewrite last_locs_Nd. destruct b as [|lb cb kvb b1 b2]; [done|].
    change (Some lb) with (ptr_of (Nd lb cb kvb b1 b2)).
    eapply IH; [done|done|lia].
Qed.

Lemma minimum_spec fuel st par t :
  Rep (heap st) par t → t ≠ Leaf → (height t ≤ fuel)%nat →
  minimum fuel (ptr_of t) st = Ok (head (locs t)) st.
Proof. apply minimum_loop_spec. Qed.

Lemma maximum_spec fuel st par t :
  Rep (heap st) par t → (height t ≤ fuel)%nat →
  maximum fuel (ptr_of t) st = Ok (last (locs t)) st.
Proof.
  intros HR Hf. destruct t as [|l c kv a b]; [done|].
  unfold maximum. cbn [ptr_of]. change (Some l) with (ptr_of (Nd l c kv a b)).
  by eapply maximum_loop_spec.
Qed.

(** Climbing from the hole of a context while coming from the right. *)
Lemma climb_right_spec st par0 C cur m :
  RepC (heap st) par0 C (Some cur) → NoDup (cur :: ctx_locs C) → par0 = None →
  (length C < m)%nat →
  climb_right m (Some cur) (ctx_parent None C) st = Ok (head (ctx_after C).*1) st.
Proof.
  intros HR HN ->. revert cur C HR HN. induction m as [|m IH]; intros cur C HR HN Hm; [lia|].
  destruct C as [|F C]; simpl; [done|].
  assert (HN' : NoDup (cur :: frame_loc F :: locs (frame_sibling F) ++ ctx_locs C))
    by done.
  destruct F as [l c kv r|l c kv a]; simpl in *; destruct HR as ((Hn & Hs) & HC).
  - rewrite (bind_ok _ _ _ _ _ (get_right_ok _ _ _ Hn)). simpl.
    rewrite ptr_eqb_ne; [done|].
    intros Heq. symmetry in Heq. apply ptr_of_locs in Heq.
    apply NoDup_cons in HN' as [Hcur _]. set_solver.
  - rewrite (bind_ok _ _ _ _ _ (get_right_ok _ _ _ Hn)). simpl.
    rewrite ptr_eqb_refl.
    rewrite (bind_ok _ _ _ _ _ (get_parent_ok _ _ _ Hn)). simpl.
    apply IH; [done| |lia].
    apply NoDup_cons in HN' as [_ HN']. apply NoDup_cons in HN' as [Hl HN'].
    apply NoDup_app in HN' as (_ & _ & HN'). apply NoDup_cons. set_solver.
Qed.

Lemma climb_left_spec st par0 C cur m :
  RepC (heap st) par0 C (Some cur) → NoDup (cur :: ctx_locs C) → par0 = None →
  (length C < m)%nat →
  climb_left m (Some cur) (ctx_parent None C) st = Ok (last (ctx_before C).*1) st.
Proof.
  intros HR HN ->. revert cur C HR HN. induction m as [|m IH]; intros cur C HR HN Hm; [lia|].
  destruct C as [|F C]; simpl; [done|].
  assert (HN' : NoDup (cur :: frame_loc F :: locs (frame_sibling F) ++ ctx_locs C))
    by done.
  destruct F as [l c kv r|l c kv a]; simpl in *; destruct HR as ((Hn & Hs) & HC).
  - rewrite (bind_ok _ _ _ _ _ (get_left_ok _ _ _ Hn)). simpl.
    rewrite ptr_eqb_refl.
    rewrite (bind_ok _ _ _ _ _ (get_parent_ok _ _ _ Hn)). simpl.
    apply IH; [done| |lia].
    apply NoDup_cons in HN' as [_ HN']. apply NoDup_cons in HN' as [Hl HN'].
    apply NoDup_app in HN' as (_ & _ & HN'). apply NoDup_cons. set_solver.
  - rewrite (bind_ok _ _ _ _ _ (get_left_ok _ _ _ Hn)). simpl.
    rewrite ptr_eqb_ne.
    + rewrite !fmap_app. simpl. by rewrite app_assoc, last_snoc.
    + intros Heq. symmetry in Heq. apply ptr_of_locs in Heq.
      apply NoDup_cons in HN' as [Hcur _]. set_solver.
Qed.

Lemma length_ctx_height C s : (length C + height s ≤ height (plug C s))%nat.
Proof.
  revert s. induction C as [|F C IH]; intros s; simpl; [lia|].
  specialize (IH (fill F s)). destruct F; simpl in *; lia.
Qed.

Lemma NoDup_plug_inv C s :
  NoDup (locs (plug C s)) → NoDup (locs s) ∧ NoDup (ctx_locs C) ∧
  ∀ l, l ∈ locs s → l ∉ ctx_locs C.
Proof. rewrite locs_plug. rewrite NoDup_app. naive_solver. Qed.

(** The step [++it] at a node in context. *)
Lemma iter_incr_at fuel st C l c kv a b cont :
  Rep (heap st) None (plug C (Nd l c kv a b)) →
  NoDup (locs (plug C (Nd l c kv a b))) →
  (height (plug C (Nd l c kv a b)) < fuel)%nat →
  iter_incr fuel {| current := Some l; container := cont |} st
  = Ok {| current := head (locs b ++ (ctx_after C).*1); container := cont |} st.
Proof.
  intros HR HN Hf. apply Rep_plug in HR as [HC HR].
  pose proof (length_ctx_height C (Nd l c kv a b)) as Hlen. simpl in Hlen.
  apply NoDup_plug_inv in HN as (HNs & HNC & Hdisj).
  unfold iter_incr. cbn [current container].
  pose proof (Rep_root_lookup _ _ _ _ _ _ _ HR) as Hn.
  destruct HR as (_ & Ha & Hb).
  rewrite (bind_ok _ _ _ _ _ (get_right_ok _ _ _ Hn)). cbn [right].
  destruct b as [|lb cb kvb b1 b2].
  - cbn [ptr_of].
    assert (NoDup (l :: ctx_locs C)) as HNl.
    { apply NoDup_cons. split; [|done]. apply Hdisj. rewrite locs_Nd. set_solver. }
    assert (length C < fuel)%nat as HlC by lia.
    rewrite (bind_ok _ _ _ _ _ (get_parent_ok _ _ _ Hn)). cbn [parent].
    unfold bind at 1.
    by rewrite (climb_right_spec _ None C l fuel HC HNl eq_refl HlC).
  - change (ptr_of (Nd lb cb kvb b1 b2)) with (Some lb) at 1.
    cbv iota. unfold bind at 1.
    change (Some lb) with (ptr_of (Nd lb cb kvb b1 b2)).
    rewrite (minimum_spec fuel _ _ _ Hb); [|done|simpl in *; lia].
    rewrite locs_Nd. by destruct (locs b1).
Qed.

(** The step [--it] at a node in context: the predecessor, or an error at
    the first node. *)
Lemma iter_decr_at fuel st C l c kv a b cont :
  Rep (heap st) None (plug C (Nd l c kv a b)) →
  NoDup (locs (plug C (Nd l c kv a b))) →
  (height (plug C (Nd l c kv a b)) < fuel)%nat →
  iter_decr fuel {| current := Some l; container := cont |} st
  = match last ((ctx_before C).*1 ++ locs a) with
    | Some p => Ok {| current := Some p; container := cont |} st
    | None => Throw invalid_iterator st
    end.
Proof.
  intros HR HN Hf. apply Rep_plug in HR as [HC HR].
  pose proof (length_ctx_height C (Nd l c kv a b)) as Hlen. simpl in Hlen.
  apply NoDup_plug_inv in HN as (HNs & HNC & Hdisj).
  unfold iter_decr. cbn [current container].
  pose proof (Rep_root_lookup _ _ _ _ _ _ _ HR) as Hn.
  destruct HR as (_ & Ha & Hb).
  rewrite (bind_ok _ _ _ _ _ (get_left_ok _ _ _ Hn)). cbn [left].
  destruct a as [|la ca kva a1 a2].
  - cbn [ptr_of]. unfold locs at 1. simpl. rewrite app_nil_r.
    assert (NoDup (l :: ctx_locs C)) as HNl.
    { apply NoDup_cons. split; [|done]. apply Hdisj. rewrite locs_Nd. set_solver. }
    assert (length C < fuel)%nat as HlC by lia.
    unfold bind at 1.
    rewrite (bind_ok _ _ _ _ _ (get_parent_ok _ _ _ Hn)). cbn [parent].
    rewrite (climb_left_spec _ None C l fuel HC HNl eq_refl HlC).
    by destruct (last (ctx_before C).*1).
  - change (ptr_of (Nd la ca kva a1 a2)) with (Some la) at 1.
    cbv iota. unfold bind at 1.
    change (Some la) with (ptr_of (Nd la ca kva a1 a2)).
    rewrite (maximum_spec fuel _ _ _ Ha); [|simpl in *; lia].
    rewrite last_app.
    assert (is_Some (last (locs (Nd la ca kva a1 a2)))) as [p Hp].
    { rewrite locs_Nd. rewrite last_app. simpl.
      destruct (last (la :: locs a2)) eqn:E; [by eexists|].
      by apply last_None in E. }
    by rewrite Hp.
Qed.

End Traverse.
(** ** Iterating over a map *)

Section Iterate.

Context {Key T : Type}.
Implicit Types (h : gmap loc (Node Key T)) (st : state Key T) (t s : tree Key T)
  (n : Node Key T) (C : list (frame Key T)).

Lemma NoDup_split_index {A} (L L1 L2 : list A) (x : A) (i : nat) :
  NoDup L → L = L1 ++ x :: L2 → L !! i = Some x →
  L1 = take i L ∧ L2 = drop (S i) L.
Proof.
  intros HN -> Hi.
  assert (i = length L1) as ->.
  { eapply NoDup_lookup; [done..|]. by rewrite list_lookup_middle. }
  split.
  - by rewrite take_app_length.
  - rewrite (cons_middle x), app_assoc.
    rewrite drop_app_length'; [done|]. rewrite length_app. simpl. lia.
Qed.

Lemma locs_plug_Nd C l c kv (a b : tree Key T) :
  locs (plug C (Nd l c kv a b))
  = ((ctx_before C).*1 ++ locs a) ++ l :: (locs b ++ (ctx_after C).*1).
Proof.
  unfold locs. rewrite nodes_plug. simpl.
  repeat (rewrite fmap_app || rewrite fmap_cons). simpl. by rewrite <- !app_assoc.
Qed.

Lemma head_drop {A} (L : list A) i : head (drop i L) = L !! i.
Proof. revert i. induction L as [|x L IH]; intros [|i]; simpl; auto. Qed.

Lemma last_take {A} (L : list A) i :
  (i ≤ length L)%nat → last (take i L) = match i with O => None | S j => L !! j end.
Proof.
  revert L. induction i as [|i IH]; intros L Hi.
  - by rewrite take_0.
  - destruct L as [|x L]; simpl in *; [lia|].
    rewrite last_cons, IH by lia. destruct i; [done|].
    simpl. destruct (L !! i) eqn:E; [done|].
    apply lookup_ge_None in E. lia.
Qed.

(** [++] moves from the node at index [i] of the in-order listing to the
    node at index [i + 1], or to the end. *)
Lemma iter_incr_index fuel st this t i l cont :
  is_map st this t → (height t < fuel)%nat → locs t !! i = Some l →
  iter_incr fuel {| current := Some l; container := cont |} st
  = Ok {| current := locs t !! S i; container := cont |} st.
Proof.
  intros (o & Ho & Hr & HR & HN) Hf Hi.
  destruct (locs_decompose t l) as (C & c & kv & a & b & ->).
  { by eapply list_elem_of_lookup_2. }
  rewrite (iter_incr_at fuel st C l c kv a b cont HR HN Hf).
  destruct (NoDup_split_index _ _ _ _ _ HN (locs_plug_Nd C l c kv a b) Hi) as [_ ->].
  by rewrite head_drop.
Qed.

(** [--] moves from the node at index [i + 1] to the node at index [i],
    and fails at the first node. *)
Lemma iter_decr_index fuel st this t i l cont :
  is_map st this t → (height t < fuel)%nat → locs t !! i = Some l →
  iter_decr fuel {| current := Some l; container := cont |} st
  = match i with
    | O => Throw invalid_iterator st
    | S j => Ok {| current := locs t !! j; container := cont |} st
    end.
Proof.
  intros (o & Ho & Hr & HR & HN) Hf Hi.
  destruct (locs_decompose t l) as (C & c & kv & a & b & ->).
  { by eapply list_elem_of_lookup_2. }
  rewrite (iter_decr_at fuel st C l c kv a b cont HR HN Hf).
  destruct (NoDup_split_index _ _ _ _ _ HN (locs_plug_Nd C l c kv a b) Hi) as [-> _].
  rewrite last_take.
  - destruct i as [|j]; [done|].
    destruct (locs (plug C (Nd l c kv a b)) !! j) eqn:E; [done|].
    apply lookup_ge_None in E. apply lookup_lt_Some in Hi. lia.
  - apply lookup_lt_Some in Hi. lia.
Qed.

Lemma begin_spec fuel st this t :
  is_map st this t → (height t < fuel)%nat →
  begin_ fuel this st = Ok {| current := head (locs t); container := Some this |} st.
Proof.
  intros (o & Ho & Hr & HR & HN) Hf. unfold begin_.
  rewrite (bind_ok _ _ _ _ _ (get_root_ok _ _ _ Ho)). rewrite Hr.
  destruct t as [|l c kv a b]; [done|].
  change (ptr_of (Nd l c kv a b)) with (Some l) at 1. cbv iota.
  rewrite (bind_ok _ _ _ _ _ (get_root_ok _ _ _ Ho)). rewrite Hr.
  unfold bind. rewrite (minimum_spec fuel _ _ _ HR); [done|done|lia].
Qed.

Lemma iter_advance_spec fuel st this t i j :
  is_map st this t → (height t < fuel)%nat → (i + j ≤ length (locs t))%nat →
  iter_advance fuel j {| current := locs t !! i; container := Some this |} st
  = Ok {| current := locs t !! (i + j)%nat; container := Some this |} st.
Proof.
  intros Hm Hf. revert i. induction j as [|j IH]; intros i Hij; simpl.
  - by rewrite Nat.add_0_r.
  - destruct (locs t !! i) as [l|] eqn:Hi.
    + rewrite (bind_ok _ _ _ _ _ (iter_incr_index fuel st this t i l _ Hm Hf Hi)).
      rewrite IH by lia. by rewrite Nat.add_succ_r.
    + apply lookup_ge_None in Hi. lia.
Qed.

Lemma decr_end_spec fuel st this t :
  is_map st this t → (height t < fuel)%nat →
  iter_decr fuel {| current := None; container := Some this |} st
  = match last (locs t) with
    | Some p => Ok {| current := Some p; container := Some this |} st
    | None => Throw invalid_iterator st
    end.
Proof.
  intros (o & Ho & Hr & HR & HN) Hf. unfold iter_decr. cbn [current container container_root].
  rewrite (bind_ok _ _ _ _ _ (get_root_ok _ _ _ Ho)). rewrite Hr.
  destruct t as [|l c kv a b]; [done|].
  change (ptr_of (Nd l c kv a b)) with (Some l) at 1. cbv iota.
  rewrite (bind_ok _ _ _ _ _ (get_root_ok _ _ _ Ho)). rewrite Hr.
  unfold bind. rewrite (maximum_spec fuel _ _ _ HR); [|lia].
  rewrite locs_Nd, last_app, last_cons.
  by destruct (last (locs b)).
Qed.

End Iterate.
(** ** Colours under a change of a subtree *)

Section Colours.

Context {Key T : Type}.
Implicit Types (t s : tree Key T) (C : list (frame Key T)).

Lemma black_height_plug C s :
  is_Some (black_height (plug C s)) → is_Some (black_height s).
Proof.
  revert s. induction C as [|F C IH]; intros s; [done|]. simpl. intros H.
  apply IH in H. destruct F; simpl in H; destruct (black_height s); try done.
  destruct (black_height a); by destruct H.
Qed.

Lemma nrr_plug_inv C s : no_red_red (plug C s) = true → no_red_red s = true.
Proof.
  revert s. induction C as [|F C IH]; intros s; [done|]. simpl. intros H.
  apply IH in H. destruct F; simpl in H; rewrite !andb_true_iff in H; tauto.
Qed.

(** A well coloured subtree may take the place of another, unless its
    root is red where the other's was not. *)
Lemma nrr_plug_replace C s s' :
  no_red_red (plug C s) = true → no_red_red s' = true →
  (is_red_tree s' = true → is_red_tree s = true) →
  no_red_red (plug C s') = true.
Proof.
  revert s s'. induction C as [|F C IH]; intros s s' H Hs' Hred; [done|]. simpl in *.
  apply (IH (fill F s)); [done| |by destruct F].
  apply nrr_plug_inv in H.
  destruct F as [l c kv r|l c kv a]; simpl in *;
    apply andb_prop in H as [H H3]; apply andb_prop in H as [H1 H2];
    rewrite Hs', ?H2, ?H3, ?andb_true_r;
    (destruct c; [|done]);
    (destruct (is_red_tree s') eqn:E2; [rewrite (Hred eq_refl) in H1|]);
    destruct (is_red_tree s); simpl in *; try done;
    first [destruct (is_red_tree r)|destruct (is_red_tree a)]; simpl in *; done.
Qed.

(** A subtree with the same number of black nodes on its paths may take
    the place of another. *)
Lemma bh_plug_replace C s s' :
  black_height s' = black_height s →
  black_height (plug C s') = black_height (plug C s).
Proof.
  revert s s'. induction C as [|F C IH]; intros s s' H; [done|]. simpl.
  apply IH. destruct F; simpl; by rewrite H.
Qed.

Lemma nrr_blacken t : no_red_red t = true → no_red_red (blacken t) = true.
Proof.
  destruct t as [|l c kv a b]; [done|]. simpl.
  rewrite !andb_true_iff. tauto.
Qed.

Lemma bh_blacken t : is_Some (black_height t) → is_Some (black_height (blacken t)).
Proof.
  destruct t as [|l c kv a b]; [done|]. simpl.
  destruct (black_height a), (black_height b); try done.
  by case_bool_decide.
Qed.

End Colours.

(** Splits the boolean facts of the context into their atoms. *)
Ltac bool_split :=
  repeat match goal with
  | H : _ && _ = true |- _ => apply andb_prop in H; destruct H
  | H : negb _ = true |- _ => apply negb_true_iff in H
  | H : _ || _ = false |- _ => apply orb_false_elim in H; destruct H
  | H : true && _ = false |- _ => simpl in H
  | H : false && _ = false |- _ => clear H
  end.

Ltac bool_solve :=
  bool_split;
  repeat match goal with
  | H : ?b = _ |- context [?b] => rewrite H
  end;
  simpl; try reflexivity; try congruence.

(** Equality of the black counts of two small trees over the same subtrees. *)
Ltac bh_solve :=
  simpl in *;
  repeat match goal with
  | |- context [black_height ?x] => destruct (black_height x)
  | H : context [black_height ?x] |- _ => destruct (black_height x)
  end;
  repeat (case_bool_decide; simplify_eq; simpl in *);
  try done; try (exfalso; lia);
  repeat match goal with H : is_Some None |- _ => by destruct H end.

Section InsertColours.

Context {Key T : Type}.
Implicit Types (t s a b r u : tree Key T) (C : list (frame Key T)).

Lemma inv_recolour_ll C p kvp r g cg kvg y kvy ua ub zt :
  ins_inv (FL p true kvp r :: FL g cg kvg (Nd y true kvy ua ub) :: C) zt →
  ins_inv C (Nd g true kvg (Nd p false kvp zt r) (Nd y false kvy ua ub)).
Proof.
  intros (Hred & Hz & Hn & Hb). cbn [plug fill] in *.
  pose proof (nrr_plug_inv _ _ Hn) as Hl.
  pose proof (black_height_plug _ _ Hb) as Hbl.
  destruct zt as [|z [|] kvz a b]; try done.
  split_and!.
  - done.
  - simpl in *. destruct cg; bool_solve.
  - eapply nrr_plug_replace; [exact Hn| |done]. simpl in *. destruct cg; bool_solve.
  - rewrite (bh_plug_replace C (Nd g cg kvg (Nd p true kvp (Nd z true kvz a b) r) (Nd y true kvy ua ub))); [done|].
    simpl in Hl. destruct cg; [bool_split; done|]. clear Hl Hn Hz Hb. bh_solve.
Qed.

Lemma inv_recolour_rl C p kvp r g cg kvg y kvy ua ub zt :
  ins_inv (FR p true kvp r :: FL g cg kvg (Nd y true kvy ua ub) :: C) zt →
  ins_inv C (Nd g true kvg (Nd p false kvp r zt) (Nd y false kvy ua ub)).
Proof.
  intros (Hred & Hz & Hn & Hb). cbn [plug fill] in *.
  pose proof (nrr_plug_inv _ _ Hn) as Hl.
  pose proof (black_height_plug _ _ Hb) as Hbl.
  destruct zt as [|z [|] kvz a b]; try done.
  split_and!.
  - done.
  - simpl in *. destruct cg; bool_solve.
  - eapply nrr_plug_replace; [exact Hn| |done]. simpl in *. destruct cg; bool_solve.
  - rewrite (bh_plug_replace C (Nd g cg kvg (Nd p true kvp r (Nd z true kvz a b)) (Nd y true kvy ua ub))); [done|].
    simpl in Hl. destruct cg; [bool_split; done|]. clear Hl Hn Hz Hb. bh_solve.
Qed.

Lemma inv_recolour_lr C p kvp r g cg kvg y kvy ua ub zt :
  ins_inv (FL p true kvp r :: FR g cg kvg (Nd y true kvy ua ub) :: C) zt →
  ins_inv C (Nd g true kvg (Nd y false kvy ua ub) (Nd p false kvp zt r)).
Proof.
  intros (Hred & Hz & Hn & Hb). cbn [plug fill] in *.
  pose proof (nrr_plug_inv _ _ Hn) as Hl.
  pose proof (black_height_plug _ _ Hb) as Hbl.
  destruct zt as [|z [|] kvz a b]; try done.
  split_and!.
  - done.
  - simpl in *. destruct cg; bool_solve.
  - eapply nrr_plug_replace; [exact Hn| |done]. simpl in *. destruct cg; bool_solve.
  - rewrite (bh_plug_replace C (Nd g cg kvg (Nd y true kvy ua ub) (Nd p true kvp (Nd z true kvz a b) r))); [done|].
    simpl in Hl. destruct cg; [bool_split; done|]. clear Hl Hn Hz Hb. bh_solve.
Qed.

Lemma inv_recolour_rr C p kvp r g cg kvg y kvy ua ub zt :
  ins_inv (FR p true kvp r :: FR g cg kvg (Nd y true kvy ua ub) :: C) zt →
  ins_inv C (Nd g true kvg (Nd y false kvy ua ub) (Nd p false kvp r zt)).
Proof.
  intros (Hred & Hz & Hn & Hb). cbn [plug fill] in *.
  pose proof (nrr_plug_inv _ _ Hn) as Hl.
  pose proof (black_height_plug _ _ Hb) as Hbl.
  destruct zt as [|z [|] kvz a b]; try done.
  split_and!.
  - done.
  - simpl in *. destruct cg; bool_solve.
  - eapply nrr_plug_replace; [exact Hn| |done]. simpl in *. destruct cg; bool_solve.
  - rewrite (bh_plug_replace C (Nd g cg kvg (Nd y true kvy ua ub) (Nd p true kvp r (Nd z true kvz a b)))); [done|].
    simpl in Hl. destruct cg; [bool_split; done|]. clear Hl Hn Hz Hb. bh_solve.
Qed.

Lemma inv_rotate_ll C p kvp r g cg kvg u z cz kvz a b :
  ins_inv (FL p true kvp r :: FL g cg kvg u :: C) (Nd z cz kvz a b) → is_red_tree u = false →
  ins_inv (FL p false kvp (Nd g true kvg r u) :: C) (Nd z cz kvz a b).
Proof.
  intros (Hred & Hz & Hn & Hb) Hu. unfold ins_inv. cbn [plug fill blacken] in *.
  pose proof (nrr_plug_inv _ _ Hn) as Hl.
  pose proof (black_height_plug _ _ Hb) as Hbl.
  destruct cz; try done.
  split_and!.
  - done.
  - simpl in *. destruct cg; bool_solve.
  - eapply nrr_plug_replace; [exact Hn| |done]. simpl in *. destruct cg; bool_solve.
  - rewrite (bh_plug_replace C (Nd g cg kvg (Nd p true kvp (Nd z true kvz a b) r) u)); [done|].
    simpl in Hl. destruct cg; [bool_split; done|]. clear Hl Hn Hz Hb. bh_solve.
Qed.

Lemma inv_rotate_rl C p kvp r g cg kvg u z cz kvz a b :
  ins_inv (FR p true kvp r :: FL g cg kvg u :: C) (Nd z cz kvz a b) → is_red_tree u = false →
  ins_inv (FL z false kvz (Nd g true kvg b u) :: C) (Nd p true kvp r a).
Proof.
  intros (Hred & Hz & Hn & Hb) Hu. unfold ins_inv. cbn [plug fill blacken] in *.
  pose proof (nrr_plug_inv _ _ Hn) as Hl.
  pose proof (black_height_plug _ _ Hb) as Hbl.
  destruct cz; try done.
  split_and!.
  - done.
  - simpl in *. destruct cg; bool_solve.
  - eapply nrr_plug_replace; [exact Hn| |done]. simpl in *. destruct cg; bool_solve.
  - rewrite (bh_plug_replace C (Nd g cg kvg (Nd p true kvp r (Nd z true kvz a b)) u)); [done|].
    simpl in Hl. destruct cg; [bool_split; done|]. clear Hl Hn Hz Hb. bh_solve.
Qed.

Lemma inv_rotate_lr C p kvp r g cg kvg u z cz kvz a b :
  ins_inv (FL p true kvp r :: FR g cg kvg u :: C) (Nd z cz kvz a b) → is_red_tree u = false →
  ins_inv (FR z false kvz (Nd g true kvg u a) :: C) (Nd p true kvp b r).
Proof.
  intros (Hred & Hz & Hn & Hb) Hu. unfold ins_inv. cbn [plug fill blacken] in *.
  pose proof (nrr_plug_inv _ _ Hn) as Hl.
  pose proof (black_height_plug _ _ Hb) as Hbl.
  destruct cz; try done.
  split_and!.
  - done.
  - simpl in *. destruct cg; bool_solve.
  - eapply nrr_plug_replace; [exact Hn| |done]. simpl in *. destruct cg; bool_solve.
  - rewrite (bh_plug_replace C (Nd g cg kvg u (Nd p true kvp (Nd z true kvz a b) r))); [done|].
    simpl in Hl. destruct cg; [bool_split; done|]. clear Hl Hn Hz Hb. bh_solve.
Qed.

Lemma inv_rotate_rr C p kvp r g cg kvg u z cz kvz a b :
  ins_inv (FR p true kvp r :: FR g cg kvg u :: C) (Nd z cz kvz a b) → is_red_tree u = false →
  ins_inv (FR p false kvp (Nd g true kvg u r) :: C) (Nd z cz kvz a b).
Proof.
  intros (Hred & Hz & Hn & Hb) Hu. unfold ins_inv. cbn [plug fill blacken] in *.
  pose proof (nrr_plug_inv _ _ Hn) as Hl.
  pose proof (black_height_plug _ _ Hb) as Hbl.
  destruct cz; try done.
  split_and!.
  - done.
  - simpl in *. destruct cg; bool_solve.
  - eapply nrr_plug_replace; [exact Hn| |done]. simpl in *. destruct cg; bool_solve.
  - rewrite (bh_plug_replace C (Nd g cg kvg u (Nd p true kvp r (Nd z true kvz a b)))); [done|].
    simpl in Hl. destruct cg; [bool_split; done|]. clear Hl Hn Hz Hb. bh_solve.
Qed.

(** When the loop ends, blackening the root gives a well coloured tree. *)
Lemma inv_exit_root (zt : tree Key T) :
  ins_inv [] zt →
  no_red_red (blacken zt) = true ∧ is_Some (black_height zt).
Proof. by intros (_ & _ & ? & ?). Qed.

Lemma inv_exit_black F C (zt : tree Key T) :
  ins_inv (F :: C) zt → frame_color F = false →
  no_red_red (blacken (plug (F :: C) zt)) = true ∧
  is_Some (black_height (plug (F :: C) zt)).
Proof.
  intros (Hred & Hz & Hn & Hb) HF. split; [|done]. apply nrr_blacken.
  cbn [plug] in *. eapply nrr_plug_replace; [exact Hn| |by destruct F].
  apply nrr_plug_inv in Hn.
  destruct F as [l c kv r|l c kv r]; simpl in *; subst c; simpl in *; bool_solve.
Qed.

(** A new red leaf in place of a null reference. *)
Lemma inv_new_node C z (kv : Key * T) :
  no_red_red (plug C Leaf) = true → is_Some (black_height (plug C Leaf)) →
  ins_inv C (Nd z true kv Leaf Leaf).
Proof.
  intros Hn Hb. split_and!; [done|done| |].
  - by eapply nrr_plug_replace.
  - by rewrite (bh_plug_replace C Leaf).
Qed.

End InsertColours.
(** ** Recolouring and rotations *)

(** Symbolic execution of loads and stores on a heap built from inserts. *)
Ltac ne_solve := nd_atom.

Ltac lookup_solve :=
  cbn [heap set_heap objs set_objs];
  repeat first
    [ rewrite lookup_insert_eq
    | rewrite lookup_insert_ne by ne_solve ];
  first [ eassumption | reflexivity ].

Ltac msimpl :=
  unfold set_heap, set_objs;
  cbn [ptr_of left right parent color data with_left with_right with_parent
       with_color with_root with_size root map_size end_node heap objs
       fst snd ctx_parent ctx_top frame_loc is_red is_black negb].

Ltac mstep :=
  lazymatch goal with
  | |- context [bind (bind ?m ?f) ?g ?st] => rewrite (bind_assoc m f g st)
  | |- context [bind (ret ?a) ?k ?st] => rewrite (bind_ret a k st)
  | |- context [bind (get_left (Some ?l)) ?k ?st] =>
      erewrite (bind_ok (get_left (Some l)) k st) by (apply get_left_ok; lookup_solve)
  | |- context [bind (get_right (Some ?l)) ?k ?st] =>
      erewrite (bind_ok (get_right (Some l)) k st) by (apply get_right_ok; lookup_solve)
  | |- context [bind (get_parent (Some ?l)) ?k ?st] =>
      erewrite (bind_ok (get_parent (Some l)) k st) by (apply get_parent_ok; lookup_solve)
  | |- context [bind (get_color (Some ?l)) ?k ?st] =>
      erewrite (bind_ok (get_color (Some l)) k st) by (apply get_color_ok; lookup_solve)
  | |- context [bind (get_key (Some ?l)) ?k ?st] =>
      erewrite (bind_ok (get_key (Some l)) k st) by (apply get_key_ok; lookup_solve)
  | |- context [bind (modify (Some ?l) ?f) ?k ?st] =>
      erewrite (bind_ok (modify (Some l) f) k st) by (apply modify_ok; lookup_solve)
  | |- context [bind (get_root ?a) ?k ?st] =>
      erewrite (bind_ok (get_root a) k st) by (apply get_root_ok; lookup_solve)
  | |- context [bind (get_size ?a) ?k ?st] =>
      erewrite (bind_ok (get_size a) k st) by (apply get_size_ok; lookup_solve)
  | |- context [bind (modify_map ?a ?f) ?k ?st] =>
      erewrite (bind_ok (modify_map a f) k st) by (apply modify_map_ok; lookup_solve)
  | |- context [modify (Some ?l) ?f ?st] =>
      erewrite (modify_ok st l _ f) by lookup_solve
  | |- context [modify_map ?a ?f ?st] =>
      erewrite (modify_map_ok st a _ f) by lookup_solve
  end; msimpl.

(** Re-establishing [Rep] and [RepC] on the final heap. *)
Ltac frame_solve :=
  repeat first
    [ assumption
    | apply Rep_insert_ne; [ne_solve|]
    | apply RepC_insert_ne; [ne_solve|]
    | apply Rep_delete_ne; [ne_solve|] ].

Ltac rep_solve :=
  cbn [Rep RepC ptr_of ctx_parent frame_loc];
  repeat match goal with |- _ ∧ _ => split end;
  first [ exact I | lookup_solve | frame_solve ].

Ltac munfold :=
  unfold set_left, set_right, set_parent, set_root, set_size, get_grandparent.

Section Rotate.

Context {Key T : Type}.
Implicit Types (h : gmap loc (Node Key T)) (st : state Key T) (t s : tree Key T)
  (n : Node Key T) (C : list (frame Key T)).

Lemma map_at_is_map st this t sz : map_at st this t sz → is_map st this t.
Proof. intros (o & ? & ? & ? & ? & ?). by exists o. Qed.

Lemma map_at_plug st this C s sz :
  map_at st this (plug C s) sz ↔
  ∃ o, objs st !! this = Some o ∧ root o = ctx_top C (ptr_of s) ∧ map_size o = sz ∧
       RepC (heap st) None C (ptr_of s) ∧ Rep (heap st) (ctx_parent None C) s ∧
       NoDup (locs s ++ ctx_locs C).
Proof.
  unfold map_at. setoid_rewrite Rep_plug. setoid_rewrite ptr_of_plug.
  setoid_rewrite locs_plug. naive_solver.
Qed.

(** [p->color = c'] for a node in context. *)
Lemma set_color_spec st this C l c kv a b sz c' :
  map_at st this (plug C (Nd l c kv a b)) sz →
  ∃ st', set_color (Some l) c' st = Ok tt st' ∧
         map_at st' this (plug C (Nd l c' kv a b)) sz.
Proof.
  rewrite map_at_plug. intros (o & Ho & Hr & Hsz & HC & HR & HN).
  pose proof (Rep_root_lookup _ _ _ _ _ _ _ HR) as Hn.
  destruct HR as (_ & Ha & Hb).
  eexists. split.
  { unfold set_color. by rewrite (modify_ok _ _ _ _ Hn). }
  nd_norm. apply map_at_plug. exists o. msimpl.
  split_and!; [done|done|done|rep_solve|rep_solve|nd_solve].
Qed.

Lemma leftRotate_spec st this C x cx kvx a y cy kvy b c sz :
  map_at st this (plug C (Nd x cx kvx a (Nd y cy kvy b c))) sz →
  ∃ st', leftRotate this (Some x) st = Ok tt st' ∧
         map_at st' this (plug C (Nd y cy kvy (Nd x cx kvx a b) c)) sz.
Proof.
  rewrite map_at_plug. intros (o & Ho & Hr & Hsz & HC & HR & HN).
  pose proof (Rep_root_lookup _ _ _ _ _ _ _ HR) as Hx.
  destruct HR as (_ & Ha & HRy).
  pose proof (Rep_root_lookup _ _ _ _ _ _ _ HRy) as Hy.
  destruct HRy as (_ & Hb & Hc).
  unfold leftRotate. munfold.
  destruct b as [|lb cb kvb b1 b2]; msimpl.
  - (* y has no left child *)
    destruct C as [|[p cp kvp r|p cp kvp a'] C'].
    + simpl in Hr. nd_norm. repeat mstep. eexists. split; [reflexivity|].
      apply map_at_plug. eexists. msimpl. split_and!;
        [apply lookup_insert_eq|reflexivity|done|rep_solve|rep_solve|nd_solve].
    + simpl in HC. destruct HC as ((Hp & Hr') & HC). nd_norm.
      repeat mstep. rewrite ptr_eqb_refl. repeat mstep.
      eexists. split; [reflexivity|].
      apply map_at_plug. exists o. msimpl. split_and!; [done|done|done|rep_solve|rep_solve|nd_solve].
    + simpl in HC. destruct HC as ((Hp & Hr') & HC). nd_norm.
      repeat mstep. rewrite ptr_eqb_ne by (by apply ptr_of_ne). repeat mstep.
      eexists. split; [reflexivity|].
      apply map_at_plug. exists o. msimpl. split_and!; [done|done|done|rep_solve|rep_solve|nd_solve].
  - (* y has a left child *)
    pose proof (Rep_root_lookup _ _ _ _ _ _ _ Hb) as Hlb.
    destruct Hb as (_ & Hb1 & Hb2).
    destruct C as [|[p cp kvp r|p cp kvp a'] C'].
    + simpl in Hr. nd_norm. repeat mstep. eexists. split; [reflexivity|].
      apply map_at_plug. eexists. msimpl. split_and!;
        [apply lookup_insert_eq|reflexivity|done|rep_solve|rep_solve|nd_solve].
    + simpl in HC. destruct HC as ((Hp & Hr') & HC). nd_norm.
      repeat mstep. rewrite ptr_eqb_refl. repeat mstep.
      eexists. split; [reflexivity|].
      apply map_at_plug. exists o. msimpl. split_and!; [done|done|done|rep_solve|rep_solve|nd_solve].
    + simpl in HC. destruct HC as ((Hp & Hr') & HC). nd_norm.
      repeat mstep. rewrite ptr_eqb_ne by (by apply ptr_of_ne). repeat mstep.
      eexists. split; [reflexivity|].
      apply map_at_plug. exists o. msimpl. split_and!; [done|done|done|rep_solve|rep_solve|nd_solve].
Qed.

Lemma rightRotate_spec st this C x cx kvx y cy kvy a b c sz :
  map_at st this (plug C (Nd x cx kvx (Nd y cy kvy a b) c)) sz →
  ∃ st', rightRotate this (Some x) st = Ok tt st' ∧
         map_at st' this (plug C (Nd y cy kvy a (Nd x cx kvx b c))) sz.
Proof.
  rewrite map_at_plug. intros (o & Ho & Hr & Hsz & HC & HR & HN).
  pose proof (Rep_root_lookup _ _ _ _ _ _ _ HR) as Hx.
  destruct HR as (_ & HRy & Hc).
  pose proof (Rep_root_lookup _ _ _ _ _ _ _ HRy) as Hy.
  destruct HRy as (_ & Ha & Hb).
  unfold rightRotate. munfold.
  destruct b as [|lb cb kvb b1 b2]; msimpl.
  - (* y has no right child *)
    destruct C as [|[p cp kvp r|p cp kvp a'] C'].
    + simpl in Hr. nd_norm. repeat mstep. eexists. split; [reflexivity|].
      apply map_at_plug. eexists. msimpl. split_and!;
        [apply lookup_insert_eq|reflexivity|done|rep_solve|rep_solve|nd_solve].
    + simpl in HC. destruct HC as ((Hp & Hr') & HC). nd_norm.
      repeat mstep. rewrite ptr_eqb_ne by (by apply ptr_of_ne). repeat mstep.
      eexists. split; [reflexivity|].
      apply map_at_plug. exists o. msimpl. split_and!; [done|done|done|rep_solve|rep_solve|nd_solve].
    + simpl in HC. destruct HC as ((Hp & Hr') & HC). nd_norm.
      repeat mstep. rewrite ptr_eqb_refl. repeat mstep.
      eexists. split; [reflexivity|].
      apply map_at_plug. exists o. msimpl. split_and!; [done|done|done|rep_solve|rep_solve|nd_solve].
  - (* y has a right child *)
    pose proof (Rep_root_lookup _ _ _ _ _ _ _ Hb) as Hlb.
    destruct Hb as (_ & Hb1 & Hb2).
    destruct C as [|[p cp kvp r|p cp kvp a'] C'].
    + simpl in Hr. nd_norm. repeat mstep. eexists. split; [reflexivity|].
      apply map_at_plug. eexists. msimpl. split_and!;
        [apply lookup_insert_eq|reflexivity|done|rep_solve|rep_solve|nd_solve].
    + simpl in HC. destruct HC as ((Hp & Hr') & HC). nd_norm.
      repeat mstep. rewrite ptr_eqb_ne by (by apply ptr_of_ne). repeat mstep.
      eexists. split; [reflexivity|].
      apply map_at_plug. exists o. msimpl. split_and!; [done|done|done|rep_solve|rep_solve|nd_solve].
    + simpl in HC. destruct HC as ((Hp & Hr') & HC). nd_norm.
      repeat mstep. rewrite ptr_eqb_refl. repeat mstep.
      eexists. split; [reflexivity|].
      apply map_at_plug. exists o. msimpl. split_and!; [done|done|done|rep_solve|rep_solve|nd_solve].
Qed.

End Rotate.
(** ** Insertion fix-up *)

Section FixInsert.

Context {Key T : Type}.
Implicit Types (h : gmap loc (Node Key T)) (st : state Key T) (t s : tree Key T)
  (n : Node Key T) (C : list (frame Key T)).

Lemma map_at_lookup st this C l c kv a b sz :
  map_at st this (plug C (Nd l c kv a b)) sz →
  heap st !! l = Some {| data := kv; left := ptr_of a; right := ptr_of b;
                         parent := ctx_parent None C; color := c |}.
Proof.
  rewrite map_at_plug. intros (o & Ho & Hr & Hsz & HC & HR & HN).
  by apply Rep_root_lookup in HR.
Qed.

Lemma map_at_root st this t sz :
  map_at st this t sz → get_root this st = Ok (ptr_of t) st.
Proof. intros (o & Ho & Hr & _). rewrite <- Hr. by apply get_root_ok. Qed.

(** Nodes one and two levels below the focus. *)
Lemma map_at_lookup_l {st this C l c kv l1 c1 kv1 a1 b1 b sz} :
  map_at st this (plug C (Nd l c kv (Nd l1 c1 kv1 a1 b1) b)) sz →
  heap st !! l1 = Some {| data := kv1; left := ptr_of a1; right := ptr_of b1;
                          parent := Some l; color := c1 |}.
Proof. apply (map_at_lookup st this (FL l c kv b :: C)). Qed.

Lemma map_at_lookup_r {st this C l c kv a l1 c1 kv1 a1 b1 sz} :
  map_at st this (plug C (Nd l c kv a (Nd l1 c1 kv1 a1 b1))) sz →
  heap st !! l1 = Some {| data := kv1; left := ptr_of a1; right := ptr_of b1;
                          parent := Some l; color := c1 |}.
Proof. apply (map_at_lookup st this (FR l c kv a :: C)). Qed.

Lemma map_at_lookup_ll {st this C l c kv l1 c1 kv1 l2 c2 kv2 a2 b2 b1 b sz} :
  map_at st this (plug C (Nd l c kv (Nd l1 c1 kv1 (Nd l2 c2 kv2 a2 b2) b1) b)) sz →
  heap st !! l2 = Some {| data := kv2; left := ptr_of a2; right := ptr_of b2;
                          parent := Some l1; color := c2 |}.
Proof. apply (map_at_lookup st this (FL l1 c1 kv1 b1 :: FL l c kv b :: C)). Qed.

Lemma map_at_lookup_lr {st this C l c kv l1 c1 kv1 a1 l2 c2 kv2 a2 b2 b sz} :
  map_at st this (plug C (Nd l c kv (Nd l1 c1 kv1 a1 (Nd l2 c2 kv2 a2 b2)) b)) sz →
  heap st !! l2 = Some {| data := kv2; left := ptr_of a2; right := ptr_of b2;
                          parent := Some l1; color := c2 |}.
Proof. apply (map_at_lookup st this (FR l1 c1 kv1 a1 :: FL l c kv b :: C)). Qed.

Lemma map_at_lookup_rl {st this C l c kv a l1 c1 kv1 l2 c2 kv2 a2 b2 b1 sz} :
  map_at st this (plug C (Nd l c kv a (Nd l1 c1 kv1 (Nd l2 c2 kv2 a2 b2) b1))) sz →
  heap st !! l2 = Some {| data := kv2; left := ptr_of a2; right := ptr_of b2;
                          parent := Some l1; color := c2 |}.
Proof. apply (map_at_lookup st this (FL l1 c1 kv1 b1 :: FR l c kv a :: C)). Qed.

Lemma map_at_lookup_rr {st this C l c kv a l1 c1 kv1 a1 l2 c2 kv2 a2 b2 sz} :
  map_at st this (plug C (Nd l c kv a (Nd l1 c1 kv1 a1 (Nd l2 c2 kv2 a2 b2)))) sz →
  heap st !! l2 = Some {| data := kv2; left := ptr_of a2; right := ptr_of b2;
                          parent := Some l1; color := c2 |}.
Proof. apply (map_at_lookup st this (FR l1 c1 kv1 a1 :: FR l c kv a :: C)). Qed.

Lemma is_red_spec st par t :
  Rep (heap st) par t → is_red (ptr_of t) st = Ok (is_red_tree t) st.
Proof.
  destruct t as [|l c kv a b]; [done|]. intros (Hn & _). cbn [ptr_of is_red].
  rewrite (get_color_ok _ _ _ Hn). by destruct c.
Qed.

Lemma map_at_is_red_l {st this C l c kv a b sz} :
  map_at st this (plug C (Nd l c kv a b)) sz →
  is_red (ptr_of a) st = Ok (is_red_tree a) st.
Proof.
  rewrite map_at_plug. intros (o & Ho & Hr & Hsz & HC & (_ & Ha & Hb) & HN).
  by eapply is_red_spec.
Qed.

Lemma map_at_is_red_r {st this C l c kv a b sz} :
  map_at st this (plug C (Nd l c kv a b)) sz →
  is_red (ptr_of b) st = Ok (is_red_tree b) st.
Proof.
  rewrite map_at_plug. intros (o & Ho & Hr & Hsz & HC & (_ & Ha & Hb) & HN).
  by eapply is_red_spec.
Qed.

(** Recolouring a child of the focus. *)
Lemma set_color_l {st this C l c kv l1 c1 kv1 a1 b1 b sz} c' :
  map_at st this (plug C (Nd l c kv (Nd l1 c1 kv1 a1 b1) b)) sz →
  ∃ st', set_color (Some l1) c' st = Ok tt st' ∧
         map_at st' this (plug C (Nd l c kv (Nd l1 c' kv1 a1 b1) b)) sz.
Proof. apply (set_color_spec st this (FL l c kv b :: C)). Qed.

Lemma set_color_r {st this C l c kv a l1 c1 kv1 a1 b1 sz} c' :
  map_at st this (plug C (Nd l c kv a (Nd l1 c1 kv1 a1 b1))) sz →
  ∃ st', set_color (Some l1) c' st = Ok tt st' ∧
         map_at st' this (plug C (Nd l c kv a (Nd l1 c' kv1 a1 b1))) sz.
Proof. apply (set_color_spec st this (FR l c kv a :: C)). Qed.

Lemma set_color_0 {st this C l c kv a b sz} c' :
  map_at st this (plug C (Nd l c kv a b)) sz →
  ∃ st', set_color (Some l) c' st = Ok tt st' ∧
         map_at st' this (plug C (Nd l c' kv a b)) sz.
Proof. apply set_color_spec. Qed.

(** Rotations at a child of the focus. *)
Lemma leftRotate_l {st this C l c kv x cx kvx a y cy kvy b1 b2 b sz} :
  map_at st this (plug C (Nd l c kv (Nd x cx kvx a (Nd y cy kvy b1 b2)) b)) sz →
  ∃ st', leftRotate this (Some x) st = Ok tt st' ∧
         map_at st' this (plug C (Nd l c kv (Nd y cy kvy (Nd x cx kvx a b1) b2) b)) sz.
Proof. apply (leftRotate_spec st this (FL l c kv b :: C)). Qed.

Lemma rightRotate_r {st this C l c kv a x cx kvx y cy kvy a1 a2 b sz} :
  map_at st this (plug C (Nd l c kv a (Nd x cx kvx (Nd y cy kvy a1 a2) b))) sz →
  ∃ st', rightRotate this (Some x) st = Ok tt st' ∧
         map_at st' this (plug C (Nd l c kv a (Nd y cy kvy a1 (Nd x cx kvx a2 b)))) sz.
Proof. apply (rightRotate_spec st this (FR l c kv a :: C)). Qed.

Lemma map_at_nodup st this C s sz :
  map_at st this (plug C s) sz → NoDup (locs s ++ ctx_locs C).
Proof. rewrite map_at_plug. naive_solver. Qed.

Lemma nodes_blacken t : nodes (blacken t) = nodes t.
Proof. by destruct t. Qed.

Lemma root_black_blacken t : root_black (blacken t).
Proof. by destruct t. Qed.

(** [root->color = false] *)
Lemma set_root_black st this t sz :
  map_at st this t sz → t ≠ Leaf →
  ∃ st', (let* r := get_root this in set_color r false) st = Ok tt st' ∧
         map_at st' this (blacken t) sz.
Proof.
  intros Hm Ht. rewrite (bind_ok _ _ _ _ _ (map_at_root _ _ _ _ Hm)).
  destruct t as [|l c kv a b]; [done|].
  apply (set_color_spec st this [] l c kv a b sz false Hm).
Qed.

Lemma ctx_top_black_cons F F' C : ctx_top_black (F :: F' :: C) ↔ ctx_top_black (F' :: C).
Proof. done. Qed.

Lemma ctx_top_black_cons2 F C :
  ctx_top_black C → (C = [] → frame_color F = false) → ctx_top_black (F :: C).
Proof. destruct C; [|done]. intros _ H. by apply H. Qed.

Lemma ctx_top_black_tail F C : ctx_top_black (F :: C) → ctx_top_black C.
Proof. by destruct C. Qed.

End FixInsert.

(** Poses the node records readable around the focus of [H]. *)
Ltac lookups H :=
  try (pose proof (map_at_lookup _ _ _ _ _ _ _ _ _ H));
  try (pose proof (map_at_lookup_l H));
  try (pose proof (map_at_lookup_r H));
  try (pose proof (map_at_lookup_ll H));
  try (pose proof (map_at_lookup_lr H));
  try (pose proof (map_at_lookup_rl H));
  try (pose proof (map_at_lookup_rr H)).

(** Runs a store or rotation through its specification [L]. *)
Ltac use_spec L :=
  let st' := fresh "st" in
  let E := fresh "E" in
  let H := fresh "Hm" in
  destruct L as (st' & E & H);
  first [ rewrite (bind_ok _ _ _ _ _ E) | rewrite E ];
  clear E; lookups H.

Ltac loop_exit H :=
  do 3 eexists; split_and!;
    [ reflexivity | exact H | reflexivity
    | first [ exact (inv_exit_root _)
            | let HI := fresh "HI" in
              intros HI; apply (inv_exit_black _ _ _ HI); reflexivity ] ].

(** Two pointers around the focus of [H] differ. *)
Ltac ptr_ne H :=
  apply ptr_of_ne;
  let HN := fresh "HN" in
  pose proof (map_at_nodup _ _ _ _ _ H) as HN; nd_solve.

Ltac nodes_eq :=
  rewrite ?nodes_plug; cbn [nodes ctx_before ctx_after app];
  repeat (progress (rewrite <- ?app_assoc; cbn [app])); reflexivity.

Section FixInsertLoop.

Context {Key T : Type}.
Implicit Types (h : gmap loc (Node Key T)) (st : state Key T) (t s : tree Key T)
  (n : Node Key T) (C : list (frame Key T)).

Lemma fixInsert_loop_spec m st this C z cz kvz a b sz :
  map_at st this (plug C (Nd z cz kvz a b)) sz →
  ctx_top_black C → (length C < m)%nat →
  ∃ st' t' z', fixInsert_loop this m (Some z) st = Ok z' st' ∧
    map_at st' this t' sz ∧ nodes t' = nodes (plug C (Nd z cz kvz a b)) ∧
    (ins_inv C (Nd z cz kvz a b) →
     no_red_red (blacken t') = true ∧ is_Some (black_height t')).
Proof.
  revert st C z cz kvz a b.
  induction m as [|m IH]; intros st C z cz kvz a b Hm Hblack Hlen; [lia|].
  cbn [fixInsert_loop]. munfold.
  destruct C as [|F1 C1].
  { lookups Hm. repeat mstep. loop_exit Hm. }
  destruct F1 as [p cp kvp r|p cp kvp r].
  - (* z is a left child *)
    pose proof (map_at_lookup st this (FL p cp kvp r :: C1) z _ _ _ _ sz Hm) as Hz.
    pose proof (map_at_lookup st this C1 p cp kvp (Nd z cz kvz a b) r sz Hm) as Hp.
    repeat mstep.
    destruct cp; [|loop_exit Hm].
    destruct C1 as [|F2 C2]; [done|].
    apply ctx_top_black_cons in Hblack. simpl in Hlen. cbn [negb].
    destruct F2 as [g cg kvg u|g cg kvg u]; cbn [plug fill] in Hm.
    + (* the parent is a left child *)
      lookups Hm. repeat mstep. rewrite ptr_eqb_refl. repeat mstep.
      rewrite (bind_ok _ _ _ _ _ (map_at_is_red_r Hm)).
      destruct (is_red_tree u) eqn:Hu.
      * (* red uncle: recolour and continue from the grandparent *)
        destruct u as [|y [|] kvy ua ub]; try done.
        use_spec (set_color_l false Hm).
        use_spec (set_color_r false Hm0).
        repeat mstep.
        use_spec (set_color_0 true Hm1).
        repeat mstep.
        destruct (IH st2 C2 g true kvg _ _ Hm2) as (st' & t' & z' & E & Hm' & Hn & HI');
          [by eapply ctx_top_black_tail|lia|].
        exists st', t', z'. split_and!; [done|done|rewrite Hn; nodes_eq|].
        intros HI. apply HI'. eapply inv_recolour_ll. exact HI.
      * (* black uncle: z is an outer child, rotate at the grandparent *)
        repeat mstep.
        rewrite ptr_eqb_ne by ptr_ne Hm. repeat mstep.
        use_spec (set_color_l false Hm).
        repeat mstep.
        use_spec (set_color_0 true Hm0).
        repeat mstep.
        use_spec (rightRotate_spec _ _ _ _ _ _ _ _ _ _ _ _ _ Hm1).
        destruct (IH st2 (FL p false kvp (Nd g true kvg r u) :: C2) z cz kvz a b Hm2)
          as (st' & t' & z' & E & Hm' & Hn & HI');
          [by apply ctx_top_black_cons2; [eapply ctx_top_black_tail|]|simpl; lia|].
        exists st', t', z'. split_and!; [done|done|rewrite Hn; nodes_eq|].
        intros HI. apply HI'. eapply inv_rotate_ll; [exact HI|exact Hu].
    + (* the parent is a right child *)
      lookups Hm. repeat mstep. rewrite ptr_eqb_ne by ptr_ne Hm. repeat mstep.
      rewrite (bind_ok _ _ _ _ _ (map_at_is_red_l Hm)).
      destruct (is_red_tree u) eqn:Hu.
      * destruct u as [|y [|] kvy ua ub]; try done.
        use_spec (set_color_r false Hm).
        use_spec (set_color_l false Hm0).
        repeat mstep.
        use_spec (set_color_0 true Hm1).
        repeat mstep.
        destruct (IH st2 C2 g true kvg _ _ Hm2) as (st' & t' & z' & E & Hm' & Hn & HI');
          [by eapply ctx_top_black_tail|lia|].
        exists st', t', z'. split_and!; [done|done|rewrite Hn; nodes_eq|].
        intros HI. apply HI'. eapply inv_recolour_lr. exact HI.
      * (* black uncle: z is an inner child, rotate at the parent first *)
        repeat mstep. rewrite ptr_eqb_refl. repeat mstep.
        use_spec (rightRotate_r Hm).
        repeat mstep.
        use_spec (set_color_r false Hm0).
        repeat mstep.
        use_spec (set_color_0 true Hm1).
        repeat mstep.
        use_spec (leftRotate_spec _ _ _ _ _ _ _ _ _ _ _ _ _ Hm2).
        destruct (IH st3 (FR z false kvz (Nd g true kvg u a) :: C2) p true kvp b r Hm3)
          as (st' & t' & z' & E & Hm' & Hn & HI');
          [by apply ctx_top_black_cons2; [eapply ctx_top_black_tail|]|simpl; lia|].
        exists st', t', z'. split_and!; [done|done|rewrite Hn; nodes_eq|].
        intros HI. apply HI'. eapply inv_rotate_lr; [exact HI|exact Hu].
  - (* z is a right child *)
    pose proof (map_at_lookup st this (FR p cp kvp r :: C1) z _ _ _ _ sz Hm) as Hz.
    pose proof (map_at_lookup st this C1 p cp kvp r (Nd z cz kvz a b) sz Hm) as Hp.
    repeat mstep.
    destruct cp; [|loop_exit Hm].
    destruct C1 as [|F2 C2]; [done|].
    apply ctx_top_black_cons in Hblack. simpl in Hlen. cbn [negb].
    destruct F2 as [g cg kvg u|g cg kvg u]; cbn [plug fill] in Hm.
    + (* the parent is a left child *)
      lookups Hm. repeat mstep. rewrite ptr_eqb_refl. repeat mstep.
      rewrite (bind_ok _ _ _ _ _ (map_at_is_red_r Hm)).
      destruct (is_red_tree u) eqn:Hu.
      * destruct u as [|y [|] kvy ua ub]; try done.
        use_spec (set_color_l false Hm).
        use_spec (set_color_r false Hm0).
        repeat mstep.
        use_spec (set_color_0 true Hm1).
        repeat mstep.
        destruct (IH st2 C2 g true kvg _ _ Hm2) as (st' & t' & z' & E & Hm' & Hn & HI');
          [by eapply ctx_top_black_tail|lia|].
        exists st', t', z'. split_and!; [done|done|rewrite Hn; nodes_eq|].
        intros HI. apply HI'. eapply inv_recolour_rl. exact HI.
      * (* black uncle: z is an inner child, rotate at the parent first *)
        repeat mstep. rewrite ptr_eqb_refl. repeat mstep.
        use_spec (leftRotate_l Hm).
        repeat mstep.
        use_spec (set_color_l false Hm0).
        repeat mstep.
        use_spec (set_color_0 true Hm1).
        repeat mstep.
        use_spec (rightRotate_spec _ _ _ _ _ _ _ _ _ _ _ _ _ Hm2).
        destruct (IH st3 (FL z false kvz (Nd g true kvg b u) :: C2) p true kvp r a Hm3)
          as (st' & t' & z' & E & Hm' & Hn & HI');
          [by apply ctx_top_black_cons2; [eapply ctx_top_black_tail|]|simpl; lia|].
        exists st', t', z'. split_and!; [done|done|rewrite Hn; nodes_eq|].
        intros HI. apply HI'. eapply inv_rotate_rl; [exact HI|exact Hu].
    + (* the parent is a right child *)
      lookups Hm. repeat mstep. rewrite ptr_eqb_ne by ptr_ne Hm. repeat mstep.
      rewrite (bind_ok _ _ _ _ _ (map_at_is_red_l Hm)).
      destruct (is_red_tree u) eqn:Hu.
      * destruct u as [|y [|] kvy ua ub]; try done.
        use_spec (set_color_r false Hm).
        use_spec (set_color_l false Hm0).
        repeat mstep.
        use_spec (set_color_0 true Hm1).
        repeat mstep.
        destruct (IH st2 C2 g true kvg _ _ Hm2) as (st' & t' & z' & E & Hm' & Hn & HI');
          [by eapply ctx_top_black_tail|lia|].
        exists st', t', z'. split_and!; [done|done|rewrite Hn; nodes_eq|].
        intros HI. apply HI'. eapply inv_recolour_rr. exact HI.
      * (* black uncle: z is an outer child, rotate at the grandparent *)
        repeat mstep. rewrite ptr_eqb_ne by ptr_ne Hm. repeat mstep.
        use_spec (set_color_r false Hm).
        repeat mstep.
        use_spec (set_color_0 true Hm0).
        repeat mstep.
        use_spec (leftRotate_spec _ _ _ _ _ _ _ _ _ _ _ _ _ Hm1).
        destruct (IH st2 (FR p false kvp (Nd g true kvg u r) :: C2) z cz kvz a b Hm2)
          as (st' & t' & z' & E & Hm' & Hn & HI');
          [by apply ctx_top_black_cons2; [eapply ctx_top_black_tail|]|simpl; lia|].
        exists st', t', z'. split_and!; [done|done|rewrite Hn; nodes_eq|].
        intros HI. apply HI'. eapply inv_rotate_rr; [exact HI|exact Hu].
Qed.

End FixInsertLoop.
(** ** Insertion: [insertNode] *)

Section Insert.

Context {Key T : Type}.
Variable comp : Key → Key → bool.
Implicit Types (h : gmap loc (Node Key T)) (st : state Key T) (t s : tree Key T)
  (n : Node Key T) (C : list (frame Key T)) (k : Key).

Lemma insertNode_loop_spec m st C t k :
  Rep (heap st) (ctx_parent None C) t → (height t < m)%nat →
  insertNode_loop comp m k (ctx_parent None C) (ptr_of t) st
  = Ok (match descend comp k t C with
        | inl x => inl x
        | inr C' => inr (ctx_parent None C')
        end) st.
Proof.
  revert C t. induction m as [|m IH]; intros C t HR Hm; [lia|].
  destruct t as [|l c kv a b]; [done|].
  destruct HR as (Hn & Ha & Hb). simpl in Hm. cbn [insertNode_loop ptr_of descend].
  rewrite (bind_ok _ _ _ _ _ (get_key_ok _ _ _ Hn)). cbn [data fst].
  destruct (comp k kv.1).
  - rewrite (bind_ok _ _ _ _ _ (get_left_ok _ _ _ Hn)). cbn [left].
    apply (IH (FL l c kv b :: C) a); [done|lia].
  - rewrite (bind_ok _ _ _ _ _ (get_key_ok _ _ _ Hn)). cbn [data fst].
    destruct (comp kv.1 k); [|done].
    rewrite (bind_ok _ _ _ _ _ (get_right_ok _ _ _ Hn)). cbn [right].
    apply (IH (FR l c kv a :: C) b); [done|lia].
Qed.

Lemma descend_inl k t C x :
  descend comp k t C = inl x → lookup_tree comp k t = x ∧ x ≠ None.
Proof.
  revert C. induction t as [|l c kv a IHa b IHb]; intros C; simpl; [done|].
  destruct (comp k kv.1); [apply IHa|].
  destruct (comp kv.1 k); [apply IHb|]. by intros [= <-].
Qed.

Lemma descend_inr k t C C' :
  descend comp k t C = inr C' →
  plug C t = plug C' Leaf ∧ lookup_tree comp k t = None ∧
  (ctx_dir_ok comp k C → ctx_dir_ok comp k C') ∧
  (length C' ≤ length C + height t)%nat.
Proof.
  revert C. induction t as [|l c kv a IHa b IHb]; intros C; simpl.
  - intros [= <-]. split_and!; [done..|lia].
  - destruct (comp k kv.1) eqn:E1; [|destruct (comp kv.1 k) eqn:E2; [|done]].
    + intros H. destruct (IHa _ H) as (H1 & H2 & H3 & H4). simpl in *.
      split_and!; [done|done|auto|lia].
    + intros H. destruct (IHb _ H) as (H1 & H2 & H3 & H4). simpl in *.
      split_and!; [done|done|auto|lia].
Qed.

Lemma RepC_lookup h par C p l :
  RepC h par C p → l ∈ ctx_locs C → is_Some (h !! l).
Proof.
  revert p. induction C as [|F C IH]; intros p; simpl.
  - intros _ H. by apply elem_of_nil in H.
  - intros [HF HC]. rewrite elem_of_cons, elem_of_app. intros [->|[H|H]].
    + destruct F; destruct HF as [HF _]; simpl; eauto.
    + destruct F; destruct HF as [_ HF]; by eapply Rep_lookup.
    + by eapply IH.
Qed.

Lemma fresh_not_in_ctx st C p :
  RepC (heap st) None C p → fresh (dom (heap st)) ∉ ctx_locs C.
Proof.
  intros HC Hin. destruct (RepC_lookup _ _ _ _ _ HC Hin) as [n Hn].
  apply (is_fresh (dom (heap st))). apply elem_of_dom. eauto.
Qed.

Lemma fresh_lookup st : heap st !! fresh (dom (heap st)) = None.
Proof. apply not_elem_of_dom. apply is_fresh. Qed.

(** Allocating the new node and linking it below its parent. *)
Lemma attach_spec st this C value sz :
  map_at st this (plug C Leaf) sz → ctx_dir_ok comp (fst value) C →
  ∃ st1 st' z,
    alloc (new_Node value (ctx_parent None C)) st = Ok (Some z) st1 ∧
    match ctx_parent None C with
    | None => set_root this (Some z)
    | Some _ =>
        let* k := get_key (ctx_parent None C) in
        if comp (fst value) k then set_left (ctx_parent None C) (Some z)
        else set_right (ctx_parent None C) (Some z)
    end st1 = Ok tt st' ∧
    map_at st' this (plug C (Nd z true value Leaf Leaf)) sz.
Proof.
  rewrite map_at_plug. intros (o & Ho & Hr & Hsz & HC & _ & HN) Hdir.
  pose proof (fresh_not_in_ctx _ _ _ HC) as Hfresh.
  pose proof (fresh_lookup st) as Hnone.
  unfold alloc. set (z := fresh (dom (heap st))) in *. munfold.
  destruct C as [|[y cy kvy r|y cy kvy r] C'].
  - eexists _, _, z. split; [reflexivity|].
    msimpl. simpl in Hr. repeat mstep. split; [reflexivity|].
    apply map_at_plug. eexists. msimpl.
    split_and!; [apply lookup_insert_eq|reflexivity|done|done|rep_solve|nd_solve].
  - simpl in HC. destruct HC as ((Hy & Hr') & HC). simpl in Hdir. nd_norm.
    eexists _, _, z. split; [reflexivity|].
    msimpl. repeat mstep. rewrite Hdir. repeat mstep.
    split; [reflexivity|].
    apply map_at_plug. exists o. msimpl.
    split_and!; [done|done|done|rep_solve|rep_solve|nd_solve].
  - simpl in HC. destruct HC as ((Hy & Hr') & HC). simpl in Hdir. nd_norm.
    eexists _, _, z. split; [reflexivity|].
    msimpl. repeat mstep. rewrite Hdir. repeat mstep.
    split; [reflexivity|].
    apply map_at_plug. exists o. msimpl.
    split_and!; [done|done|done|rep_solve|rep_solve|nd_solve].
Qed.

Lemma ctx_top_black_plug C s :
  C ≠ [] → root_black (plug C s) → ctx_top_black C.
Proof.
  revert s. induction C as [|F C IH]; intros s HC; [done|]. simpl.
  destruct C as [|F' C].
  - simpl. by destruct F.
  - intros H. apply ctx_top_black_cons. by eapply IH.
Qed.

Lemma fixInsert_spec fuel st this C z cz kvz a b sz :
  map_at st this (plug C (Nd z cz kvz a b)) sz →
  ctx_top_black C → (length C < fuel)%nat →
  ∃ st' t', fixInsert fuel this (Some z) st = Ok tt st' ∧
    map_at st' this t' sz ∧ nodes t' = nodes (plug C (Nd z cz kvz a b)) ∧
    root_black t' ∧
    (ins_inv C (Nd z cz kvz a b) →
     no_red_red t' = true ∧ is_Some (black_height t')).
Proof.
  intros Hm Hb Hf.
  destruct (fixInsert_loop_spec fuel st this C z cz kvz a b sz Hm Hb Hf)
    as (st1 & t1 & z1 & E1 & Hm1 & Hn1 & HI1).
  unfold fixInsert. rewrite (bind_ok _ _ _ _ _ E1).
  destruct (set_root_black st1 this t1 sz Hm1) as (st2 & E2 & Hm2).
  { intros ->. rewrite nodes_plug in Hn1. simpl in Hn1.
    by destruct (ctx_before C), (nodes a). }
  exists st2, (blacken t1). split_and!; [done|done| |apply root_black_blacken|].
  - by rewrite nodes_blacken.
  - intros HI. destruct (HI1 HI) as [H1 H2]. split; [done|by apply bh_blacken].
Qed.

Lemma incr_size_spec st this t sz :
  map_at st this t sz →
  ∃ st', incr_size this st = Ok tt st' ∧ map_at st' this t (wrap (sz + 1)).
Proof.
  intros (o & Ho & Hr & Hsz & HR & HN). unfold incr_size. munfold.
  repeat mstep. eexists. split; [reflexivity|].
  eexists. msimpl. split_and!; [apply lookup_insert_eq|done|by rewrite Hsz|done|done].
Qed.

Lemma decr_size_spec st this t sz :
  map_at st this t sz →
  ∃ st', decr_size this st = Ok tt st' ∧ map_at st' this t (wrap (sz - 1)).
Proof.
  intros (o & Ho & Hr & Hsz & HR & HN). unfold decr_size. munfold.
  repeat mstep. eexists. split; [reflexivity|].
  eexists. msimpl. split_and!; [apply lookup_insert_eq|done|by rewrite Hsz|done|done].
Qed.

(** [insertNode] of a key that is not in the tree: a new red node is
    attached where the search ends and the fix-up restores a black root.
    The in-order listing gains exactly the new node. *)
Lemma insertNode_absent fuel st this t value sz :
  map_at st this t sz → root_black t →
  lookup_tree comp (fst value) t = None → (height t < fuel)%nat →
  ∃ st' t' z C,
    insertNode comp fuel this value st = Ok (Some z) st' ∧
    map_at st' this t' (wrap (sz + 1)) ∧ root_black t' ∧
    descend comp (fst value) t [] = inr C ∧
    nodes t = ctx_before C ++ ctx_after C ∧
    nodes t' = ctx_before C ++ (z, value) :: ctx_after C ∧
    (no_red_red t = true → is_Some (black_height t) →
     no_red_red t' = true ∧ is_Some (black_height t')).
Proof.
  intros Hm Hb Hl Hf. pose proof Hm as (o & Ho & Hr & Hsz & HR & HN).
  unfold insertNode.
  rewrite (bind_ok _ _ _ _ _ (map_at_root _ _ _ _ Hm)).
  change (@None loc) with (ctx_parent (@None loc) (@nil (frame Key T))) at 1.
  rewrite (bind_ok _ _ _ _ _
             (insertNode_loop_spec fuel st [] t (fst value) HR Hf)).
  destruct (descend comp value.1 t []) as [x|C] eqn:Hd.
  { apply descend_inl in Hd as [Hd Hx]. congruence. }
  pose proof Hd as Hd'.
  apply descend_inr in Hd as (Hplug & _ & Hdir & Hlen). simpl in Hplug, Hlen.
  rewrite Hplug in Hm, Hb.
  destruct (attach_spec st this C value sz Hm (Hdir I)) as (st1 & st2 & z & E1 & E2 & Hm2).
  rewrite (bind_ok _ _ _ _ _ E1). rewrite (bind_ok _ _ _ _ _ E2).
  destruct (fixInsert_spec fuel st2 this C z true value Leaf Leaf sz Hm2)
    as (st3 & t3 & E3 & Hm3 & Hn3 & Hb3 & HI3).
  { destruct C as [|F C']; [done|]. by eapply ctx_top_black_plug. }
  { lia. }
  rewrite (bind_ok _ _ _ _ _ E3).
  destruct (incr_size_spec st3 this t3 sz Hm3) as (st4 & E4 & Hm4).
  rewrite (bind_ok _ _ _ _ _ E4).
  exists st4, t3, z, C. split_and!; [done|done|done|done| | |].
  - rewrite Hplug, nodes_plug. done.
  - rewrite Hn3, nodes_plug. done.
  - rewrite Hplug. intros Hnrr Hbh. apply HI3. by apply inv_new_node.
Qed.

End Insert.
(** ** Erasure: unlinking a node *)

Section Unlink.

Context {Key T : Type}.
Implicit Types (h : gmap loc (Node Key T)) (st : state Key T) (t s : tree Key T)
  (n : Node Key T) (C : list (frame Key T)).

(** Replacing the parent pointer of the outermost node of a context. *)
Lemma RepC_set_par h par par' C p n d :
  C ≠ [] → NoDup (ctx_locs C) →
  h !! ctx_last_loc C d = Some n →
  RepC h par C p →
  RepC (<[ctx_last_loc C d := with_parent par' n]> h) par' C p.
Proof.
  revert p. induction C as [|F C IH]; intros p HC HN Hn HR; [done|].
  destruct C as [|F' C].
  - unfold ctx_last_loc in *. simpl in *.
    apply NoDup_cons in HN as [HF _]. rewrite app_nil_r in HF.
    destruct F as [l c kv r|l c kv a]; simpl in *; destruct HR as ((Hn' & Hs) & _);
      rewrite Hn' in Hn; injection Hn as <-; rewrite lookup_insert_eq;
      (split_and!; [done|by apply Rep_insert_ne|done]).
  - assert (ctx_last_loc (F :: F' :: C) d = ctx_last_loc (F' :: C) d) as Heq by done.
    rewrite Heq in *.
    assert (ctx_last_loc (F' :: C) d ∈ ctx_locs (F' :: C)) as Hin.
    { clear. revert F'. induction C as [|F'' C IH]; intros F'.
      - unfold ctx_last_loc. simpl. set_solver.
      - assert (ctx_last_loc (F' :: F'' :: C) d = ctx_last_loc (F'' :: C) d) as -> by done.
        rewrite (ctx_locs_cons F'). specialize (IH F''). set_solver. }
    rewrite ctx_locs_cons in HN. apply NoDup_cons in HN as [HF HN].
    apply NoDup_app in HN as (HNs & Hd & HN).
    rewrite not_elem_of_app in HF. destruct HF as [HF1 HF2].
    cbn [RepC] in HR |- *. destruct HR as [HF HR]. split.
    + assert (frame_loc F ≠ ctx_last_loc (F' :: C) d) by (intros E; by rewrite E in HF2).
      assert (ctx_last_loc (F' :: C) d ∉ locs (frame_sibling F)).
      { intros Hin'. by apply (Hd _ Hin'). }
      destruct F as [l c kv r|l c kv a]; simpl in *; destruct HF as [Hn' Hs];
        (split; [by rewrite lookup_insert_ne|by apply Rep_insert_ne]).
    + apply IH; done.
Qed.

Lemma min_ctx_spec t C :
  t ≠ Leaf →
  ∃ y cy kvy xr C',
    min_ctx t C = (C' ++ C, Nd y cy kvy Leaf xr) ∧
    t = plug C' (Nd y cy kvy Leaf xr) ∧ ctx_before C' = [] ∧
    (length C' < height t)%nat ∧
    head (locs t) = Some y ∧
    (C' = [] ∨ ∃ p cp kvp rp C'', C' = FL p cp kvp rp :: C'').
Proof.
  revert C. induction t as [|l c kv a IHa b _]; intros C Ht; [done|].
  destruct a as [|la ca kva a1 a2].
  - exists l, c, kv, b, []. simpl. split_and!; auto. lia.
  - destruct (IHa (FL l c kv b :: C)) as (y & cy & kvy & xr & C' & H1 & H2 & H3 & H4 & H5 & H6);
      [done|].
    exists y, cy, kvy, xr, (C' ++ [FL l c kv b]).
    split_and!.
    + change (min_ctx (Nd l c kv (Nd la ca kva a1 a2) b) C)
        with (min_ctx (Nd la ca kva a1 a2) (FL l c kv b :: C)).
      rewrite H1. by rewrite <- app_assoc.
    + rewrite plug_app. simpl. by rewrite <- H2.
    + clear -H3. induction C' as [|[] C' IH]; simpl in *; [done|auto|].
      by destruct (ctx_before C'), (nodes a).
    + rewrite length_app. simpl in *. lia.
    + rewrite head_locs_Nd. done.
    + destruct H6 as [->|(p & cp & kvp & rp & C'' & ->)]; right; simpl; eauto 10.
Qed.

(** Finishes a case of an unlinking proof on the final heap. *)
Ltac unlink_run :=
  repeat first
    [ mstep
    | rewrite ptr_eqb_refl
    | rewrite ptr_eqb_ne by (first [by apply ptr_of_ne | congruence]) ].

Lemma unlink_left_null fuel st this C z cz kvz b sz :
  map_at st this (plug C (Nd z cz kvz Leaf b)) sz →
  ∃ st', deleteNode_unlink fuel this (Some z) st = Ok (cz, ptr_of b) st' ∧
         map_at st' this (plug C b) sz ∧ heap st' !! z = heap st !! z.
Proof.
  rewrite map_at_plug. intros (o & Ho & Hr & Hsz & HC & HR & HN).
  pose proof (Rep_root_lookup _ _ _ _ _ _ _ HR) as Hz.
  destruct HR as (_ & _ & Hb).
  unfold deleteNode_unlink, transplant. munfold.
  destruct b as [|lb cb kvb b1 b2];
    [|pose proof (Rep_root_lookup _ _ _ _ _ _ _ Hb) as Hlb; destruct Hb as (_ & Hb1 & Hb2)];
    (destruct C as [|[p cp kvp r|p cp kvp r] C'];
      [simpl in Hr|simpl in HC; destruct HC as ((Hp & Hr') & HC)..]);
    nd_norm; msimpl; unlink_run;
    (eexists; split; [reflexivity|]; split; [|lookup_solve]);
    apply map_at_plug; eexists; msimpl;
    (split_and!; [lookup_solve|done|done|rep_solve|rep_solve|nd_solve]).
Qed.

Lemma unlink_right_null fuel st this C z cz kvz la ca kva a1 a2 sz :
  map_at st this (plug C (Nd z cz kvz (Nd la ca kva a1 a2) Leaf)) sz →
  ∃ st', deleteNode_unlink fuel this (Some z) st = Ok (cz, Some la) st' ∧
         map_at st' this (plug C (Nd la ca kva a1 a2)) sz ∧
         heap st' !! z = heap st !! z.
Proof.
  rewrite map_at_plug. intros (o & Ho & Hr & Hsz & HC & HR & HN).
  pose proof (Rep_root_lookup _ _ _ _ _ _ _ HR) as Hz.
  destruct HR as (_ & Ha & _).
  pose proof (Rep_root_lookup _ _ _ _ _ _ _ Ha) as Hla. destruct Ha as (_ & Ha1 & Ha2).
  unfold deleteNode_unlink, transplant. munfold.
  (destruct C as [|[p cp kvp r|p cp kvp r] C'];
      [simpl in Hr|simpl in HC; destruct HC as ((Hp & Hr') & HC)..]);
    nd_norm; msimpl; unlink_run;
    (eexists; split; [reflexivity|]; split; [|lookup_solve]);
    apply map_at_plug; eexists; msimpl;
    (split_and!; [lookup_solve|done|done|rep_solve|rep_solve|nd_solve]).
Qed.

(** Both children present and the successor [y] is the right child. *)
Lemma unlink_succ_child fuel st this C z cz kvz la ca kva a1 a2 y cy kvy xr sz :
  map_at st this
    (plug C (Nd z cz kvz (Nd la ca kva a1 a2) (Nd y cy kvy Leaf xr))) sz →
  (0 < fuel)%nat →
  ∃ st', deleteNode_unlink fuel this (Some z) st = Ok (cy, ptr_of xr) st' ∧
         map_at st' this (plug C (Nd y cz kvy (Nd la ca kva a1 a2) xr)) sz ∧
         heap st' !! z = heap st !! z.
Proof.
  rewrite map_at_plug. intros (o & Ho & Hr & Hsz & HC & HR & HN) Hf.
  pose proof (Rep_root_lookup _ _ _ _ _ _ _ HR) as Hz.
  destruct HR as (_ & Ha & Hy).
  pose proof (Rep_root_lookup _ _ _ _ _ _ _ Ha) as Hla. destruct Ha as (_ & Ha1 & Ha2).
  pose proof (Rep_root_lookup _ _ _ _ _ _ _ Hy) as Hly. destruct Hy as (_ & _ & Hxr).
  unfold deleteNode_unlink, transplant, minimum, set_color. munfold.
  destruct fuel as [|fuel]; [lia|]. cbn [minimum_loop].
  destruct xr as [|lx cx kvx x1 x2];
    [|pose proof (Rep_root_lookup _ _ _ _ _ _ _ Hxr) as Hlx; destruct Hxr as (_ & Hx1 & Hx2)];
    (destruct C as [|[p cp kvp r|p cp kvp r] C'];
      [simpl in Hr|simpl in HC; destruct HC as ((Hp & Hr') & HC)..]);
    nd_norm; msimpl; unlink_run;
    (eexists; split; [reflexivity|]; split; [|lookup_solve]);
    apply map_at_plug; eexists; msimpl;
    (split_and!; [lookup_solve|done|done|rep_solve|rep_solve|nd_solve]).
Qed.

(** Both children present, the successor [y] is the left child of the
    right child. *)
Lemma unlink_succ_grandchild fuel st this C z cz kvz la ca kva a1 a2
    p cp kvp rp y cy kvy xr sz :
  map_at st this
    (plug C (Nd z cz kvz (Nd la ca kva a1 a2)
                         (Nd p cp kvp (Nd y cy kvy Leaf xr) rp))) sz →
  (1 < fuel)%nat →
  ∃ st', deleteNode_unlink fuel this (Some z) st = Ok (cy, ptr_of xr) st' ∧
         map_at st' this
           (plug C (Nd y cz kvy (Nd la ca kva a1 a2) (Nd p cp kvp xr rp))) sz ∧
         heap st' !! z = heap st !! z.
Proof.
  rewrite map_at_plug. intros (o & Ho & Hr & Hsz & HC & HR & HN) Hf.
  pose proof (Rep_root_lookup _ _ _ _ _ _ _ HR) as Hz.
  destruct HR as (_ & Ha & Hp).
  pose proof (Rep_root_lookup _ _ _ _ _ _ _ Ha) as Hla. destruct Ha as (_ & Ha1 & Ha2).
  pose proof (Rep_root_lookup _ _ _ _ _ _ _ Hp) as Hlp. destruct Hp as (_ & Hy & Hrp).
  pose proof (Rep_root_lookup _ _ _ _ _ _ _ Hy) as Hly. destruct Hy as (_ & _ & Hxr).
  unfold deleteNode_unlink, transplant, minimum, set_color. munfold.
  destruct fuel as [|[|fuel]]; [lia..|]. cbn [minimum_loop].
  destruct xr as [|lx cx kvx x1 x2];
    [|pose proof (Rep_root_lookup _ _ _ _ _ _ _ Hxr) as Hlx; destruct Hxr as (_ & Hx1 & Hx2)];
    (destruct C as [|[q cq kvq r|q cq kvq r] C'];
      [simpl in Hr|simpl in HC; destruct HC as ((Hq & Hr') & HC)..]);
    nd_norm; msimpl; unlink_run;
    (eexists; split; [reflexivity|]; split; [|lookup_solve]);
    apply map_at_plug; eexists; msimpl;
    (split_and!; [lookup_solve|done|done|rep_solve|rep_solve|nd_solve]).
Qed.

Lemma ctx_last_loc_in C d : C ≠ [] → ctx_last_loc C d ∈ ctx_locs C.
Proof.
  induction C as [|F C IH]; [done|]. intros _. destruct C as [|F' C].
  - unfold ctx_last_loc. simpl. set_solver.
  - assert (ctx_last_loc (F :: F' :: C) d = ctx_last_loc (F' :: C) d) as -> by done.
    rewrite ctx_locs_cons. specialize (IH ltac:(done)). set_solver.
Qed.

Lemma ctx_top_last C q d : C ≠ [] → ctx_top C q = Some (ctx_last_loc C d).
Proof.
  revert q. induction C as [|F C IH]; intros q HC; [done|]. destruct C as [|F' C].
  - done.
  - change (ctx_top (F :: F' :: C) q) with (ctx_top (F' :: C) (Some (frame_loc F))).
    rewrite (IH (Some (frame_loc F))); done.
Qed.

Lemma elem_of_ne (x y : loc) (L : list loc) : x ∉ L → y ∈ L → y ≠ x.
Proof. intros Hx Hy ->. done. Qed.

Lemma ldisj_elem_l (y : loc) (L L' : list loc) : ldisj L L' → y ∈ L → y ∉ L'.
Proof. intros H Hy. by apply H. Qed.

Lemma ldisj_elem_r (y : loc) (L L' : list loc) : ldisj L' L → y ∈ L → y ∉ L'.
Proof. intros H Hy Hy'. by apply (H y). Qed.

Lemma head_locs_plug_min C y cy kvy (xr : tree Key T) :
  ctx_before C = [] → head (locs (plug C (Nd y cy kvy Leaf xr))) = Some y.
Proof. intros H. unfold locs. rewrite nodes_plug, H. done. Qed.

(** Both children present, the successor [y] lies deeper in the right
    subtree. *)
Lemma unlink_succ_deep fuel st this C z cz kvz la ca kva a1 a2
    Cb p cp kvp rp y cy kvy xr sz :
  Cb ≠ [] → ctx_before Cb = [] →
  map_at st this
    (plug C (Nd z cz kvz (Nd la ca kva a1 a2)
                (plug (FL p cp kvp rp :: Cb) (Nd y cy kvy Leaf xr)))) sz →
  (height (plug (FL p cp kvp rp :: Cb) (Nd y cy kvy Leaf xr)) ≤ fuel)%nat →
  ∃ st', deleteNode_unlink fuel this (Some z) st = Ok (cy, ptr_of xr) st' ∧
         map_at st' this
           (plug C (Nd y cz kvy (Nd la ca kva a1 a2)
                       (plug (FL p cp kvp rp :: Cb) xr))) sz ∧
         heap st' !! z = heap st !! z.
Proof.
  intros HCb Hbef. rewrite map_at_plug.
  intros (o & Ho & Hr & Hsz & HC & HR & HN) Hf.
  pose proof (Rep_root_lookup _ _ _ _ _ _ _ HR) as Hz.
  destruct HR as (_ & Ha & Hb).
  pose proof (Rep_root_lookup _ _ _ _ _ _ _ Ha) as Hla. destruct Ha as (_ & Ha1 & Ha2).
  assert (minimum fuel (ptr_of (plug (FL p cp kvp rp :: Cb) (Nd y cy kvy Leaf xr))) st
          = Ok (Some y) st) as Hmin.
  { rewrite (minimum_spec fuel st (Some z) _ Hb); [|by intros E; apply (f_equal nodes) in E;
      rewrite nodes_plug in E; destruct (ctx_before (FL p cp kvp rp :: Cb))|done].
    by rewrite head_locs_plug_min. }
  set (rb := ctx_last_loc Cb p).
  assert (ptr_of (plug (FL p cp kvp rp :: Cb) (Nd y cy kvy Leaf xr)) = Some rb) as Hptr.
  { rewrite ptr_of_plug. simpl. by apply ctx_top_last. }
  assert (∀ xt, ptr_of (plug (FL p cp kvp rp :: Cb) xt) = Some rb) as Hptr'.
  { intros xt. rewrite ptr_of_plug. simpl. by apply ctx_top_last. }
  rewrite Hptr in Hz, Hmin.
  apply Rep_plug in Hb as [HRCb Hy]. cbn [ctx_parent frame_loc] in Hy.
  pose proof (Rep_root_lookup _ _ _ _ _ _ _ Hy) as Hly. destruct Hy as (_ & _ & Hxr).
  cbn [RepC] in HRCb. destruct HRCb as ((Hlp & Hrp) & HRCb).
  pose proof (ctx_last_loc_in Cb p HCb) as Hrbin. fold rb in Hrbin.
  destruct (RepC_lookup _ _ _ _ _ HRCb Hrbin) as [nrb Hlrb].
  rewrite locs_Nd, locs_plug in HN.
  destruct Cb as [|F Cb0]; [done|]. clear HCb.
  assert (∀ par, ctx_parent par (F :: Cb0) = Some (frame_loc F)) as Hpar by done.
  rewrite Hpar in Hlp.
  set (Cb := F :: Cb0) in *.
  nd_norm.
  repeat match goal with
  | H : ?x ∉ ctx_locs Cb |- _ =>
      lazymatch goal with
      | _ : rb ≠ x |- _ => fail
      | _ => pose proof (elem_of_ne x rb _ H Hrbin)
      end
  | H : ldisj (locs ?t) (ctx_locs Cb) |- _ =>
      lazymatch goal with
      | _ : rb ∉ locs t |- _ => fail
      | _ => pose proof (ldisj_elem_r rb _ _ H Hrbin)
      end
  | H : ldisj (ctx_locs Cb) (locs ?t) |- _ =>
      lazymatch goal with
      | _ : rb ∉ locs t |- _ => fail
      | _ => pose proof (ldisj_elem_l rb _ _ H Hrbin)
      end
  | H : ldisj (ctx_locs Cb) (ctx_locs ?C') |- _ =>
      lazymatch goal with
      | _ : rb ∉ ctx_locs C' |- _ => fail
      | _ => pose proof (ldisj_elem_l rb _ _ H Hrbin)
      end
  end.
  unfold deleteNode_unlink, transplant, set_color. munfold.
  destruct xr as [|lx cx kvx x1 x2];
    [|pose proof (Rep_root_lookup _ _ _ _ _ _ _ Hxr) as Hlx; destruct Hxr as (_ & Hx1 & Hx2)];
    (destruct C as [|[q cq kvq r|q cq kvq r] C'];
      [simpl in Hr|simpl in HC; destruct HC as ((Hq & Hr') & HC)..]);
    nd_norm; msimpl; unlink_run; rewrite (bind_ok _ _ _ _ _ Hmin); unlink_run;
    (eexists; split; [reflexivity|]; split; [|lookup_solve]);
    apply map_at_plug; eexists; msimpl; rewrite ?Hptr';
    (split_and!; [lookup_solve|done|done|rep_solve| |]);
    try (rewrite locs_Nd, locs_plug; nd_solve).
  all: cbn [Rep]; rewrite ?Hptr'; repeat match goal with |- _ ∧ _ => split end;
    try (first [solve [lookup_solve] | solve [frame_solve]]).
  all: apply Rep_plug; split; [|rep_solve].
  all: cbn [RepC]; rewrite ?Hpar; split_and!; [lookup_solve|frame_solve|].
  all: cbn [frame_loc]; repeat (apply RepC_insert_ne; [nd_atom|]).
  all: apply (RepC_set_par _ (Some z) (Some y) Cb (Some p) nrb p);
    [done|done|lookup_solve|frame_solve].
Qed.

End Unlink.
(** ** Erasure: [deleteNode] *)

Section Delete.

Context {Key T : Type}.
Implicit Types (h : gmap loc (Node Key T)) (st : state Key T) (t s : tree Key T)
  (n : Node Key T) (C : list (frame Key T)).

Lemma height_plug_le C s : (height s ≤ height (plug C s))%nat.
Proof. pose proof (length_ctx_height C s). lia. Qed.

(** [deleteNode_unlink] computes [unlinked]. *)
Lemma unlink_spec fuel st this C z cz kvz a b sz :
  map_at st this (plug C (Nd z cz kvz a b)) sz →
  (height (plug C (Nd z cz kvz a b)) < fuel)%nat →
  ∃ st', deleteNode_unlink fuel this (Some z) st
         = Ok (snd (unlinked C cz a b), ptr_of (snd (fst (unlinked C cz a b)))) st' ∧
         map_at st' this
           (plug (fst (fst (unlinked C cz a b))) (snd (fst (unlinked C cz a b)))) sz ∧
         heap st' !! z = heap st !! z.
Proof.
  intros Hm Hf. pose proof (height_plug_le C (Nd z cz kvz a b)) as Hh. simpl in Hh.
  destruct a as [|la ca kva a1 a2].
  { eapply unlink_left_null. exact Hm. }
  destruct b as [|lb cb kvb b1 b2].
  { eapply unlink_right_null. exact Hm. }
  destruct (min_ctx_spec (Nd lb cb kvb b1 b2) []) as
    (y & cy & kvy & xr & C' & H1 & H2 & H3 & H4 & H5 & H6); [done|].
  unfold unlinked. rewrite H1, app_nil_r. cbn [fst snd].
  rewrite H2 in Hm, Hh, Hf. rewrite plug_app. cbn [plug fill].
  destruct H6 as [->|(p & cp & kvp & rp & C'' & ->)].
  - eapply unlink_succ_child; [exact Hm|lia].
  - destruct C'' as [|F C''].
    + eapply unlink_succ_grandchild; [exact Hm|]. simpl in Hh, Hf. lia.
    + eapply unlink_succ_deep; [done|done|exact Hm|]. lia.
Qed.

Lemma ctx_before_app C1 C2 : ctx_before (C1 ++ C2) = ctx_before C2 ++ ctx_before C1.
Proof.
  induction C1 as [|[] C1 IH]; simpl; [by rewrite app_nil_r|done|].
  by rewrite IH, <- !app_assoc.
Qed.

Lemma ctx_after_app C1 C2 : ctx_after (C1 ++ C2) = ctx_after C1 ++ ctx_after C2.
Proof.
  induction C1 as [|[] C1 IH]; simpl; [done| |done].
  by rewrite IH, <- app_assoc.
Qed.

(** The unlinked tree lists the nodes of the old one without [z]. *)
Lemma unlinked_nodes C cz a b :
  nodes (plug (fst (fst (unlinked C cz a b))) (snd (fst (unlinked C cz a b))))
  = ctx_before C ++ nodes a ++ nodes b ++ ctx_after C.
Proof.
  destruct a as [|la ca kva a1 a2].
  { simpl. by rewrite nodes_plug. }
  destruct b as [|lb cb kvb b1 b2].
  { cbn [unlinked fst snd]. rewrite nodes_plug. cbn [nodes]. by rewrite <- !app_assoc. }
  destruct (min_ctx_spec (Nd lb cb kvb b1 b2) []) as
    (y & cy & kvy & xr & C' & H1 & H2 & H3 & H4 & H5 & H6); [done|].
  unfold unlinked. rewrite H1, app_nil_r. cbn [fst snd].
  rewrite H2. rewrite !nodes_plug, ctx_before_app, ctx_after_app, H3.
  cbn [nodes ctx_before ctx_after app]. by rewrite <- !app_assoc.
Qed.

End Delete.
(** ** Deletion fix-up *)

Section FixDeleteFacts.

Context {Key T : Type}.
Implicit Types (h : gmap loc (Node Key T)) (st : state Key T) (t s : tree Key T)
  (n : Node Key T) (C : list (frame Key T)).

Lemma is_black_spec st par t :
  Rep (heap st) par t → is_black (ptr_of t) st = Ok (negb (is_red_tree t)) st.
Proof.
  destruct t as [|l c kv a b]; [done|]. intros (Hn & _). cbn [ptr_of is_black].
  rewrite (bind_ok _ _ _ _ _ (get_color_ok _ _ _ Hn)). by destruct c.
Qed.

Lemma map_at_is_black_0 {st this C l c kv a b sz} :
  map_at st this (plug C (Nd l c kv a b)) sz →
  is_black (Some l) st = Ok (negb c) st.
Proof.
  rewrite map_at_plug. intros (o & Ho & Hr & Hsz & HC & HR & HN).
  apply (is_black_spec _ _ (Nd l c kv a b)) in HR. by destruct c.
Qed.

Lemma map_at_is_black_l {st this C l c kv a b sz} :
  map_at st this (plug C (Nd l c kv a b)) sz →
  is_black (ptr_of a) st = Ok (negb (is_red_tree a)) st.
Proof.
  rewrite map_at_plug. intros (o & Ho & Hr & Hsz & HC & (_ & Ha & Hb) & HN).
  by eapply is_black_spec.
Qed.

Lemma map_at_is_black_r {st this C l c kv a b sz} :
  map_at st this (plug C (Nd l c kv a b)) sz →
  is_black (ptr_of b) st = Ok (negb (is_red_tree b)) st.
Proof.
  rewrite map_at_plug. intros (o & Ho & Hr & Hsz & HC & (_ & Ha & Hb) & HN).
  by eapply is_black_spec.
Qed.

Lemma map_at_is_black_rl {st this C l c kv a l1 c1 kv1 a1 b1 sz} :
  map_at st this (plug C (Nd l c kv a (Nd l1 c1 kv1 a1 b1))) sz →
  is_black (ptr_of a1) st = Ok (negb (is_red_tree a1)) st.
Proof. apply (@map_at_is_black_l st this (FR l c kv a :: C)). Qed.

Lemma map_at_is_black_rr {st this C l c kv a l1 c1 kv1 a1 b1 sz} :
  map_at st this (plug C (Nd l c kv a (Nd l1 c1 kv1 a1 b1))) sz →
  is_black (ptr_of b1) st = Ok (negb (is_red_tree b1)) st.
Proof. apply (@map_at_is_black_r st this (FR l c kv a :: C)). Qed.

Lemma map_at_is_black_ll {st this C l c kv l1 c1 kv1 a1 b1 b sz} :
  map_at st this (plug C (Nd l c kv (Nd l1 c1 kv1 a1 b1) b)) sz →
  is_black (ptr_of a1) st = Ok (negb (is_red_tree a1)) st.
Proof. apply (@map_at_is_black_l st this (FL l c kv b :: C)). Qed.

Lemma map_at_is_black_lr {st this C l c kv l1 c1 kv1 a1 b1 b sz} :
  map_at st this (plug C (Nd l c kv (Nd l1 c1 kv1 a1 b1) b)) sz →
  is_black (ptr_of b1) st = Ok (negb (is_red_tree b1)) st.
Proof. apply (@map_at_is_black_r st this (FL l c kv b :: C)). Qed.

(** Recolouring a grandchild of the focus. *)
Lemma set_color_rl {st this C l c kv a l1 c1 kv1 l2 c2 kv2 a2 b2 b1 sz} c' :
  map_at st this (plug C (Nd l c kv a (Nd l1 c1 kv1 (Nd l2 c2 kv2 a2 b2) b1))) sz →
  ∃ st', set_color (Some l2) c' st = Ok tt st' ∧
    map_at st' this (plug C (Nd l c kv a (Nd l1 c1 kv1 (Nd l2 c' kv2 a2 b2) b1))) sz.
Proof. apply (set_color_spec st this (FL l1 c1 kv1 b1 :: FR l c kv a :: C)). Qed.

Lemma set_color_rr {st this C l c kv a l1 c1 kv1 a1 l2 c2 kv2 a2 b2 sz} c' :
  map_at st this (plug C (Nd l c kv a (Nd l1 c1 kv1 a1 (Nd l2 c2 kv2 a2 b2)))) sz →
  ∃ st', set_color (Some l2) c' st = Ok tt st' ∧
    map_at st' this (plug C (Nd l c kv a (Nd l1 c1 kv1 a1 (Nd l2 c' kv2 a2 b2)))) sz.
Proof. apply (set_color_spec st this (FR l1 c1 kv1 a1 :: FR l c kv a :: C)). Qed.

Lemma set_color_ll {st this C l c kv l1 c1 kv1 l2 c2 kv2 a2 b2 b1 b sz} c' :
  map_at st this (plug C (Nd l c kv (Nd l1 c1 kv1 (Nd l2 c2 kv2 a2 b2) b1) b)) sz →
  ∃ st', set_color (Some l2) c' st = Ok tt st' ∧
    map_at st' this (plug C (Nd l c kv (Nd l1 c1 kv1 (Nd l2 c' kv2 a2 b2) b1) b)) sz.
Proof. apply (set_color_spec st this (FL l1 c1 kv1 b1 :: FL l c kv b :: C)). Qed.

Lemma set_color_lr {st this C l c kv l1 c1 kv1 a1 l2 c2 kv2 a2 b2 b sz} c' :
  map_at st this (plug C (Nd l c kv (Nd l1 c1 kv1 a1 (Nd l2 c2 kv2 a2 b2)) b)) sz →
  ∃ st', set_color (Some l2) c' st = Ok tt st' ∧
    map_at st' this (plug C (Nd l c kv (Nd l1 c1 kv1 a1 (Nd l2 c' kv2 a2 b2)) b)) sz.
Proof. apply (set_color_spec st this (FR l1 c1 kv1 a1 :: FL l c kv b :: C)). Qed.

(** The root of a tree with a non-empty context is not in the hole. *)
Lemma map_at_root_ne st this F C l c kv a b sz :
  map_at st this (plug (F :: C) (Nd l c kv a b)) sz →
  Some l ≠ ctx_top (F :: C) (Some l).
Proof.
  rewrite map_at_plug. intros (o & Ho & Hr & Hsz & HC & HR & HN).
  rewrite (ctx_top_last (F :: C) (Some l) l) by done.
  intros [= E]. apply NoDup_app in HN as (_ & Hd & _).
  apply (Hd l).
  - rewrite locs_Nd. set_solver.
  - rewrite E at 1. by apply ctx_last_loc_in.
Qed.

End FixDeleteFacts.
(** *** The loop of [fixDelete] *)

(** Runs a step through its specification [L], whose colour argument is
    read off the goal. *)
Ltac fd_spec_core L :=
  let st' := fresh "st" in
  let E := fresh "E" in
  let H := fresh "Hm" in
  edestruct L as (st' & E & H);
  first [ rewrite (bind_ok _ _ _ _ _ E) | rewrite E ];
  clear E; lookups H.

Tactic Notation "fd_spec" open_constr(L) := fd_spec_core L.

(** Applies [tac] to the representation fact of the state the goal runs in. *)
Ltac on_cur tac :=
  lazymatch goal with
  | |- post (?m ?st) _ =>
      lazymatch goal with
      | H : map_at st _ _ _ |- _ => tac H
      end
  end.

(** Moves the focus of [H] from a node to its left or right child. *)
Ltac focus_l H :=
  lazymatch type of H with
  | map_at ?st ?this (plug ?C (Nd ?w ?c ?kv ?l ?r)) ?sz =>
      change (map_at st this (plug (FL w c kv r :: C) l) sz) in H
  end.

Ltac focus_r H :=
  lazymatch type of H with
  | map_at ?st ?this (plug ?C (Nd ?w ?c ?kv ?l ?r)) ?sz =>
      change (map_at st this (plug (FR w c kv l :: C) r) sz) in H
  end.

(** Case 4 of the fix-up with [x] a left child: the far child of the black
    sibling is red. *)
Ltac fd_case4_l IH HL :=
  repeat mstep;
  on_cur ltac:(fun H => fd_spec (set_color_r _ H));
  repeat mstep;
  on_cur ltac:(fun H => fd_spec (set_color_0 _ H));
  repeat mstep;
  on_cur ltac:(fun H => fd_spec (set_color_rr _ H));
  repeat mstep;
  on_cur ltac:(fun H => fd_spec (leftRotate_spec _ _ _ _ _ _ _ _ _ _ _ _ _ H));
  on_cur ltac:(fun H => rewrite (bind_ok _ _ _ _ _ (map_at_root _ _ _ _ H)));
  on_cur ltac:(fun H =>
    eapply (IH _ []); [exact H | exact I | rewrite <- HL; cbn [plug fill]; nodes_eq]).

Ltac fd_case4_r IH HL :=
  repeat mstep;
  on_cur ltac:(fun H => fd_spec (set_color_l _ H));
  repeat mstep;
  on_cur ltac:(fun H => fd_spec (set_color_0 _ H));
  repeat mstep;
  on_cur ltac:(fun H => fd_spec (set_color_ll _ H));
  repeat mstep;
  on_cur ltac:(fun H => fd_spec (rightRotate_spec _ _ _ _ _ _ _ _ _ _ _ _ _ H));
  on_cur ltac:(fun H => rewrite (bind_ok _ _ _ _ _ (map_at_root _ _ _ _ H)));
  on_cur ltac:(fun H =>
    eapply (IH _ []); [exact H | exact I | rewrite <- HL; cbn [plug fill]; nodes_eq]).

(** The iteration from a black sibling on, [x] a left child. *)
Ltac fd_black_l :=
  msimpl; repeat mstep;
  on_cur ltac:(fun H => rewrite (bind_ok _ _ _ _ _ (map_at_is_black_rl H)));
  lazymatch goal with
  | |- context [is_red_tree ?wl] =>
    let Hwl := fresh "Hwl" in
    destruct (is_red_tree wl) eqn:Hwl; cbn [negb andb]; repeat mstep;
    on_cur ltac:(fun H => rewrite (bind_ok _ _ _ _ _ (map_at_is_black_rr H)));
    lazymatch goal with
    | |- context [is_red_tree ?wr] =>
      let Hwr := fresh "Hwr" in
      destruct (is_red_tree wr) eqn:Hwr; cbn [negb andb]; repeat mstep;
      try (on_cur ltac:(fun H => rewrite (bind_ok _ _ _ _ _ (map_at_is_black_rr H)));
           rewrite Hwr; cbn [negb andb]; repeat mstep)
    end
  end.

Ltac fd_black_r :=
  msimpl; repeat mstep;
  on_cur ltac:(fun H => rewrite (bind_ok _ _ _ _ _ (map_at_is_black_lr H)));
  lazymatch goal with
  | |- context [is_red_tree ?wr] =>
    let Hwr := fresh "Hwr" in
    destruct (is_red_tree wr) eqn:Hwr; cbn [negb andb]; repeat mstep;
    on_cur ltac:(fun H => rewrite (bind_ok _ _ _ _ _ (map_at_is_black_ll H)));
    lazymatch goal with
    | |- context [is_red_tree ?wl] =>
      let Hwl := fresh "Hwl" in
      destruct (is_red_tree wl) eqn:Hwl; cbn [negb andb]; repeat mstep;
      try (on_cur ltac:(fun H => rewrite (bind_ok _ _ _ _ _ (map_at_is_black_ll H)));
           rewrite Hwl; cbn [negb andb]; repeat mstep)
    end
  end.

Section FixDeleteLoop.

Context {Key T : Type}.
Implicit Types (h : gmap loc (Node Key T)) (st : state Key T) (t s : tree Key T)
  (n : Node Key T) (C : list (frame Key T)).

Lemma fd_post_intro this sz L C xt st x :
  x = ptr_of xt → map_at st this (plug C xt) sz → nodes (plug C xt) = L →
  ctx_top_black C → fd_post this sz L x st.
Proof. intros. by exists C, xt. Qed.

Lemma ctx_top_Some C l : ∃ r, ctx_top C (Some l) = Some r.
Proof. revert l. induction C as [|F C IH]; intros l; [by eexists|]. apply IH. Qed.

Lemma fixDelete_loop_post m st this C xt sz L :
  map_at st this (plug C xt) sz → ctx_top_black C → nodes (plug C xt) = L →
  post (fixDelete_loop this m (ptr_of xt) st) (fd_post this sz L).
Proof.
  revert st C xt. induction m as [|m IH]; intros st C xt Hm Hblack HL; [exact I|].
  cbn [fixDelete_loop].
  rewrite (bind_ok _ _ _ _ _ (map_at_root _ _ _ _ Hm)), ptr_of_plug.
  destruct C as [|F1 C1].
  { cbn [ctx_top]. rewrite ptr_eqb_refl. by eapply (fd_post_intro _ _ _ []). }
  destruct xt as [|x cx kvx xa xb].
  { (* a null [x] below the root: its parent is read through the null pointer *)
    destruct (ctx_top_Some C1 (frame_loc F1)) as (r & Hr). cbn [ctx_top ptr_of].
    rewrite Hr, ptr_eqb_ne by done. exact I. }
  cbn [ptr_of].
  rewrite ptr_eqb_ne by (eapply map_at_root_ne; exact Hm).
  rewrite (bind_ok _ _ _ _ _ (map_at_is_black_0 Hm)).
  destruct cx; cbn [negb].
  { by eapply (fd_post_intro _ _ _ (F1 :: C1) (Nd x true kvx xa xb)). }
  destruct F1 as [xp cxp kvxp W|xp cxp kvxp W]; cbn [plug fill] in Hm.
  - (* [x] is a left child *)
    lookups Hm. repeat mstep. rewrite ptr_eqb_refl. repeat mstep.
    destruct W as [|w cw kvw wl wr]; [exact I|].
    lookups Hm. repeat mstep.
    destruct cw; msimpl; repeat mstep.
    + (* a red sibling: rotate it above the parent *)
      fd_spec (set_color_r _ Hm). repeat mstep.
      fd_spec (set_color_0 _ Hm0). repeat mstep.
      fd_spec (leftRotate_spec _ _ _ _ _ _ _ _ _ _ _ _ _ Hm1). repeat mstep.
      destruct wl as [|w' cw' kvw' wl' wr']; [exact I|].
      focus_l Hm2. lookups Hm2.
      assert (ctx_top_black (FL w false kvw wr :: C1)) as Hb
        by (apply ctx_top_black_cons2; [by eapply ctx_top_black_tail|done]).
      fd_black_l.
      * (* the near child of the sibling is red, and the far one too *)
        destruct wr' as [|sr [|] kvsr sra srb]; try done.
        fd_case4_l IH HL.
      * (* only the near child is red: rotate it above the sibling *)
        destruct wl' as [|sl [|] kvsl sla slb]; try done.
        on_cur ltac:(fun H => lookups H). msimpl. repeat mstep.
        on_cur ltac:(fun H => fd_spec (set_color_rl _ H)). repeat mstep.
        on_cur ltac:(fun H => fd_spec (set_color_r _ H)). repeat mstep.
        on_cur ltac:(fun H => fd_spec (rightRotate_r H)). repeat mstep.
        fd_case4_l IH HL.
      * (* only the far child is red *)
        destruct wr' as [|sr [|] kvsr sra srb]; try done.
        fd_case4_l IH HL.
      * (* both children of the sibling are black: recolour and go up *)
        on_cur ltac:(fun H => fd_spec (set_color_r _ H)). repeat mstep.
        on_cur ltac:(fun H =>
          eapply (IH _ (FL w false kvw wr :: C1) (Nd xp _ _ _ _));
            [exact H | exact Hb | rewrite <- HL; nodes_eq]).
    + (* a black sibling *)
      apply ctx_top_black_tail in Hblack.
      fd_black_l.
      * destruct wr as [|sr [|] kvsr sra srb]; try done.
        fd_case4_l IH HL.
      * destruct wl as [|sl [|] kvsl sla slb]; try done.
        on_cur ltac:(fun H => lookups H). msimpl. repeat mstep.
        on_cur ltac:(fun H => fd_spec (set_color_rl _ H)). repeat mstep.
        on_cur ltac:(fun H => fd_spec (set_color_r _ H)). repeat mstep.
        on_cur ltac:(fun H => fd_spec (rightRotate_r H)). repeat mstep.
        fd_case4_l IH HL.
      * destruct wr as [|sr [|] kvsr sra srb]; try done.
        fd_case4_l IH HL.
      * on_cur ltac:(fun H => fd_spec (set_color_r _ H)). repeat mstep.
        on_cur ltac:(fun H =>
          eapply (IH _ C1 (Nd xp _ _ _ _));
            [exact H | exact Hblack | rewrite <- HL; nodes_eq]).
  - (* [x] is a right child *)
    lookups Hm. repeat mstep. rewrite ptr_eqb_ne by ptr_ne Hm. repeat mstep.
    destruct W as [|w cw kvw wl wr]; [exact I|].
    lookups Hm. repeat mstep.
    destruct cw; msimpl; repeat mstep.
    + (* a red sibling: rotate it above the parent *)
      fd_spec (set_color_l _ Hm). repeat mstep.
      fd_spec (set_color_0 _ Hm0). repeat mstep.
      fd_spec (rightRotate_spec _ _ _ _ _ _ _ _ _ _ _ _ _ Hm1). repeat mstep.
      destruct wr as [|w' cw' kvw' wl' wr']; [exact I|].
      focus_r Hm2. lookups Hm2.
      assert (ctx_top_black (FR w false kvw wl :: C1)) as Hb
        by (apply ctx_top_black_cons2; [by eapply ctx_top_black_tail|done]).
      fd_black_r.
      * destruct wl' as [|sl [|] kvsl sla slb]; try done.
        fd_case4_r IH HL.
      * destruct wr' as [|sr [|] kvsr sra srb]; try done.
        on_cur ltac:(fun H => lookups H). msimpl. repeat mstep.
        on_cur ltac:(fun H => fd_spec (set_color_lr _ H)). repeat mstep.
        on_cur ltac:(fun H => fd_spec (set_color_l _ H)). repeat mstep.
        on_cur ltac:(fun H => fd_spec (leftRotate_l H)). repeat mstep.
        fd_case4_r IH HL.
      * destruct wl' as [|sl [|] kvsl sla slb]; try done.
        fd_case4_r IH HL.
      * on_cur ltac:(fun H => fd_spec (set_color_l _ H)). repeat mstep.
        on_cur ltac:(fun H =>
          eapply (IH _ (FR w false kvw wl :: C1) (Nd xp _ _ _ _));
            [exact H | exact Hb | rewrite <- HL; nodes_eq]).
    + (* a black sibling *)
      apply ctx_top_black_tail in Hblack.
      fd_black_r.
      * destruct wl as [|sl [|] kvsl sla slb]; try done.
        fd_case4_r IH HL.
      * destruct wr as [|sr [|] kvsr sra srb]; try done.
        on_cur ltac:(fun H => lookups H). msimpl. repeat mstep.
        on_cur ltac:(fun H => fd_spec (set_color_lr _ H)). repeat mstep.
        on_cur ltac:(fun H => fd_spec (set_color_l _ H)). repeat mstep.
        on_cur ltac:(fun H => fd_spec (leftRotate_l H)). repeat mstep.
        fd_case4_r IH HL.
      * destruct wl as [|sl [|] kvsl sla slb]; try done.
        fd_case4_r IH HL.
      * on_cur ltac:(fun H => fd_spec (set_color_l _ H)). repeat mstep.
        on_cur ltac:(fun H =>
          eapply (IH _ C1 (Nd xp _ _ _ _));
            [exact H | exact Hblack | rewrite <- HL; nodes_eq]).
Qed.

End FixDeleteLoop.
(** ** [fixDelete] and [deleteNode] *)

Section DeleteNode.

Context {Key T : Type}.
Implicit Types (h : gmap loc (Node Key T)) (st : state Key T) (t s : tree Key T)
  (n : Node Key T) (C : list (frame Key T)).

Lemma post_bind {A B} (m : M (state Key T) A) (k : A → M (state Key T) B) st Q :
  post (m st) (λ a st', post (k a st') Q) → post (bind m k st) Q.
Proof. unfold bind. by destruct (m st). Qed.

Lemma post_mono {A} (r : res (state Key T) A) (P Q : A → state Key T → Prop) :
  post r P → (∀ a st, P a st → Q a st) → post r Q.
Proof. destruct r; simpl; auto. Qed.

Lemma root_black_plug C s :
  ctx_top_black C → (C = [] → root_black s) → root_black (plug C s).
Proof.
  revert s. induction C as [|F C IH]; intros s Hb Hs; [by apply Hs|].
  destruct C as [|F' C].
  - destruct F; exact Hb.
  - apply (IH (fill F s)); [exact Hb|done].
Qed.

Lemma root_black_ctx C s : root_black (plug C s) → ctx_top_black C.
Proof.
  destruct C as [|F C]; [done|]. by apply ctx_top_black_plug.
Qed.

(** The fix-up keeps the nodes of the tree and leaves the root black. *)
Lemma fixDelete_post fuel st this C xt sz :
  map_at st this (plug C xt) sz → ctx_top_black C →
  post (fixDelete fuel this (ptr_of xt) st)
       (λ _ st', ∃ t', map_at st' this t' sz ∧ nodes t' = nodes (plug C xt) ∧
                       root_black t').
Proof.
  intros Hm Hb. unfold fixDelete. apply post_bind.
  eapply post_mono; [by eapply fixDelete_loop_post|].
  intros x' st' (C' & xt' & -> & Hm' & Hn & Hb').
  destruct xt' as [|x c kv a b]; cbn [ptr_of post].
  - exists (plug C' Leaf). split_and!; [done..|]. by apply root_black_plug.
  - destruct (set_color_spec st' this C' x c kv a b sz false Hm') as (st'' & E & Hm'').
    rewrite E. simpl. exists (plug C' (Nd x false kv a b)). split; [done|].
    split; [|by apply root_black_plug].
    rewrite <- Hn, !nodes_plug. done.
Qed.

Lemma set_color_live st (p : ptr) c st' l :
  set_color p c st = Ok tt st' → is_Some (heap st !! l) → is_Some (heap st' !! l).
Proof.
  unfold set_color, modify. destruct p as [x|]; [|done].
  destruct (heap st !! x) eqn:E; [|done]. intros [= <-]. simpl.
  rewrite lookup_insert_is_Some. destruct (decide (x = l)); auto.
Qed.

(** On a red node, or at the root, the fix-up only blackens the node. *)
Lemma fixDelete_red fuel st this C x cx kvx a b sz :
  map_at st this (plug C (Nd x cx kvx a b)) sz → cx = true ∨ C = [] →
  (0 < fuel)%nat →
  ∃ st', fixDelete fuel this (Some x) st = Ok tt st' ∧
         map_at st' this (plug C (Nd x false kvx a b)) sz ∧
         (∀ l, is_Some (heap st !! l) → is_Some (heap st' !! l)).
Proof.
  intros Hm Hc Hf. unfold fixDelete. destruct fuel as [|m]; [lia|].
  assert (fixDelete_loop this (S m) (Some x) st = Ok (Some x) st) as E.
  { cbn [fixDelete_loop].
    rewrite (bind_ok _ _ _ _ _ (map_at_root _ _ _ _ Hm)), ptr_of_plug.
    destruct C as [|F C].
    - cbn [ctx_top ptr_of]. by rewrite ptr_eqb_refl.
    - destruct Hc as [->|?]; [|done]. cbn [ptr_of].
      rewrite ptr_eqb_ne by (eapply map_at_root_ne; exact Hm).
      by rewrite (bind_ok _ _ _ _ _ (map_at_is_black_0 Hm)). }
  rewrite (bind_ok _ _ _ _ _ E).
  destruct (set_color_spec st this C x cx kvx a b sz false Hm) as (st' & E' & Hm').
  exists st'. split_and!; [done..|]. intros l. by eapply set_color_live.
Qed.

(** *** Where the unlinked node leaves the colours *)

Lemma last_app_cons {A} (l1 l2 : list A) x : last (l1 ++ x :: l2) = last (x :: l2).
Proof.
  induction l1 as [|y l1 IH]; [done|]. rewrite <- IH. simpl.
  by destruct (l1 ++ x :: l2) eqn:E; [destruct l1|].
Qed.

Lemma unlinked_top_black C cz a b :
  ctx_top_black C → (C = [] → cz = false) →
  ctx_top_black (fst (fst (unlinked C cz a b))).
Proof.
  intros Hb Hz. unfold unlinked.
  destruct a as [|la ca kva a1 a2]; [done|].
  destruct b as [|lb cb kvb b1 b2]; [done|].
  destruct (min_ctx_spec (Nd lb cb kvb b1 b2) []) as
    (y & cy & kvy & xr & C' & H1 & _); [done|].
  rewrite H1, app_nil_r. cbn [fst snd]. unfold ctx_top_black.
  rewrite last_app_cons. destruct C as [|F C]; [by apply Hz|exact Hb].
Qed.

(** A node removed from the root position is the root. *)
Lemma unlinked_at_root C cz a b :
  fst (fst (unlinked C cz a b)) = [] → C = [] ∧ snd (unlinked C cz a b) = cz.
Proof.
  unfold unlinked.
  destruct a as [|la ca kva a1 a2]; [done|].
  destruct b as [|lb cb kvb b1 b2]; [done|].
  destruct (min_ctx_spec (Nd lb cb kvb b1 b2) []) as
    (y & cy & kvy & xr & C' & H1 & _); [done|].
  rewrite H1, app_nil_r. cbn [fst snd]. intros H. by destruct C'.
Qed.

Lemma black_height_zero t :
  black_height t = Some O → t = Leaf ∨ is_red_tree t = true.
Proof.
  destruct t as [|l c kv a b]; [by left|]. simpl.
  destruct (black_height a), (black_height b); try done.
  case_bool_decide; [|done]. destruct c; [by right|done].
Qed.

Lemma black_height_left_null l c kv (b : tree Key T) :
  is_Some (black_height (Nd l c kv Leaf b)) → b = Leaf ∨ is_red_tree b = true.
Proof.
  simpl. destruct (black_height b) as [n|] eqn:E; [|by intros []].
  case_bool_decide; [|by intros []]. subst n. intros _. by apply black_height_zero.
Qed.

Lemma black_height_right_null l c kv (a : tree Key T) :
  is_Some (black_height (Nd l c kv a Leaf)) → a = Leaf ∨ is_red_tree a = true.
Proof.
  simpl. destruct (black_height a) as [n|] eqn:E; [|by intros []].
  case_bool_decide; [|by intros []]. subst n. intros _. by apply black_height_zero.
Qed.

(** In a tree with equal black counts, the only child of a node is red. *)
Lemma unlinked_replacement z kvz C cz a b :
  is_Some (black_height (plug C (Nd z cz kvz a b))) →
  snd (fst (unlinked C cz a b)) = Leaf ∨
  is_red_tree (snd (fst (unlinked C cz a b))) = true.
Proof.
  intros H. apply black_height_plug in H. unfold unlinked.
  destruct a as [|la ca kva a1 a2].
  { by eapply black_height_left_null. }
  destruct b as [|lb cb kvb b1 b2].
  { by eapply black_height_right_null. }
  destruct (min_ctx_spec (Nd lb cb kvb b1 b2) []) as
    (y & cy & kvy & xr & C' & H1 & H2 & _); [done|].
  rewrite H1. cbn [fst snd].
  assert (is_Some (black_height (Nd lb cb kvb b1 b2))) as Hb.
  { simpl in H. simpl. destruct (black_height a1), (black_height a2); try by destruct H.
    destruct (bool_decide _); [|by destruct H].
    destruct (black_height b1), (black_height b2); try by destruct H.
    destruct (bool_decide (n1 = n2)); [done|by destruct H]. }
  rewrite H2 in Hb. apply black_height_plug in Hb.
  by eapply black_height_left_null.
Qed.

(** *** [delete z] *)

Lemma free_spec st this t sz z :
  map_at st this t sz → z ∉ locs t → is_Some (heap st !! z) →
  ∃ st', free (Some z) st = Ok tt st' ∧ map_at st' this t sz ∧ heap st' !! z = None.
Proof.
  intros (o & Ho & Hr & Hsz & HR & HN) Hz [n Hn]. unfold free. rewrite Hn.
  eexists. split; [done|]. split; [|apply lookup_delete_eq].
  exists o. split_and!; [done..| |done]. by apply Rep_delete_ne.
Qed.

Lemma free_post st this t sz z :
  map_at st this t sz → z ∉ locs t →
  post (free (Some z) st) (λ _ st', map_at st' this t sz ∧ heap st' !! z = None).
Proof.
  intros Hm Hz. destruct (heap st !! z) as [n|] eqn:E.
  - destruct (free_spec st this t sz z Hm Hz) as (st' & E' & H); [by eexists|].
    by rewrite E'.
  - unfold free. by rewrite E.
Qed.

Lemma nodup_remove_mid {A B} (l1 l2 : list (A * B)) x :
  NoDup ((l1 ++ x :: l2).*1) → x.1 ∉ (l1 ++ l2).*1.
Proof.
  rewrite !fmap_app, fmap_cons, NoDup_app, NoDup_cons, not_elem_of_app.
  intros (H1 & H2 & H3 & H4). split; [|done].
  intros Hin. apply (H2 _ Hin). by left.
Qed.

Lemma not_in_locs_of_nodes t z l :
  nodes t = l → z ∉ l.*1 → z ∉ locs t.
Proof. intros <-. done. Qed.

(** The nodes around [z] in the in-order listing. *)
Lemma nodes_plug_split C z cz kvz a b :
  nodes (plug C (Nd z cz kvz a b))
  = (ctx_before C ++ nodes a) ++ (z, kvz) :: nodes b ++ ctx_after C.
Proof. rewrite nodes_plug. cbn [nodes]. by rewrite <- !app_assoc. Qed.

(** Whatever the colours, an erasure that returns has removed exactly
    the node [z] and left the root black. *)
Lemma deleteNode_post fuel st this C z cz kvz a b sz :
  map_at st this (plug C (Nd z cz kvz a b)) sz →
  root_black (plug C (Nd z cz kvz a b)) →
  (height (plug C (Nd z cz kvz a b)) < fuel)%nat →
  post (deleteNode fuel this (Some z) st)
       (λ _ st', ∃ t', map_at st' this t' (wrap (sz - 1)) ∧
          nodes t' = (ctx_before C ++ nodes a) ++ nodes b ++ ctx_after C ∧
          root_black t' ∧ heap st' !! z = None).
Proof.
  intros Hm Hrb Hf. unfold deleteNode.
  destruct (unlink_spec fuel st this C z cz kvz a b sz Hm Hf) as (st1 & E & Hm1 & Hz).
  rewrite (bind_ok _ _ _ _ _ E). cbn [fst snd]. clear E.
  pose proof (unlinked_nodes C cz a b) as Hn.
  pose proof (unlinked_top_black C cz a b (root_black_ctx _ _ Hrb)) as Hb.
  pose proof (unlinked_at_root C cz a b) as Hroot.
  destruct (unlinked C cz a b) as [[C' xt] yoc]. cbn [fst snd] in *.
  assert (z ∉ (ctx_before C ++ nodes a ++ nodes b ++ ctx_after C).*1) as Hnz.
  { destruct Hm as (_ & _ & _ & _ & _ & HN). unfold locs in HN.
    rewrite nodes_plug_split in HN. apply nodup_remove_mid in HN.
    by rewrite <- app_assoc in HN. }
  assert (C = [] → cz = false) as Hcz by (by intros ->).
  specialize (Hb Hcz).
  assert (∀ st2 t2, map_at st2 this t2 sz → nodes t2 = nodes (plug C' xt) →
            root_black t2 →
            post ((free (Some z);; decr_size this) st2)
              (λ _ st', ∃ t', map_at st' this t' (wrap (sz - 1)) ∧
                 nodes t' = (ctx_before C ++ nodes a) ++ nodes b ++ ctx_after C ∧
                 root_black t' ∧ heap st' !! z = None)) as Hrest.
  { intros st2 t2 Hm2 Hn2 Hr2. apply post_bind.
    eapply post_mono; [apply (free_post st2 this t2 sz z Hm2)|].
    - exact (not_in_locs_of_nodes t2 z _ (eq_trans Hn2 Hn) Hnz).
    - intros _ st3 (Hm3 & Hz3).
      destruct Hm3 as (o & Ho & Hr & Hsz & HR & HN). unfold decr_size. munfold.
      repeat mstep. simpl. exists t2. split_and!.
      + eexists. msimpl. split_and!; [apply lookup_insert_eq|done|by rewrite Hsz|done|done].
      + by rewrite Hn2, Hn, <- app_assoc.
      + done.
      + done. }
  destruct (runs_fixDelete yoc (ptr_of xt)) eqn:Hrun.
  - apply post_bind. eapply post_mono; [by eapply fixDelete_post|].
    intros _ st2 (t2 & Hm2 & Hn2 & Hr2). by apply (Hrest st2 t2).
  - rewrite bind_ret. apply (Hrest st1 (plug C' xt)); [done..|].
    apply root_black_plug; [done|]. intros ->.
    destruct Hroot as [HC ->]; [done|]. rewrite (Hcz HC) in Hrun.
    unfold runs_fixDelete in Hrun. cbn [negb andb] in Hrun.
    destruct xt; [done|]. apply bool_decide_eq_false in Hrun. by destruct Hrun.
Qed.

(** When all paths of the tree hold the same number of black nodes, the
    erasure returns. *)
Lemma deleteNode_returns fuel st this C z cz kvz a b sz :
  map_at st this (plug C (Nd z cz kvz a b)) sz →
  is_Some (black_height (plug C (Nd z cz kvz a b))) →
  (height (plug C (Nd z cz kvz a b)) < fuel)%nat →
  ∃ st', deleteNode fuel this (Some z) st = Ok tt st'.
Proof.
  intros Hm Hbh Hf. unfold deleteNode.
  destruct (unlink_spec fuel st this C z cz kvz a b sz Hm Hf) as (st1 & E & Hm1 & Hz).
  rewrite (bind_ok _ _ _ _ _ E). cbn [fst snd]. clear E.
  pose proof (unlinked_nodes C cz a b) as Hn.
  pose proof (unlinked_replacement z kvz C cz a b Hbh) as Hx.
  destruct (unlinked C cz a b) as [[C' xt] yoc]. cbn [fst snd] in *.
  assert (z ∉ (ctx_before C ++ nodes a ++ nodes b ++ ctx_after C).*1) as Hnz.
  { destruct Hm as (_ & _ & _ & _ & _ & HN). unfold locs in HN.
    rewrite nodes_plug_split in HN. apply nodup_remove_mid in HN.
    by rewrite <- app_assoc in HN. }
  assert (is_Some (heap st1 !! z)) as Hlive.
  { rewrite Hz, (map_at_lookup _ _ _ _ _ _ _ _ _ Hm). by eexists. }
  assert (∀ st2 t2, map_at st2 this t2 sz → nodes t2 = nodes (plug C' xt) →
            is_Some (heap st2 !! z) →
            ∃ st', (free (Some z);; decr_size this) st2 = Ok tt st') as Hrest.
  { intros st2 t2 Hm2 Hn2 Hl2.
    destruct (free_spec st2 this t2 sz z Hm2) as (st3 & E3 & Hm3 & _); [|done|].
    { exact (not_in_locs_of_nodes t2 z _ (eq_trans Hn2 Hn) Hnz). }
    rewrite (bind_ok _ _ _ _ _ E3).
    destruct (decr_size_spec st3 this t2 sz Hm3) as (st4 & E4 & _). eauto. }
  destruct (runs_fixDelete yoc (ptr_of xt)) eqn:Hrun.
  - destruct Hx as [->|Hred].
    { unfold runs_fixDelete in Hrun. by rewrite andb_comm in Hrun. }
    destruct xt as [|x [|] kvx xa xb]; try done.
    destruct (fixDelete_red fuel st1 this C' x true kvx xa xb sz Hm1) as (st2 & E2 & Hm2 & Hl);
      [by left|lia|].
    cbn [ptr_of]. rewrite (bind_ok _ _ _ _ _ E2).
    eapply Hrest; [exact Hm2| |by apply Hl]. by rewrite !nodes_plug.
  - rewrite bind_ret. by eapply Hrest.
Qed.

End DeleteNode.
(** ** The order of the keys under insertion and erasure *)

Section Ordered.

Context {Key T : Type}.
Variable comp : Key → Key → bool.
Hypothesis comp_swo : strict_weak_order comp.

Implicit Types (t s : tree Key T) (C : list (frame Key T))
  (L : list (loc * (Key * T))).

Lemma keys_nodes t : keys t = (nodes t).*2.*1.
Proof. done. Qed.

Lemma Forall_keys (P : Key → Prop) L :
  Forall P (L.*2.*1) ↔ Forall (λ x, P x.2.1) L.
Proof. by rewrite !Forall_fmap. Qed.

Lemma ascending_remove (l1 l2 : list Key) x :
  ascending comp (l1 ++ x :: l2) → ascending comp (l1 ++ l2).
Proof.
  unfold ascending. rewrite !StronglySorted_app, StronglySorted_cons.
  intros (H1 & H2 & H3 & H4). split_and!; [|done..].
  intros x1 x2 Hx1 Hx2. apply H1; [done|]. by right.
Qed.

Lemma ascending_insert (l1 l2 : list Key) x :
  ascending comp (l1 ++ l2) → Forall (λ y, lt comp y x) l1 → Forall (lt comp x) l2 →
  ascending comp (l1 ++ x :: l2).
Proof.
  unfold ascending. rewrite !StronglySorted_app, StronglySorted_cons.
  rewrite !Forall_forall. intros (H1 & H2 & H3) F1 F2. split_and!; [|done..].
  intros x1 x2 Hx1 Hx2. apply elem_of_cons in Hx2 as [->|Hx2]; auto.
Qed.

(** The descent of an insertion keeps the smaller keys before the hole
    and the larger ones after it. *)
Lemma descend_bounds k t C C' :
  descend comp k t C = inr C' → bst comp t → ctx_bounds comp k C →
  ctx_bounds comp k C'.
Proof.
  revert C. induction t as [|l c kv a IHa b IHb]; intros C; simpl.
  { by intros [= <-]. }
  destruct (comp k kv.1) eqn:E1; [|destruct (comp kv.1 k) eqn:E2; [|done]].
  - intros Hd Hbst [Hbef Haft].
    apply (bst_Nd comp comp_swo) in Hbst as (Ba & Bb & Fa & Fb).
    apply (IHa _ Hd Ba). split; simpl; [done|].
    constructor; [done|]. apply Forall_app. split; [|done].
    rewrite keys_nodes, Forall_keys in Fb.
    eapply Forall_impl; [exact Fb|]. intros x Hx. simpl in Hx.
    exact (swo_trans _ comp_swo _ _ _ E1 Hx).
  - intros Hd Hbst [Hbef Haft].
    apply (bst_Nd comp comp_swo) in Hbst as (Ba & Bb & Fa & Fb).
    apply (IHb _ Hd Bb). split; simpl; [|done].
    rewrite !Forall_app. split_and!; [done| |by repeat constructor].
    rewrite keys_nodes, Forall_keys in Fa.
    eapply Forall_impl; [exact Fa|]. intros x Hx. simpl in Hx.
    exact (swo_trans _ comp_swo _ _ _ Hx E2).
Qed.

(** A new node, linked where the descent ends, keeps the keys ascending. *)
Lemma insert_bst t t' C z value :
  bst comp t → descend comp (fst value) t [] = inr C →
  nodes t = ctx_before C ++ ctx_after C →
  nodes t' = ctx_before C ++ (z, value) :: ctx_after C →
  bst comp t'.
Proof.
  intros Hbst Hd Hn Hn'.
  destruct (descend_bounds _ _ _ _ Hd Hbst) as [Hbef Haft].
  { split; constructor. }
  unfold bst in *. rewrite keys_nodes in *. rewrite Hn', !fmap_app, !fmap_cons.
  rewrite Hn, !fmap_app in Hbst.
  apply ascending_insert; [done|by apply Forall_keys..].
Qed.

(** Removing a node keeps the keys ascending. *)
Lemma delete_bst t t' l1 l2 x :
  bst comp t → nodes t = l1 ++ x :: l2 → nodes t' = l1 ++ l2 → bst comp t'.
Proof.
  unfold bst. rewrite !keys_nodes. intros Hbst Hn Hn'.
  rewrite Hn, !fmap_app, !fmap_cons in Hbst. rewrite Hn', !fmap_app.
  by eapply ascending_remove.
Qed.

Lemma equiv_key_refl k : equiv_key comp k k.
Proof. split; apply (swo_irrefl _ comp_swo). Qed.

(** Every stored node is found under its own key. *)
Lemma lookup_present t l kv :
  bst comp t → (l, kv) ∈ nodes t → lookup_tree comp kv.1 t = Some l.
Proof.
  intros Hbst Hin. eapply (lookup_tree_complete comp comp_swo); [done..|].
  apply equiv_key_refl.
Qed.

(** No key equivalent to the key of a removed node is left. *)
Lemma lookup_removed t t' l1 l2 x :
  bst comp t → nodes t = l1 ++ x :: l2 → nodes t' = l1 ++ l2 →
  lookup_tree comp x.2.1 t' = None.
Proof.
  intros Hbst Hn Hn'.
  destruct (lookup_tree comp x.2.1 t') as [l|] eqn:E; [|done]. exfalso.
  destruct (lookup_tree_sound comp _ _ _ E) as (kv & Hin & [He1 He2]).
  unfold bst, ascending in Hbst.
  rewrite keys_nodes, Hn, !fmap_app, !fmap_cons, StronglySorted_app,
    StronglySorted_cons, Forall_forall in Hbst.
  destruct Hbst as (H1 & H2 & H3 & H4).
  rewrite Hn', elem_of_app in Hin. destruct Hin as [Hin|Hin].
  - assert (lt comp kv.1 x.2.1) as Hlt.
    { apply H1; [|by left]. apply list_elem_of_fmap. exists kv. split; [done|].
      apply list_elem_of_fmap. by exists (l, kv). }
    unfold lt in Hlt. congruence.
  - assert (lt comp x.2.1 kv.1) as Hlt.
    { apply H3. apply list_elem_of_fmap. exists kv. split; [done|].
      apply list_elem_of_fmap. by exists (l, kv). }
    unfold lt in Hlt. congruence.
Qed.

End Ordered.
(** ** Where exceptions come from

    The helper functions of the tree contain no [throw]: whatever the
    memory, they return, run into undefined behaviour, or exhaust the loop
    budget, but never raise an exception. *)

Section NoThrow.

Context {Key T : Type}.
Implicit Types (st : state Key T) (p q : ptr).

Lemma nt_ret {A} (a : A) : no_throw (ret (S := state Key T) a).
Proof. by intros s e s'. Qed.

Lemma nt_fault {A} : no_throw (fault (S := state Key T) (A := A)).
Proof. by intros s e s'. Qed.

Lemma nt_out_of_fuel {A} : no_throw (out_of_fuel (S := state Key T) (A := A)).
Proof. by intros s e s'. Qed.

Lemma nt_bind {A B} (m : M (state Key T) A) (k : A → M (state Key T) B) :
  no_throw m → (∀ a, no_throw (k a)) → no_throw (bind m k).
Proof.
  intros Hm Hk s e s'. unfold bind. destruct (m s) as [a s1|e1 s1| |] eqn:E; try done.
  - apply Hk.
  - by apply Hm in E.
Qed.

Lemma nt_load p : no_throw (load (Key := Key) (T := T) p).
Proof. intros s e s'. unfold load. destruct p; [|done]. by destruct (heap s !! l). Qed.

Lemma nt_modify p f : no_throw (modify (Key := Key) (T := T) p f).
Proof. intros s e s'. unfold modify. destruct p; [|done]. by destruct (heap s !! l). Qed.

Lemma nt_load_map this : no_throw (load_map (Key := Key) (T := T) this).
Proof. intros s e s'. unfold load_map. by destruct (objs s !! this). Qed.

Lemma nt_modify_map this f : no_throw (modify_map (Key := Key) (T := T) this f).
Proof. intros s e s'. unfold modify_map. by destruct (objs s !! this). Qed.

Lemma nt_free p : no_throw (free (Key := Key) (T := T) p).
Proof. intros s e s'. unfold free. destruct p; [|done]. by destruct (heap s !! l). Qed.

End NoThrow.

Ltac nt_step :=
  first
    [ apply nt_ret | apply nt_fault | apply nt_out_of_fuel | apply nt_load
    | apply nt_modify | apply nt_load_map | apply nt_modify_map | apply nt_free
    | assumption
    | apply nt_bind; [|intros ?]
    | lazymatch goal with
      | |- no_throw (match ?x with _ => _ end) => destruct x
      end
    | progress unfold get_left, get_right, get_parent, get_color, get_key,
        set_left, set_right, set_parent, set_color, get_root, set_root,
        get_size, set_size, is_red, is_black ].

Ltac nt := repeat nt_step.

Section NoThrowTree.

Context {Key T : Type}.
Variable fuel : nat.
Implicit Types (st : state Key T) (p q x : ptr).

Lemma nt_leftRotate this x : no_throw (leftRotate (Key := Key) (T := T) this x).
Proof. unfold leftRotate. nt. Qed.

Lemma nt_rightRotate this x : no_throw (rightRotate (Key := Key) (T := T) this x).
Proof. unfold rightRotate. nt. Qed.

Lemma nt_transplant this u v : no_throw (transplant (Key := Key) (T := T) this u v).
Proof. unfold transplant. nt. Qed.

Lemma nt_minimum_loop n x : no_throw (minimum_loop (Key := Key) (T := T) n x).
Proof. revert x. induction n as [|n IH]; intros x; cbn [minimum_loop]; nt. apply IH. Qed.

Lemma nt_fixDelete_loop this n x :
  no_throw (fixDelete_loop (Key := Key) (T := T) this n x).
Proof.
  revert x. induction n as [|n IH]; intros x; cbn [fixDelete_loop]; [nt|].
  pose proof (nt_leftRotate this) as HL. pose proof (nt_rightRotate this) as HR.
  repeat first [ apply IH | apply HL | apply HR | nt_step ].
Qed.

Lemma nt_fixDelete this x : no_throw (fixDelete (Key := Key) (T := T) fuel this x).
Proof. unfold fixDelete. apply nt_bind; [apply nt_fixDelete_loop|]. intros a. nt. Qed.

Lemma nt_deleteNode_unlink this z :
  no_throw (deleteNode_unlink (Key := Key) (T := T) fuel this z).
Proof.
  unfold deleteNode_unlink, minimum.
  pose proof (nt_transplant this) as HT.
  repeat first [ apply HT | apply nt_minimum_loop | nt_step ].
Qed.

(** [deleteNode] raises no exception. *)
Lemma nt_deleteNode this z : no_throw (deleteNode (Key := Key) (T := T) fuel this z).
Proof.
  unfold deleteNode, decr_size. destruct z; [|apply nt_ret].
  apply nt_bind; [apply nt_deleteNode_unlink|]. intros yx.
  apply nt_bind; [destruct (runs_fixDelete _ _); [apply nt_fixDelete|apply nt_ret]|].
  intros _. nt.
Qed.

End NoThrowTree.
(** ** [destroy] and [copy] *)

Section Copy.

Context {Key T : Type}.
Implicit Types (h : gmap loc (Node Key T)) (st : state Key T) (t s : tree Key T)
  (n : Node Key T) (C : list (frame Key T)).

Lemma same_shape_entries t t' : same_shape t t' → entries t = entries t'.
Proof.
  revert t'. induction t as [|l c kv a IHa b IHb]; intros [|l' c' kv' a' b']; try done.
  intros (-> & -> & Ha & Hb). unfold entries in *. simpl.
  rewrite !fmap_app, !fmap_cons. by rewrite (IHa _ Ha), (IHb _ Hb).
Qed.

Lemma same_shape_height t t' : same_shape t t' → height t = height t'.
Proof.
  revert t'. induction t as [|l c kv a IHa b IHb]; intros [|l' c' kv' a' b']; try done.
  intros (-> & -> & Ha & Hb). simpl. by rewrite (IHa _ Ha), (IHb _ Hb).
Qed.

Lemma same_shape_black_height t t' :
  same_shape t t' → black_height t = black_height t'.
Proof.
  revert t'. induction t as [|l c kv a IHa b IHb]; intros [|l' c' kv' a' b']; try done.
  intros (-> & -> & Ha & Hb). simpl. by rewrite (IHa _ Ha), (IHb _ Hb).
Qed.

(** [destroy] releases exactly the nodes of the subtree. *)
Lemma destroy_rec_spec m st par t :
  Rep (heap st) par t → NoDup (locs t) → (height t < m)%nat →
  ∃ st', destroy_rec m (ptr_of t) st = Ok tt st' ∧ objs st' = objs st ∧
         (∀ l, l ∈ locs t → heap st' !! l = None) ∧
         (∀ l, l ∉ locs t → heap st' !! l = heap st !! l).
Proof.
  revert st par t. induction m as [|m IH]; intros st par t HR HN Hm; [lia|].
  destruct t as [|l c kv a b]; cbn [destroy_rec ptr_of].
  { exists st. split_and!; [done..| |done]. intros l H. by apply elem_of_nil in H. }
  destruct HR as (Hn & Ha & Hb). simpl in Hm.
  rewrite locs_Nd in HN. apply NoDup_app in HN as (Na & Hd & HN).
  apply NoDup_cons in HN as (Hlb & Nb).
  rewrite (bind_ok _ _ _ _ _ (get_left_ok _ _ _ Hn)). cbn [left].
  destruct (IH st (Some l) a Ha Na) as (st1 & E1 & Ho1 & Hd1 & Hf1); [lia|].
  rewrite (bind_ok _ _ _ _ _ E1).
  assert (l ∉ locs a) as Hla.
  { intros Hin. apply (Hd _ Hin). by left. }
  assert (heap st1 !! l = heap st !! l) as Hl1 by (by apply Hf1).
  rewrite (bind_ok _ _ _ _ _ (get_right_ok st1 l _ (eq_trans Hl1 Hn))). cbn [right].
  destruct (IH st1 (Some l) b) as (st2 & E2 & Ho2 & Hd2 & Hf2); [|done|lia|].
  { eapply Rep_frame; [|exact Hb]. intros l' Hl'. apply Hf1.
    intros Hin. apply (Hd _ Hin). by right. }
  rewrite (bind_ok _ _ _ _ _ E2).
  assert (heap st2 !! l = heap st !! l) as Hl2 by (by rewrite Hf2).
  unfold free. rewrite Hl2, Hn.
  eexists. split; [reflexivity|]. cbn [heap objs set_heap].
  split; [congruence|]. split.
  - intros l'. rewrite locs_Nd, elem_of_app, elem_of_cons.
    destruct (decide (l' = l)) as [->|Hne]; [intros _; apply lookup_delete_eq|].
    rewrite lookup_delete_ne by done. intros [Hin|[?|Hin]]; [|done|by apply Hd2].
    destruct (decide (l' ∈ locs b)); [by apply Hd2|]. rewrite Hf2 by done. by apply Hd1.
  - intros l'. rewrite locs_Nd, elem_of_app, elem_of_cons. intros Hnot.
    rewrite lookup_delete_ne by (intros ->; apply Hnot; auto).
    rewrite Hf2 by (intros Hin; apply Hnot; auto).
    rewrite Hf1 by (intros Hin; apply Hnot; auto). done.
Qed.

Lemma alloc_spec st n :
  alloc n st = Ok (Some (fresh (dom (heap st))))
                  (set_heap (<[fresh (dom (heap st)) := n]> (heap st)) st).
Proof. done. Qed.

(** [copy] builds a tree of the same shape out of nodes that were not in
    use, and leaves the rest of the heap as it was. *)
Lemma copy_rec_spec m st ps par t :
  Rep (heap st) ps t → (height t < m)%nat →
  ∃ st' t', copy_rec m (ptr_of t) par st = Ok (ptr_of t') st' ∧
    objs st' = objs st ∧ same_shape t t' ∧ Rep (heap st') par t' ∧
    NoDup (locs t') ∧
    (∀ l, l ∈ locs t' → heap st !! l = None) ∧
    (∀ l, l ∉ locs t' → heap st' !! l = heap st !! l).
Proof.
  revert st ps par t. induction m as [|m IH]; intros st ps par t HR Hm; [lia|].
  destruct t as [|l c kv a b]; cbn [copy_rec ptr_of].
  { exists st, Leaf.
    split_and!;
      first [done | apply NoDup_nil_2 | intros l H; by apply elem_of_nil in H]. }
  destruct HR as (Hn & Ha & Hb). simpl in Hm.
  rewrite (bind_ok _ _ _ _ _ (load_ok _ _ _ Hn)). cbn [data].
  rewrite (bind_ok _ _ _ _ _ (alloc_spec _ _)).
  set (z := fresh (dom (heap st))).
  assert (heap st !! z = None) as Hz by apply fresh_lookup.
  assert (l ≠ z) as Hlz by congruence.
  set (st1 := set_heap (<[z := new_Node kv par]> (heap st)) st).
  assert (heap st1 !! l = heap st !! l) as Hl1
    by (by apply lookup_insert_ne).
  rewrite (bind_ok _ _ _ _ _ (get_color_ok st1 l _ (eq_trans Hl1 Hn))). cbn [color].
  unfold set_color, set_left, set_right.
  rewrite (bind_ok _ _ _ _ _ (modify_ok st1 z _ _ (lookup_insert_eq _ _ _))).
  set (st2 := set_heap _ st1).
  assert (∀ l', l' ≠ z → heap st2 !! l' = heap st !! l') as Hf2.
  { intros l' Hne. subst st2 st1. cbn [heap set_heap].
    by rewrite !lookup_insert_ne. }
  assert (∀ s q, Rep (heap st) q s → Rep (heap st2) q s) as Hframe2.
  { intros s q Hs. eapply Rep_frame; [|exact Hs]. intros l' Hl'. apply Hf2.
    intros ->. destruct (Rep_lookup _ _ _ _ Hs Hl') as [? ?]. congruence. }
  assert (heap st2 !! l = heap st !! l) as Hl2 by (by apply Hf2).
  rewrite (bind_ok _ _ _ _ _ (get_left_ok st2 l _ (eq_trans Hl2 Hn))). cbn [left].
  destruct (IH st2 (Some l) (Some z) a (Hframe2 _ _ Ha)) as
    (st3 & a' & E3 & Ho3 & Hs3 & HR3 & HN3 & Hfr3 & Hf3); [lia|].
  rewrite (bind_ok _ _ _ _ _ E3).
  assert (heap st2 !! z = Some (with_color c (new_Node kv par))) as Hz2.
  { subst st2. cbn [heap set_heap]. apply lookup_insert_eq. }
  assert (z ∉ locs a') as Hza.
  { intros Hin. apply Hfr3 in Hin. congruence. }
  assert (heap st3 !! z = Some (with_color c (new_Node kv par))) as Hz3
    by (by rewrite Hf3).
  rewrite (bind_ok _ _ _ _ _ (modify_ok st3 z _ _ Hz3)).
  set (st4 := set_heap _ st3).
  assert (∀ l', l' ≠ z → heap st4 !! l' = heap st3 !! l') as Hf4.
  { intros l' Hne. subst st4. cbn [heap set_heap]. by rewrite lookup_insert_ne. }
  assert (∀ l', is_Some (heap st !! l') → heap st4 !! l' = heap st !! l') as Hold4.
  { intros l' [n' Hl']. assert (l' ≠ z) by congruence.
    rewrite Hf4 by done. rewrite Hf3; [by rewrite Hf2|].
    intros Hin. apply Hfr3 in Hin. rewrite Hf2 in Hin by done. congruence. }
  rewrite (bind_ok _ _ _ _ _ (get_right_ok st4 l _ (eq_trans (Hold4 l ltac:(by eexists)) Hn))).
  cbn [right].
  assert (Rep (heap st4) (Some l) b) as Hb4.
  { eapply Rep_frame; [|exact Hb]. intros l' Hl'. apply Hold4.
    by eapply Rep_lookup. }
  destruct (IH st4 (Some l) (Some z) b Hb4) as
    (st5 & b' & E5 & Ho5 & Hs5 & HR5 & HN5 & Hfr5 & Hf5); [lia|].
  rewrite (bind_ok _ _ _ _ _ E5).
  assert (heap st4 !! z = Some (with_left (ptr_of a') (with_color c (new_Node kv par))))
    as Hz4.
  { subst st4. cbn [heap set_heap]. apply lookup_insert_eq. }
  assert (z ∉ locs b') as Hzb.
  { intros Hin. apply Hfr5 in Hin. congruence. }
  assert (heap st5 !! z = Some (with_left (ptr_of a') (with_color c (new_Node kv par))))
    as Hz5 by (by rewrite Hf5).
  rewrite (bind_ok _ _ _ _ _ (modify_ok st5 z _ _ Hz5)).
  assert (∀ l', l' ∈ locs a' → l' ∉ locs b') as Hab.
  { intros l' Hin Hin'. apply Hfr5 in Hin'.
    destruct (Rep_lookup _ _ _ _ HR3 Hin) as [n' Hn'].
    rewrite Hf4 in Hin' by congruence. congruence. }
  eexists _, (Nd z c kv a' b'). split; [reflexivity|].
  cbn [heap objs set_heap]. split_and!.
  - subst st4 st2 st1. cbn [objs set_heap] in *. congruence.
  - done.
  - cbn [Rep]. split_and!.
    + by rewrite lookup_insert_eq.
    + eapply Rep_frame; [|exact HR3]. intros l' Hl'.
      rewrite lookup_insert_ne by congruence.
      rewrite Hf5 by (by apply Hab). apply Hf4. congruence.
    + eapply Rep_frame; [|exact HR5]. intros l' Hl'.
      apply lookup_insert_ne. congruence.
  - rewrite locs_Nd. apply NoDup_app. split_and!; [done| |].
    + intros l' Hin. rewrite elem_of_cons. intros [->|Hin']; [done|].
      by apply (Hab l').
    + by apply NoDup_cons.
  - intros l'. rewrite locs_Nd, elem_of_app, elem_of_cons.
    intros [Hin|[->|Hin]]; [|done|].
    + pose proof (Hfr3 _ Hin) as H3. rewrite Hf2 in H3; [done|congruence].
    + pose proof (Hfr5 _ Hin) as H5.
      assert (l' ≠ z) by congruence.
      rewrite Hf4 in H5 by done.
      rewrite Hf3 in H5 by (intros Hin'; by apply (Hab l')).
      by rewrite Hf2 in H5.
  - intros l'. rewrite locs_Nd, elem_of_app, elem_of_cons. intros Hnot.
    assert (l' ≠ z) by (intros ->; apply Hnot; auto).
    rewrite lookup_insert_ne by done.
    rewrite Hf5 by (intros Hin; apply Hnot; auto).
    rewrite Hf4 by done.
    rewrite Hf3 by (intros Hin; apply Hnot; auto).
    by rewrite Hf2.
Qed.

End Copy.
(** ** The public interface *)

Section Interface.

Context {Key T : Type}.
Variable comp : Key → Key → bool.
Variable T_default : T.
Variable fuel : nat.
Hypothesis comp_swo : strict_weak_order comp.

Implicit Types (h : gmap loc (Node Key T)) (st : state Key T) (t s : tree Key T)
  (n : Node Key T) (C : list (frame Key T)) (L : list (loc * (Key * T))).

Lemma find_spec st this t sz k :
  map_at st this t sz → (height t < fuel)%nat →
  find comp fuel this k st = Ok (iter_at this (lookup_tree comp k t)) st.
Proof.
  intros Hm Hf. unfold find.
  rewrite (bind_ok _ _ _ _ _ (findNode_spec comp fuel st this t k (map_at_is_map _ _ _ _ Hm) Hf)).
  by destruct (lookup_tree comp k t).
Qed.

Lemma count_spec st this t sz k :
  map_at st this t sz → (height t < fuel)%nat →
  count comp fuel this k st
  = Ok (match lookup_tree comp k t with Some _ => 1 | None => 0 end) st.
Proof.
  intros Hm Hf. unfold count.
  rewrite (bind_ok _ _ _ _ _ (findNode_spec comp fuel st this t k (map_at_is_map _ _ _ _ Hm) Hf)).
  by destruct (lookup_tree comp k t).
Qed.

Lemma at_spec st this t sz k :
  map_at st this t sz → (height t < fuel)%nat →
  at_ comp fuel this k st
  = match lookup_tree comp k t with
    | Some l => Ok (Some l) st
    | None => Throw index_out_of_bound st
    end.
Proof.
  intros Hm Hf. unfold at_.
  rewrite (bind_ok _ _ _ _ _ (findNode_spec comp fuel st this t k (map_at_is_map _ _ _ _ Hm) Hf)).
  by destruct (lookup_tree comp k t).
Qed.

Lemma size_spec st this t sz : map_at st this t sz → size this st = Ok sz st.
Proof. intros (o & Ho & _ & <- & _). by apply get_size_ok. Qed.

Lemma get_value_spec st this t sz l kv :
  map_at st this t sz → (l, kv) ∈ nodes t → get_value (Some l) st = Ok kv.2 st.
Proof.
  intros (o & _ & _ & _ & HR & _) Hin.
  destruct (Rep_nodes_lookup _ _ _ _ _ HR Hin) as (n & Hn & <-).
  unfold get_value. by rewrite (bind_ok _ _ _ _ _ (load_ok _ _ _ Hn)).
Qed.

Lemma get_key_spec st this t sz l kv :
  map_at st this t sz → (l, kv) ∈ nodes t → get_key (Some l) st = Ok kv.1 st.
Proof.
  intros (o & _ & _ & _ & HR & _) Hin.
  destruct (Rep_nodes_lookup _ _ _ _ _ HR Hin) as (n & Hn & <-).
  by apply get_key_ok.
Qed.

Lemma absent_lookup k t : absent comp k t → lookup_tree comp k t = None.
Proof.
  intros Habs. destruct (lookup_tree comp k t) as [l|] eqn:E; [|done].
  destruct (lookup_tree_sound comp _ _ _ E) as (kv & Hin & He).
  by destruct (Habs l kv).
Qed.

Lemma present_lookup k t l kv :
  bst comp t → (l, kv) ∈ nodes t → equiv_key comp k kv.1 →
  lookup_tree comp k t = Some l.
Proof. apply (lookup_tree_complete comp comp_swo). Qed.

(** *** [insert] *)

Lemma insert_present_spec st this t sz k v l kv :
  map_at st this t sz → bst comp t → (height t < fuel)%nat →
  (l, kv) ∈ nodes t → equiv_key comp k kv.1 →
  insert comp fuel this (k, v) st = Ok (iter_at this (Some l), false) st.
Proof.
  intros Hm Hbst Hf Hin He. unfold insert. cbn [fst].
  rewrite (bind_ok _ _ _ _ _ (findNode_spec comp fuel st this t k (map_at_is_map _ _ _ _ Hm) Hf)).
  by rewrite (present_lookup k t l kv Hbst Hin He).
Qed.

Lemma insertNode_new st this t sz value :
  map_at st this t sz → bst comp t → root_black t →
  lookup_tree comp value.1 t = None → (height t < fuel)%nat →
  ∃ st' t' z l1 l2,
    insertNode comp fuel this value st = Ok (Some z) st' ∧
    map_at st' this t' (wrap (sz + 1)) ∧ bst comp t' ∧ root_black t' ∧
    nodes t = l1 ++ l2 ∧ nodes t' = l1 ++ (z, value) :: l2 ∧
    (no_red_red t = true → is_Some (black_height t) →
     no_red_red t' = true ∧ is_Some (black_height t')).
Proof.
  intros Hm Hbst Hrb Hl Hf.
  destruct (insertNode_absent comp fuel st this t value sz Hm Hrb Hl Hf) as
    (st' & t' & z & C & E & Hm' & Hrb' & Hd & Hn & Hn' & Hrbv).
  exists st', t', z, (ctx_before C), (ctx_after C). split_and!; try done.
  by eapply (insert_bst comp comp_swo).
Qed.

Lemma insert_absent_spec st this t sz value :
  map_at st this t sz → bst comp t → root_black t →
  lookup_tree comp value.1 t = None → (height t < fuel)%nat →
  ∃ st' t' z l1 l2,
    insert comp fuel this value st = Ok (iter_at this (Some z), true) st' ∧
    map_at st' this t' (wrap (sz + 1)) ∧ bst comp t' ∧ root_black t' ∧
    nodes t = l1 ++ l2 ∧ nodes t' = l1 ++ (z, value) :: l2 ∧
    (no_red_red t = true → is_Some (black_height t) →
     no_red_red t' = true ∧ is_Some (black_height t')).
Proof.
  intros Hm Hbst Hrb Hl Hf.
  destruct (insertNode_new st this t sz value Hm Hbst Hrb Hl Hf) as
    (st' & t' & z & l1 & l2 & E & H).
  exists st', t', z, l1, l2. split; [|done]. unfold insert.
  rewrite (bind_ok _ _ _ _ _ (findNode_spec comp fuel st this t _ (map_at_is_map _ _ _ _ Hm) Hf)).
  rewrite Hl. by rewrite (bind_ok _ _ _ _ _ E).
Qed.

(** *** [operator[]] *)

Lemma subscript_present_spec st this t sz k l kv :
  map_at st this t sz → bst comp t → (height t < fuel)%nat →
  (l, kv) ∈ nodes t → equiv_key comp k kv.1 →
  subscript comp T_default fuel this k st = Ok (Some l) st.
Proof.
  intros Hm Hbst Hf Hin He. unfold subscript.
  rewrite (bind_ok _ _ _ _ _ (findNode_spec comp fuel st this t k (map_at_is_map _ _ _ _ Hm) Hf)).
  by rewrite (present_lookup k t l kv Hbst Hin He).
Qed.

Lemma subscript_absent_spec st this t sz k :
  map_at st this t sz → bst comp t → root_black t →
  lookup_tree comp k t = None → (height t < fuel)%nat →
  ∃ st' t' z l1 l2,
    subscript comp T_default fuel this k st = Ok (Some z) st' ∧
    map_at st' this t' (wrap (sz + 1)) ∧ bst comp t' ∧ root_black t' ∧
    nodes t = l1 ++ l2 ∧ nodes t' = l1 ++ (z, (k, T_default)) :: l2 ∧
    (no_red_red t = true → is_Some (black_height t) →
     no_red_red t' = true ∧ is_Some (black_height t')).
Proof.
  intros Hm Hbst Hrb Hl Hf.
  destruct (insertNode_new st this t sz (k, T_default) Hm Hbst Hrb Hl Hf) as
    (st' & t' & z & l1 & l2 & E & H).
  exists st', t', z, l1, l2. split; [|done]. unfold subscript.
  rewrite (bind_ok _ _ _ _ _ (findNode_spec comp fuel st this t _ (map_at_is_map _ _ _ _ Hm) Hf)).
  by rewrite Hl.
Qed.

(** *** [erase] *)

Lemma erase_live st this l :
  erase fuel this (iter_at this (Some l)) st = deleteNode fuel this (Some l) st.
Proof.
  unfold erase, iter_at. cbn [current container].
  rewrite bool_decide_eq_false_2 by (by intros []).
  by rewrite bool_decide_eq_false_2.
Qed.

Lemma nodes_split t l kv :
  NoDup (locs t) → (l, kv) ∈ nodes t →
  ∃ C c a b, t = plug C (Nd l c kv a b).
Proof.
  intros HN Hin.
  destruct (locs_decompose t l) as (C & c & kv' & a & b & ->).
  { apply list_elem_of_fmap. by exists (l, kv). }
  exists C, c, a, b. unfold locs in HN. rewrite nodes_plug_split in HN, Hin.
  rewrite fmap_app, fmap_cons, NoDup_app, NoDup_cons in HN.
  destruct HN as (_ & H1 & H2 & _).
  apply elem_of_app in Hin as [Hin|Hin].
  - exfalso. apply (H1 l); [|by left]. apply list_elem_of_fmap. by exists (l, kv).
  - apply elem_of_cons in Hin as [[= ->]|Hin]; [done|].
    exfalso. apply H2. apply list_elem_of_fmap. by exists (l, kv).
Qed.

(** An erasure that returns has removed the node and nothing else. *)
Lemma erase_post st this t sz l kv :
  map_at st this t sz → bst comp t → root_black t → (height t < fuel)%nat →
  (l, kv) ∈ nodes t →
  post (erase fuel this (iter_at this (Some l)) st)
       (λ _ st', ∃ t' l1 l2,
          map_at st' this t' (wrap (sz - 1)) ∧ bst comp t' ∧ root_black t' ∧
          nodes t = l1 ++ (l, kv) :: l2 ∧ nodes t' = l1 ++ l2 ∧
          heap st' !! l = None).
Proof.
  intros Hm Hbst Hrb Hf Hin. rewrite erase_live.
  destruct (nodes_split t l kv) as (C & c & a & b & ->); [by destruct Hm as (?&?&?&?&?&?)|done|].
  eapply post_mono; [by apply (deleteNode_post fuel st this C l c kv a b sz)|].
  intros _ st' (t' & Hm' & Hn' & Hrb' & Hl).
  exists t', (ctx_before C ++ nodes a), (nodes b ++ ctx_after C).
  split_and!; try done.
  - eapply delete_bst; [exact Hbst|apply nodes_plug_split|exact Hn'].
  - apply nodes_plug_split.
Qed.

(** On a tree with equal black counts the erasure returns. *)
Lemma erase_returns st this t sz l kv :
  map_at st this t sz → is_Some (black_height t) → (height t < fuel)%nat →
  (l, kv) ∈ nodes t →
  ∃ st', erase fuel this (iter_at this (Some l)) st = Ok tt st'.
Proof.
  intros Hm Hbh Hf Hin. rewrite erase_live.
  destruct (nodes_split t l kv) as (C & c & a & b & ->); [by destruct Hm as (?&?&?&?&?&?)|done|].
  by eapply deleteNode_returns.
Qed.

(** *** Copy construction and assignment *)

Lemma copy_disjoint st st' par t t' :
  Rep (heap st) par t → (∀ l, l ∈ locs t' → heap st !! l = None) →
  ldisj (locs t) (locs t').
Proof.
  intros HR Hfr l Hin Hin'. destruct (Rep_lookup _ _ _ _ HR Hin) as [n Hn].
  apply Hfr in Hin'. congruence.
Qed.

Lemma map_copy_ctor_spec st dst src t sz :
  map_at st src t sz → dst ≠ src → (height t < fuel)%nat →
  ∃ st' t', map_copy_ctor fuel dst src st = Ok tt st' ∧
    map_at st' dst t' sz ∧ map_at st' src t sz ∧ same_shape t t' ∧
    ldisj (locs t) (locs t').
Proof.
  intros Hm Hds Hf. pose proof Hm as (o & Ho & Hr & Hsz & HR & HN).
  unfold map_copy_ctor, copy.
  rewrite (bind_ok _ _ _ _ _ (size_spec st src t sz Hm)).
  rewrite (bind_ok _ _ _ _ _ (map_at_root _ _ _ _ Hm)).
  destruct (copy_rec_spec fuel st None None t HR Hf) as
    (st1 & t' & E & Ho1 & Hs & HR1 & HN1 & Hfr & Hf1).
  rewrite (bind_ok _ _ _ _ _ E).
  pose proof (copy_disjoint st st1 None t t' HR Hfr) as Hdis.
  eexists _, t'. split; [reflexivity|]. split_and!; [| |done|done].
  - eexists. cbn [objs heap set_objs]. split_and!; [apply lookup_insert_eq|done..].
  - exists o. cbn [objs heap set_objs]. split_and!; [|done..| |done].
    + rewrite lookup_insert_ne by done. by rewrite Ho1.
    + eapply Rep_frame; [|exact HR]. intros l Hl. apply Hf1. by apply Hdis.
Qed.

Lemma map_assign_spec st dst src td szd t sz :
  map_at st dst td szd → map_at st src t sz → dst ≠ src →
  ldisj (locs td) (locs t) → (height td < fuel)%nat → (height t < fuel)%nat →
  ∃ st1 st' t',
    (let* r := get_root dst in destroy fuel r) st = Ok tt st1 ∧
    (∀ l, l ∈ locs td → heap st1 !! l = None) ∧
    map_at st1 src t sz ∧
    (let* r := get_root src in
     let* c := copy fuel r None in
     set_root dst c;;
     let* sz := get_size src in
     set_size dst sz;;
     ret dst) st1 = Ok dst st' ∧
    map_assign fuel dst src st = Ok dst st' ∧
    map_at st' dst t' sz ∧ map_at st' src t sz ∧ same_shape t t' ∧
    ldisj (locs t) (locs t').
Proof.
  intros Hd Hm Hds Hdis Hfd Hf.
  pose proof Hd as (od & Hod & Hrd & Hszd & HRd & HNd).
  pose proof Hm as (o & Ho & Hr & Hsz & HR & HN).
  destruct (destroy_rec_spec fuel st None td HRd HNd Hfd) as (st1 & E1 & Ho1 & Hdead & Hf1).
  assert ((let* r := get_root dst in destroy fuel r) st = Ok tt st1) as Edestroy.
  { by rewrite (bind_ok _ _ _ _ _ (map_at_root _ _ _ _ Hd)). }
  assert (map_at st1 src t sz) as Hm1.
  { exists o. split_and!; [by rewrite Ho1|done..| |done].
    eapply Rep_frame; [|exact HR]. intros l Hl. apply Hf1.
    intros Hin. by apply (Hdis l). }
  destruct (copy_rec_spec fuel st1 None None t) as
    (st2 & t' & E2 & Ho2 & Hs & HR2 & HN2 & Hfr & Hf2); [by destruct Hm1 as (?&?&?&?&?&?)|done|].
  assert (Rep (heap st1) None t) as HR1 by (by destruct Hm1 as (?&?&?&?&?&?)).
  pose proof (copy_disjoint st1 st2 None t t' HR1 Hfr) as Hdis'.
  assert (objs st2 !! dst = Some od) as Hod2 by (by rewrite Ho2, Ho1).
  assert (objs st2 !! src = Some o) as Hos2 by (by rewrite Ho2, Ho1).
  assert (∃ st',
    (let* r := get_root src in
     let* c := copy fuel r None in
     set_root dst c;;
     let* sz := get_size src in
     set_size dst sz;;
     ret dst) st1 = Ok dst st' ∧
    map_at st' dst t' sz ∧ map_at st' src t sz) as (st' & E' & Hd' & Hs').
  { rewrite (bind_ok _ _ _ _ _ (map_at_root _ _ _ _ Hm1)). unfold copy.
    rewrite (bind_ok _ _ _ _ _ E2). munfold.
    rewrite (bind_ok _ _ _ _ _ (modify_map_ok st2 dst od _ Hod2)).
    erewrite (bind_ok (get_size src)); last first.
    { apply get_size_ok. cbn [objs set_objs]. by rewrite lookup_insert_ne. }
    erewrite (bind_ok (modify_map dst _)); last first.
    { apply modify_map_ok. cbn [objs set_objs]. apply lookup_insert_eq. }
    eexists. split; [reflexivity|]. split.
    - eexists. cbn [objs heap set_objs]. split_and!; [apply lookup_insert_eq|done..].
    - exists o. cbn [objs heap set_objs]. split_and!; [|done..| |done].
      + by rewrite !lookup_insert_ne.
      + eapply Rep_frame; [|exact HR1]. intros l Hl. apply Hf2. by apply Hdis'. }
  exists st1, st', t'. split_and!; try done.
  unfold map_assign. rewrite bool_decide_eq_false_2 by done.
  rewrite (bind_ok _ _ _ _ _ (map_at_root _ _ _ _ Hd)).
  unfold destroy in *. rewrite (bind_ok _ _ _ _ _ E1). exact E'.
Qed.

(** *** Sequences of calls *)

(** An entry stays where it is, with its value, through any sequence of
    calls that does not erase its key. *)
Lemma entry_kept os : ∀ st this t sz l k v,
  map_at st this t sz → bst comp t → root_black t →
  (length (nodes t) + length os + 1 < fuel)%nat →
  (l, (k, v)) ∈ nodes t → Forall (keeps comp k) os →
  post (run_ops comp T_default fuel this os st)
       (λ _ st', ∃ t' sz', map_at st' this t' sz' ∧ bst comp t' ∧ root_black t' ∧
          (l, (k, v)) ∈ nodes t' ∧
          find comp fuel this k st' = Ok (iter_at this (Some l)) st' ∧
          get_value (Some l) st' = Ok v st').
Proof.
  induction os as [|o os IH]; intros st this t sz l k v Hm Hbst Hrb Hf Hin Hk.
  { simpl. exists t, sz. pose proof (height_le_size t). split_and!; try done.
    - rewrite (find_spec st this t sz k Hm) by lia.
      pose proof (lookup_present comp comp_swo t l (k, v) Hbst Hin) as Hl.
      cbn [fst] in Hl. by rewrite Hl.
    - by apply (get_value_spec st this t sz l (k, v) Hm). }
  apply Forall_cons in Hk as [Hko Hk]. simpl in Hf.
  pose proof (height_le_size t) as Hh.
  cbn [run_ops]. apply post_bind.
  assert (∀ st' t' sz', map_at st' this t' sz' → bst comp t' → root_black t' →
            (length (nodes t') ≤ S (length (nodes t)))%nat → (l, (k, v)) ∈ nodes t' →
            post (run_ops comp T_default fuel this os st')
              (λ _ st'', ∃ t'' sz'', map_at st'' this t'' sz'' ∧ bst comp t'' ∧
                 root_black t'' ∧ (l, (k, v)) ∈ nodes t'' ∧
                 find comp fuel this k st'' = Ok (iter_at this (Some l)) st'' ∧
                 get_value (Some l) st'' = Ok v st'')) as Hnext.
  { intros st' t' sz' Hm' Hbst' Hrb' Hlen Hin'. eapply IH; eauto. lia. }
  destruct o as [k' v'|k'|k']; cbn [run_op].
  - (* insert *)
    apply post_bind. unfold insert. cbn [fst].
    rewrite (bind_ok _ _ _ _ _
               (findNode_spec comp fuel st this t k' (map_at_is_map _ _ _ _ Hm) ltac:(lia))).
    destruct (lookup_tree comp k' t) as [l'|] eqn:El.
    + simpl. eapply Hnext; eauto.
    + destruct (insertNode_new st this t sz (k', v') Hm Hbst Hrb El) as
        (st' & t' & z & l1 & l2 & E & Hm' & Hbst' & Hrb' & Hn & Hn' & _); [lia|].
      rewrite (bind_ok _ _ _ _ _ E). simpl.
      eapply Hnext; eauto.
      * rewrite Hn, Hn', !length_app. simpl. lia.
      * rewrite Hn in Hin. rewrite Hn'. set_solver.
  - (* erase *)
    rewrite (bind_ok _ _ _ _ _ (find_spec st this t sz k' Hm ltac:(lia))).
    destruct (lookup_tree comp k' t) as [l'|] eqn:El.
    + destruct (lookup_tree_sound comp _ _ _ El) as (kv' & Hin' & He).
      eapply post_mono;
        [apply (erase_post st this t sz l' kv' Hm Hbst Hrb); [lia|done]|].
      intros _ st' (t' & l1 & l2 & Hm' & Hbst' & Hrb' & Hn & Hn' & _).
      eapply Hnext; eauto.
      * rewrite Hn, Hn', !length_app. simpl. lia.
      * rewrite Hn in Hin. rewrite Hn'.
        apply elem_of_app in Hin as [Hin|Hin]; [set_solver|].
        apply elem_of_cons in Hin as [Heq|Hin]; [|set_solver].
        exfalso. apply Hko. assert (kv' = (k, v)) as -> by congruence. exact He.
    + unfold erase, iter_at. cbn [current container].
      rewrite (bool_decide_eq_true_2 (None = None)) by done.
      by rewrite orb_true_r.
  - (* operator[] *)
    apply post_bind. unfold subscript.
    rewrite (bind_ok _ _ _ _ _
               (findNode_spec comp fuel st this t k' (map_at_is_map _ _ _ _ Hm) ltac:(lia))).
    destruct (lookup_tree comp k' t) as [l'|] eqn:El.
    + simpl. eapply Hnext; eauto.
    + destruct (insertNode_new st this t sz (k', T_default) Hm Hbst Hrb El) as
        (st' & t' & z & l1 & l2 & E & Hm' & Hbst' & Hrb' & Hn & Hn' & _); [lia|].
      rewrite E. simpl.
      eapply Hnext; eauto.
      * rewrite Hn, Hn', !length_app. simpl. lia.
      * rewrite Hn in Hin. rewrite Hn'. set_solver.
Qed.

Lemma map_ctor_spec st this :
  ∃ st', map_ctor this st = Ok tt st' ∧ map_at st' this (@Leaf Key T) 0 ∧
         heap st' = heap st.
Proof.
  eexists. split; [reflexivity|]. split; [|done].
  eexists. cbn [objs heap set_objs]. split_and!; [apply lookup_insert_eq|done..|].
  apply NoDup_nil_2.
Qed.

Lemma wrap_small z : 0 ≤ z < size_max → wrap z = z.
Proof. intros H. unfold wrap. by apply Z.mod_small. Qed.

(** Through any sequence of calls the tree stays a search tree with a
    black root, and [map_size] stays the number of its nodes. *)
Lemma ops_keep_order os : ∀ st this t,
  map_at st this t (Z.of_nat (length (nodes t))) → bst comp t → root_black t →
  (length (nodes t) + length os + 1 < fuel)%nat →
  Z.of_nat (length (nodes t) + length os) < size_max →
  post (run_ops comp T_default fuel this os st)
       (λ _ st', ∃ t', map_at st' this t' (Z.of_nat (length (nodes t'))) ∧
                       bst comp t' ∧ root_black t').
Proof.
  induction os as [|o os IH]; intros st this t Hm Hbst Hrb Hf Hsz.
  { simpl. by exists t. }
  simpl in Hf, Hsz. pose proof (height_le_size t) as Hh.
  cbn [run_ops]. apply post_bind.
  assert (∀ st' t', map_at st' this t' (Z.of_nat (length (nodes t'))) →
            bst comp t' → root_black t' →
            (length (nodes t') ≤ S (length (nodes t)))%nat →
            post (run_ops comp T_default fuel this os st')
              (λ _ st'', ∃ t'', map_at st'' this t'' (Z.of_nat (length (nodes t''))) ∧
                                bst comp t'' ∧ root_black t'')) as Hnext.
  { intros st' t' Hm' Hbst' Hrb' Hlen. eapply IH; eauto; lia. }
  assert (∀ st' t' z value l1 l2,
            map_at st' this t' (wrap (Z.of_nat (length (nodes t)) + 1)) →
            nodes t = l1 ++ l2 → nodes t' = l1 ++ (z, value) :: l2 →
            map_at st' this t' (Z.of_nat (length (nodes t'))) ∧
            (length (nodes t') ≤ S (length (nodes t)))%nat) as Hgrow.
  { intros st' t' z value l1 l2 Hm' Hn Hn'.
    assert (length (nodes t') = S (length (nodes t))) as Hlen.
    { rewrite Hn, Hn', !length_app. simpl. lia. }
    rewrite wrap_small in Hm' by lia. rewrite Hlen. split; [|lia].
    by replace (Z.of_nat (S (length (nodes t)))) with (Z.of_nat (length (nodes t)) + 1) by lia. }
  destruct o as [k' v'|k'|k']; cbn [run_op].
  - (* insert *)
    apply post_bind. unfold insert. cbn [fst].
    rewrite (bind_ok _ _ _ _ _
               (findNode_spec comp fuel st this t k' (map_at_is_map _ _ _ _ Hm) ltac:(lia))).
    destruct (lookup_tree comp k' t) as [l'|] eqn:El.
    + simpl. eapply Hnext; eauto.
    + destruct (insertNode_new st this t _ (k', v') Hm Hbst Hrb El) as
        (st' & t' & z & l1 & l2 & E & Hm' & Hbst' & Hrb' & Hn & Hn' & _); [lia|].
      rewrite (bind_ok _ _ _ _ _ E). simpl.
      destruct (Hgrow _ _ _ _ _ _ Hm' Hn Hn'). eapply Hnext; eauto.
  - (* erase *)
    rewrite (bind_ok _ _ _ _ _ (find_spec st this t _ k' Hm ltac:(lia))).
    destruct (lookup_tree comp k' t) as [l'|] eqn:El.
    + destruct (lookup_tree_sound comp _ _ _ El) as (kv' & Hin' & He).
      eapply post_mono;
        [apply (erase_post st this t _ l' kv' Hm Hbst Hrb); [lia|done]|].
      intros _ st' (t' & l1 & l2 & Hm' & Hbst' & Hrb' & Hn & Hn' & _).
      assert (S (length (nodes t')) = length (nodes t)) as Hlen.
      { rewrite Hn, Hn', !length_app. simpl. lia. }
      rewrite wrap_small in Hm' by lia.
      eapply Hnext; eauto; [|lia].
      by replace (Z.of_nat (length (nodes t'))) with (Z.of_nat (length (nodes t)) - 1) by lia.
    + unfold erase, iter_at. cbn [current container].
      rewrite (bool_decide_eq_true_2 (None = None)) by done.
      by rewrite orb_true_r.
  - (* operator[] *)
    apply post_bind. unfold subscript.
    rewrite (bind_ok _ _ _ _ _
               (findNode_spec comp fuel st this t k' (map_at_is_map _ _ _ _ Hm) ltac:(lia))).
    destruct (lookup_tree comp k' t) as [l'|] eqn:El.
    + simpl. eapply Hnext; eauto.
    + destruct (insertNode_new st this t _ (k', T_default) Hm Hbst Hrb El) as
        (st' & t' & z & l1 & l2 & E & Hm' & Hbst' & Hrb' & Hn & Hn' & _); [lia|].
      rewrite E. simpl.
      destruct (Hgrow _ _ _ _ _ _ Hm' Hn Hn'). eapply Hnext; eauto.
Qed.

(** Insertions alone keep all the red-black invariants, and they return. *)
Lemma inserts_keep_rb os : ∀ st this t sz,
  map_at st this t sz → bst comp t → root_black t →
  no_red_red t = true → is_Some (black_height t) →
  (length (nodes t) + length os + 1 < fuel)%nat → Forall no_erase os →
  ∃ st' t' sz', run_ops comp T_default fuel this os st = Ok tt st' ∧
    map_at st' this t' sz' ∧ bst comp t' ∧ root_black t' ∧
    no_red_red t' = true ∧ is_Some (black_height t').
Proof.
  induction os as [|o os IH]; intros st this t sz Hm Hbst Hrb Hnrr Hbh Hf Hne.
  { exists st, t, sz. by split_and!. }
  apply Forall_cons in Hne as [Hno Hne]. simpl in Hf.
  pose proof (height_le_size t) as Hh.
  assert (∀ value, lookup_tree comp value.1 t = None →
            ∃ st1 z, insertNode comp fuel this value st = Ok (Some z) st1 ∧
              ∃ st' t' sz', run_ops comp T_default fuel this os st1 = Ok tt st' ∧
                map_at st' this t' sz' ∧ bst comp t' ∧ root_black t' ∧
                no_red_red t' = true ∧ is_Some (black_height t')) as Hnew.
  { intros value El.
    destruct (insertNode_new st this t sz value Hm Hbst Hrb El) as
      (st1 & t1 & z & l1 & l2 & E & Hm1 & Hbst1 & Hrb1 & Hn & Hn1 & Hrbv); [lia|].
    destruct (Hrbv Hnrr Hbh) as [Hnrr1 Hbh1].
    exists st1, z. split; [done|].
    eapply IH; eauto. rewrite Hn1, length_app. simpl.
    rewrite Hn, length_app in Hf. lia. }
  destruct o as [k' v'|k'|k']; [|done|]; cbn [run_ops run_op].
  - unfold insert. cbn [fst].
    rewrite !bind_assoc.
    rewrite (bind_ok _ _ _ _ _
               (findNode_spec comp fuel st this t k' (map_at_is_map _ _ _ _ Hm) ltac:(lia))).
    destruct (lookup_tree comp k' t) as [l'|] eqn:El.
    + rewrite !bind_ret. eapply IH; eauto. lia.
    + destruct (Hnew (k', v') El) as (st1 & z & E & H).
      rewrite !bind_assoc, (bind_ok _ _ _ _ _ E), !bind_ret. exact H.
  - unfold subscript.
    rewrite !bind_assoc.
    rewrite (bind_ok _ _ _ _ _
               (findNode_spec comp fuel st this t k' (map_at_is_map _ _ _ _ Hm) ltac:(lia))).
    destruct (lookup_tree comp k' t) as [l'|] eqn:El.
    + rewrite !bind_ret. eapply IH; eauto. lia.
    + destruct (Hnew (k', T_default) El) as (st1 & z & E & H).
      rewrite (bind_ok _ _ _ _ _ E), !bind_ret. exact H.
Qed.

End Interface.
(** * The properties of the specification *)

Section Properties.

Context {Key T : Type}.
Variable comp : Key → Key → bool.
Variable T_default : T.
Variable fuel : nat.
Hypothesis comp_swo : strict_weak_order comp.

Implicit Types (h : gmap loc (Node Key T)) (st : state Key T) (t s : tree Key T)
  (n : Node Key T) (C : list (frame Key T)) (L : list (loc * (Key * T))).

Lemma elem_of_inserted {A} (l1 l2 : list A) (x y : A) :
  y ∈ l1 ++ x :: l2 ↔ y = x ∨ y ∈ l1 ++ l2.
Proof. rewrite !elem_of_app, elem_of_cons. tauto. Qed.

Lemma elem_of_removed (l1 l2 : list (loc * (Key * T))) x y :
  NoDup (l1 ++ x :: l2).*1 →
  y ∈ l1 ++ l2 ↔ y ≠ x ∧ y ∈ l1 ++ x :: l2.
Proof.
  intros HN. rewrite elem_of_inserted. split; [|by intros [? [?|?]]].
  intros Hin. split; [|by right]. intros ->.
  apply (nodup_remove_mid l1 l2 x HN). apply list_elem_of_fmap. by exists x.
Qed.

Lemma map_at_nodup_nodes st this t sz : map_at st this t sz → NoDup (nodes t).*1.
Proof. by intros (o & _ & _ & _ & _ & HN). Qed.

Lemma bh_plug_None C s :
  black_height s = None → black_height (plug C s) = None.
Proof.
  revert s. induction C as [|F C IH]; intros s Hs; [done|]. simpl. apply IH.
  destruct F; simpl; rewrite Hs; [done|]. by destruct (black_height a).
Qed.

(** Cutting a black leaf off below its parent leaves paths with
    different numbers of black nodes. *)
Lemma bh_cut_black_leaf C z kvz :
  C ≠ [] → is_Some (black_height (plug C (Nd z false kvz Leaf Leaf))) →
  black_height (plug C (@Leaf Key T)) = None.
Proof.
  destruct C as [|F C]; [done|]. intros _ H. simpl in *.
  apply black_height_plug in H. apply bh_plug_None.
  destruct F as [l c kv r|l c kv a]; simpl in *.
  - destruct (black_height r) as [n|]; [|by destruct H].
    case_bool_decide as E; [|by destruct H]. subst n. by rewrite bool_decide_eq_false_2.
  - destruct (black_height a) as [n|]; [|by destruct H].
    case_bool_decide as E; [|by destruct H]. subst n. by rewrite bool_decide_eq_false_2.
Qed.

(** C2: an erasure that removes a black leaf from below its parent runs no
    fix-up at all. The unlinking step reports a black removed node and a
    null replacement, the guard of the fix-up is false, and the operation
    ends with the tree exactly as the unlinking left it: the old tree with
    the leaf cut off and every other node unchanged, so that its paths no
    longer hold equal numbers of black nodes. *)
Theorem erase_black_leaf_skips_fixup st this C z kvz sz :
  map_at st this (plug C (Nd z false kvz Leaf Leaf)) sz → C ≠ [] →
  is_Some (black_height (plug C (Nd z false kvz Leaf Leaf))) →
  (height (plug C (Nd z false kvz Leaf Leaf)) < fuel)%nat →
  ∃ st1 st',
    deleteNode_unlink fuel this (Some z) st = Ok (false, None) st1 ∧
    runs_fixDelete false None = false ∧
    map_at st1 this (plug C Leaf) sz ∧
    erase fuel this (iter_at this (Some z)) st = Ok tt st' ∧
    map_at st' this (plug C Leaf) (wrap (sz - 1)) ∧
    black_height (plug C (@Leaf Key T)) = None.
Proof.
  intros Hm HC Hbh Hf.
  destruct (unlink_spec fuel st this C z false kvz Leaf Leaf sz Hm Hf) as (st1 & E & Hm1 & Hz).
  cbn [unlinked fst snd ptr_of] in E, Hm1.
  assert (z ∉ locs (plug C (@Leaf Key T))) as Hnz.
  { pose proof (map_at_nodup_nodes _ _ _ _ Hm) as HN.
    rewrite nodes_plug_split in HN. apply nodup_remove_mid in HN.
    unfold locs. rewrite nodes_plug. cbn [nodes app] in *.
    by rewrite app_nil_r in HN. }
  destruct (free_spec st1 this _ sz z Hm1 Hnz) as (st2 & E2 & Hm2 & _).
  { rewrite Hz, (map_at_lookup _ _ _ _ _ _ _ _ _ Hm). by eexists. }
  destruct (decr_size_spec st2 this _ sz Hm2) as (st3 & E3 & Hm3).
  exists st1, st3. split_and!; [done|done|done| |done|by eapply bh_cut_black_leaf].
  rewrite erase_live. unfold deleteNode.
  rewrite (bind_ok _ _ _ _ _ E). cbn [fst snd].
  change (runs_fixDelete false None) with false. cbv iota.
  rewrite bind_ret. by rewrite (bind_ok _ _ _ _ _ E2).
Qed.

(** C3: inserting a pair whose key is equivalent to a stored key changes
    nothing. The call returns the iterator to the stored entry together
    with [false], in the state it started from, so that [size()] and the
    stored value are what they were. *)
Theorem insert_existing_key st this t sz k v l kv :
  map_at st this t sz → bst comp t → (height t < fuel)%nat →
  (l, kv) ∈ nodes t → equiv_key comp k kv.1 →
  insert comp fuel this (k, v) st = Ok (iter_at this (Some l), false) st ∧
  size this st = Ok sz st ∧
  get_value (Some l) st = Ok kv.2 st.
Proof.
  intros Hm Hbst Hf Hin He. split_and!.
  - by eapply insert_present_spec.
  - by eapply size_spec.
  - by eapply get_value_spec.
Qed.

(** X23: what holds of the round trip. In a map whose tree is a search
    tree with a black root, [find] resolves every stored entry to its
    node, which holds the stored value; an insertion of a new key adds
    exactly that entry, found afterwards with the inserted value, and
    keeps all others; an erasure that returns removes exactly the erased
    entry, after which [find] on its key gives [end()] and [count] gives
    0, and keeps all others; as long as the paths of the tree hold equal
    numbers of black nodes the erasure does return. Through any sequence
    of calls of [insert], [erase] and [operator[]] that returns and does
    not erase its key, an entry stays found with its value. *)
Theorem find_roundtrip st this t sz :
  map_at st this t sz → bst comp t → root_black t →
  (S (length (nodes t)) < fuel)%nat →
  (∀ l kv, (l, kv) ∈ nodes t →
     find comp fuel this kv.1 st = Ok (iter_at this (Some l)) st ∧
     get_value (Some l) st = Ok kv.2 st) ∧
  (∀ k v, absent comp k t →
     ∃ st' t' z,
       insert comp fuel this (k, v) st = Ok (iter_at this (Some z), true) st' ∧
       map_at st' this t' (wrap (sz + 1)) ∧ bst comp t' ∧ root_black t' ∧
       length (nodes t') = S (length (nodes t)) ∧
       (∀ x, x ∈ nodes t' ↔ x = (z, (k, v)) ∨ x ∈ nodes t) ∧
       find comp fuel this k st' = Ok (iter_at this (Some z)) st' ∧
       get_value (Some z) st' = Ok v st') ∧
  (∀ l kv, (l, kv) ∈ nodes t →
     post (erase fuel this (iter_at this (Some l)) st)
       (λ _ st', ∃ t',
          map_at st' this t' (wrap (sz - 1)) ∧ bst comp t' ∧ root_black t' ∧
          S (length (nodes t')) = length (nodes t) ∧
          (∀ x, x ∈ nodes t' ↔ x ≠ (l, kv) ∧ x ∈ nodes t) ∧
          find comp fuel this kv.1 st' = end_ this st' ∧
          count comp fuel this kv.1 st' = Ok 0 st') ∧
     (is_Some (black_height t) →
      ∃ st', erase fuel this (iter_at this (Some l)) st = Ok tt st')) ∧
  (∀ os l k v,
     (length (nodes t) + length os + 1 < fuel)%nat →
     (l, (k, v)) ∈ nodes t → Forall (keeps comp k) os →
     post (run_ops comp T_default fuel this os st)
       (λ _ st', ∃ t' sz',
          map_at st' this t' sz' ∧ bst comp t' ∧ root_black t' ∧
          (l, (k, v)) ∈ nodes t' ∧
          find comp fuel this k st' = Ok (iter_at this (Some l)) st' ∧
          get_value (Some l) st' = Ok v st')).
Proof.
  intros Hm Hbst Hrb Hf.
  pose proof (height_le_size t) as Hh.
  split_and!; [| | |intros os l k v Hfo Hin Hk; by eapply entry_kept].
  - intros l kv Hin. split.
    + rewrite (find_spec comp fuel st this t sz kv.1 Hm) by lia.
      by rewrite (lookup_present comp comp_swo t l kv Hbst Hin).
    + by eapply get_value_spec.
  - intros k v Habs.
    destruct (insert_absent_spec comp fuel comp_swo st this t sz (k, v) Hm Hbst Hrb) as
      (st' & t' & z & l1 & l2 & E & Hm' & Hbst' & Hrb' & Hn & Hn' & Hrbv);
      [by apply absent_lookup|lia|].
    assert (length (nodes t') = S (length (nodes t))) as Hlen.
    { rewrite Hn, Hn', !length_app. simpl. lia. }
    assert ((z, (k, v)) ∈ nodes t') as Hin by (rewrite Hn'; set_solver).
    pose proof (height_le_size t') as Hh'.
    exists st', t', z. split_and!; try done.
    + intros x. rewrite Hn, Hn'. apply elem_of_inserted.
    + rewrite (find_spec comp fuel st' this t' _ k Hm') by lia.
      pose proof (lookup_present comp comp_swo t' z (k, v) Hbst' Hin) as Hfound.
      cbn [fst] in Hfound. by rewrite Hfound.
    + by apply (get_value_spec st' this t' _ z (k, v) Hm').
  - intros l kv Hin. split.
    + eapply post_mono;
        [apply (erase_post comp fuel st this t sz l kv Hm Hbst Hrb); [lia|done]|].
      intros _ st' (t' & l1 & l2 & Hm' & Hbst' & Hrb' & Hn & Hn' & Hl).
      assert (S (length (nodes t')) = length (nodes t)) as Hlen.
      { rewrite Hn, Hn', !length_app. simpl. lia. }
      pose proof (height_le_size t') as Hh'.
      pose proof (lookup_removed comp t t' l1 l2 (l, kv) Hbst Hn Hn') as Hgone.
      cbn [fst snd] in Hgone.
      exists t'. split_and!; try done.
      * intros x. rewrite Hn, Hn'. apply elem_of_removed.
        rewrite <- Hn. by eapply map_at_nodup_nodes.
      * rewrite (find_spec comp fuel st' this t' _ kv.1 Hm') by lia.
        by rewrite Hgone.
      * rewrite (count_spec comp fuel st' this t' _ kv.1 Hm') by lia.
        by rewrite Hgone.
    + intros Hbh. eapply erase_returns; [done..|lia|done].
Qed.

Lemma ascending_last (ks : list Key) k :
  ascending comp ks → last ks = Some k → Forall (λ k', k' = k ∨ lt comp k' k) ks.
Proof.
  intros Hs Hl. apply last_Some in Hl as (ks' & ->).
  unfold ascending in Hs. rewrite StronglySorted_app in Hs.
  destruct Hs as (H1 & _ & _). apply Forall_app. split.
  - apply Forall_forall. intros x Hx. right. apply H1; [done|]. by left.
  - repeat constructor.
Qed.

(** C5: from [begin()], [i] applications of [++] lead to the [i]-th node of
    the in-order listing of the tree, whose keys are strictly ascending in
    the ordering predicate; after as many steps as [size()] says, and not
    before, the iterator is [end()]; and [--] applied to [end()] of a
    non-empty map leads to the last node of the listing, whose key is the
    maximum. *)
Theorem iteration_in_order st this t :
  map_at st this t (Z.of_nat (length (nodes t))) → bst comp t →
  (height t < fuel)%nat →
  ∃ it0, begin_ fuel this st = Ok it0 st ∧
    (∀ i l kv, nodes t !! i = Some (l, kv) →
       iter_advance fuel i it0 st = Ok (iter_at this (Some l)) st ∧
       get_key (Some l) st = Ok kv.1 st ∧ keys t !! i = Some kv.1) ∧
    ascending comp (keys t) ∧
    (∃ steps : nat, size this st = Ok (Z.of_nat steps) st ∧
          iter_advance fuel steps it0 st = end_ this st ∧
          ∀ i, (i < steps)%nat → iter_advance fuel i it0 st ≠ end_ this st) ∧
    (∀ l kv, last (nodes t) = Some (l, kv) →
       iter_decr fuel (iter_at this None) st = Ok (iter_at this (Some l)) st ∧
       get_key (Some l) st = Ok kv.1 st ∧
       Forall (λ k, k = kv.1 ∨ lt comp k kv.1) (keys t)).
Proof.
  intros Hm Hbst Hf. pose proof (map_at_is_map _ _ _ _ Hm) as Hi.
  exists (iter_at this (head (locs t))). split; [by apply begin_spec|].
  assert (∀ j, (j ≤ length (locs t))%nat →
    iter_advance fuel j (iter_at this (head (locs t))) st
    = Ok (iter_at this (locs t !! j)) st) as Hadv.
  { intros j Hj. rewrite head_lookup.
    apply (iter_advance_spec fuel st this t 0 j Hi Hf). simpl. lia. }
  split_and!.
  - intros i l kv Hl.
    assert (locs t !! i = Some l) as Hl'.
    { unfold locs. by rewrite list_lookup_fmap, Hl. }
    split_and!.
    + rewrite Hadv; [by rewrite Hl'|]. apply lookup_lt_Some in Hl'. lia.
    + eapply get_key_spec; [done|]. by eapply list_elem_of_lookup_2.
    + unfold keys, entries. by rewrite !list_lookup_fmap, Hl.
  - exact Hbst.
  - exists (length (nodes t)). split_and!.
    + by eapply size_spec.
    + rewrite Hadv by (by rewrite length_locs).
      rewrite (proj2 (lookup_ge_None (locs t) (length (nodes t)))); [done|].
      by rewrite length_locs.
    + intros i Hi'. rewrite Hadv by (rewrite length_locs; lia).
      destruct (lookup_lt_is_Some_2 (locs t) i) as [l Hl]; [rewrite length_locs; lia|].
      rewrite Hl. unfold end_, ret, iter_at. by intros [=].
  - intros l kv Hl.
    assert (last (locs t) = Some l) as Hl'.
    { unfold locs. by rewrite fmap_last, Hl. }
    split_and!.
    + unfold iter_at. rewrite (decr_end_spec fuel st this t Hi Hf). by rewrite Hl'.
    + eapply get_key_spec; [done|]. apply last_Some in Hl as (L' & ->). set_solver.
    + apply ascending_last; [done|]. unfold keys, entries.
      by rewrite !fmap_last, Hl.
Qed.

(** C6: [--] applied to [begin()] and [++] applied to [end()] raise
    [invalid_iterator]; [at] and the const [operator[]] raise
    [index_out_of_bound] on a key that is not stored. Each of them raises
    in the state the call started from, so nothing of the container has
    changed. *)
Theorem boundary_errors st this t sz :
  map_at st this t sz → (height t < fuel)%nat →
  (∃ it0, begin_ fuel this st = Ok it0 st ∧
          iter_decr fuel it0 st = Throw invalid_iterator st) ∧
  (∃ it1, end_ this st = Ok it1 st ∧
          iter_incr fuel it1 st = Throw invalid_iterator st) ∧
  (∀ k, absent comp k t →
        at_ comp fuel this k st = Throw index_out_of_bound st ∧
        subscript_const comp fuel this k st = Throw index_out_of_bound st).
Proof.
  intros Hm Hf. pose proof (map_at_is_map _ _ _ _ Hm) as Hi. split_and!.
  - eexists. split; [by apply begin_spec|].
    destruct (head (locs t)) as [l|] eqn:E.
    + rewrite head_lookup in E.
      by rewrite (iter_decr_index fuel st this t 0 l _ Hi Hf E).
    + rewrite (decr_end_spec fuel st this t Hi Hf).
      apply head_None in E. by rewrite E.
  - by eexists.
  - intros k Habs. unfold subscript_const.
    rewrite (at_spec comp fuel st this t sz k Hm Hf).
    by rewrite (absent_lookup comp k t Habs).
Qed.

(** C7: on a key that is not stored the mutable [operator[]] links a new
    node holding the key and the default value, returns it, and [size()]
    is one more than before (modulo 2^64); on a stored key it returns the
    stored node and changes nothing. The const [operator[]] is [at]: it
    raises [index_out_of_bound] on a key that is not stored, in the state
    it started from. *)
Theorem subscript_default_insert st this t sz k :
  map_at st this t sz → bst comp t → root_black t → (height t < fuel)%nat →
  (absent comp k t →
   ∃ st' t' z,
     subscript comp T_default fuel this k st = Ok (Some z) st' ∧
     map_at st' this t' (wrap (sz + 1)) ∧ bst comp t' ∧ root_black t' ∧
     (∀ x, x ∈ nodes t' ↔ x = (z, (k, T_default)) ∨ x ∈ nodes t) ∧
     length (nodes t') = S (length (nodes t)) ∧
     get_value (Some z) st' = Ok T_default st' ∧
     size this st' = Ok (wrap (sz + 1)) st' ∧
     (0 ≤ sz < size_max - 1 → wrap (sz + 1) = sz + 1)) ∧
  (∀ l kv, (l, kv) ∈ nodes t → equiv_key comp k kv.1 →
     subscript comp T_default fuel this k st = Ok (Some l) st ∧
     size this st = Ok sz st) ∧
  subscript_const comp fuel this k st = at_ comp fuel this k st ∧
  (absent comp k t →
   subscript_const comp fuel this k st = Throw index_out_of_bound st).
Proof.
  intros Hm Hbst Hrb Hf. split_and!.
  - intros Habs.
    destruct (subscript_absent_spec comp T_default fuel comp_swo st this t sz k
                Hm Hbst Hrb (absent_lookup comp k t Habs) Hf) as
      (st' & t' & z & l1 & l2 & E & Hm' & Hbst' & Hrb' & Hn & Hn' & Hrbv).
    exists st', t', z. split_and!; try done.
    + intros x. rewrite Hn, Hn'. apply elem_of_inserted.
    + rewrite Hn, Hn', !length_app. simpl. lia.
    + apply (get_value_spec st' this t' _ z (k, T_default) Hm').
      rewrite Hn'. set_solver.
    + by eapply size_spec.
    + intros Hsz. unfold wrap. apply Z.mod_small. lia.
  - intros l kv Hin He. split; [by eapply subscript_present_spec|by eapply size_spec].
  - done.
  - intros Habs. unfold subscript_const.
    rewrite (at_spec comp fuel st this t sz k Hm Hf).
    by rewrite (absent_lookup comp k t Habs).
Qed.

(** C8, as the code has it: [erase] raises an exception exactly when the
    iterator is past-the-end or is bound to another container than this
    one; the exception is [invalid_iterator] and it is raised in the state
    the call started from. Whether the node the iterator points to is
    still a node of the map is not looked at. *)
Theorem erase_throws_iff st this pos e st' :
  erase fuel this pos st = Throw e st' ↔
  (container pos ≠ Some this ∨ current pos = None) ∧ e = invalid_iterator ∧ st' = st.
Proof.
  unfold erase. split.
  - destruct (bool_decide (container pos ≠ Some this)) eqn:E1;
      [|destruct (bool_decide (current pos = None)) eqn:E2]; cbn [orb].
    + apply bool_decide_eq_true in E1. intros [= <- <-]. auto.
    + apply bool_decide_eq_true in E2. intros [= <- <-]. auto.
    + intros H. by apply nt_deleteNode in H.
  - intros (Hc & -> & ->).
    destruct Hc as [Hc|Hc].
    + by rewrite (bool_decide_eq_true_2 _ Hc).
    + rewrite (bool_decide_eq_true_2 _ Hc). by rewrite orb_true_r.
Qed.

(** C9: copy construction and copy assignment from another map leave in
    the destination a tree of the same topology, colours and entries as the
    tree of the source, with the [size()] of the source and built from
    nodes of its own; the source is as it was. The assignment releases
    every node of the old tree of the destination first and then copies. *)
Theorem copy_is_deep st dst src t sz :
  map_at st src t sz → dst ≠ src → (height t < fuel)%nat →
  (∃ st' t', map_copy_ctor fuel dst src st = Ok tt st' ∧
     map_at st' dst t' sz ∧ map_at st' src t sz ∧ same_shape t t' ∧
     entries t' = entries t ∧ ldisj (locs t) (locs t')) ∧
  (∀ td szd, map_at st dst td szd → ldisj (locs td) (locs t) →
     (height td < fuel)%nat →
     ∃ st1 st' t',
       (let* r := get_root dst in destroy fuel r) st = Ok tt st1 ∧
       (∀ l, l ∈ locs td → heap st1 !! l = None) ∧
       (let* r := get_root src in
        let* c := copy fuel r None in
        set_root dst c;;
        let* sz := get_size src in
        set_size dst sz;;
        ret dst) st1 = Ok dst st' ∧
       map_assign fuel dst src st = Ok dst st' ∧
       map_at st' dst t' sz ∧ map_at st' src t sz ∧ same_shape t t' ∧
       entries t' = entries t ∧ ldisj (locs t) (locs t')).
Proof.
  intros Hm Hne Hf. split.
  - destruct (map_copy_ctor_spec fuel st dst src t sz Hm Hne Hf) as
      (st' & t' & E & Hd & Hs & Hsh & Hdis).
    exists st', t'. split_and!; try done. symmetry. by apply same_shape_entries.
  - intros td szd Hd Hdis Hfd.
    destruct (map_assign_spec fuel st dst src td szd t sz Hd Hm Hne Hdis Hfd Hf) as
      (st1 & st' & t' & E1 & Hdead & Hm1 & E2 & E & Hd' & Hs' & Hsh & Hdis').
    exists st1, st', t'. split_and!; try done. symmetry. by apply same_shape_entries.
Qed.

(** C10: assigning a map to itself returns the map and does nothing: the
    call ends in the state it started from. *)
Theorem self_assignment (st : state Key T) this :
  map_assign fuel this this st = Ok this st.
Proof. unfold map_assign. by rewrite bool_decide_eq_true_2. Qed.

(** X1: an insertion keeps all three red-black invariants, and the black
    root. Whether the key is new or not, [insert] returns, and the tree it
    leaves is a search tree in which no red node has a red child and all
    paths from the root to a null reference hold the same number of black
    nodes, if the tree it started from was one. *)
Theorem insert_keeps_red_black st this t sz k v :
  map_at st this t sz → bst comp t → root_black t →
  no_red_red t = true → is_Some (black_height t) → (height t < fuel)%nat →
  ∃ st' t' it inserted sz',
    insert comp fuel this (k, v) st = Ok (it, inserted) st' ∧
    map_at st' this t' sz' ∧ bst comp t' ∧ root_black t' ∧
    no_red_red t' = true ∧ is_Some (black_height t').
Proof.
  intros Hm Hbst Hrb Hnrr Hbh Hf.
  destruct (lookup_tree comp k t) as [l|] eqn:El.
  - destruct (lookup_tree_sound comp _ _ _ El) as (kv & Hin & He).
    exists st, t, (iter_at this (Some l)), false, sz. split_and!; try done.
    by eapply insert_present_spec.
  - destruct (insert_absent_spec comp fuel comp_swo st this t sz (k, v) Hm Hbst Hrb El Hf)
      as (st' & t' & z & l1 & l2 & E & Hm' & Hbst' & Hrb' & Hn & Hn' & Hrbv).
    destruct (Hrbv Hnrr Hbh) as [H1 H2].
    exists st', t', (iter_at this (Some z)), true, (wrap (sz + 1)). by split_and!.
Qed.

(** X2: [clear] releases every node of the tree and leaves the empty map,
    with [size()] 0. *)
Theorem clear_empties st this t sz :
  map_at st this t sz → (height t < fuel)%nat →
  ∃ st', clear fuel this st = Ok tt st' ∧
    map_at st' this Leaf 0 ∧
    (∀ l, l ∈ locs t → heap st' !! l = None) ∧
    (∀ l, l ∉ locs t → heap st' !! l = heap st !! l) ∧
    size this st' = Ok 0 st' ∧ empty this st' = Ok true st'.
Proof.
  intros Hm Hf. pose proof Hm as (o & Ho & Hr & Hsz & HR & HN).
  destruct (destroy_rec_spec fuel st None t HR HN Hf) as (st1 & E1 & Ho1 & Hdead & Hkeep).
  unfold clear, destroy.
  rewrite (bind_ok _ _ _ _ _ (map_at_root _ _ _ _ Hm)).
  rewrite (bind_ok _ _ _ _ _ E1). munfold.
  assert (objs st1 !! this = Some o) as Ho1' by (by rewrite Ho1).
  rewrite (bind_ok _ _ _ _ _ (modify_map_ok st1 this o _ Ho1')).
  erewrite modify_map_ok by (cbn [objs set_objs]; apply lookup_insert_eq).
  eexists. split; [reflexivity|].
  assert (map_at (set_objs (<[this:=with_size 0 (with_root None o)]>
                   (objs (set_objs (<[this:=with_root None o]> (objs st1)) st1)))
                   (set_objs (<[this:=with_root None o]> (objs st1)) st1)) this
                 (@Leaf Key T) 0) as Hm'.
  { eexists. cbn [objs heap set_objs]. split_and!; [apply lookup_insert_eq|done..|].
    apply NoDup_nil_2. }
  split_and!; [exact Hm'|exact Hdead|exact Hkeep| |].
  - by apply (size_spec _ _ _ _ Hm').
  - unfold empty. by rewrite (bind_ok _ _ _ _ _ (size_spec _ _ _ _ Hm')).
Qed.

(** X3: of the red-black invariants, the order survives. After any
    sequence of calls of [insert], [erase] and [operator[]] on a new map
    that returns, the in-order traversal of the tree yields strictly
    ascending keys, the root is black, and [size()] is the number of
    entries. *)
Theorem calls_keep_order st this os :
  (length os + 1 < fuel)%nat → Z.of_nat (length os) < size_max →
  post ((map_ctor this;; run_ops comp T_default fuel this os) st)
       (λ _ st', ∃ t',
          map_at st' this t' (Z.of_nat (length (nodes t'))) ∧
          ascending comp (keys t') ∧ root_black t' ∧
          size this st' = Ok (Z.of_nat (length (nodes t'))) st').
Proof.
  intros Hf Hsz.
  destruct (map_ctor_spec st this) as (st0 & E & Hm & _).
  rewrite (bind_ok _ _ _ _ _ E).
  eapply post_mono.
  - apply (ops_keep_order comp T_default fuel comp_swo os st0 this Leaf);
      [exact Hm|constructor|done|simpl; lia|simpl; lia].
  - intros _ st' (t' & Hm' & Hbst' & Hrb'). exists t'. split_and!; try done.
    by eapply size_spec.
Qed.

(** X4: insertions alone keep the red-black invariants. Every sequence of
    calls of [insert] and [operator[]] on a new map returns, and the tree
    it leaves has strictly ascending keys in order, no red node with a red
    child, the same number of black nodes on every path from the root to a
    null reference, and a black root. *)
Theorem insertions_keep_red_black st this os :
  (length os + 1 < fuel)%nat → Forall no_erase os →
  ∃ st' t' sz',
    (map_ctor this;; run_ops comp T_default fuel this os) st = Ok tt st' ∧
    map_at st' this t' sz' ∧ ascending comp (keys t') ∧
    no_red_red t' = true ∧ is_Some (black_height t') ∧ root_black t'.
Proof.
  intros Hf Hne.
  destruct (map_ctor_spec st this) as (st0 & E & Hm & _).
  rewrite (bind_ok _ _ _ _ _ E).
  destruct (inserts_keep_rb comp T_default fuel comp_swo os st0 this Leaf 0)
    as (st' & t' & sz' & E' & Hm' & Hbst' & Hrb' & Hnrr' & Hbh');
    [exact Hm|constructor|done|done|by eexists|simpl; lia|done|].
  exists st', t', sz'. by split_and!.
Qed.

End Properties.
(** * Further properties of the member functions *)

Section More.

Context {Key T : Type}.
Variable comp : Key → Key → bool.
Variable T_default : T.
Variable fuel : nat.
Hypothesis comp_swo : strict_weak_order comp.

Implicit Types (h : gmap loc (Node Key T)) (st : state Key T) (t s : tree Key T)
  (n : Node Key T) (C : list (frame Key T)) (L : list (loc * (Key * T))).

(** ** The destructor *)

(** A map is untouched by a change of the memory that leaves its object
    and its nodes alone. *)
Lemma map_at_frame st st' this t sz :
  map_at st this t sz → objs st' !! this = objs st !! this →
  (∀ l, l ∈ locs t → heap st' !! l = heap st !! l) → map_at st' this t sz.
Proof.
  intros (o & Ho & Hr & Hsz & HR & HN) Hobj Hheap. exists o.
  split_and!; [by rewrite Hobj|done|done| |done].
  by eapply Rep_frame.
Qed.

(** X5: the destructor releases every node of the tree and nothing else,
    and every other map, whose nodes are not nodes of this one, is as it
    was. *)
Theorem destructor_releases st this t sz :
  map_at st this t sz → (height t < fuel)%nat →
  ∃ st', map_dtor fuel this st = Ok tt st' ∧
    objs st' !! this = None ∧
    (∀ l, l ∈ locs t → heap st' !! l = None) ∧
    (∀ l, l ∉ locs t → heap st' !! l = heap st !! l) ∧
    (∀ other t2 sz2, other ≠ this → map_at st other t2 sz2 →
       ldisj (locs t) (locs t2) → map_at st' other t2 sz2).
Proof.
  intros Hm Hf. pose proof Hm as (o & Ho & Hr & Hsz & HR & HN).
  destruct (destroy_rec_spec fuel st None t HR HN Hf) as (st1 & E1 & Ho1 & Hdead & Hkeep).
  unfold map_dtor, destroy.
  rewrite (bind_ok _ _ _ _ _ (map_at_root _ _ _ _ Hm)).
  rewrite (bind_ok _ _ _ _ _ E1).
  eexists. split; [reflexivity|]. cbn [objs heap set_objs].
  split_and!; [apply lookup_delete_eq|done|done|].
  intros other t2 sz2 Hne Hm2 Hdis. eapply map_at_frame; [exact Hm2|..].
  - cbn [objs set_objs]. rewrite lookup_delete_ne by done. by rewrite Ho1.
  - intros l Hl. cbn [heap set_objs]. apply Hkeep. intros Hl'. by apply (Hdis l).
Qed.

(** X6: a copy that is constructed and then destroyed leaves the memory
    exactly as it was: the copy allocates new nodes only, and the
    destructor releases all of them. *)
Theorem copy_then_destroy st dst src t sz :
  map_at st src t sz → objs st !! dst = None → (height t < fuel)%nat →
  ∃ st1 t', map_copy_ctor fuel dst src st = Ok tt st1 ∧
    map_at st1 dst t' sz ∧ same_shape t t' ∧
    map_dtor fuel dst st1 = Ok tt st.
Proof.
  intros Hm Hnew Hf. pose proof Hm as (o & Ho & Hr & Hsz & HR & HN).
  unfold map_copy_ctor, copy.
  rewrite (bind_ok _ _ _ _ _ (size_spec st src t sz Hm)).
  rewrite (bind_ok _ _ _ _ _ (map_at_root _ _ _ _ Hm)).
  destruct (copy_rec_spec fuel st None None t HR Hf) as
    (st1 & t' & E & Ho1 & Hs & HR1 & HN1 & Hfr & Hf1).
  rewrite (bind_ok _ _ _ _ _ E).
  eexists _, t'. split; [reflexivity|].
  match goal with |- map_at ?s _ _ _ ∧ _ => set (st2 := s) end.
  assert (map_at st2 dst t' sz) as Hm2.
  { eexists. cbn [objs heap set_objs st2]. split_and!; [apply lookup_insert_eq|done..]. }
  split; [exact Hm2|]. split; [exact Hs|].
  destruct (destroy_rec_spec fuel st2 None t' HR1 HN1) as (st3 & E3 & Ho3 & Hdead & Hkeep).
  { by rewrite <- (same_shape_height _ _ Hs). }
  unfold map_dtor, destroy.
  rewrite (bind_ok _ _ _ _ _ (map_at_root _ _ _ _ Hm2)).
  rewrite (bind_ok _ _ _ _ _ E3). f_equal.
  destruct st as [h ob]. unfold set_objs. cbn [heap objs] in *. f_equal.
  - apply map_eq. intros l. destruct (decide (l ∈ locs t')) as [Hl|Hl].
    + by rewrite (Hdead l Hl), (Hfr l Hl).
    + rewrite (Hkeep l Hl). unfold st2. cbn [heap set_objs]. by apply Hf1.
  - rewrite Ho3. unfold st2. cbn [objs set_objs]. rewrite Ho1.
    rewrite delete_insert_eq. by apply delete_id.
Qed.

(** ** Iterators *)

Lemma last_locs_index t i l :
  locs t !! i = Some l → locs t !! S i = None → last (locs t) = Some l.
Proof.
  intros Hi Hn. rewrite last_lookup. apply lookup_ge_None in Hn.
  pose proof (lookup_lt_Some _ _ _ Hi) as Hlt.
  by replace (pred (length (locs t))) with i by lia.
Qed.

(** X7: [++] and [--] undo one another. On an iterator to an entry, [++]
    followed by [--] gives the iterator back, also when [++] leads to
    [end()]; so does [--] followed by [++] unless the entry is the first
    one; and [--] on [end()] followed by [++] gives [end()]. The postfix
    forms return the iterator they were applied to and step in the same
    way. *)
Theorem increment_decrement_roundtrip st this t sz l :
  map_at st this t sz → (height t < fuel)%nat → l ∈ locs t →
  (∃ it', iter_incr fuel (iter_at this (Some l)) st = Ok it' st ∧
          iter_decr fuel it' st = Ok (iter_at this (Some l)) st ∧
          iter_post_incr fuel (iter_at this (Some l)) st
            = Ok (iter_at this (Some l), it') st ∧
          iter_post_decr fuel it' st = Ok (it', iter_at this (Some l)) st) ∧
  (head (locs t) ≠ Some l →
   ∃ it', iter_decr fuel (iter_at this (Some l)) st = Ok it' st ∧
          iter_incr fuel it' st = Ok (iter_at this (Some l)) st) ∧
  (∃ it', iter_decr fuel (iter_at this None) st = Ok it' st ∧
          iter_incr fuel it' st = Ok (iter_at this None) st).
Proof.
  intros Hm Hf Hl. pose proof (map_at_is_map _ _ _ _ Hm) as Hi.
  apply list_elem_of_lookup in Hl as [i Hl]. unfold iter_at. split_and!.
  - pose proof (iter_incr_index fuel st this t i l (Some this) Hi Hf Hl) as Hinc.
    assert (iter_decr fuel {| current := locs t !! S i; container := Some this |} st
            = Ok {| current := Some l; container := Some this |} st) as Hdec.
    { destruct (locs t !! S i) as [l'|] eqn:El.
      - rewrite (iter_decr_index fuel st this t (S i) l' _ Hi Hf El). by rewrite Hl.
      - rewrite (decr_end_spec fuel st this t Hi Hf).
        by rewrite (last_locs_index t i l Hl El). }
    eexists. split_and!; [exact Hinc|exact Hdec| |].
    + unfold iter_post_incr. by rewrite (bind_ok _ _ _ _ _ Hinc).
    + unfold iter_post_decr. by rewrite (bind_ok _ _ _ _ _ Hdec).
  - intros Hhd. destruct i as [|j].
    { by rewrite head_lookup in Hhd. }
    destruct (lookup_lt_is_Some_2 (locs t) j) as [l' Hl'].
    { apply lookup_lt_Some in Hl. lia. }
    eexists. split.
    + rewrite (iter_decr_index fuel st this t (S j) l _ Hi Hf Hl). by rewrite Hl'.
    + rewrite (iter_incr_index fuel st this t j l' _ Hi Hf Hl'). by rewrite Hl.
  - rewrite (decr_end_spec fuel st this t Hi Hf).
    destruct (last (locs t)) as [p|] eqn:Ep.
    + eexists. split; [done|]. rewrite last_lookup in Ep.
      rewrite (iter_incr_index fuel st this t _ p _ Hi Hf Ep).
      rewrite (proj2 (lookup_ge_None (locs t) _)); [done|].
      apply lookup_lt_Some in Hl. lia.
    + apply last_None in Ep. by rewrite Ep in Hl.
Qed.

Lemma iter_retreat_spec st this t j : ∀ i l,
  is_map st this t → (height t < fuel)%nat → locs t !! i = Some l → (j ≤ i)%nat →
  iter_retreat fuel j (iter_at this (Some l)) st
  = Ok (iter_at this (locs t !! (i - j)%nat)) st.
Proof.
  induction j as [|j IH]; intros i l Hi Hf Hl Hj.
  { simpl. by rewrite Nat.sub_0_r, Hl. }
  destruct i as [|i]; [lia|]. cbn [iter_retreat]. unfold iter_at.
  rewrite (bind_ok _ _ _ _ _ (iter_decr_index fuel st this t (S i) l _ Hi Hf Hl)).
  destruct (lookup_lt_is_Some_2 (locs t) i) as [l' Hl'].
  { apply lookup_lt_Some in Hl. lia. }
  rewrite Hl'. exact (IH i l' Hi Hf Hl' ltac:(lia)).
Qed.

Lemma iter_retreat_throw st this t i : ∀ l,
  is_map st this t → (height t < fuel)%nat → locs t !! i = Some l →
  iter_retreat fuel (S i) (iter_at this (Some l)) st = Throw invalid_iterator st.
Proof.
  induction i as [|i IH]; intros l Hi Hf Hl; cbn [iter_retreat]; unfold iter_at.
  { unfold bind. by rewrite (iter_decr_index fuel st this t 0 l _ Hi Hf Hl). }
  rewrite (bind_ok _ _ _ _ _ (iter_decr_index fuel st this t (S i) l _ Hi Hf Hl)).
  destruct (lookup_lt_is_Some_2 (locs t) i) as [l' Hl'].
  { apply lookup_lt_Some in Hl. lia. }
  rewrite Hl'. by apply IH.
Qed.

(** X8: from [end()], [--] walks the entries in descending order: [j + 1]
    applications lead to the [j]-th node of the reversed in-order listing,
    and one application more than there are entries raises
    [invalid_iterator], in the state the walk started from. *)
Theorem reverse_iteration st this t sz :
  map_at st this t sz → (height t < fuel)%nat →
  (∀ j l kv, reverse (nodes t) !! j = Some (l, kv) →
     iter_retreat fuel (S j) (iter_at this None) st = Ok (iter_at this (Some l)) st ∧
     get_key (Some l) st = Ok kv.1 st) ∧
  iter_retreat fuel (S (length (nodes t))) (iter_at this None) st
    = Throw invalid_iterator st.
Proof.
  intros Hm Hf. pose proof (map_at_is_map _ _ _ _ Hm) as Hi.
  assert (∀ j, iter_retreat fuel (S j) (iter_at this None) st
               = match last (locs t) with
                 | Some p => iter_retreat fuel j (iter_at this (Some p)) st
                 | None => Throw invalid_iterator st
                 end) as Hstart.
  { intros j. cbn [iter_retreat]. unfold iter_at, bind.
    rewrite (decr_end_spec fuel st this t Hi Hf). by destruct (last (locs t)). }
  split.
  - intros j l kv Hj.
    pose proof (lookup_lt_Some _ _ _ Hj) as Hlt. rewrite length_reverse in Hlt.
    rewrite reverse_lookup in Hj by done.
    assert (locs t !! (length (nodes t) - S j)%nat = Some l) as Hl.
    { unfold locs. by rewrite list_lookup_fmap, Hj. }
    split; [|apply (get_key_spec st this t sz l kv Hm); by eapply list_elem_of_lookup_2].
    rewrite Hstart, last_lookup, length_locs.
    destruct (lookup_lt_is_Some_2 (locs t) (pred (length (nodes t)))) as [p Hp].
    { rewrite length_locs. lia. }
    rewrite Hp. rewrite (iter_retreat_spec st this t j _ p Hi Hf Hp) by lia.
    replace (pred (length (nodes t)) - j)%nat with (length (nodes t) - S j)%nat by lia.
    by rewrite Hl.
  - rewrite Hstart, last_lookup, length_locs.
    destruct (locs t !! pred (length (nodes t))) as [p|] eqn:Hp; [|done].
    pose proof (lookup_lt_Some _ _ _ Hp) as Hlt. rewrite length_locs in Hlt.
    replace (length (nodes t)) with (S (pred (length (nodes t)))) at 1 by lia.
    by apply (iter_retreat_throw st this t).
Qed.

(** ** Lookups *)

Lemma present_or_absent k t :
  bst comp t →
  (∃ l kv, (l, kv) ∈ nodes t ∧ equiv_key comp k kv.1 ∧ lookup_tree comp k t = Some l) ∨
  (absent comp k t ∧ lookup_tree comp k t = None).
Proof.
  intros Hbst. destruct (lookup_tree comp k t) as [l|] eqn:E.
  - left. destruct (lookup_tree_sound comp _ _ _ E) as (kv & Hin & He). by exists l, kv.
  - right. split; [|done]. intros l kv Hin He.
    by rewrite (lookup_tree_complete comp comp_swo t k l kv Hbst Hin He) in E.
Qed.

(** X9: dereferencing the result of [find], with [*] or [->], gives the
    node holding the stored entry when the key is equivalent to a stored
    key, and raises [invalid_iterator] when it is not; so do [*] and [->]
    on [end()] and on a default-constructed iterator. The state is
    unchanged in each case. *)
Theorem dereference_found st this t sz :
  map_at st this t sz → bst comp t → (height t < fuel)%nat →
  (∀ k l kv, (l, kv) ∈ nodes t → equiv_key comp k kv.1 →
     (let* it := find comp fuel this k in iter_deref it) st = Ok (Some l) st ∧
     (let* it := find comp fuel this k in iter_arrow it) st = Ok (Some l) st ∧
     get_key (Some l) st = Ok kv.1 st ∧ get_value (Some l) st = Ok kv.2 st) ∧
  (∀ k, absent comp k t →
     (let* it := find comp fuel this k in iter_deref it) st = Throw invalid_iterator st ∧
     (let* it := find comp fuel this k in iter_arrow it) st = Throw invalid_iterator st) ∧
  (let* it := end_ this in iter_deref it) st = Throw invalid_iterator st ∧
  (let* it := end_ this in iter_arrow it) st = Throw invalid_iterator st ∧
  iter_deref iter_default st = Throw invalid_iterator st ∧
  iter_arrow iter_default st = Throw invalid_iterator st.
Proof.
  intros Hm Hbst Hf. split_and!; try done.
  - intros k l kv Hin He.
    pose proof (find_spec comp fuel st this t sz k Hm Hf) as Hfind.
    rewrite (present_lookup comp comp_swo k t l kv Hbst Hin He) in Hfind.
    rewrite !(bind_ok _ _ _ _ _ Hfind). split_and!; [done|done|..].
    + by eapply get_key_spec.
    + by eapply get_value_spec.
  - intros k Habs.
    pose proof (find_spec comp fuel st this t sz k Hm Hf) as Hfind.
    rewrite (absent_lookup comp k t Habs) in Hfind.
    by rewrite !(bind_ok _ _ _ _ _ Hfind).
Qed.

(** X10: [count], [find] and [at] agree. [count] returns 0 or 1; it
    returns 1 exactly when the key is equivalent to a stored key, exactly
    when [find] does not return [end()], and exactly when [at] returns;
    it returns 0 exactly when [at] raises [index_out_of_bound]. None of
    the three changes the state. *)
Theorem count_find_at_agree st this t sz k :
  map_at st this t sz → bst comp t → (height t < fuel)%nat →
  ∃ c, count comp fuel this k st = Ok c st ∧ (c = 0 ∨ c = 1) ∧
    (c = 1 ↔ ∃ l kv, (l, kv) ∈ nodes t ∧ equiv_key comp k kv.1) ∧
    (c = 1 ↔ find comp fuel this k st ≠ end_ this st) ∧
    (c = 1 ↔ ∃ l, at_ comp fuel this k st = Ok (Some l) st ∧
                  find comp fuel this k st = Ok (iter_at this (Some l)) st) ∧
    (c = 0 ↔ at_ comp fuel this k st = Throw index_out_of_bound st).
Proof.
  intros Hm Hbst Hf.
  rewrite (count_spec comp fuel st this t sz k Hm Hf),
    (find_spec comp fuel st this t sz k Hm Hf), (at_spec comp fuel st this t sz k Hm Hf).
  destruct (present_or_absent k t Hbst) as [(l & kv & Hin & He & ->)|[Habs ->]].
  - exists 1. split_and!; [done|by right|..].
    + split; [|done]. intros _. by exists l, kv.
    + split; [|done]. intros _. unfold end_, ret, iter_at. by intros [=].
    + split; [|done]. intros _. by exists l.
    + split; done.
  - exists 0. split_and!; [done|by left|..].
    + split; [done|]. intros (l & kv & Hin & He). by destruct (Habs l kv Hin).
    + split; [done|]. intros H. by destruct H.
    + split; [done|]. by intros (l & [=] & _).
    + done.
Qed.

(** ** Rotations *)

(** X11: a left rotation at a node with a right child lifts the child
    above the node and keeps the in-order listing of the tree, hence the
    order of the keys, and [size()]; the right rotation at the lifted
    node gives the tree back. *)
Theorem rotations_keep_order st this C x cx kvx a y cy kvy b c sz :
  map_at st this (plug C (Nd x cx kvx a (Nd y cy kvy b c))) sz →
  ∃ st1 st2,
    leftRotate this (Some x) st = Ok tt st1 ∧
    map_at st1 this (plug C (Nd y cy kvy (Nd x cx kvx a b) c)) sz ∧
    nodes (plug C (Nd y cy kvy (Nd x cx kvx a b) c))
      = nodes (plug C (Nd x cx kvx a (Nd y cy kvy b c))) ∧
    (bst comp (plug C (Nd x cx kvx a (Nd y cy kvy b c))) →
     bst comp (plug C (Nd y cy kvy (Nd x cx kvx a b) c))) ∧
    rightRotate this (Some y) st1 = Ok tt st2 ∧
    map_at st2 this (plug C (Nd x cx kvx a (Nd y cy kvy b c))) sz.
Proof.
  intros Hm.
  destruct (leftRotate_spec st this C x cx kvx a y cy kvy b c sz Hm) as (st1 & E1 & Hm1).
  destruct (rightRotate_spec st1 this C y cy kvy x cx kvx a b c sz Hm1) as (st2 & E2 & Hm2).
  assert (nodes (plug C (Nd y cy kvy (Nd x cx kvx a b) c))
          = nodes (plug C (Nd x cx kvx a (Nd y cy kvy b c)))) as Hn.
  { nodes_eq. }
  exists st1, st2. split_and!; try done.
  unfold bst, keys, entries. by rewrite Hn.
Qed.

(** ** Emptiness *)

(** X12: in a map whose [map_size] member is the number of its entries,
    [empty()] is true exactly when there is no entry, that is exactly when
    [begin()] is [end()] under [operator==], and exactly when [size()]
    is 0. *)
Theorem empty_iff_no_entries st this t :
  map_at st this t (Z.of_nat (length (nodes t))) → (height t < fuel)%nat →
  ∃ b it0 it1,
    empty this st = Ok b st ∧ begin_ fuel this st = Ok it0 st ∧
    end_ this st = Ok it1 st ∧
    (b = true ↔ nodes t = []) ∧
    (b = true ↔ iter_eqb it0 it1 = true) ∧
    (b = false ↔ iter_neqb it0 it1 = true) ∧
    (b = true ↔ size this st = Ok 0 st).
Proof.
  intros Hm Hf. pose proof (map_at_is_map _ _ _ _ Hm) as Hi.
  pose proof (size_spec _ _ _ _ Hm) as Hsz.
  eexists _, _, _. split_and!.
  - unfold empty. unfold size in Hsz. by rewrite (bind_ok _ _ _ _ _ Hsz).
  - by apply begin_spec.
  - done.
  - rewrite Z.eqb_eq. destruct (nodes t); simpl; split; (done || lia).
  - unfold iter_eqb, locs. cbn [current container].
    rewrite bool_decide_eq_true_2 by done. rewrite andb_true_r, ptr_eqb_eq, Z.eqb_eq.
    destruct (nodes t); simpl; split; (done || lia).
  - unfold iter_neqb, iter_eqb, locs. cbn [current container].
    rewrite bool_decide_eq_true_2 by done.
    rewrite andb_true_r, negb_true_iff, Z.eqb_neq.
    destruct (nodes t); simpl; [split; [lia|by rewrite ptr_eqb_refl]|].
    split; [|lia]. intros _. by apply ptr_eqb_ne.
  - rewrite Hsz, Z.eqb_eq. split; [by intros ->|]. by intros [=].
Qed.

(** ** Erasures that keep the balance *)

(** A node with a null left child leaves its place to its right child,
    recoloured black: the colours stay right unless the node was a black
    leaf. *)
Lemma splice_left_null C z cz kvz b :
  no_red_red (plug C (Nd z cz kvz Leaf b)) = true →
  is_Some (black_height (plug C (Nd z cz kvz Leaf b))) →
  cz = true ∨ b ≠ Leaf →
  no_red_red (plug C (blacken b)) = true ∧
  black_height (plug C (blacken b)) = black_height (plug C (Nd z cz kvz Leaf b)).
Proof.
  intros Hnrr Hbh Hc.
  pose proof (nrr_plug_inv _ _ Hnrr) as Hn. pose proof (black_height_plug _ _ Hbh) as Hb.
  destruct (black_height_left_null _ _ _ _ Hb) as [->|Hred].
  - destruct Hc as [->|]; [|done]. split.
    + by apply (nrr_plug_replace C (Nd z true kvz Leaf Leaf)).
    + by apply bh_plug_replace.
  - destruct b as [|lb [|] kvb b1 b2]; try done.
    destruct cz; [done|]. split.
    + apply (nrr_plug_replace C (Nd z false kvz Leaf (Nd lb true kvb b1 b2))); [done| |done].
      simpl in Hn |- *. rewrite !andb_true_iff in Hn. rewrite ?andb_true_iff. tauto.
    + apply bh_plug_replace. simpl in *.
      destruct (black_height b1) as [x|], (black_height b2) as [y|]; try by destruct Hb.
      case_bool_decide; [|by destruct Hb]. subst y.
      case_bool_decide as E; [|by destruct Hb]. by subst x.
Qed.

Lemma splice_right_null C z cz kvz a :
  no_red_red (plug C (Nd z cz kvz a Leaf)) = true →
  is_Some (black_height (plug C (Nd z cz kvz a Leaf))) →
  cz = true ∨ a ≠ Leaf →
  no_red_red (plug C (blacken a)) = true ∧
  black_height (plug C (blacken a)) = black_height (plug C (Nd z cz kvz a Leaf)).
Proof.
  intros Hnrr Hbh Hc.
  pose proof (nrr_plug_inv _ _ Hnrr) as Hn. pose proof (black_height_plug _ _ Hbh) as Hb.
  destruct (black_height_right_null _ _ _ _ Hb) as [->|Hred].
  - destruct Hc as [->|]; [|done]. split.
    + by apply (nrr_plug_replace C (Nd z true kvz Leaf Leaf)).
    + by apply bh_plug_replace.
  - destruct a as [|la [|] kva a1 a2]; try done.
    destruct cz; [done|]. split.
    + apply (nrr_plug_replace C (Nd z false kvz (Nd la true kva a1 a2) Leaf)); [done| |done].
      simpl in Hn |- *. rewrite !andb_true_iff in Hn. rewrite ?andb_true_iff. tauto.
    + apply bh_plug_replace. simpl in *.
      destruct (black_height a1) as [x|], (black_height a2) as [y|]; try by destruct Hb.
      case_bool_decide; [|by destruct Hb]. subst y.
      case_bool_decide as E; [|by destruct Hb]. by subst x.
Qed.

(** The colours of a tree do not depend on the location and the entry of
    a node. *)
Lemma colours_relabel C z y c kv kv' a b :
  no_red_red (plug C (Nd z c kv a b)) = true →
  no_red_red (plug C (Nd y c kv' a b)) = true ∧
  black_height (plug C (Nd y c kv' a b)) = black_height (plug C (Nd z c kv a b)).
Proof.
  intros Hnrr. split.
  - apply (nrr_plug_replace C (Nd z c kv a b)); [done| |done].
    by apply nrr_plug_inv in Hnrr.
  - by apply bh_plug_replace.
Qed.

(** The tree that [deleteNode] leaves when the node that left its place
    was red or had a child. *)
Lemma unlinked_colours C z cz kvz a b :
  no_red_red (plug C (Nd z cz kvz a b)) = true →
  is_Some (black_height (plug C (Nd z cz kvz a b))) →
  snd (unlinked C cz a b) = true ∨ snd (fst (unlinked C cz a b)) ≠ Leaf →
  no_red_red (plug (fst (fst (unlinked C cz a b)))
                (blacken (snd (fst (unlinked C cz a b))))) = true ∧
  is_Some (black_height (plug (fst (fst (unlinked C cz a b)))
                           (blacken (snd (fst (unlinked C cz a b)))))).
Proof.
  intros Hnrr Hbh. unfold unlinked.
  destruct a as [|la ca kva a1 a2].
  { cbn [fst snd]. intros Hc.
    destruct (splice_left_null C z cz kvz b Hnrr Hbh Hc) as [H1 H2].
    split; [done|]. by rewrite H2. }
  destruct b as [|lb cb kvb b1 b2].
  { cbn [fst snd]. intros Hc.
    destruct (splice_right_null C z cz kvz _ Hnrr Hbh) as [H1 H2].
    { destruct Hc; [by left|by right]. }
    split; [done|]. by rewrite H2. }
  destruct (min_ctx_spec (Nd lb cb kvb b1 b2) []) as
    (y & cy & kvy & xr & Cb & H1 & H2 & _); [done|].
  rewrite H1, app_nil_r. cbn [fst snd]. intros Hc.
  rewrite H2 in Hnrr, Hbh.
  change (plug C (Nd z cz kvz (Nd la ca kva a1 a2) (plug Cb (Nd y cy kvy Leaf xr))))
    with (plug (FR z cz kvz (Nd la ca kva a1 a2) :: C) (plug Cb (Nd y cy kvy Leaf xr)))
    in Hnrr, Hbh.
  rewrite <- plug_app in Hnrr, Hbh.
  destruct (splice_left_null _ y cy kvy xr Hnrr Hbh Hc) as [H3 H4].
  rewrite <- H4 in Hbh. rewrite plug_app in H3, Hbh |- *. cbn [plug fill] in H3, Hbh |- *.
  destruct (colours_relabel C z y cz kvz kvy (Nd la ca kva a1 a2) (plug Cb (blacken xr)) H3)
    as [H5 H6].
  split; [done|]. by rewrite H6.
Qed.

(** A red node that leaves its place has no child. *)
Lemma unlinked_red_leaf C z cz kvz a b :
  no_red_red (plug C (Nd z cz kvz a b)) = true →
  is_Some (black_height (plug C (Nd z cz kvz a b))) →
  snd (unlinked C cz a b) = true → snd (fst (unlinked C cz a b)) = Leaf.
Proof.
  intros Hnrr Hbh.
  destruct (unlinked_replacement z kvz C cz a b Hbh) as [H|Hred]; [done|].
  revert Hred. apply nrr_plug_inv in Hnrr. unfold unlinked.
  destruct a as [|la ca kva a1 a2].
  { cbn [fst snd]. intros Hred ->. simpl in Hnrr. rewrite Hred in Hnrr. done. }
  destruct b as [|lb cb kvb b1 b2].
  { cbn [fst snd]. intros Hred ->. simpl in Hnrr. simpl in Hred. by rewrite Hred in Hnrr. }
  destruct (min_ctx_spec (Nd lb cb kvb b1 b2) []) as
    (y & cy & kvy & xr & Cb & H1 & H2 & _); [done|].
  rewrite H1. cbn [fst snd]. intros Hred ->.
  assert (no_red_red (Nd lb cb kvb b1 b2) = true) as Hb.
  { simpl in Hnrr. rewrite !andb_true_iff in Hnrr. simpl. rewrite !andb_true_iff. tauto. }
  rewrite H2 in Hb. apply nrr_plug_inv in Hb. simpl in Hb. by rewrite Hred in Hb.
Qed.

Lemma deleteNode_spliced st this C z cz kvz a b sz :
  map_at st this (plug C (Nd z cz kvz a b)) sz →
  no_red_red (plug C (Nd z cz kvz a b)) = true →
  is_Some (black_height (plug C (Nd z cz kvz a b))) →
  (height (plug C (Nd z cz kvz a b)) < fuel)%nat →
  ∃ st', deleteNode fuel this (Some z) st = Ok tt st' ∧
    map_at st' this (plug (fst (fst (unlinked C cz a b)))
                       (if runs_fixDelete (snd (unlinked C cz a b))
                             (ptr_of (snd (fst (unlinked C cz a b))))
                        then blacken (snd (fst (unlinked C cz a b)))
                        else snd (fst (unlinked C cz a b))))
      (wrap (sz - 1)) ∧
    heap st' !! z = None.
Proof.
  intros Hm Hnrr Hbh Hf. unfold deleteNode.
  destruct (unlink_spec fuel st this C z cz kvz a b sz Hm Hf) as (st1 & E & Hm1 & Hz).
  rewrite (bind_ok _ _ _ _ _ E). cbn [fst snd]. clear E.
  pose proof (unlinked_nodes C cz a b) as Hn.
  pose proof (unlinked_replacement z kvz C cz a b Hbh) as Hx.
  destruct (unlinked C cz a b) as [[C' xt] yoc]. cbn [fst snd] in *.
  assert (z ∉ (ctx_before C ++ nodes a ++ nodes b ++ ctx_after C).*1) as Hnz.
  { destruct Hm as (_ & _ & _ & _ & _ & HN). unfold locs in HN.
    rewrite nodes_plug_split in HN. apply nodup_remove_mid in HN.
    by rewrite <- app_assoc in HN. }
  assert (is_Some (heap st1 !! z)) as Hlive.
  { rewrite Hz, (map_at_lookup _ _ _ _ _ _ _ _ _ Hm). by eexists. }
  assert (∀ st2 t2, map_at st2 this t2 sz → nodes t2 = nodes (plug C' xt) →
            is_Some (heap st2 !! z) →
            ∃ st', (free (Some z);; decr_size this) st2 = Ok tt st' ∧
                   map_at st' this t2 (wrap (sz - 1)) ∧ heap st' !! z = None) as Hrest.
  { intros st2 t2 Hm2 Hn2 Hl2.
    destruct (free_spec st2 this t2 sz z Hm2) as (st3 & E3 & Hm3 & Hz3); [|done|].
    { exact (not_in_locs_of_nodes t2 z _ (eq_trans Hn2 Hn) Hnz). }
    rewrite (bind_ok _ _ _ _ _ E3).
    destruct Hm3 as (o & Ho & Hr & Hsz & HR & HN). unfold decr_size. munfold.
    repeat mstep. eexists. split; [reflexivity|]. split; [|done].
    eexists. msimpl. split_and!; [apply lookup_insert_eq|done|by rewrite Hsz|done|done]. }
  destruct (runs_fixDelete yoc (ptr_of xt)) eqn:Hrun.
  - destruct Hx as [->|Hred].
    { unfold runs_fixDelete in Hrun. by rewrite andb_comm in Hrun. }
    destruct xt as [|x [|] kvx xa xb]; try done.
    destruct (fixDelete_red fuel st1 this C' x true kvx xa xb sz Hm1) as (st2 & E2 & Hm2 & Hl);
      [by left|lia|].
    cbn [ptr_of]. rewrite (bind_ok _ _ _ _ _ E2).
    eapply Hrest; [exact Hm2| |by apply Hl]. by rewrite !nodes_plug.
  - rewrite bind_ret. by eapply Hrest.
Qed.

(** X13: an erasure keeps the red-black invariants whenever the node that
    leaves its place in the tree (the erased node, or the leftmost node of
    its right subtree when it has two children) is red, or has a child, or
    is the root. The erasure then returns, removes exactly the erased
    entry, and leaves a search tree with a black root, no red node with a
    red child and the same number of black nodes on all paths. *)
Theorem erase_keeps_red_black st this C z cz kvz a b sz :
  map_at st this (plug C (Nd z cz kvz a b)) sz →
  bst comp (plug C (Nd z cz kvz a b)) → root_black (plug C (Nd z cz kvz a b)) →
  no_red_red (plug C (Nd z cz kvz a b)) = true →
  is_Some (black_height (plug C (Nd z cz kvz a b))) →
  (height (plug C (Nd z cz kvz a b)) < fuel)%nat →
  snd (unlinked C cz a b) = true ∨ snd (fst (unlinked C cz a b)) ≠ Leaf ∨
    fst (fst (unlinked C cz a b)) = [] →
  ∃ st' t',
    erase fuel this (iter_at this (Some z)) st = Ok tt st' ∧
    map_at st' this t' (wrap (sz - 1)) ∧ heap st' !! z = None ∧
    (∀ x, x ∈ nodes t' ↔ x ≠ (z, kvz) ∧ x ∈ nodes (plug C (Nd z cz kvz a b))) ∧
    bst comp t' ∧ root_black t' ∧
    no_red_red t' = true ∧ is_Some (black_height t').
Proof.
  intros Hm Hbst Hrb Hnrr Hbh Hf Hc.
  destruct (deleteNode_spliced st this C z cz kvz a b sz Hm Hnrr Hbh Hf) as (st' & E & Hm' & Hz).
  pose proof (unlinked_nodes C cz a b) as Hn.
  pose proof (unlinked_top_black C cz a b (root_black_ctx _ _ Hrb)) as Htb.
  pose proof (unlinked_colours C z cz kvz a b Hnrr Hbh) as Hcol.
  pose proof (unlinked_red_leaf C z cz kvz a b Hnrr Hbh) as Hleaf.
  pose proof (unlinked_replacement z kvz C cz a b Hbh) as Hx.
  assert (C = [] → cz = false) as Hcz by (by intros ->).
  specialize (Htb Hcz).
  destruct (unlinked C cz a b) as [[C' xt] yoc]. cbn [fst snd] in *.
  assert ((if runs_fixDelete yoc (ptr_of xt) then blacken xt else xt) = blacken xt) as Hfin.
  { destruct (runs_fixDelete yoc (ptr_of xt)) eqn:Hrun; [done|].
    unfold runs_fixDelete in Hrun. destruct yoc.
    - by rewrite (Hleaf eq_refl).
    - destruct xt; [done|]. cbn [negb andb ptr_of] in Hrun.
      apply bool_decide_eq_false in Hrun. by destruct Hrun. }
  rewrite Hfin in Hm'. clear Hfin.
  assert (nodes (plug C' (blacken xt)) = (ctx_before C ++ nodes a) ++ nodes b ++ ctx_after C)
    as Hn'.
  { rewrite nodes_plug, nodes_blacken, <- nodes_plug, Hn. by rewrite <- app_assoc. }
  exists st', (plug C' (blacken xt)). rewrite erase_live.
  split_and!; [done|done|done| | | |..].
  - intros x. rewrite Hn', nodes_plug_split. apply elem_of_removed.
    rewrite <- (nodes_plug_split C z cz kvz a b). by eapply map_at_nodup_nodes.
  - eapply (delete_bst comp _ _ _ _ (z, kvz)); [exact Hbst|apply nodes_plug_split|exact Hn'].
  - apply root_black_plug; [done|]. intros _. by destruct xt.
  - assert (yoc = true ∨ xt ≠ Leaf ∨ (C' = [] ∧ xt = Leaf)) as Hc'.
    { destruct Hc as [?|[?|?]]; [by left|by right; left|].
      destruct xt; [by right; right|by right; left]. }
    destruct Hc' as [?|[?|[-> ->]]]; [apply Hcol; by left|apply Hcol; by right|done].
  - assert (yoc = true ∨ xt ≠ Leaf ∨ (C' = [] ∧ xt = Leaf)) as Hc'.
    { destruct Hc as [?|[?|?]]; [by left|by right; left|].
      destruct xt; [by right; right|by right; left]. }
    destruct Hc' as [?|[?|[-> ->]]]; [apply Hcol; by left|apply Hcol; by right|by eexists].
Qed.

(** X14: on a tree whose paths hold equal numbers of black nodes the
    loop of [fixDelete] never runs its body. The replacement node is null
    or red, so the loop returns at its first test, and an erasure is the
    unlinking step followed by at most one recolouring, the release of the
    node and the decrement of the size: it never rotates. *)
Theorem erase_never_rebalances st this C z cz kvz a b sz :
  map_at st this (plug C (Nd z cz kvz a b)) sz →
  is_Some (black_height (plug C (Nd z cz kvz a b))) →
  (height (plug C (Nd z cz kvz a b)) < fuel)%nat →
  ∃ st1 yoc x,
    deleteNode_unlink fuel this (Some z) st = Ok (yoc, x) st1 ∧
    (x = None ∨ fixDelete_loop this fuel x st1 = Ok x st1) ∧
    erase fuel this (iter_at this (Some z)) st
    = ((if runs_fixDelete yoc x then set_color x false else ret tt);;
       free (Some z);; decr_size this) st1.
Proof.
  intros Hm Hbh Hf.
  destruct (unlink_spec fuel st this C z cz kvz a b sz Hm Hf) as (st1 & E & Hm1 & Hz).
  pose proof (unlinked_replacement z kvz C cz a b Hbh) as Hx.
  destruct (unlinked C cz a b) as [[C' xt] yoc]. cbn [fst snd] in *.
  exists st1, yoc, (ptr_of xt). split; [done|].
  rewrite erase_live. unfold deleteNode. rewrite (bind_ok _ _ _ _ _ E). cbn [fst snd].
  destruct Hx as [->|Hred].
  { split; [by left|]. unfold runs_fixDelete. cbn [ptr_of].
    by rewrite bool_decide_eq_false_2, andb_false_r by (by intros H). }
  destruct xt as [|x [|] kvx xa xb]; try done. cbn [ptr_of].
  assert (fixDelete_loop this fuel (Some x) st1 = Ok (Some x) st1) as El.
  { destruct fuel as [|m]; [lia|]. cbn [fixDelete_loop].
    rewrite (bind_ok _ _ _ _ _ (map_at_root _ _ _ _ Hm1)), ptr_of_plug.
    destruct C' as [|F C'].
    - cbn [ctx_top ptr_of]. by rewrite ptr_eqb_refl.
    - cbn [ptr_of]. rewrite ptr_eqb_ne by (eapply map_at_root_ne; exact Hm1).
      by rewrite (bind_ok _ _ _ _ _ (map_at_is_black_0 Hm1)). }
  split; [by right|].
  destruct (runs_fixDelete yoc (Some x)); [|done].
  unfold fixDelete. rewrite bind_assoc. by rewrite (bind_ok _ _ _ _ _ El).
Qed.

(** A black leaf that leaves its place below a parent takes a black node
    off the paths through it. *)
Lemma unlinked_unbalanced C z cz kvz a b :
  is_Some (black_height (plug C (Nd z cz kvz a b))) →
  snd (unlinked C cz a b) = false → snd (fst (unlinked C cz a b)) = Leaf →
  fst (fst (unlinked C cz a b)) ≠ [] →
  black_height (plug (fst (fst (unlinked C cz a b))) (@Leaf Key T)) = None.
Proof.
  intros Hbh. unfold unlinked.
  destruct a as [|la ca kva a1 a2].
  { cbn [fst snd]. intros -> -> HC. by apply (bh_cut_black_leaf C z kvz). }
  destruct b as [|lb cb kvb b1 b2]; [done|].
  destruct (min_ctx_spec (Nd lb cb kvb b1 b2) []) as
    (y & cy & kvy & xr & Cb & H1 & H2 & _); [done|].
  rewrite H1, app_nil_r. cbn [fst snd]. intros -> -> _.
  rewrite H2 in Hbh.
  change (plug C (Nd z cz kvz (Nd la ca kva a1 a2) (plug Cb (Nd y false kvy Leaf Leaf))))
    with (plug (FR z cz kvz (Nd la ca kva a1 a2) :: C) (plug Cb (Nd y false kvy Leaf Leaf)))
    in Hbh.
  rewrite <- plug_app in Hbh.
  apply bh_cut_black_leaf in Hbh; [|by destruct Cb].
  rewrite plug_app in Hbh |- *. cbn [plug fill] in Hbh |- *.
  rewrite <- Hbh. by apply bh_plug_replace.
Qed.

(** X15: on a tree that satisfies the red-black invariants an erasure
    always returns, and the tree it leaves has the same number of black
    nodes on all paths exactly when the node that left its place (the
    erased node, or the leftmost node of its right subtree when it has two
    children) was red, or had a child, or was the root. Otherwise, that
    is when a black leaf other than the root leaves its place, the paths
    through its place are one black node short. *)
Theorem erase_balanced_iff st this C z cz kvz a b sz :
  map_at st this (plug C (Nd z cz kvz a b)) sz →
  no_red_red (plug C (Nd z cz kvz a b)) = true →
  is_Some (black_height (plug C (Nd z cz kvz a b))) →
  (height (plug C (Nd z cz kvz a b)) < fuel)%nat →
  ∃ st' t',
    erase fuel this (iter_at this (Some z)) st = Ok tt st' ∧
    map_at st' this t' (wrap (sz - 1)) ∧
    nodes t' = (ctx_before C ++ nodes a) ++ nodes b ++ ctx_after C ∧
    (is_Some (black_height t') ↔
     snd (unlinked C cz a b) = true ∨ snd (fst (unlinked C cz a b)) ≠ Leaf ∨
     fst (fst (unlinked C cz a b)) = []).
Proof.
  intros Hm Hnrr Hbh Hf.
  destruct (deleteNode_spliced st this C z cz kvz a b sz Hm Hnrr Hbh Hf) as (st' & E & Hm' & Hz).
  pose proof (unlinked_nodes C cz a b) as Hn.
  pose proof (unlinked_colours C z cz kvz a b Hnrr Hbh) as Hcol.
  pose proof (unlinked_red_leaf C z cz kvz a b Hnrr Hbh) as Hleaf.
  pose proof (unlinked_unbalanced C z cz kvz a b Hbh) as Hbad.
  destruct (unlinked C cz a b) as [[C' xt] yoc]. cbn [fst snd] in *.
  eexists st', _. rewrite erase_live. split; [exact E|]. split; [exact Hm'|]. split.
  { destruct (runs_fixDelete yoc (ptr_of xt));
      rewrite nodes_plug, ?nodes_blacken, <- nodes_plug, Hn; by rewrite <- app_assoc. }
  destruct yoc.
  - rewrite (Hleaf eq_refl) in *. cbn [ptr_of]. unfold runs_fixDelete. cbn [negb andb].
    split; [by left|]. intros _. apply Hcol. by left.
  - destruct xt as [|x cx kvx xa xb].
    + cbn [ptr_of]. unfold runs_fixDelete. rewrite bool_decide_eq_false_2 by (by intros H).
      cbn [negb andb]. destruct C' as [|F C'].
      * split; [by right; right|]. intros _. by eexists.
      * rewrite (Hbad eq_refl eq_refl) by done. split; [by intros []|].
        by intros [|[|]].
    + cbn [ptr_of]. unfold runs_fixDelete. rewrite bool_decide_eq_true_2 by done.
      cbn [negb andb]. split; [by right; left|]. intros _. apply Hcol. by right.
Qed.

(** X16: an erasure dereferences a null pointer when the unlinking step
    removes a black node from its place and leaves there a black node that
    is not the root and has no sibling: the fix-up is run on that node,
    reads the sibling pointer of its parent, which is null, and reads the
    colour through it. *)
Theorem erase_faults_without_sibling st this C0 z cz kvz a b sz F C x kvx xa xb :
  map_at st this (plug C0 (Nd z cz kvz a b)) sz →
  (height (plug C0 (Nd z cz kvz a b)) < fuel)%nat →
  unlinked C0 cz a b = (F :: C, Nd x false kvx xa xb, false) →
  frame_sibling F = Leaf →
  ∃ st1,
    deleteNode_unlink fuel this (Some z) st = Ok (false, Some x) st1 ∧
    runs_fixDelete false (Some x) = true ∧
    fixDelete fuel this (Some x) st1 = Fault ∧
    erase fuel this (iter_at this (Some z)) st = Fault.
Proof.
  intros Hm Hf Hu Hs.
  destruct (unlink_spec fuel st this C0 z cz kvz a b sz Hm Hf) as (st1 & E & Hm1 & Hz).
  rewrite Hu in E, Hm1. cbn [fst snd ptr_of] in E, Hm1.
  assert (runs_fixDelete false (Some x) = true) as Hrun.
  { unfold runs_fixDelete. by rewrite bool_decide_eq_true_2. }
  assert (fixDelete fuel this (Some x) st1 = Fault) as Hfd.
  { assert (fixDelete_loop this fuel (Some x) st1 = Fault) as El;
      [|unfold fixDelete, bind; by rewrite El].
    destruct fuel as [|m]; [lia|]. cbn [fixDelete_loop].
    rewrite (bind_ok _ _ _ _ _ (map_at_root _ _ _ _ Hm1)), ptr_of_plug. cbn [ptr_of].
    rewrite ptr_eqb_ne by (eapply map_at_root_ne; exact Hm1).
    rewrite (bind_ok _ _ _ _ _ (map_at_is_black_0 Hm1)). cbn [negb].
    pose proof (map_at_lookup _ _ _ _ _ _ _ _ _ Hm1) as Hx.
    apply map_at_plug in Hm1 as (o & Ho & Hr & Hsz & HC & HR & HN).
    destruct F as [p cp kvp r|p cp kvp r]; cbn [frame_sibling] in Hs; subst r;
      destruct HC as [[Hp _] _]; cbn [ptr_of frame_loc ctx_parent] in Hp, Hx.
    - repeat mstep. rewrite ptr_eqb_refl. by repeat mstep.
    - repeat mstep. rewrite ptr_eqb_ne by done. by repeat mstep. }
  exists st1. split_and!; [done..|].
  rewrite erase_live. unfold deleteNode. rewrite (bind_ok _ _ _ _ _ E). cbn [fst snd].
  rewrite Hrun. unfold bind. by rewrite Hfd.
Qed.

(** ** The height of a red-black tree *)

Lemma rb_height_bound t : ∀ x,
  no_red_red t = true → black_height t = Some x →
  (height t ≤ 2 * x + (if is_red_tree t then 1 else 0))%nat ∧
  (2 ^ x ≤ S (length (nodes t)))%nat.
Proof.
  induction t as [|l c kv a IHa b IHb]; intros x Hn Hb.
  { injection Hb as <-. simpl. lia. }
  simpl in Hn, Hb. rewrite !andb_true_iff in Hn. destruct Hn as [[Hc Ha] Hbn].
  destruct (black_height a) as [xa|]; [|done].
  destruct (black_height b) as [xb|]; [|done].
  case_bool_decide; [|done]. subst xb.
  destruct (IHa xa Ha eq_refl) as [Ha1 Ha2]. destruct (IHb xa Hbn eq_refl) as [Hb1 Hb2].
  cbn [height nodes is_red_tree]. rewrite length_app. cbn [length].
  destruct c.
  - injection Hb as <-. cbn [andb negb] in Hc. apply negb_true_iff, orb_false_iff in Hc.
    destruct Hc as [Hra Hrb]. rewrite Hra in Ha1. rewrite Hrb in Hb1. lia.
  - injection Hb as <-. rewrite Nat.pow_succ_r'.
    destruct (is_red_tree a), (is_red_tree b); lia.
Qed.

(** X17: a tree that satisfies the red-black invariants is at most
    2 log2 (n + 1) high for its n entries, and the search loop of [find],
    [count] and [at] needs no more than 2 log2 (n + 1) + 1 evaluations of
    its condition to give its answer. *)
Theorem lookup_is_logarithmic st this t sz k :
  map_at st this t sz → root_black t →
  no_red_red t = true → is_Some (black_height t) →
  (height t ≤ 2 * Nat.log2 (S (length (nodes t))))%nat ∧
  findNode comp (S (2 * Nat.log2 (S (length (nodes t))))) this k st
    = Ok (lookup_tree comp k t) st ∧
  find comp (S (2 * Nat.log2 (S (length (nodes t))))) this k st
    = Ok (iter_at this (lookup_tree comp k t)) st ∧
  count comp (S (2 * Nat.log2 (S (length (nodes t))))) this k st
    = Ok (match lookup_tree comp k t with Some _ => 1 | None => 0 end) st.
Proof.
  intros Hm Hrb Hnrr [x Hx].
  destruct (rb_height_bound t x Hnrr Hx) as [H1 H2].
  assert (is_red_tree t = false) as Hr.
  { destruct t as [|l c kv a b]; [done|]. simpl in Hrb. by subst c. }
  rewrite Hr in H1.
  assert (x ≤ Nat.log2 (S (length (nodes t))))%nat as Hlog.
  { apply Nat.log2_le_pow2; [lia|done]. }
  assert (height t < S (2 * Nat.log2 (S (length (nodes t)))))%nat as Hf by lia.
  split_and!; [lia|..].
  - apply findNode_spec; [by eapply map_at_is_map|done].
  - by eapply find_spec.
  - by eapply count_spec.
Qed.

(** ** Reading and writing mapped values *)

Lemma at_value_present st this t sz k l kv :
  map_at st this t sz → bst comp t → (height t < fuel)%nat →
  (l, kv) ∈ nodes t → equiv_key comp k kv.1 →
  at_value comp fuel this k st = Ok kv.2 st.
Proof.
  intros Hm Hbst Hf Hin He. unfold at_value.
  rewrite (bind_ok _ _ _ _ _ (eq_trans (at_spec comp fuel st this t sz k Hm Hf)
             ltac:(by rewrite (present_lookup comp comp_swo k t l kv Hbst Hin He)))).
  by eapply get_value_spec.
Qed.

Lemma at_value_absent st this t sz k :
  map_at st this t sz → (height t < fuel)%nat → absent comp k t →
  at_value comp fuel this k st = Throw index_out_of_bound st.
Proof.
  intros Hm Hf Habs. unfold at_value, bind.
  by rewrite (at_spec comp fuel st this t sz k Hm Hf), (absent_lookup comp k t Habs).
Qed.

(** Two maps in which the same entries have a key equivalent to [k] give
    the same answer for [k]. *)
Lemma at_value_agree st st' this this' t t' sz sz' k :
  map_at st this t sz → map_at st' this' t' sz' → bst comp t → bst comp t' →
  (height t < fuel)%nat → (height t' < fuel)%nat →
  (∀ kv, equiv_key comp k kv.1 →
     (∃ l, (l, kv) ∈ nodes t) ↔ (∃ l', (l', kv) ∈ nodes t')) →
  (∃ v, at_value comp fuel this k st = Ok v st ∧
        at_value comp fuel this' k st' = Ok v st') ∨
  (at_value comp fuel this k st = Throw index_out_of_bound st ∧
   at_value comp fuel this' k st' = Throw index_out_of_bound st').
Proof.
  intros Hm Hm' Hbst Hbst' Hf Hf' Hsame.
  destruct (present_or_absent k t Hbst) as [(l & kv & Hin & He & _)|[Habs _]].
  - left. exists kv.2. destruct (proj1 (Hsame kv He)) as [l' Hin']; [by exists l|].
    split; by eapply at_value_present.
  - right. split; [by eapply at_value_absent|].
    eapply at_value_absent; [done..|]. intros l' kv Hin' He.
    destruct (proj2 (Hsame kv He)) as [l Hin]; [by exists l'|]. by apply (Habs l kv).
Qed.

Lemma same_shape_entry t t' kv :
  same_shape t t' → (∃ l, (l, kv) ∈ nodes t) ↔ (∃ l', (l', kv) ∈ nodes t').
Proof.
  intros Hs. apply same_shape_entries in Hs.
  assert (∀ s, (∃ l, (l, kv) ∈ nodes s) ↔ kv ∈ entries s) as Hen.
  { intros s. unfold entries. rewrite list_elem_of_fmap. split.
    - intros [l Hl]. by exists (l, kv).
    - intros ([l kv'] & -> & Hl). by exists l. }
  by rewrite !Hen, Hs.
Qed.

Lemma same_shape_bst t t' : same_shape t t' → bst comp t → bst comp t'.
Proof. intros Hs. unfold bst, keys. by rewrite (same_shape_entries _ _ Hs). Qed.

(** X18: a copy answers as its source. After a copy construction, and
    after a copy assignment, [at] gives for every key the same value in
    the destination as in the source, or raises [index_out_of_bound] in
    both; and the source answers as before the copy. *)
Theorem copy_same_lookups st dst src t sz :
  map_at st src t sz → bst comp t → dst ≠ src → (height t < fuel)%nat →
  (∃ st', map_copy_ctor fuel dst src st = Ok tt st' ∧
     ∀ k, (∃ v, at_value comp fuel src k st = Ok v st ∧
                at_value comp fuel src k st' = Ok v st' ∧
                at_value comp fuel dst k st' = Ok v st') ∨
          (at_value comp fuel src k st = Throw index_out_of_bound st ∧
           at_value comp fuel src k st' = Throw index_out_of_bound st' ∧
           at_value comp fuel dst k st' = Throw index_out_of_bound st')) ∧
  (∀ td szd, map_at st dst td szd → ldisj (locs td) (locs t) →
     (height td < fuel)%nat →
     ∃ st', map_assign fuel dst src st = Ok dst st' ∧
       ∀ k, (∃ v, at_value comp fuel src k st = Ok v st ∧
                  at_value comp fuel src k st' = Ok v st' ∧
                  at_value comp fuel dst k st' = Ok v st') ∨
            (at_value comp fuel src k st = Throw index_out_of_bound st ∧
             at_value comp fuel src k st' = Throw index_out_of_bound st' ∧
             at_value comp fuel dst k st' = Throw index_out_of_bound st')).
Proof.
  intros Hm Hbst Hne Hf.
  assert (∀ st' t', map_at st' dst t' sz → map_at st' src t sz → same_shape t t' →
            ∀ k, (∃ v, at_value comp fuel src k st = Ok v st ∧
                       at_value comp fuel src k st' = Ok v st' ∧
                       at_value comp fuel dst k st' = Ok v st') ∨
                 (at_value comp fuel src k st = Throw index_out_of_bound st ∧
                  at_value comp fuel src k st' = Throw index_out_of_bound st' ∧
                  at_value comp fuel dst k st' = Throw index_out_of_bound st')) as Hsame.
  { intros st' t' Hd Hs Hsh k.
    assert (height t' < fuel)%nat as Hf' by (by rewrite <- (same_shape_height _ _ Hsh)).
    destruct (at_value_agree st st' src src t t sz sz k Hm Hs Hbst Hbst Hf Hf) as
      [(v & E1 & E2)|(E1 & E2)]; [done|..];
      destruct (at_value_agree st st' src dst t t' sz sz k Hm Hd Hbst
                  (same_shape_bst _ _ Hsh Hbst) Hf Hf') as [(v' & E3 & E4)|(E3 & E4)];
      try (intros kv _; by apply same_shape_entry); try congruence.
    - left. exists v. split_and!; [done|done|]. congruence.
    - by right. }
  split.
  - destruct (map_copy_ctor_spec fuel st dst src t sz Hm Hne Hf) as
      (st' & t' & E & Hd & Hs & Hsh & _).
    exists st'. split; [done|]. by apply (Hsame st' t').
  - intros td szd Hdm Hdis Hfd.
    destruct (map_assign_spec fuel st dst src td szd t sz Hdm Hm Hne Hdis Hfd Hf) as
      (st1 & st' & t' & _ & _ & _ & _ & E & Hd & Hs & Hsh & _).
    exists st'. split; [done|]. by apply (Hsame st' t').
Qed.

(** ** Insertion followed by erasure *)

Lemma nodup_split_unique (L1 L2 L1' L2' : list (loc * (Key * T))) x y :
  NoDup (L1 ++ x :: L2).*1 → x.1 = y.1 → L1 ++ x :: L2 = L1' ++ y :: L2' →
  L1 = L1' ∧ L2 = L2' ∧ x = y.
Proof.
  intros HN Hxy HL.
  assert ((L1 ++ x :: L2).*1 !! length L1 = Some x.1) as H1.
  { rewrite list_lookup_fmap, list_lookup_middle; done. }
  assert ((L1 ++ x :: L2).*1 !! length L1' = Some x.1) as H2.
  { rewrite HL, list_lookup_fmap, list_lookup_middle, Hxy; done. }
  pose proof (NoDup_lookup _ _ _ _ HN H1 H2) as Hlen.
  assert (take (length L1) (L1 ++ x :: L2) = take (length L1') (L1' ++ y :: L2')) as Ht
    by (by rewrite HL, Hlen).
  rewrite !take_app_length in Ht. subst L1'.
  apply app_inv_head in HL. by injection HL as -> ->.
Qed.

Lemma wrap_incr_decr sz : 0 ≤ sz < size_max → wrap (wrap (sz + 1) - 1) = sz.
Proof.
  intros H. unfold wrap. rewrite Zminus_mod_idemp_l.
  replace (sz + 1 - 1) with sz by lia. by apply Z.mod_small.
Qed.

(** X19: the insertion of a new key followed by the erasure of the
    iterator it returned gives back the entries the map had, node for
    node and in the same order, and the old [size()]; the new node is
    released. Both calls return when the tree satisfies the red-black
    invariants. *)
Theorem insert_erase_roundtrip st this t sz k v :
  map_at st this t sz → bst comp t → root_black t →
  no_red_red t = true → is_Some (black_height t) → absent comp k t →
  (S (length (nodes t)) < fuel)%nat → 0 ≤ sz < size_max →
  ∃ st1 st2 z t2,
    insert comp fuel this (k, v) st = Ok (iter_at this (Some z), true) st1 ∧
    erase fuel this (iter_at this (Some z)) st1 = Ok tt st2 ∧
    map_at st2 this t2 sz ∧ nodes t2 = nodes t ∧ bst comp t2 ∧ root_black t2 ∧
    size this st2 = Ok sz st2 ∧ heap st2 !! z = None.
Proof.
  intros Hm Hbst Hrb Hnrr Hbh Habs Hf Hsz.
  pose proof (height_le_size t) as Hh.
  destruct (insert_absent_spec comp fuel comp_swo st this t sz (k, v) Hm Hbst Hrb) as
    (st1 & t1 & z & l1 & l2 & E1 & Hm1 & Hbst1 & Hrb1 & Hn & Hn1 & Hrbv);
    [by apply absent_lookup|lia|].
  destruct (Hrbv Hnrr Hbh) as [Hnrr1 Hbh1].
  assert (length (nodes t1) = S (length (nodes t))) as Hlen.
  { rewrite Hn, Hn1, !length_app. simpl. lia. }
  pose proof (height_le_size t1) as Hh1.
  assert ((z, (k, v)) ∈ nodes t1) as Hin by (rewrite Hn1; set_solver).
  destruct (erase_returns fuel st1 this t1 _ z (k, v) Hm1 Hbh1) as (st2 & E2); [lia|done|].
  pose proof (erase_post comp fuel st1 this t1 _ z (k, v) Hm1 Hbst1 Hrb1) as Hpost.
  rewrite E2 in Hpost. destruct Hpost as (t2 & l1' & l2' & Hm2 & Hbst2 & Hrb2 & Hn1' & Hn2 & Hz);
    [lia|done|].
  rewrite wrap_incr_decr in Hm2 by done.
  destruct (nodup_split_unique l1 l2 l1' l2' (z, (k, v)) (z, (k, v))) as (-> & -> & _);
    [|done|congruence|].
  { rewrite <- Hn1. by eapply map_at_nodup_nodes. }
  exists st1, st2, z, t2. split_and!; try done; [congruence|by eapply size_spec].
Qed.

(** ** Assignment through a reference *)

Lemma set_value_spec st this C l c kv a b sz v :
  map_at st this (plug C (Nd l c kv a b)) sz →
  ∃ st', set_value (Some l) v st = Ok tt st' ∧
         map_at st' this (plug C (Nd l c (kv.1, v) a b)) sz.
Proof.
  rewrite map_at_plug. intros (o & Ho & Hr & Hsz & HC & HR & HN).
  pose proof (Rep_root_lookup _ _ _ _ _ _ _ HR) as Hn.
  destruct HR as (_ & Ha & Hb).
  eexists. split.
  { unfold set_value. by rewrite (modify_ok _ _ _ _ Hn). }
  nd_norm. apply map_at_plug. exists o. unfold with_value. msimpl.
  split_and!; [done|done|done|rep_solve|rep_solve|nd_solve].
Qed.

(** Storing a value under a key equivalent to [k] changes no answer for a
    key that is not equivalent to [k]. *)
Lemma entries_off_key (P Q : list (loc * (Key * T))) L l k0 v k k' kv :
  (L = P ++ Q ∨ ∃ v0, L = P ++ (l, (k0, v0)) :: Q) →
  equiv_key comp k k0 → ¬ equiv_key comp k k' → equiv_key comp k' kv.1 →
  (∃ l1, (l1, kv) ∈ L) ↔ (∃ l1, (l1, kv) ∈ P ++ (l, (k0, v)) :: Q).
Proof.
  intros HL Hk Hne He.
  assert (∀ l1 w, (l1, kv) ≠ (l, (k0, w))) as Hoff.
  { intros l1 w [= -> ->]. apply Hne. cbn [fst] in He.
    eapply (swo_equiv_trans _ comp_swo); [exact Hk|]. by apply equiv_key_sym. }
  destruct HL as [->|[v0 ->]]; split; intros [l1 H]; exists l1;
    rewrite elem_of_app, ?elem_of_cons, ?elem_of_app in *;
    destruct_or?; (try by edestruct Hoff); auto.
Qed.

(** X20: a value assigned through the reference that [operator[]] returns
    is the value [at] gives afterwards for that key; the answers for all
    keys that are not equivalent to it are as before; the tree stays a
    search tree, and [size()] grows by one exactly when the key was not
    stored. On a stored key, assigning through [at] does the same; on a
    key that is not stored it raises [index_out_of_bound] and changes
    nothing. *)
Theorem assign_then_read st this t sz k v :
  map_at st this t sz → bst comp t → root_black t →
  (S (length (nodes t)) < fuel)%nat →
  (∃ st' t' sz',
     subscript_assign comp T_default fuel this k v st = Ok tt st' ∧
     map_at st' this t' sz' ∧ bst comp t' ∧
     at_value comp fuel this k st' = Ok v st' ∧
     (∀ k', ¬ equiv_key comp k k' →
        (∃ v', at_value comp fuel this k' st = Ok v' st ∧
               at_value comp fuel this k' st' = Ok v' st') ∨
        (at_value comp fuel this k' st = Throw index_out_of_bound st ∧
         at_value comp fuel this k' st' = Throw index_out_of_bound st')) ∧
     ((∃ l kv, (l, kv) ∈ nodes t ∧ equiv_key comp k kv.1) → sz' = sz ∧
        at_assign comp fuel this k v st = Ok tt st') ∧
     (absent comp k t → sz' = wrap (sz + 1) ∧
        length (nodes t') = S (length (nodes t)))) ∧
  (absent comp k t →
   at_assign comp fuel this k v st = Throw index_out_of_bound st).
Proof.
  intros Hm Hbst Hrb Hf. pose proof (height_le_size t) as Hh.
  split.
  2:{ intros Habs. unfold at_assign, bind.
      by rewrite (at_spec comp fuel st this t sz k Hm ltac:(lia)),
         (absent_lookup comp k t Habs). }
  assert (∀ st1 t1 sz1 C l c k0 v0 a b P Q,
    map_at st1 this t1 sz1 → t1 = plug C (Nd l c (k0, v0) a b) →
    nodes t1 = P ++ (l, (k0, v0)) :: Q →
    (nodes t = P ++ Q ∨ ∃ w, nodes t = P ++ (l, (k0, w)) :: Q) →
    bst comp t1 → equiv_key comp k k0 → (length (nodes t1) < fuel)%nat →
    ∃ st' t',
      set_value (Some l) v st1 = Ok tt st' ∧
      map_at st' this t' sz1 ∧ bst comp t' ∧ length (nodes t') = length (nodes t1) ∧
      at_value comp fuel this k st' = Ok v st' ∧
      (∀ k', ¬ equiv_key comp k k' →
        (∃ v', at_value comp fuel this k' st = Ok v' st ∧
               at_value comp fuel this k' st' = Ok v' st') ∨
        (at_value comp fuel this k' st = Throw index_out_of_bound st ∧
         at_value comp fuel this k' st' = Throw index_out_of_bound st'))) as Hset.
  { intros st1 t1 sz1 C l c k0 v0 a b P Q Hm1 -> Hn1 Hn Hbst1 Hk Hf1.
    destruct (set_value_spec st1 this C l c (k0, v0) a b sz1 v Hm1) as (st' & E & Hm').
    cbn [fst] in Hm'.
    assert (nodes (plug C (Nd l c (k0, v) a b)) = P ++ (l, (k0, v)) :: Q) as Hn'.
    { assert (NoDup ((ctx_before C ++ nodes a) ++ (l, (k0, v0)) :: nodes b ++ ctx_after C).*1)
        as HND.
      { rewrite <- (nodes_plug_split C l c (k0, v0) a b). by eapply map_at_nodup_nodes. }
      rewrite nodes_plug_split in Hn1 |- *.
      by destruct (nodup_split_unique _ _ _ _ (l, (k0, v0)) (l, (k0, v0)) HND eq_refl Hn1)
        as (-> & -> & _). }
    assert (keys (plug C (Nd l c (k0, v) a b)) = keys (plug C (Nd l c (k0, v0) a b))) as Hks.
    { unfold keys, entries. rewrite Hn', Hn1, !fmap_app. done. }
    assert (bst comp (plug C (Nd l c (k0, v) a b))) as Hbst' by (unfold bst; by rewrite Hks).
    assert (height (plug C (Nd l c (k0, v) a b)) < fuel)%nat as Hf'.
    { pose proof (height_le_size (plug C (Nd l c (k0, v) a b))) as H.
      rewrite Hn' in H. rewrite Hn1 in Hf1. rewrite !length_app in H, Hf1.
      cbn [length] in H, Hf1. lia. }
    exists st', (plug C (Nd l c (k0, v) a b)). split_and!; [done|done|done| | |].
    - rewrite Hn', Hn1, !length_app. done.
    - apply (at_value_present st' this _ sz1 k l (k0, v) Hm' Hbst' Hf'); [|done].
      rewrite Hn'. set_solver.
    - intros k' Hne.
      apply (at_value_agree st st' this this t _ sz sz1 k' Hm Hm' Hbst Hbst' ltac:(lia) Hf').
      intros kv He. rewrite Hn'. by eapply entries_off_key. }
  unfold subscript_assign.
  destruct (present_or_absent k t Hbst) as [(l & [k0 v0] & Hin & He & _)|[Habs _]].
  - pose proof (subscript_present_spec comp T_default fuel comp_swo st this t sz k l (k0, v0)
                  Hm Hbst ltac:(lia) Hin He) as Es.
    rewrite (bind_ok _ _ _ _ _ Es).
    destruct (nodes_split t l (k0, v0)) as (C & c & a & b & Ht); [by destruct Hm as (? & ? & ? & ? & ? & ?)|done|].
    destruct (Hset st t sz C l c k0 v0 a b (ctx_before C ++ nodes a) (nodes b ++ ctx_after C))
      as (st' & t' & E & Hm' & Hbst' & Hlen' & Hv & Hothers);
      [done|done|by rewrite Ht, nodes_plug_split| |done|done|lia|].
    { right. exists v0. by rewrite Ht, nodes_plug_split. }
    exists st', t', sz. split_and!; [done|done|done|done|done| |].
    + intros _. split; [done|].
      pose proof (at_spec comp fuel st this t sz k Hm ltac:(lia)) as Ea.
      rewrite (present_lookup comp comp_swo k t l (k0, v0) Hbst Hin He) in Ea.
      unfold at_assign. by rewrite (bind_ok _ _ _ _ _ Ea).
    + intros Habs. by destruct (Habs l (k0, v0) Hin).
  - destruct (subscript_absent_spec comp T_default fuel comp_swo st this t sz k Hm Hbst Hrb
                (absent_lookup comp k t Habs) ltac:(lia)) as
      (st1 & t1 & z & l1 & l2 & Es & Hm1 & Hbst1 & Hrb1 & Hn & Hn1 & _).
    rewrite (bind_ok _ _ _ _ _ Es).
    assert (length (nodes t1) = S (length (nodes t))) as Hlen1.
    { rewrite Hn, Hn1, !length_app. simpl. lia. }
    pose proof (height_le_size t1) as Hh1.
    destruct (nodes_split t1 z (k, T_default)) as (C & c & a & b & Ht1).
    { by destruct Hm1 as (? & ? & ? & ? & ? & ?). }
    { rewrite Hn1. set_solver. }
    destruct (Hset st1 t1 (wrap (sz + 1)) C z c k T_default a b l1 l2)
      as (st' & t' & E & Hm' & Hbst' & Hlen' & Hv & Hothers);
      [done|done|done|by left|done|by apply (equiv_key_refl comp comp_swo)|lia|].
    exists st', t', (wrap (sz + 1)). split_and!; [done|done|done|done|done| |].
    + intros (l & kv & Hin & He). by destruct (Habs l kv Hin).
    + intros _. split; [done|lia].
Qed.

End More.
(** * The exceptions of the interface *)

Section ReadOnly.

Context {Key T : Type}.
Implicit Types (st : state Key T) (p q : ptr).

Lemma ro_ret {A} (a : A) : read_only (ret (S := state Key T) a).
Proof. intros s a' s'. unfold ret. by intros [= _ <-]. Qed.

Lemma ro_throw {A} e : read_only (throw (S := state Key T) (A := A) e).
Proof. by intros s a s'. Qed.

Lemma ro_fault {A} : read_only (fault (S := state Key T) (A := A)).
Proof. by intros s a s'. Qed.

Lemma ro_out_of_fuel {A} : read_only (out_of_fuel (S := state Key T) (A := A)).
Proof. by intros s a s'. Qed.

Lemma ro_bind {A B} (m : M (state Key T) A) (k : A → M (state Key T) B) :
  read_only m → (∀ a, read_only (k a)) → read_only (bind m k).
Proof.
  intros Hm Hk s b s'. unfold bind. destruct (m s) as [a s1|e1 s1| |] eqn:E; try done.
  apply Hm in E as ->. apply Hk.
Qed.

Lemma ro_load p : read_only (load (Key := Key) (T := T) p).
Proof.
  intros s a s'. unfold load. destruct p; [|done].
  destruct (heap s !! l); [|done]. by intros [= _ <-].
Qed.

Lemma ro_load_map this : read_only (load_map (Key := Key) (T := T) this).
Proof.
  intros s a s'. unfold load_map. destruct (objs s !! this); [|done]. by intros [= _ <-].
Qed.

Lemma to_throw {A} x : throws_only x (throw (S := state Key T) (A := A) x).
Proof. intros s e s'. unfold throw. by intros [= <- <-]. Qed.

Lemma to_no_throw {A} x (m : M (state Key T) A) : no_throw m → throws_only x m.
Proof. intros Hm s e s' E. by apply Hm in E. Qed.

(** After reads that raise nothing, an exception is raised in the memory
    the reads started in. *)
Lemma to_bind {A B} x (m : M (state Key T) A) (k : A → M (state Key T) B) :
  no_throw m → read_only m → (∀ a, throws_only x (k a)) → throws_only x (bind m k).
Proof.
  intros Hn Hm Hk s e s'. unfold bind. destruct (m s) as [a s1|e1 s1| |] eqn:E; try done.
  - apply Hm in E as ->. apply Hk.
  - by apply Hn in E.
Qed.

End ReadOnly.

Ltac ro_step :=
  first
    [ apply ro_ret | apply ro_throw | apply ro_fault | apply ro_out_of_fuel
    | apply ro_load | apply ro_load_map
    | assumption
    | apply ro_bind; [|intros ?]
    | lazymatch goal with
      | |- read_only (match ?x with _ => _ end) => destruct x
      end
    | progress unfold get_left, get_right, get_parent, get_color, get_key,
        get_root, get_size, is_red, is_black ].

Ltac ro := repeat ro_step.

Section Exceptions.

Context {Key T : Type}.
Variable comp : Key → Key → bool.
Variable T_default : T.
Variable fuel : nat.

Implicit Types (st : state Key T) (p q x : ptr).

Lemma nt_findNode_loop n k x : no_throw (findNode_loop (T := T) comp n k x).
Proof. revert x. induction n as [|n IH]; intros x; cbn [findNode_loop]; nt; apply IH. Qed.

Lemma ro_findNode_loop n k x : read_only (findNode_loop (T := T) comp n k x).
Proof. revert x. induction n as [|n IH]; intros x; cbn [findNode_loop]; ro; apply IH. Qed.

Lemma nt_findNode this k : no_throw (findNode (T := T) comp fuel this k).
Proof. unfold findNode. nt. apply nt_findNode_loop. Qed.

Lemma ro_findNode this k : read_only (findNode (T := T) comp fuel this k).
Proof. unfold findNode. ro. apply ro_findNode_loop. Qed.

Lemma ro_minimum_loop n x : read_only (minimum_loop (Key := Key) (T := T) n x).
Proof. revert x. induction n as [|n IH]; intros x; cbn [minimum_loop]; ro. apply IH. Qed.

Lemma nt_maximum_loop n x : no_throw (maximum_loop (Key := Key) (T := T) n x).
Proof. revert x. induction n as [|n IH]; intros x; cbn [maximum_loop]; nt. apply IH. Qed.

Lemma ro_maximum_loop n x : read_only (maximum_loop (Key := Key) (T := T) n x).
Proof. revert x. induction n as [|n IH]; intros x; cbn [maximum_loop]; ro. apply IH. Qed.

Lemma nt_climb_right n p q : no_throw (climb_right (Key := Key) (T := T) n p q).
Proof.
  revert p q. induction n as [|n IH]; intros p q; cbn [climb_right]; nt.
  apply IH.
Qed.

Lemma nt_climb_left n p q : no_throw (climb_left (Key := Key) (T := T) n p q).
Proof.
  revert p q. induction n as [|n IH]; intros p q; cbn [climb_left]; nt.
  apply IH.
Qed.

Lemma ro_climb_left n p q : read_only (climb_left (Key := Key) (T := T) n p q).
Proof.
  revert p q. induction n as [|n IH]; intros p q; cbn [climb_left]; ro.
  apply IH.
Qed.

Lemma nt_insertNode_loop n k p q :
  no_throw (insertNode_loop (T := T) comp n k p q).
Proof.
  revert p q. induction n as [|n IH]; intros p q; cbn [insertNode_loop]; nt; apply IH.
Qed.

Lemma nt_fixInsert_loop this n x :
  no_throw (fixInsert_loop (Key := Key) (T := T) this n x).
Proof.
  revert x. induction n as [|n IH]; intros x; cbn [fixInsert_loop]; [nt|].
  pose proof (nt_leftRotate (Key := Key) (T := T) this) as HL.
  pose proof (nt_rightRotate (Key := Key) (T := T) this) as HR.
  unfold get_grandparent.
  repeat first [ apply IH | apply HL | apply HR | nt_step ].
Qed.

Lemma nt_alloc (n : Node Key T) : no_throw (alloc n).
Proof. by intros s e s'. Qed.

Lemma nt_insertNode this value : no_throw (insertNode (T := T) comp fuel this value).
Proof.
  unfold insertNode, fixInsert, incr_size.
  repeat first [ apply nt_insertNode_loop | apply nt_fixInsert_loop | apply nt_alloc | nt_step ].
Qed.

Lemma nt_destroy_rec n x : no_throw (destroy_rec (Key := Key) (T := T) n x).
Proof.
  revert x. induction n as [|n IH]; intros x; cbn [destroy_rec]; nt; apply IH.
Qed.

Lemma nt_copy_rec n p q : no_throw (copy_rec (Key := Key) (T := T) n p q).
Proof.
  revert p q. induction n as [|n IH]; intros p q; cbn [copy_rec]; [nt|].
  repeat first [ apply IH | apply nt_alloc | nt_step ].
Qed.

Lemma nt_set_objs {A} (a : A) (f : state Key T → state Key T) :
  no_throw (λ st, Ok a (f st)).
Proof. by intros s e s'. Qed.

Lemma nt_getters p :
  no_throw (get_left (Key := Key) (T := T) p) ∧
  no_throw (get_right (Key := Key) (T := T) p) ∧
  no_throw (get_parent (Key := Key) (T := T) p).
Proof. split_and!; nt. Qed.

Lemma nt_container_root c : no_throw (container_root (Key := Key) (T := T) c).
Proof. unfold container_root. nt. Qed.

(** [++] in place steps as [iter_incr] does, and throws before it assigns:
    the iterator is as it was. *)
Lemma iter_incr_obj_spec it st :
  iter_incr_obj fuel (st, it)
  = match iter_incr fuel it st with
    | Ok it' st' => Ok tt (st', it')
    | Throw e st' => Throw e (st', it)
    | Fault => Fault
    | NoFuel => NoFuel
    end.
Proof.
  unfold iter_incr_obj, iter_incr, minimum, bind, get_current, on_memory, set_current,
    throw, ret. cbn [fst snd].
  destruct (current it) as [c|] eqn:Ec; [|done]. cbn [fst snd].
  destruct (get_right (Some c) st) as [r st1|e st1| |] eqn:E1;
    [|by apply (proj1 (proj2 (nt_getters _))) in E1|done|done].
  destruct r as [r|]; cbn [fst snd].
  - destruct (minimum_loop fuel (Some r) st1) as [m st2|e st2| |] eqn:E2;
      [done|by apply nt_minimum_loop in E2|done|done].
  - destruct (get_parent (Some c) st1) as [par st2|e st2| |] eqn:E2;
      [|by apply (proj2 (proj2 (nt_getters _))) in E2|done|done].
    cbn [fst snd].
    destruct (climb_right fuel (Some c) par st2) as [m st3|e st3| |] eqn:E3;
      [done|by apply nt_climb_right in E3|done|done].
Qed.

(** [--] in place steps as [iter_decr] does; when it throws, it has
    assigned a null [current] to the iterator, or found one. *)
Lemma iter_decr_obj_spec it st :
  iter_decr_obj fuel (st, it)
  = match iter_decr fuel it st with
    | Ok it' st' => Ok tt (st', it')
    | Throw e st' => Throw e (st', {| current := None; container := container it |})
    | Fault => Fault
    | NoFuel => NoFuel
    end.
Proof.
  unfold iter_decr_obj, iter_decr, maximum, bind, get_current, get_container, on_memory,
    set_current, throw, ret. cbn [fst snd].
  destruct (current it) as [c|] eqn:Ec; cbn [fst snd].
  - destruct (get_left (Some c) st) as [l st1|e st1| |] eqn:E1;
      [|by apply (proj1 (nt_getters _)) in E1|done|done].
    destruct l as [l|]; cbn [fst snd].
    + destruct (maximum_loop fuel (Some l) st1) as [m st2|e st2| |] eqn:E2;
        [|by apply nt_maximum_loop in E2|done|done].
      cbn [fst snd current container]. by destruct m.
    + destruct (get_parent (Some c) st1) as [par st2|e st2| |] eqn:E2;
        [|by apply (proj2 (proj2 (nt_getters _))) in E2|done|done].
      cbn [fst snd].
      destruct (climb_left fuel (Some c) par st2) as [m st3|e st3| |] eqn:E3;
        [|by apply nt_climb_left in E3|done|done].
      cbn [fst snd current container]. by destruct m.
  - destruct (container_root (container it) st) as [r st1|e st1| |] eqn:E1;
      [|by apply nt_container_root in E1|done|done].
    destruct r as [r|]; cbn [fst snd]; [|by destruct it; simplify_eq/=].
    destruct (container_root (container it) st1) as [r' st2|e st2| |] eqn:E2;
      [|by apply nt_container_root in E2|done|done].
    cbn [fst snd]. destruct r' as [r'|]; cbn [fst snd]; [|done].
    destruct (maximum_loop fuel (Some r') st2) as [m st3|e st3| |] eqn:E3;
      [done|by apply nt_maximum_loop in E3|done|done].
Qed.

Lemma ro_getters p :
  read_only (get_left (Key := Key) (T := T) p) ∧
  read_only (get_parent (Key := Key) (T := T) p).
Proof. split; ro. Qed.

Lemma ro_container_root c : read_only (container_root (Key := Key) (T := T) c).
Proof. unfold container_root. ro. Qed.

(** When [--] throws, the nodes and the map objects are as they were. *)
Lemma iter_decr_throws it st e st' :
  iter_decr fuel it st = Throw e st' → e = invalid_iterator ∧ st' = st.
Proof.
  revert st e st'. change (throws_only invalid_iterator (iter_decr (Key := Key) (T := T) fuel it)).
  unfold iter_decr, maximum.
  destruct (current it) as [c|].
  - apply to_bind; [apply nt_getters|apply ro_getters|]. intros l.
    apply to_bind.
    + destruct l; [apply nt_maximum_loop|].
      apply nt_bind; [apply nt_getters|]. intros ?. apply nt_climb_left.
    + destruct l; [apply ro_maximum_loop|].
      apply ro_bind; [apply ro_getters|]. intros ?. apply ro_climb_left.
    + intros [c'|]; [apply to_no_throw, nt_ret|apply to_throw].
  - apply to_bind; [apply nt_container_root|apply ro_container_root|].
    intros [r|]; [|apply to_throw].
    apply to_no_throw. apply nt_bind; [apply nt_container_root|]. intros [r'|]; [|nt].
    apply nt_bind; [apply nt_maximum_loop|]. intros ?. apply nt_ret.
Qed.

(** X21: which member functions raise which exception. [insert], the
    mutable [operator[]], [find], [count], [begin], [end], [size],
    [empty], [clear], the constructors, the assignment and the destructor
    raise no exception, whatever the memory and the arguments. [at] and
    the const [operator[]] raise [index_out_of_bound] only; [erase], [++],
    [--], [*] and [->] raise [invalid_iterator] only. Each of them raises
    with the nodes and the map objects as they were when the call
    started. The iterator is as it was when [++], [it++], [*] or [->]
    raises; when [--] or [it--] raises, the iterator it was called on has
    a null [current], whatever it had before: it has become a
    past-the-end iterator of its container. *)
Theorem exceptions_raised (this other : addr) (it : iterator) (k : Key) (value : Key * T) :
  (no_throw (insert comp fuel this value) ∧
   no_throw (subscript comp T_default fuel this k) ∧
   no_throw (find (T := T) comp fuel this k) ∧
   no_throw (count (T := T) comp fuel this k) ∧
   no_throw (begin_ (Key := Key) (T := T) fuel this) ∧
   no_throw (end_ (Key := Key) (T := T) this) ∧
   no_throw (size (Key := Key) (T := T) this) ∧
   no_throw (empty (Key := Key) (T := T) this) ∧
   no_throw (clear (Key := Key) (T := T) fuel this) ∧
   no_throw (map_ctor (Key := Key) (T := T) this) ∧
   no_throw (map_copy_ctor (Key := Key) (T := T) fuel this other) ∧
   no_throw (map_assign (Key := Key) (T := T) fuel this other) ∧
   no_throw (map_dtor (Key := Key) (T := T) fuel this)) ∧
  (throws_only index_out_of_bound (at_ (T := T) comp fuel this k) ∧
   throws_only index_out_of_bound (subscript_const (T := T) comp fuel this k)) ∧
  (throws_only invalid_iterator (erase (Key := Key) (T := T) fuel this it) ∧
   throws_only invalid_iterator (iter_deref (Key := Key) (T := T) it) ∧
   throws_only invalid_iterator (iter_arrow (Key := Key) (T := T) it)) ∧
  (throws_only invalid_iterator (iter_incr_obj (Key := Key) (T := T) fuel) ∧
   throws_only invalid_iterator (iter_post_incr_obj (Key := Key) (T := T) fuel)) ∧
  (∀ (st : state Key T) e s',
     iter_decr_obj fuel (st, it) = Throw e s' ∨
     iter_post_decr_obj fuel (st, it) = Throw e s' →
     e = invalid_iterator ∧
     s' = (st, {| current := None; container := container it |})).
Proof.
  assert (throws_only index_out_of_bound (at_ (T := T) comp fuel this k)) as Hat.
  { unfold at_. apply to_bind; [apply nt_findNode|apply ro_findNode|].
    intros [l|]; [apply to_no_throw, nt_ret|apply to_throw]. }
  assert (throws_only invalid_iterator (iter_incr_obj (Key := Key) (T := T) fuel)) as Hincr.
  { intros [st it0] e s'. rewrite iter_incr_obj_spec. unfold iter_incr, minimum.
    destruct (current it0) as [c|] eqn:Ec.
    - assert (no_throw (let* r := get_right (Key := Key) (T := T) (Some c) in
                        match r with
                        | Some _ =>
                            let* m := minimum_loop fuel r in
                            ret {| current := m; container := container it0 |}
                        | None =>
                            let* par := get_parent (Some c) in
                            let* c0 := climb_right fuel (Some c) par in
                            ret {| current := c0; container := container it0 |}
                        end)) as Hnt.
      { repeat first [ apply nt_minimum_loop | apply nt_climb_right | nt_step ]. }
      specialize (Hnt st).
      destruct (bind _ _ st) as [it' st'|e' st'| |]; try done. by destruct (Hnt e' st').
    - unfold throw. by intros [= <- <-]. }
  assert (∀ (st : state Key T) e s',
            iter_decr_obj fuel (st, it) = Throw e s' →
            e = invalid_iterator ∧
            s' = (st, {| current := None; container := container it |})) as Hdecr.
  { intros st e s'. rewrite iter_decr_obj_spec.
    destruct (iter_decr fuel it st) as [it' st'|e' st'| |] eqn:E; try done.
    intros [= <- <-]. by destruct (iter_decr_throws _ _ _ _ E) as [-> ->]. }
  split_and!.
  - unfold insert. apply nt_bind; [apply nt_findNode|]. intros [l|]; [apply nt_ret|].
    apply nt_bind; [apply nt_insertNode|]. intros ?. apply nt_ret.
  - unfold subscript. apply nt_bind; [apply nt_findNode|].
    intros [l|]; [apply nt_ret|apply nt_insertNode].
  - unfold find, end_. apply nt_bind; [apply nt_findNode|]. intros [l|]; apply nt_ret.
  - unfold count. apply nt_bind; [apply nt_findNode|]. intros [l|]; apply nt_ret.
  - unfold begin_, minimum. repeat first [ apply nt_minimum_loop | nt_step ].
  - apply nt_ret.
  - unfold size. nt.
  - unfold empty. nt.
  - unfold clear, destroy. repeat first [ apply nt_destroy_rec | nt_step ].
  - by intros s e s'.
  - unfold map_copy_ctor, copy.
    repeat first [ apply nt_copy_rec | apply nt_set_objs | nt_step ].
  - unfold map_assign, destroy, copy. destruct (bool_decide _); [apply nt_ret|].
    repeat first [ apply nt_copy_rec | apply nt_destroy_rec | nt_step ].
  - unfold map_dtor, destroy.
    repeat first [ apply nt_destroy_rec | apply nt_set_objs | nt_step ].
  - exact Hat.
  - exact Hat.
  - unfold erase. destruct (_ || _); [apply to_throw|apply to_no_throw, nt_deleteNode].
  - unfold iter_deref. destruct (current it); [apply to_no_throw, nt_ret|apply to_throw].
  - unfold iter_arrow. destruct (current it); [apply to_no_throw, nt_ret|apply to_throw].
  - exact Hincr.
  - intros [st it0] e s'. unfold iter_post_incr_obj, bind, get_self, ret. cbn [snd].
    destruct (iter_incr_obj fuel (st, it0)) as [[] s1|e1 s1| |] eqn:E; try done.
    intros [= <- <-]. by apply Hincr.
  - intros st e s' [E|E]; [by apply Hdecr|].
    revert E. unfold iter_post_decr_obj, bind, get_self, ret. cbn [snd].
    destruct (iter_decr_obj fuel (st, it)) as [[] s1|e1 s1| |] eqn:E; try done.
    intros [= <- <-]. by apply Hdecr.
Qed.

End Exceptions.
(** * What a map leaves alone

    The member functions follow pointers that they read from the map
    object and from nodes they reached before, and write through such
    pointers only. As long as no pointer of the map leads outside of it,
    the rest of the memory is never written. *)

Section Frame.

Context {Key T : Type}.
Variable Fl : loc → Prop.
Variable st0 : state Key T.
Variable this : addr.

Implicit Types (st : state Key T) (p q x y z : ptr) (n : Node Key T).

Lemma safe_ret {A} `{Okv A} (a : A) : okv Fl a → safe Fl st0 this (ret a).
Proof. by intros Ha st HI. Qed.

Lemma safe_throw {A} `{Okv A} e : safe Fl st0 this (throw (A := A) e).
Proof. by intros st HI. Qed.

Lemma safe_fault {A} `{Okv A} : safe Fl st0 this (fault (A := A)).
Proof. by intros st HI. Qed.

Lemma safe_out_of_fuel {A} `{Okv A} : safe Fl st0 this (out_of_fuel (A := A)).
Proof. by intros st HI. Qed.

Lemma safe_bind {A B} `{Okv A} `{Okv B} (m : M (state Key T) A) (k : A → M (state Key T) B) :
  safe Fl st0 this m → (∀ a, okv Fl a → safe Fl st0 this (k a)) →
  safe Fl st0 this (bind m k).
Proof.
  intros Hm Hk st HI. unfold bind. specialize (Hm st HI).
  destruct (m st) as [a st1|e st1| |]; try done. destruct Hm as [HI1 Ha]. by apply Hk.
Qed.

Lemma safe_load p : okv Fl p → safe Fl st0 this (load p).
Proof.
  intros Hp st HI. unfold load. destruct p as [l|]; [|done].
  destruct (heap st !! l) as [n|] eqn:E; [|done]. split; [done|].
  by apply (proj1 HI l n).
Qed.

Lemma safe_modify p (f : Node Key T → Node Key T) :
  okv Fl p → (∀ n, okv Fl n → okv Fl (f n)) → safe Fl st0 this (modify p f).
Proof.
  intros Hp Hf st (H1 & H2 & H3 & H4). unfold modify. destruct p as [l|]; [|done].
  destruct (heap st !! l) as [n|] eqn:E; [|done]. split; [|done].
  split_and!; cbn [heap objs set_heap]; [| done | | done].
  - intros l' n'. destruct (decide (l' = l)) as [->|Hne].
    + rewrite lookup_insert_eq. intros [= <-] _. apply Hf. by apply (H1 l n).
    + rewrite lookup_insert_ne by done. apply H1.
  - intros l' Hl'. destruct (H3 l' Hl') as [Hlive Heq]. split; [done|].
    rewrite lookup_insert_ne; [done|]. intros ->. by apply Hp.
Qed.

Lemma safe_get_left p : okv Fl p → safe Fl st0 this (get_left p).
Proof.
  intros Hp. unfold get_left. apply safe_bind; [by apply safe_load|].
  intros n (Hl & Hr & Hpa). by apply safe_ret.
Qed.

Lemma safe_get_right p : okv Fl p → safe Fl st0 this (get_right p).
Proof.
  intros Hp. unfold get_right. apply safe_bind; [by apply safe_load|].
  intros n (Hl & Hr & Hpa). by apply safe_ret.
Qed.

Lemma safe_get_parent p : okv Fl p → safe Fl st0 this (get_parent p).
Proof.
  intros Hp. unfold get_parent. apply safe_bind; [by apply safe_load|].
  intros n (Hl & Hr & Hpa). by apply safe_ret.
Qed.

Lemma safe_get_color p : okv Fl p → safe Fl st0 this (get_color p).
Proof.
  intros Hp. unfold get_color. apply safe_bind; [by apply safe_load|].
  intros n _. by apply safe_ret.
Qed.

Lemma safe_get_key p : okv Fl p → safe Fl st0 this (get_key p).
Proof.
  intros Hp. unfold get_key. apply safe_bind; [by apply safe_load|].
  intros n _. by apply safe_ret.
Qed.

Lemma safe_set_left p q : okv Fl p → okv Fl q → safe Fl st0 this (set_left p q).
Proof. intros Hp Hq. apply safe_modify; [done|]. by intros n (Hl & Hr & Hpa). Qed.

Lemma safe_set_right p q : okv Fl p → okv Fl q → safe Fl st0 this (set_right p q).
Proof. intros Hp Hq. apply safe_modify; [done|]. by intros n (Hl & Hr & Hpa). Qed.

Lemma safe_set_parent p q : okv Fl p → okv Fl q → safe Fl st0 this (set_parent p q).
Proof. intros Hp Hq. apply safe_modify; [done|]. by intros n (Hl & Hr & Hpa). Qed.

Lemma safe_set_color p c : okv Fl p → safe Fl st0 this (set_color p c).
Proof. intros Hp. apply safe_modify; [done|]. by intros n (Hl & Hr & Hpa). Qed.

Lemma safe_set_value p (v : T) : okv Fl p → safe Fl st0 this (set_value p v).
Proof. intros Hp. apply safe_modify; [done|]. by intros n (Hl & Hr & Hpa). Qed.

Lemma safe_get_root : safe Fl st0 this (get_root (Key := Key) (T := T) this).
Proof.
  intros st HI. unfold get_root, load_map, bind, ret.
  destruct (objs st !! this) as [o|] eqn:E; [|done]. split; [done|].
  by apply (proj1 (proj2 HI) o).
Qed.

Lemma safe_get_size : safe Fl st0 this (get_size (Key := Key) (T := T) this).
Proof.
  intros st HI. unfold get_size, load_map, bind, ret.
  by destruct (objs st !! this) as [o|] eqn:E.
Qed.

Lemma safe_modify_map (f : map_obj → map_obj) :
  (∀ o, okv Fl (root o) → okv Fl (root (f o))) →
  safe Fl st0 this (modify_map (Key := Key) (T := T) this f).
Proof.
  intros Hf st (H1 & H2 & H3 & H4). unfold modify_map.
  destruct (objs st !! this) as [o|] eqn:E; [|done]. split; [|done].
  split_and!; cbn [heap objs set_objs]; [done| |done|].
  - intros o'. rewrite lookup_insert_eq. intros [= <-]. apply Hf. by apply H2.
  - intros a Ha. rewrite lookup_insert_ne by done. by apply H4.
Qed.

Lemma safe_set_root q : okv Fl q → safe Fl st0 this (set_root (Key := Key) (T := T) this q).
Proof. intros Hq. by apply safe_modify_map. Qed.

Lemma safe_set_size s : safe Fl st0 this (set_size (Key := Key) (T := T) this s).
Proof. by apply safe_modify_map. Qed.

(** A new node is at a location that was not in use. *)
Lemma safe_alloc n : okv Fl n → safe Fl st0 this (alloc n).
Proof.
  intros Hn st (H1 & H2 & H3 & H4). unfold alloc.
  assert (heap st !! fresh (dom (heap st)) = None) as Hfr.
  { apply not_elem_of_dom. apply is_fresh. }
  assert (¬ Fl (fresh (dom (heap st)))) as Hout.
  { intros HF. destruct (H3 _ HF) as [[n' Hlive] Heq]. congruence. }
  split; [|done]. split_and!; cbn [heap objs set_heap]; [|done| |done].
  - intros l' n'. destruct (decide (l' = fresh (dom (heap st)))) as [->|Hne].
    + rewrite lookup_insert_eq. by intros [= <-] _.
    + rewrite lookup_insert_ne by done. apply H1.
  - intros l' Hl'. destruct (H3 l' Hl') as [Hlive Heq]. split; [done|].
    rewrite lookup_insert_ne; [done|]. by intros <-.
Qed.

Lemma safe_free p : okv Fl p → safe Fl st0 this (free p).
Proof.
  intros Hp st (H1 & H2 & H3 & H4). unfold free. destruct p as [l|]; [|done].
  destruct (heap st !! l) as [n|] eqn:E; [|done]. split; [|done].
  split_and!; cbn [heap objs set_heap]; [|done| |done].
  - intros l' n'. destruct (decide (l' = l)) as [->|Hne].
    + by rewrite lookup_delete_eq.
    + rewrite lookup_delete_ne by done. apply H1.
  - intros l' Hl'. destruct (H3 l' Hl') as [Hlive Heq]. split; [done|].
    rewrite lookup_delete_ne; [done|]. intros ->. by apply Hp.
Qed.

Ltac sf_ok :=
  lazymatch goal with
  | |- okv _ _ => solve [ repeat first [ assumption | exact I | split ] ]
  end.

Ltac sf_step :=
  first
    [ sf_ok
    | assumption
    | apply safe_fault | apply safe_out_of_fuel | apply safe_throw
    | apply safe_ret
    | apply safe_get_left | apply safe_get_right | apply safe_get_parent
    | apply safe_get_color | apply safe_get_key
    | apply safe_set_left | apply safe_set_right | apply safe_set_parent
    | apply safe_set_color | apply safe_set_value
    | apply safe_get_root | apply safe_set_root
    | apply safe_get_size | apply safe_set_size
    | apply safe_alloc | apply safe_free
    | apply safe_bind; [|intros ? ?]
    | lazymatch goal with
      | |- safe _ _ _ (match ?x with _ => _ end) => destruct x
      end
    | progress cbv zeta
    | progress unfold is_red, is_black, get_grandparent ].

Ltac sf := repeat sf_step.

Lemma safe_leftRotate x : okv Fl x → safe Fl st0 this (leftRotate this x).
Proof. intros Hx. unfold leftRotate. sf. Qed.

Lemma safe_rightRotate x : okv Fl x → safe Fl st0 this (rightRotate this x).
Proof. intros Hx. unfold rightRotate. sf. Qed.

Lemma safe_transplant x y : okv Fl x → okv Fl y → safe Fl st0 this (transplant this x y).
Proof. intros Hx Hy. unfold transplant. sf. Qed.

Lemma safe_minimum_loop m : ∀ x,
  okv Fl x → safe Fl st0 this (minimum_loop (Key := Key) (T := T) m x).
Proof. induction m as [|m IH]; intros x Hx; cbn [minimum_loop]; sf. by apply IH. Qed.

Lemma safe_fixInsert_loop m : ∀ z,
  okv Fl z → safe Fl st0 this (fixInsert_loop this m z).
Proof.
  induction m as [|m IH]; intros z Hz; cbn [fixInsert_loop]; [sf|].
  repeat first
    [ apply IH | apply safe_leftRotate | apply safe_rightRotate | sf_step ].
Qed.

Lemma safe_fixDelete_loop m : ∀ x,
  okv Fl x → safe Fl st0 this (fixDelete_loop this m x).
Proof.
  induction m as [|m IH]; intros x Hx; cbn [fixDelete_loop]; [sf|].
  repeat first
    [ apply IH | apply safe_leftRotate | apply safe_rightRotate | sf_step ].
Qed.

Section Calls.

Variable comp : Key → Key → bool.
Variable T_default : T.
Variable fuel : nat.

Lemma safe_findNode_loop m k : ∀ x,
  okv Fl x → safe Fl st0 this (findNode_loop (T := T) comp m k x).
Proof.
  induction m as [|m IH]; intros x Hx; cbn [findNode_loop]; sf; by apply IH.
Qed.

Lemma safe_findNode k : safe Fl st0 this (findNode (T := T) comp fuel this k).
Proof. unfold findNode. sf. by apply safe_findNode_loop. Qed.

Lemma safe_insertNode_loop m k : ∀ y x,
  okv Fl y → okv Fl x → safe Fl st0 this (insertNode_loop (T := T) comp m k y x).
Proof.
  induction m as [|m IH]; intros y x Hy Hx; cbn [insertNode_loop]; sf; by apply IH.
Qed.

Lemma safe_insertNode value : safe Fl st0 this (insertNode comp fuel this value).
Proof.
  unfold insertNode, fixInsert, incr_size.
  repeat first
    [ apply safe_insertNode_loop | apply safe_fixInsert_loop | sf_step ].
Qed.

Lemma safe_deleteNode_unlink z :
  okv Fl z → safe Fl st0 this (deleteNode_unlink fuel this z).
Proof.
  intros Hz. unfold deleteNode_unlink, minimum.
  repeat first [ apply safe_transplant | apply safe_minimum_loop | sf_step ].
Qed.

Lemma safe_deleteNode z : okv Fl z → safe Fl st0 this (deleteNode fuel this z).
Proof.
  intros Hz. unfold deleteNode, fixDelete, decr_size. destruct z as [l|]; [|sf].
  apply safe_bind; [by apply safe_deleteNode_unlink|]. intros yx [Hc Hx].
  repeat first [ apply safe_fixDelete_loop | sf_step ].
Qed.

Lemma safe_insert value : safe Fl st0 this (insert comp fuel this value).
Proof.
  unfold insert. apply safe_bind; [apply safe_findNode|]. intros node Hnode.
  destruct node as [l|]; [by apply safe_ret|].
  apply safe_bind; [apply safe_insertNode|]. intros z Hz. by apply safe_ret.
Qed.

Lemma safe_subscript k : safe Fl st0 this (subscript comp T_default fuel this k).
Proof.
  unfold subscript. apply safe_bind; [apply safe_findNode|]. intros node Hnode.
  destruct node as [l|]; [by apply safe_ret|]. apply safe_insertNode.
Qed.

Lemma safe_find k : safe Fl st0 this (find (T := T) comp fuel this k).
Proof.
  unfold find, end_. apply safe_bind; [apply safe_findNode|]. intros node Hnode.
  destruct node as [l|]; by apply safe_ret.
Qed.

Lemma safe_erase (pos : iterator) :
  okv Fl pos → safe Fl st0 this (erase (Key := Key) (T := T) fuel this pos).
Proof.
  intros Hpos. unfold erase. destruct (_ || _); [apply safe_throw|].
  by apply safe_deleteNode.
Qed.

Lemma safe_run_ops os : safe Fl st0 this (run_ops comp T_default fuel this os).
Proof.
  induction os as [|o os IH]; cbn [run_ops]; [by apply safe_ret|].
  apply safe_bind; [|by intros].
  destruct o as [k v|k|k]; cbn [run_op].
  - apply safe_bind; [apply safe_insert|]. intros. by apply safe_ret.
  - apply safe_bind; [apply safe_find|]. intros it Hit. by apply safe_erase.
  - apply safe_bind; [apply safe_subscript|]. intros. by apply safe_ret.
Qed.

End Calls.

End Frame.

Section Independence.

Context {Key T : Type}.
Variable comp : Key → Key → bool.
Variable T_default : T.
Variable fuel : nat.

Implicit Types (h : gmap loc (Node Key T)) (st : state Key T) (t s : tree Key T).

(** The pointers of the nodes of a tree lead to nodes of the tree. *)
Lemma Rep_closed h par t l n :
  Rep h par t → h !! l = Some n → l ∈ locs t →
  (∀ l', left n = Some l' → l' ∈ locs t) ∧
  (∀ l', right n = Some l' → l' ∈ locs t) ∧
  (∀ l', parent n = Some l' → Some l' = par ∨ l' ∈ locs t).
Proof.
  revert par. induction t as [|l0 c kv a IHa b IHb]; intros par HR Hn Hin.
  { by apply elem_of_nil in Hin. }
  destruct HR as (H0 & Ha & Hb). rewrite locs_Nd in *.
  apply elem_of_app in Hin as [Hin|Hin]; [|apply elem_of_cons in Hin as [->|Hin]].
  - destruct (IHa _ Ha Hn Hin) as (H1 & H2 & H3). split_and!.
    + intros l' E. apply H1 in E. set_solver.
    + intros l' E. apply H2 in E. set_solver.
    + intros l' E. apply H3 in E as [[= ->]|E]; right; set_solver.
  - rewrite H0 in Hn. injection Hn as <-. cbn [left right parent]. split_and!.
    + intros l' E. apply ptr_of_locs in E. set_solver.
    + intros l' E. apply ptr_of_locs in E. set_solver.
    + intros l' E. left. by rewrite E.
  - destruct (IHb _ Hb Hn Hin) as (H1 & H2 & H3). split_and!.
    + intros l' E. apply H1 in E. set_solver.
    + intros l' E. apply H2 in E. set_solver.
    + intros l' E. apply H3 in E as [[= ->]|E]; right; set_solver.
Qed.

(** X22: calls on one map leave the rest of the memory alone. Through any
    sequence of calls of [insert], [erase] on the result of [find], and
    [operator[]] on a map, every location that was in use and did not hold
    a node of the map keeps its content, and every other map, whose nodes
    are not nodes of this one, keeps its tree and its size: maps do not
    share nodes, and a copy is independent of its source. *)
Theorem calls_leave_other_maps st this t sz os :
  map_at st this t sz →
  post (run_ops comp T_default fuel this os st)
    (λ _ st',
       (∀ l, is_Some (heap st !! l) → l ∉ locs t → heap st' !! l = heap st !! l) ∧
       (∀ other t2 sz2, other ≠ this → map_at st other t2 sz2 →
          ldisj (locs t) (locs t2) → map_at st' other t2 sz2)).
Proof.
  intros Hm. pose proof Hm as (o & Ho & Hr & Hsz & HR & HN).
  set (Fl := λ l : loc, is_Some (heap st !! l) ∧ l ∉ locs t).
  assert (keeps_out Fl st this st) as HI.
  { split_and!; [| |by intros l [? ?]|done].
    - intros l n Hn Hout.
      assert (l ∈ locs t) as Hin.
      { destruct (decide (l ∈ locs t)); [done|]. destruct Hout. split; [by eexists|done]. }
      destruct (Rep_closed _ _ _ _ _ HR Hn Hin) as (H1 & H2 & H3).
      split_and!.
      + destruct (left n) as [l'|]; [|done]. intros [_ Hl']. apply Hl'. by apply H1.
      + destruct (right n) as [l'|]; [|done]. intros [_ Hl']. apply Hl'. by apply H2.
      + destruct (parent n) as [l'|]; [|done]. intros [_ Hl']. apply Hl'.
        by destruct (H3 l' eq_refl).
    - intros o' Ho'. rewrite Ho in Ho'. injection Ho' as <-. rewrite Hr.
      destruct t as [|l c kv a b]; [done|]. intros [_ Hl]. apply Hl.
      rewrite locs_Nd. set_solver. }
  pose proof (safe_run_ops Fl st this comp T_default fuel os st HI) as Hsafe.
  destruct (run_ops comp T_default fuel this os st) as [[] st'| | |]; try done.
  destruct Hsafe as [(H1 & H2 & H3 & H4) _]. split.
  - intros l Hlive Hout. by apply H3.
  - intros other t2 sz2 Hne Hm2 Hdis. eapply map_at_frame; [exact Hm2|by apply H4|].
    intros l Hl. apply H3. split.
    + destruct Hm2 as (o2 & _ & _ & _ & HR2 & _). by eapply Rep_lookup.
    + intros Hl'. by apply (Hdis l).
Qed.

End Independence.
(** * The properties on concrete maps *)

Lemma Zltb_swo : strict_weak_order Z.ltb.
Proof.
  split; unfold lt, equiv_key.
  - intros a. apply Z.ltb_irrefl.
  - intros a b c. rewrite !Z.ltb_lt. lia.
  - intros a b c. rewrite !Z.ltb_ge. lia.
Qed.

Ltac ex_map_at :=
  eexists; split_and!;
    [ vm_compute; reflexivity | vm_compute; reflexivity | vm_compute; reflexivity
    | vm_compute; repeat split; reflexivity
    | apply (bool_decide_unpack _); vm_compute; exact I ].

Lemma ex_st3_map : map_at ex_st3 ex_map ex_t3 3.
Proof. ex_map_at. Qed.

Lemma ex_st_two_map : map_at ex_st_two ex_map ex_t3 3.
Proof. ex_map_at. Qed.

Lemma ex_st_two_map2 : map_at ex_st_two ex_map2 ex_t_two 1.
Proof. ex_map_at. Qed.

Lemma ex_st4_map : map_at ex_st4 ex_map ex_t4 4.
Proof. ex_map_at. Qed.

Lemma ex_st4_erased_map : map_at ex_st4_erased ex_map ex_t4_erased 3.
Proof. ex_map_at. Qed.

Ltac ex_sorted := unfold bst, ascending; vm_compute; repeat constructor.

Lemma ex_t3_bst : bst Z.ltb ex_t3.
Proof. ex_sorted. Qed.

Lemma ex_t4_erased_bst : bst Z.ltb ex_t4_erased.
Proof. ex_sorted. Qed.

(** C1: the insertion of 1, 2, 3 and 4 into a new map followed by the
    erasure of 1 returns and leaves a search tree in which the path from
    the root to its left null reference holds one black node and the paths
    through its right child two; and there is a sequence of insertions and
    erasures after which an erasure dereferences a null pointer. *)
Theorem insert_erase_breaks_balance :
  (ex_unbalance ex_empty = Ok tt ex_st4_erased ∧
   map_at ex_st4_erased ex_map ex_t4_erased 3 ∧
   bst Z.ltb ex_t4_erased ∧ no_red_red ex_t4_erased = true ∧
   black_height ex_t4_erased = None) ∧
  ex_crash ex_empty = Fault.
Proof.
  split_and!.
  - vm_compute. reflexivity.
  - exact ex_st4_erased_map.
  - exact ex_t4_erased_bst.
  - reflexivity.
  - reflexivity.
  - vm_compute. reflexivity.
Qed.

Lemma ex_st_chain_map : map_at ex_st_chain ex_map ex_t_chain 3.
Proof. ex_map_at. Qed.

Lemma ex_t_chain_bst : bst Z.ltb ex_t_chain.
Proof. ex_sorted. Qed.

(** C4: the round trip breaks at an erasure. Insertions and erasures
    through the interface lead to a map that holds 1, 2 and 4 in a search
    tree with a black root; [find] resolves 2 to its node, which holds the
    value inserted with it, and 2 is counted once. The erasure of that
    iterator does not come back: it reads the colour of a sibling through
    a null pointer. No state follows in which [find] could give [end()]
    and [count] 0. *)
Theorem erase_after_find_faults :
  ex_chain ex_empty = Ok tt ex_st_chain ∧
  map_at ex_st_chain ex_map ex_t_chain 3 ∧
  bst Z.ltb ex_t_chain ∧ root_black ex_t_chain ∧
  (height ex_t_chain < ex_fuel)%nat ∧
  find Z.ltb ex_fuel ex_map 2 ex_st_chain
    = Ok (iter_at ex_map (Some 2%positive)) ex_st_chain ∧
  get_value (Some 2%positive) ex_st_chain = Ok 20 ex_st_chain ∧
  count Z.ltb ex_fuel ex_map 2 ex_st_chain = Ok 1 ex_st_chain ∧
  erase ex_fuel ex_map (iter_at ex_map (Some 2%positive)) ex_st_chain = Fault ∧
  ex_erase 2 ex_st_chain = Fault.
Proof.
  split_and!.
  - vm_compute. reflexivity.
  - exact ex_st_chain_map.
  - exact ex_t_chain_bst.
  - reflexivity.
  - vm_compute. lia.
  - vm_compute. reflexivity.
  - vm_compute. reflexivity.
  - vm_compute. reflexivity.
  - vm_compute. reflexivity.
  - vm_compute. reflexivity.
Qed.

(** C2 on the map holding 1, 2, 3 and 4, for the erasure of 1. *)
Lemma erase_black_leaf_skips_fixup_witness :
  map_at ex_st4 ex_map ex_t4 4 ∧ is_Some (black_height ex_t4) ∧
  ∃ st1 st',
    deleteNode_unlink ex_fuel ex_map (Some 1%positive) ex_st4 = Ok (false, None) st1 ∧
    runs_fixDelete false None = false ∧
    map_at st1 ex_map ex_t4_erased 4 ∧
    erase ex_fuel ex_map (iter_at ex_map (Some 1%positive)) ex_st4 = Ok tt st' ∧
    map_at st' ex_map ex_t4_erased (wrap (4 - 1)) ∧
    black_height ex_t4_erased = None.
Proof.
  assert (is_Some (black_height ex_t4)) as Hbh by (by eexists).
  split; [exact ex_st4_map|]. split; [exact Hbh|].
  apply (erase_black_leaf_skips_fixup ex_fuel ex_st4 ex_map
           [FL 2%positive false (2, 20)
               (Nd 3%positive false (3, 30) Leaf (Nd 4%positive true (4, 40) Leaf Leaf))]
           1%positive (1, 10) 4).
  - exact ex_st4_map.
  - discriminate.
  - exact Hbh.
  - vm_compute. lia.
Defined.

Lemma ex_in3 : (2%positive, (2, 20)) ∈ nodes ex_t3.
Proof. vm_compute. set_solver. Qed.

(** C3 on the map holding 1, 2 and 3, for the insertion of (2, 99). *)
Lemma insert_existing_key_witness :
  map_at ex_st3 ex_map ex_t3 3 ∧
  insert Z.ltb ex_fuel ex_map (2, 99) ex_st3
    = Ok (iter_at ex_map (Some 2%positive), false) ex_st3 ∧
  size ex_map ex_st3 = Ok 3 ex_st3 ∧
  get_value (Some 2%positive) ex_st3 = Ok 20 ex_st3.
Proof.
  split; [exact ex_st3_map|].
  apply (insert_existing_key Z.ltb ex_fuel Zltb_swo ex_st3 ex_map ex_t3 3 2 99
           2%positive (2, 20)).
  - exact ex_st3_map.
  - exact ex_t3_bst.
  - vm_compute. lia.
  - exact ex_in3.
  - split; reflexivity.
Defined.

Lemma ex_absent7 : absent Z.ltb 7 ex_t3.
Proof.
  intros l kv Hin [H1 H2]. vm_compute in Hin.
  repeat (apply elem_of_cons in Hin as [[= -> ->]|Hin]; [by vm_compute in H2|]).
  by apply elem_of_nil in Hin.
Qed.

(** X23 on the map holding 1, 2 and 3: [find] of 2, the insertion of
    (7, 70) and the erasure of 2. *)
Lemma find_roundtrip_witness :
  map_at ex_st3 ex_map ex_t3 3 ∧ bst Z.ltb ex_t3 ∧ root_black ex_t3 ∧
  (find Z.ltb ex_fuel ex_map 2 ex_st3 = Ok (iter_at ex_map (Some 2%positive)) ex_st3 ∧
   get_value (Some 2%positive) ex_st3 = Ok 20 ex_st3) ∧
  (∃ st' z,
     insert Z.ltb ex_fuel ex_map (7, 70) ex_st3 = Ok (iter_at ex_map (Some z), true) st' ∧
     find Z.ltb ex_fuel ex_map 7 st' = Ok (iter_at ex_map (Some z)) st' ∧
     get_value (Some z) st' = Ok 70 st') ∧
  (∃ st',
     erase ex_fuel ex_map (iter_at ex_map (Some 2%positive)) ex_st3 = Ok tt st' ∧
     find Z.ltb ex_fuel ex_map 2 st' = end_ ex_map st' ∧
     count Z.ltb ex_fuel ex_map 2 st' = Ok 0 st').
Proof.
  split; [exact ex_st3_map|]. split; [exact ex_t3_bst|]. split; [reflexivity|].
  assert (S (length (nodes ex_t3)) < ex_fuel)%nat as Hf by (vm_compute; lia).
  destruct (find_roundtrip Z.ltb 0 ex_fuel Zltb_swo ex_st3 ex_map ex_t3 3
              ex_st3_map ex_t3_bst eq_refl Hf) as (Hfind & Hins & Hers & _).
  split; [exact (Hfind 2%positive (2, 20) ex_in3)|]. split.
  - destruct (Hins 7 70 ex_absent7) as (st' & t' & z & E & _ & _ & _ & _ & _ & Hf' & Hv).
    exists st', z. split_and!; assumption.
  - destruct (Hers 2%positive (2, 20) ex_in3) as (Hpost & Hret).
    destruct Hret as (st' & E); [by eexists|].
    rewrite E in Hpost. destruct Hpost as (t' & _ & _ & _ & _ & _ & Hf' & Hc).
    exists st'. split_and!; assumption.
Defined.

(** C5 on the map holding 1, 2 and 3. *)
Lemma iteration_in_order_witness :
  map_at ex_st3 ex_map ex_t3 3 ∧
  ∃ it0, begin_ ex_fuel ex_map ex_st3 = Ok it0 ex_st3 ∧
    iter_advance ex_fuel 3 it0 ex_st3 = end_ ex_map ex_st3 ∧
    ascending Z.ltb (keys ex_t3).
Proof.
  split; [exact ex_st3_map|].
  assert (height ex_t3 < ex_fuel)%nat as Hf by (vm_compute; lia).
  destruct (iteration_in_order Z.ltb ex_fuel Zltb_swo ex_st3 ex_map ex_t3
              ex_st3_map ex_t3_bst Hf) as (it0 & Hb & _ & Hs & (n' & Hn & He & _) & _).
  exists it0. split; [exact Hb|]. split; [|exact Hs].
  rewrite (size_spec ex_st3 ex_map ex_t3 3 ex_st3_map) in Hn.
  injection Hn as Hn. assert (n' = 3%nat) as -> by lia. exact He.
Defined.

(** C6 on the map holding 1, 2 and 3, with the absent key 7. *)
Lemma boundary_errors_witness :
  map_at ex_st3 ex_map ex_t3 3 ∧
  (∃ it0, begin_ ex_fuel ex_map ex_st3 = Ok it0 ex_st3 ∧
          iter_decr ex_fuel it0 ex_st3 = Throw invalid_iterator ex_st3) ∧
  at_ Z.ltb ex_fuel ex_map 7 ex_st3 = Throw index_out_of_bound ex_st3.
Proof.
  split; [exact ex_st3_map|].
  assert (height ex_t3 < ex_fuel)%nat as Hf by (vm_compute; lia).
  destruct (boundary_errors Z.ltb ex_fuel ex_st3 ex_map ex_t3 3 ex_st3_map Hf)
    as (Hb & _ & Ha).
  split; [exact Hb|]. apply Ha.
  intros l kv Hin [H1 H2]. vm_compute in Hin.
  repeat (apply elem_of_cons in Hin as [[= -> ->]|Hin]; [by vm_compute in H2|]).
  by apply elem_of_nil in Hin.
Defined.

(** C7 on the map holding 1, 2 and 3, for [m[7]]. *)
Lemma subscript_default_insert_witness :
  map_at ex_st3 ex_map ex_t3 3 ∧ absent Z.ltb 7 ex_t3 ∧
  ∃ st' t' z,
    subscript Z.ltb 0 ex_fuel ex_map 7 ex_st3 = Ok (Some z) st' ∧
    map_at st' ex_map t' (wrap (3 + 1)) ∧
    get_value (Some z) st' = Ok 0 st'.
Proof.
  split; [exact ex_st3_map|]. split; [exact ex_absent7|].
  assert (height ex_t3 < ex_fuel)%nat as Hf by (vm_compute; lia).
  destruct (proj1 (subscript_default_insert Z.ltb 0 ex_fuel Zltb_swo ex_st3 ex_map ex_t3 3 7
              ex_st3_map ex_t3_bst eq_refl Hf) ex_absent7)
    as (st' & t' & z & E & Hm & _ & _ & _ & _ & Hv & _).
  exists st', t', z. split_and!; assumption.
Defined.

(** C8, as the specification has it, fails on an iterator to a node that
    was erased: the iterator is bound to the map and is not past-the-end,
    so it is not rejected, and erasing it again reads the released node. *)
Lemma erase_stale_iterator_faults :
  (map_ctor ex_map;; ex_insert 1 10) ex_empty
    = Ok (iter_at ex_map (Some 1%positive), true) ex_st1 ∧
  erase ex_fuel ex_map (iter_at ex_map (Some 1%positive)) ex_st1 = Ok tt ex_st1_erased ∧
  container (iter_at ex_map (Some 1%positive)) = Some ex_map ∧
  heap ex_st1_erased !! 1%positive = None ∧
  erase (Key := Z) (T := Z) ex_fuel ex_map (iter_at ex_map (Some 1%positive)) ex_st1_erased
    = Fault.
Proof. split_and!; vm_compute; reflexivity. Qed.

(** C9 for the copy construction of a second map from the map holding 1,
    2 and 3, and for the assignment of that map to a map holding 9. *)
Lemma copy_is_deep_witness :
  map_at ex_st_two ex_map ex_t3 3 ∧ map_at ex_st_two ex_map2 ex_t_two 1 ∧
  (∃ st' t', map_copy_ctor ex_fuel ex_map2 ex_map ex_st_two = Ok tt st' ∧
     map_at st' ex_map2 t' 3 ∧ map_at st' ex_map ex_t3 3 ∧ same_shape ex_t3 t' ∧
     entries t' = entries ex_t3 ∧ ldisj (locs ex_t3) (locs t')) ∧
  (∃ st' t', map_assign ex_fuel ex_map2 ex_map ex_st_two = Ok ex_map2 st' ∧
     map_at st' ex_map2 t' 3 ∧ map_at st' ex_map ex_t3 3 ∧ same_shape ex_t3 t' ∧
     ldisj (locs ex_t3) (locs t')).
Proof.
  split; [exact ex_st_two_map|]. split; [exact ex_st_two_map2|].
  assert (height ex_t3 < ex_fuel)%nat as Hf by (vm_compute; lia).
  assert (height ex_t_two < ex_fuel)%nat as Hf2 by (vm_compute; lia).
  assert (ex_map2 ≠ ex_map) as Hne by discriminate.
  assert (ldisj (locs ex_t_two) (locs ex_t3)) as Hdis.
  { intros l Hl Hl'. vm_compute in Hl, Hl'. set_solver. }
  destruct (copy_is_deep ex_fuel ex_st_two ex_map2 ex_map ex_t3 3 ex_st_two_map Hne Hf)
    as (Hctor & Hassign).
  split; [exact Hctor|].
  destruct (Hassign ex_t_two 1 ex_st_two_map2 Hdis Hf2)
    as (st1 & st' & t' & _ & _ & _ & E & Hd & Hs & Hsh & _ & Hdj).
  exists st', t'. split_and!; assumption.
Defined.

(** X1 on the map holding 1, 2 and 3, for the insertion of (4, 40). *)
Lemma insert_keeps_red_black_witness :
  map_at ex_st3 ex_map ex_t3 3 ∧ no_red_red ex_t3 = true ∧
  is_Some (black_height ex_t3) ∧
  ∃ st' t' it inserted sz',
    insert Z.ltb ex_fuel ex_map (4, 40) ex_st3 = Ok (it, inserted) st' ∧
    map_at st' ex_map t' sz' ∧ bst Z.ltb t' ∧ root_black t' ∧
    no_red_red t' = true ∧ is_Some (black_height t').
Proof.
  assert (is_Some (black_height ex_t3)) as Hbh by (by eexists).
  assert (height ex_t3 < ex_fuel)%nat as Hf by (vm_compute; lia).
  split; [exact ex_st3_map|]. split; [reflexivity|]. split; [exact Hbh|].
  exact (insert_keeps_red_black Z.ltb ex_fuel Zltb_swo ex_st3 ex_map ex_t3 3 4 40
           ex_st3_map ex_t3_bst eq_refl eq_refl Hbh Hf).
Defined.

(** X2 on the map holding 1, 2 and 3. *)
Lemma clear_empties_witness :
  map_at ex_st3 ex_map ex_t3 3 ∧
  ∃ st', clear ex_fuel ex_map ex_st3 = Ok tt st' ∧
    map_at st' ex_map Leaf 0 ∧
    heap st' !! 2%positive = None ∧
    size ex_map st' = Ok 0 st'.
Proof.
  split; [exact ex_st3_map|].
  assert (height ex_t3 < ex_fuel)%nat as Hf by (vm_compute; lia).
  destruct (clear_empties ex_fuel ex_st3 ex_map ex_t3 3 ex_st3_map Hf)
    as (st' & E & Hm & Hdead & _ & Hs & _).
  exists st'. split_and!; [exact E|exact Hm| |exact Hs].
  apply Hdead. vm_compute. set_solver.
Defined.

(** X3 for the insertion of 1 to 4 and the erasure of 1 on a new map. *)
Lemma calls_keep_order_witness :
  post ((map_ctor ex_map;;
         run_ops Z.ltb 0 ex_fuel ex_map
           [OpInsert 1 10; OpInsert 2 20; OpInsert 3 30; OpInsert 4 40; OpErase 1])
          ex_empty)
       (λ _ st', ∃ t',
          map_at st' ex_map t' (Z.of_nat (length (nodes t'))) ∧
          ascending Z.ltb (keys t') ∧ root_black t' ∧
          size ex_map st' = Ok (Z.of_nat (length (nodes t'))) st').
Proof.
  apply (calls_keep_order Z.ltb 0 ex_fuel Zltb_swo ex_empty ex_map).
  - vm_compute. lia.
  - reflexivity.
Defined.

(** X4 for the insertion of 1 to 4 on a new map. *)
Lemma insertions_keep_red_black_witness :
  ∃ st' t' sz',
    (map_ctor ex_map;;
     run_ops Z.ltb 0 ex_fuel ex_map
       [OpInsert 1 10; OpInsert 2 20; OpInsert 3 30; OpInsert 4 40]) ex_empty
      = Ok tt st' ∧
    map_at st' ex_map t' sz' ∧ ascending Z.ltb (keys t') ∧
    no_red_red t' = true ∧ is_Some (black_height t') ∧ root_black t'.
Proof.
  apply (insertions_keep_red_black Z.ltb 0 ex_fuel Zltb_swo ex_empty ex_map).
  - vm_compute. lia.
  - repeat constructor.
Defined.
(** * The further properties on concrete maps *)

Lemma ex_t3_height : (height ex_t3 < ex_fuel)%nat.
Proof. vm_compute. lia. Qed.

Lemma ex_t3_black_height : is_Some (black_height ex_t3).
Proof. by eexists. Qed.

Lemma ex_two_disjoint : ldisj (locs ex_t3) (locs ex_t_two).
Proof. intros l Hl Hl'. vm_compute in Hl, Hl'. set_solver. Qed.

(** X5 for the destruction of the map holding 1, 2 and 3 next to the map
    holding 9. *)
Lemma destructor_releases_witness :
  map_at ex_st_two ex_map ex_t3 3 ∧ map_at ex_st_two ex_map2 ex_t_two 1 ∧
  ∃ st', map_dtor ex_fuel ex_map ex_st_two = Ok tt st' ∧
    objs st' !! ex_map = None ∧ heap st' !! 2%positive = None ∧
    map_at st' ex_map2 ex_t_two 1.
Proof.
  split; [exact ex_st_two_map|]. split; [exact ex_st_two_map2|].
  destruct (destructor_releases ex_fuel ex_st_two ex_map ex_t3 3 ex_st_two_map ex_t3_height)
    as (st' & E & Ho & Hdead & _ & Hother).
  exists st'. split_and!; [exact E|exact Ho| |].
  - apply Hdead. vm_compute. set_solver.
  - apply (Hother ex_map2 ex_t_two 1); [discriminate|exact ex_st_two_map2|].
    exact ex_two_disjoint.
Defined.

(** X6 for a copy of the map holding 1, 2 and 3. *)
Lemma copy_then_destroy_witness :
  map_at ex_st3 ex_map ex_t3 3 ∧
  ∃ st1 t', map_copy_ctor ex_fuel ex_map2 ex_map ex_st3 = Ok tt st1 ∧
    map_at st1 ex_map2 t' 3 ∧
    map_dtor ex_fuel ex_map2 st1 = Ok tt ex_st3.
Proof.
  split; [exact ex_st3_map|].
  destruct (copy_then_destroy ex_fuel ex_st3 ex_map2 ex_map ex_t3 3 ex_st3_map eq_refl
              ex_t3_height) as (st1 & t' & E & Hm & _ & Ed).
  exists st1, t'. split_and!; assumption.
Defined.

Lemma ex_loc2 : 2%positive ∈ locs ex_t3.
Proof. vm_compute. set_solver. Qed.

(** X7 on the map holding 1, 2 and 3, for the iterator to 2. *)
Lemma increment_decrement_roundtrip_witness :
  map_at ex_st3 ex_map ex_t3 3 ∧
  (∃ it', iter_incr ex_fuel (iter_at ex_map (Some 2%positive)) ex_st3 = Ok it' ex_st3 ∧
          iter_decr ex_fuel it' ex_st3 = Ok (iter_at ex_map (Some 2%positive)) ex_st3) ∧
  (∃ it', iter_decr ex_fuel (iter_at ex_map (Some 2%positive)) ex_st3 = Ok it' ex_st3 ∧
          iter_incr ex_fuel it' ex_st3 = Ok (iter_at ex_map (Some 2%positive)) ex_st3).
Proof.
  split; [exact ex_st3_map|].
  destruct (increment_decrement_roundtrip ex_fuel ex_st3 ex_map ex_t3 3 2%positive
              ex_st3_map ex_t3_height ex_loc2) as ((it' & E1 & E2 & _) & Hback & _).
  split; [by exists it'|]. apply Hback. vm_compute. discriminate.
Defined.

(** X8 on the map holding 1, 2 and 3. *)
Lemma reverse_iteration_witness :
  map_at ex_st3 ex_map ex_t3 3 ∧
  iter_retreat ex_fuel 1 (iter_at ex_map None) ex_st3
    = Ok (iter_at ex_map (Some 3%positive)) ex_st3 ∧
  iter_retreat ex_fuel 3 (iter_at ex_map None) ex_st3
    = Ok (iter_at ex_map (Some 1%positive)) ex_st3 ∧
  iter_retreat ex_fuel 4 (iter_at ex_map None) ex_st3 = Throw invalid_iterator ex_st3.
Proof.
  split; [exact ex_st3_map|].
  destruct (reverse_iteration ex_fuel ex_st3 ex_map ex_t3 3 ex_st3_map ex_t3_height)
    as (Hstep & Hthrow).
  split_and!.
  - exact (proj1 (Hstep 0%nat 3%positive (3, 30) eq_refl)).
  - exact (proj1 (Hstep 2%nat 1%positive (1, 10) eq_refl)).
  - exact Hthrow.
Defined.

(** X9 on the map holding 1, 2 and 3, for the keys 2 and 7. *)
Lemma dereference_found_witness :
  map_at ex_st3 ex_map ex_t3 3 ∧
  (let* it := find Z.ltb ex_fuel ex_map 2 in iter_deref it) ex_st3
    = Ok (Some 2%positive) ex_st3 ∧
  get_value (Some 2%positive) ex_st3 = Ok 20 ex_st3 ∧
  (let* it := find Z.ltb ex_fuel ex_map 7 in iter_deref it) ex_st3
    = Throw invalid_iterator ex_st3.
Proof.
  split; [exact ex_st3_map|].
  destruct (dereference_found Z.ltb ex_fuel Zltb_swo ex_st3 ex_map ex_t3 3
              ex_st3_map ex_t3_bst ex_t3_height) as (Hin & Habs & _).
  destruct (Hin 2 2%positive (2, 20) ex_in3 (conj eq_refl eq_refl)) as (E1 & _ & _ & E2).
  split_and!; [exact E1|exact E2|]. exact (proj1 (Habs 7 ex_absent7)).
Defined.

(** X10 on the map holding 1, 2 and 3, for the key 2. *)
Lemma count_find_at_agree_witness :
  map_at ex_st3 ex_map ex_t3 3 ∧
  ∃ c, count Z.ltb ex_fuel ex_map 2 ex_st3 = Ok c ex_st3 ∧ (c = 0 ∨ c = 1) ∧
    (c = 1 ↔ find Z.ltb ex_fuel ex_map 2 ex_st3 ≠ end_ ex_map ex_st3) ∧
    (c = 0 ↔ at_ Z.ltb ex_fuel ex_map 2 ex_st3 = Throw index_out_of_bound ex_st3).
Proof.
  split; [exact ex_st3_map|].
  destruct (count_find_at_agree Z.ltb ex_fuel Zltb_swo ex_st3 ex_map ex_t3 3 2
              ex_st3_map ex_t3_bst ex_t3_height) as (c & E & H01 & _ & Hfind & _ & Hat).
  exists c. split_and!; assumption.
Defined.

(** X11 on the map holding 1, 2 and 3, for the rotation at the root. *)
Lemma rotations_keep_order_witness :
  map_at ex_st3 ex_map ex_t3 3 ∧
  ∃ st1 st2,
    leftRotate ex_map (Some 2%positive) ex_st3 = Ok tt st1 ∧
    map_at st1 ex_map
      (Nd 3%positive true (3, 30)
         (Nd 2%positive false (2, 20) (Nd 1%positive true (1, 10) Leaf Leaf) Leaf) Leaf) 3 ∧
    rightRotate ex_map (Some 3%positive) st1 = Ok tt st2 ∧
    map_at st2 ex_map ex_t3 3.
Proof.
  split; [exact ex_st3_map|].
  destruct (rotations_keep_order Z.ltb ex_st3 ex_map [] 2%positive false (2, 20)
              (Nd 1%positive true (1, 10) Leaf Leaf) 3%positive true (3, 30) Leaf Leaf 3
              ex_st3_map) as (st1 & st2 & E1 & Hm1 & _ & _ & E2 & Hm2).
  exists st1, st2. split_and!; assumption.
Defined.

(** X12 on the map holding 1, 2 and 3. *)
Lemma empty_iff_no_entries_witness :
  map_at ex_st3 ex_map ex_t3 3 ∧
  ∃ b it0 it1,
    empty ex_map ex_st3 = Ok b ex_st3 ∧ begin_ ex_fuel ex_map ex_st3 = Ok it0 ex_st3 ∧
    end_ ex_map ex_st3 = Ok it1 ex_st3 ∧
    (b = true ↔ iter_eqb it0 it1 = true).
Proof.
  split; [exact ex_st3_map|].
  destruct (empty_iff_no_entries ex_fuel ex_st3 ex_map ex_t3 ex_st3_map ex_t3_height)
    as (b & it0 & it1 & E1 & E2 & E3 & _ & H & _).
  exists b, it0, it1. split_and!; assumption.
Defined.

(** X13 on the map holding 1, 2 and 3, for the erasure of the red leaf 1. *)
Lemma erase_keeps_red_black_witness :
  map_at ex_st3 ex_map ex_t3 3 ∧ no_red_red ex_t3 = true ∧
  is_Some (black_height ex_t3) ∧
  ∃ st' t',
    erase ex_fuel ex_map (iter_at ex_map (Some 1%positive)) ex_st3 = Ok tt st' ∧
    map_at st' ex_map t' (wrap (3 - 1)) ∧ bst Z.ltb t' ∧ root_black t' ∧
    no_red_red t' = true ∧ is_Some (black_height t').
Proof.
  split; [exact ex_st3_map|]. split; [reflexivity|]. split; [exact ex_t3_black_height|].
  destruct (erase_keeps_red_black Z.ltb ex_fuel ex_st3 ex_map
              [FL 2%positive false (2, 20) (Nd 3%positive true (3, 30) Leaf Leaf)]
              1%positive true (1, 10) Leaf Leaf 3
              ex_st3_map ex_t3_bst eq_refl eq_refl ex_t3_black_height ex_t3_height
              (or_introl eq_refl))
    as (st' & t' & E & Hm & _ & _ & Hbst & Hrb & Hnrr & Hbh).
  exists st', t'. split_and!; assumption.
Defined.

Lemma ex_t4_height : (height ex_t4 < ex_fuel)%nat.
Proof. vm_compute. lia. Qed.

(** X14 on the map holding 1, 2, 3 and 4, for the erasure of 3, a black
    node with a red child. *)
Lemma erase_never_rebalances_witness :
  map_at ex_st4 ex_map ex_t4 4 ∧ is_Some (black_height ex_t4) ∧
  ∃ st1 yoc x,
    deleteNode_unlink ex_fuel ex_map (Some 3%positive) ex_st4 = Ok (yoc, x) st1 ∧
    (x = None ∨ fixDelete_loop ex_map ex_fuel x st1 = Ok x st1) ∧
    erase ex_fuel ex_map (iter_at ex_map (Some 3%positive)) ex_st4
    = ((if runs_fixDelete yoc x then set_color x false else ret tt);;
       free (Some 3%positive);; decr_size ex_map) st1.
Proof.
  assert (is_Some (black_height ex_t4)) as Hbh by (by eexists).
  split; [exact ex_st4_map|]. split; [exact Hbh|].
  exact (erase_never_rebalances ex_fuel ex_st4 ex_map
           [FR 2%positive false (2, 20) (Nd 1%positive false (1, 10) Leaf Leaf)]
           3%positive false (3, 30) Leaf (Nd 4%positive true (4, 40) Leaf Leaf) 4
           ex_st4_map Hbh ex_t4_height).
Defined.

(** X15 on the map holding 1, 2, 3 and 4: the erasure of the black leaf 1
    and the erasure of the red leaf 4. *)
Lemma erase_balanced_iff_witness :
  map_at ex_st4 ex_map ex_t4 4 ∧ no_red_red ex_t4 = true ∧
  is_Some (black_height ex_t4) ∧
  (∃ st' t',
     erase ex_fuel ex_map (iter_at ex_map (Some 1%positive)) ex_st4 = Ok tt st' ∧
     map_at st' ex_map t' (wrap (4 - 1)) ∧ ¬ is_Some (black_height t')) ∧
  (∃ st' t',
     erase ex_fuel ex_map (iter_at ex_map (Some 4%positive)) ex_st4 = Ok tt st' ∧
     map_at st' ex_map t' (wrap (4 - 1)) ∧ is_Some (black_height t')).
Proof.
  assert (is_Some (black_height ex_t4)) as Hbh by (by eexists).
  split; [exact ex_st4_map|]. split; [reflexivity|]. split; [exact Hbh|]. split.
  - destruct (erase_balanced_iff ex_fuel ex_st4 ex_map
                [FL 2%positive false (2, 20)
                    (Nd 3%positive false (3, 30) Leaf (Nd 4%positive true (4, 40) Leaf Leaf))]
                1%positive false (1, 10) Leaf Leaf 4
                ex_st4_map eq_refl Hbh ex_t4_height) as (st' & t' & E & Hm & _ & Hiff).
    exists st', t'. split_and!; [exact E|exact Hm|].
    intros H. apply Hiff in H. cbn in H. by destruct H as [|[|]].
  - destruct (erase_balanced_iff ex_fuel ex_st4 ex_map
                [FR 3%positive false (3, 30) Leaf;
                 FR 2%positive false (2, 20) (Nd 1%positive false (1, 10) Leaf Leaf)]
                4%positive true (4, 40) Leaf Leaf 4
                ex_st4_map eq_refl Hbh ex_t4_height) as (st' & t' & E & Hm & _ & Hiff).
    exists st', t'. split_and!; [exact E|exact Hm|]. apply Hiff. by left.
Defined.

(** X16 on the chain of three black nodes that insertions and erasures
    leave, for the erasure of 2. *)
Lemma erase_faults_without_sibling_witness :
  ex_chain ex_empty = Ok tt ex_st_chain ∧
  map_at ex_st_chain ex_map ex_t_chain 3 ∧
  erase ex_fuel ex_map (iter_at ex_map (Some 2%positive)) ex_st_chain = Fault.
Proof.
  split; [vm_compute; reflexivity|]. split; [exact ex_st_chain_map|].
  assert (height ex_t_chain < ex_fuel)%nat as Hf by (vm_compute; lia).
  destruct (erase_faults_without_sibling ex_fuel ex_st_chain ex_map
              [FL 4%positive false (4, 40) Leaf] 2%positive false (2, 20)
              (Nd 1%positive false (1, 10) Leaf Leaf) Leaf 3
              (FL 4%positive false (4, 40) Leaf) [] 1%positive (1, 10) Leaf Leaf
              ex_st_chain_map Hf eq_refl eq_refl) as (st1 & _ & _ & _ & E).
  exact E.
Defined.

(** X17 on the map holding 1, 2 and 3, for the key 3. *)
Lemma lookup_is_logarithmic_witness :
  map_at ex_st3 ex_map ex_t3 3 ∧
  (height ex_t3 ≤ 4)%nat ∧
  find Z.ltb 5 ex_map 3 ex_st3 = Ok (iter_at ex_map (Some 3%positive)) ex_st3.
Proof.
  split; [exact ex_st3_map|].
  destruct (lookup_is_logarithmic Z.ltb ex_st3 ex_map ex_t3 3 3
              ex_st3_map eq_refl eq_refl ex_t3_black_height) as (Hh & _ & Hfind & _).
  split; [exact Hh|exact Hfind].
Defined.

(** X18 for the copy construction of a second map from the map holding
    1, 2 and 3, and the key 2. *)
Lemma copy_same_lookups_witness :
  map_at ex_st3 ex_map ex_t3 3 ∧
  ∃ st', map_copy_ctor ex_fuel ex_map2 ex_map ex_st3 = Ok tt st' ∧
    at_value Z.ltb ex_fuel ex_map 2 st' = Ok 20 st' ∧
    at_value Z.ltb ex_fuel ex_map2 2 st' = Ok 20 st'.
Proof.
  split; [exact ex_st3_map|].
  assert (ex_map2 ≠ ex_map) as Hne by discriminate.
  destruct (copy_same_lookups Z.ltb ex_fuel Zltb_swo ex_st3 ex_map2 ex_map ex_t3 3
              ex_st3_map ex_t3_bst Hne ex_t3_height) as ((st' & E & Hsame) & _).
  exists st'. split; [exact E|].
  destruct (Hsame 2) as [(v & E0 & E1 & E2)|(E0 & _)]; [|vm_compute in E0; discriminate E0].
  assert (v = 20) as -> by (vm_compute in E0; congruence). by split.
Defined.

(** X19 on the map holding 1, 2 and 3, for the key 7. *)
Lemma insert_erase_roundtrip_witness :
  map_at ex_st3 ex_map ex_t3 3 ∧ absent Z.ltb 7 ex_t3 ∧
  ∃ st1 st2 z t2,
    insert Z.ltb ex_fuel ex_map (7, 70) ex_st3 = Ok (iter_at ex_map (Some z), true) st1 ∧
    erase ex_fuel ex_map (iter_at ex_map (Some z)) st1 = Ok tt st2 ∧
    map_at st2 ex_map t2 3 ∧ nodes t2 = nodes ex_t3.
Proof.
  split; [exact ex_st3_map|]. split; [exact ex_absent7|].
  assert (S (length (nodes ex_t3)) < ex_fuel)%nat as Hf by (vm_compute; lia).
  assert (0 ≤ 3 < size_max) as Hsz by (unfold size_max; lia).
  destruct (insert_erase_roundtrip Z.ltb ex_fuel Zltb_swo ex_st3 ex_map ex_t3 3 7 70
              ex_st3_map ex_t3_bst eq_refl eq_refl ex_t3_black_height ex_absent7 Hf Hsz)
    as (st1 & st2 & z & t2 & E1 & E2 & Hm & Hn & _).
  exists st1, st2, z, t2. split_and!; assumption.
Defined.

(** X20 on the map holding 1, 2 and 3, for [m[7] = 70] and the key 2. *)
Lemma assign_then_read_witness :
  map_at ex_st3 ex_map ex_t3 3 ∧
  ∃ st',
    subscript_assign Z.ltb 0 ex_fuel ex_map 7 70 ex_st3 = Ok tt st' ∧
    at_value Z.ltb ex_fuel ex_map 7 st' = Ok 70 st' ∧
    at_value Z.ltb ex_fuel ex_map 2 st' = Ok 20 st'.
Proof.
  split; [exact ex_st3_map|].
  assert (S (length (nodes ex_t3)) < ex_fuel)%nat as Hf by (vm_compute; lia).
  destruct (assign_then_read Z.ltb 0 ex_fuel Zltb_swo ex_st3 ex_map ex_t3 3 7 70
              ex_st3_map ex_t3_bst eq_refl Hf)
    as ((st' & t' & sz' & E & _ & _ & Hv & Hothers & _) & _).
  exists st'. split_and!; [exact E|exact Hv|].
  destruct (Hothers 2) as [(v' & E0 & E1)|(E0 & _)].
  - intros [_ H]. vm_compute in H. discriminate H.
  - assert (v' = 20) as -> by (vm_compute in E0; congruence). exact E1.
  - vm_compute in E0. discriminate E0.
Defined.

(** X22 for an insertion into and an erasure from the map holding 1, 2
    and 3, next to the map holding 9. *)
Lemma calls_leave_other_maps_witness :
  map_at ex_st_two ex_map ex_t3 3 ∧ map_at ex_st_two ex_map2 ex_t_two 1 ∧
  ∃ st',
    run_ops Z.ltb 0 ex_fuel ex_map [OpInsert 7 70; OpErase 1] ex_st_two = Ok tt st' ∧
    map_at st' ex_map2 ex_t_two 1 ∧
    heap st' !! 4%positive = heap ex_st_two !! 4%positive.
Proof.
  split; [exact ex_st_two_map|]. split; [exact ex_st_two_map2|].
  assert (∃ st', run_ops Z.ltb 0 ex_fuel ex_map [OpInsert 7 70; OpErase 1] ex_st_two
                 = Ok tt st') as [st' E].
  { eexists. vm_compute. reflexivity. }
  pose proof (calls_leave_other_maps Z.ltb 0 ex_fuel ex_st_two ex_map ex_t3 3
                [OpInsert 7 70; OpErase 1] ex_st_two_map) as H.
  rewrite E in H. destruct H as [Hkeep Hother].
  exists st'. split_and!; [exact E| |].
  - apply (Hother ex_map2 ex_t_two 1); [discriminate|exact ex_st_two_map2|].
    exact ex_two_disjoint.
  - apply Hkeep; [by eexists|]. vm_compute. set_solver.
Defined.
